(* ===== verification/_CoqProject ===== *)
-Q . S2P
Prelude.v
CLib.v
Ini.v
IniSpec.v
IniRefine.v
IniReader.v
IniLoop.v
IniPrint.v
IniProps.v
IniConf.v
IniConfSpec.v
IniConfRefine.v
IniConfLoop.v
IniConfProps.v
IniShrink.v
Errno.v
FuseOp.v
Heap.v
ErrInjConf.v
ConfSpec.v
ConfRefine.v
World.v
ErrInj.v
ConfLoad.v
ErrInjSpec.v
ErrInjRefine.v
TestEnv.v
ConfProps.v
ErrInjProps.v
Ops.v
Handlers.v
HandlerLemmas.v
HandlerProps.v
Scenario.v
MainProg.v
MainProps.v
Reload.v
MainArgs.v
Concur.v
ConcurProps.v
Atomic.v
Afs.v
AfsProps.v
