(* ===== verification/Prelude.v ===== *)
(** * unreliablefs: a verification library for a fault-injecting file system

    unreliablefs (src/unreliablefs/) is a FUSE file system in C that passes
    operations through to a directory and injects faults into them, as a
    configuration file inside the file system says.  This library models the
    program in Rocq, as executable functions, and proves what it does.

    ** The program

    - conf.c, conf.h: an INI parser (inih) that calls a handler for every
      option of a file or of a string;
    - unreliablefs_errinj.c, unreliablefs_errinj.h: the configuration, a queue
      of injections in the heap that the parser's handler builds, and
      [error_inject], which every operation calls first: it reloads the
      configuration when the operation is on the configuration file, else it
      lets every injection of the queue act (no-op, random errno, SIGKILL to the
      caller, delay) when its draw of [rand] and its two regular expressions say
      so;
    - unreliablefs_errno_<platform>.h: for each operation the errors to choose
      from;
    - unreliablefs_ops.c, unreliablefs_ops.h: the FUSE handlers: [error_inject],
      then the system calls of the operation;
    - unreliablefs.c: [main], the option table, the global [conf], the table of
      handlers;
    - unreliable_afs_client.cc, unreliable_afs_server.cc: two programs that make
      a directory on a remote machine through gRPC; they share nothing with the
      file system.

    ** The model

    C code is a function of its state: [outcome A] is a value, a [fault] (an
    undefined behaviour that the code can reach) or lack of fuel; [M W A] is
    code over a state [W].  Integers are [Z] with the conversions of C written
    out (CLib); pointers into a buffer are offsets, and every access is
    checked; heap blocks live in a finite map and allocation can fail (Heap).
    The kernel, the regular expressions and [rand] are parameters, a class
    [Env] with its documented laws [EnvSpec] (World); a system call is appended
    to a trace.  libfuse is a parameter of [main]: what the theorem on command
    lines relies on is the record [FuseOptSpec] (MainArgs).  gRPC is a parameter
    of the two remote programs ([Stub], [BuildAndStart] in Afs), with the law
    that a call is executed at most once as the class [Transport] (AfsProps).

    Files, in the order of their dependencies:
    - Prelude: outcomes, the state monad, tactics and list lemmas;
    - CLib: characters, C strings, integer conversions, [strtol], [atoi];
    - Ini (conf.c), IniSpec (its contract: a line has a meaning [parse_line], a
      file the entries [entries]), IniRefine (the pointer code on a line buffer
      has this meaning), IniReader (the interface of readers, for [fgets] and
      [ini_reader_string]), IniLoop (the loop over the lines), IniPrint (a
      printer of documents), IniProps (the theorems);
    - IniConf (conf.c for any values of the macros of conf.h, a record
      [ini_options]; [conf_h_defaults] are those of the program), IniConfSpec (the
      contract: [parse_line_o], the growth [grow_line] of the line buffer),
      IniConfRefine (lines), IniConfLoop (growth and loop), IniConfProps, IniShrink
      (the configurations the contract leaves out: a growing buffer that starts
      beyond its limit);
    - Errno (the tables), FuseOp (operations and builds: the platform and the
      HAVE_* macros);
    - Heap, ErrInjConf ([conf_option_handler], [config_delete]), ConfSpec (what a
      configuration is, and [queue_rep]: a heap holds it), ConfRefine (the code
      implements ConfSpec), World, ErrInj ([config_init], [error_inject]),
      ConfLoad ([config_of]: the meaning of a file; [config_init] loads it),
      TestEnv (a concrete kernel to evaluate with), ConfProps (the theorems);
    - ErrInjSpec (the contract [spec_loop] of [error_inject], [world_rep]),
      ErrInjRefine, ErrInjProps;
    - Ops (the handlers), Handlers (requests, their dispatch, the contract
      [single] of requests that are one call), HandlerLemmas, HandlerProps;
    - Scenario (from the text of the configuration file to the next request);
    - MainProg ([main], [unreliablefs_opts], [unreliablefs_opt_proc]), MainProps,
      Reload (requests that keep the configuration; the root as the base
      directory), MainArgs (the command line: what each argument does is
      [arg_step], the option table is shown to give it this meaning);
    - Concur ([error_inject] cut into the actions of a thread, the step relation
      of several threads), ConcurProps, Atomic (the critical section is atomic);
    - Afs (the remote mkdir), AfsProps.

    ** The theorems

    - The parser is its contract for every input, handler and initial buffer
      contents; so it terminates, stays in its buffers, reports the first line
      in error, and reads back what the printer of the documented format writes.
      The two entry points agree.
    - So is the parser of every other configuration of conf.h whose buffer sizes
      are at least 2 and whose growing buffer, if it has one, starts within its
      limit ([options_ok]); beyond the limit it reads past the buffer
      (IniShrink).  The default configuration is an instance.  Within the limit,
      and for files without NUL bytes if the buffer grows, the heap buffer is
      freed exactly once whatever allocations fail, and while memory lasts its
      place makes no difference to the result; the stop at the first error then
      cuts the run and nothing else.  Names without a value are lost behind an
      error.
    - The handler builds in the heap the configuration a file means, and
      [config_init] returns it for any contents of the file: the last value of
      each option of each type of injection.  It leaks nothing and touches no
      other block, even when allocations fail; [config_delete] frees exactly the
      queue.  [config_init] loses one block when the file cannot be
      opened.
    - [error_inject] is its contract; the mutex is released on every path; the
      reload replaces the configuration; results are 0, 999 or an error of the
      operation's table; an entry injects for min(p,100)+1 of the 101
      remainders of its draw, so also at probability 0; the
      errno tables are read one element past their end for one draw in
      length+1, on macOS always for directories.  A file with one section does to
      the next request what its options say.
    - Handlers return injected results untouched by the operation, and otherwise
      pass a request that is one call through to it, with its count or 0 for an
      answer, except [getxattr], which hides the size; directories are read to
      their end and closed; descriptors are given back; [readlink], [fsyncdir], [fallocate] and
      [getxattr] have the faults stated in their theorems.
    - Any sequence of requests, and a whole run of [main], keeps the state well
      formed: no double free, no use after free, no self-deadlock.  Command
      lines of the options of the table, options for FUSE, mount options and
      mountpoints have their documented meaning.
      Only a request that gives [error_inject] the text of the configuration's
      path changes the configuration; with the root as the base directory this
      text has two slashes, and only the target of a symbolic link can be it.
    - So does any interleaving of several threads in [error_inject]: one at a
      time is in the critical section, which it leaves after a bounded number of
      its own actions, and the threads never all wait.  What a thread returns is
      what [error_inject] gives when it runs alone at the moment of the lock, except
      that a reload reads the file at a later moment of the critical section.
    - The remote mkdir makes the call of its request at most once, and any answer
      but -1 is the call's; the option of both programs is found anywhere in the
      argument.

    ** Bounds and fuel

    The parser's loop has one more step than the input has bytes, each call of
    the reader takes at least one; the theorems show that this is enough.  The
    loop that grows the line buffer has more steps than doublings are possible
    below the limit.  With a growing buffer the input must hold no NUL byte: the
    code finds the end of a piece with [strlen].  A
    configuration file has at most INT_MAX bytes ([conf_files_fit]), so that the
    line counter does not overflow.  The loop of [config_delete] has one more
    step than the queue has entries.  [readdir] is given fuel, and is shown to
    end with it when it is more than the number of entries of the directory
    stream ([dir_stream]); theorems about whole runs allow it to run out.

    ** Not modelled

    Messages to stdout and stderr; libfuse's option parser and request loop, the
    generated gRPC code, [regcomp], [regexec] and [regfree] (parameters;
    [regfree] is assumed to be harmless also after a failed [regcomp], where POSIX
    leaves it undefined: [regfree_ok] of [EnvSpec]); that a build compiles
    ([buildable] says which have their errno tables); data races on
    memory outside [conf] and its queue, and the interleaving of a handler's own
    system calls with each other (the concurrent model takes each of them as one
    step that can change the kernel's state in any way, and the calls of
    [config_init] as one step of the reload); on the command line [--], [-o] with
    its list in the next argument, and escapes in a list; a file is read whole
    when it is opened; tests/ (fsx.c is a third-party exerciser, the Python
    tests drive a mounted file system); the build files and manual pages. *)
From stdpp Require Import base list numbers gmap strings.

(** ** Outcomes of C code *)

(** What can go wrong when C code runs: the undefined behaviours (and the
    self-deadlock) that the translated code can reach. *)
Inductive fault :=
  | oob           (** access outside an object *)
  | null_deref    (** dereference of a null pointer *)
  | bad_deref     (** dereference of a dead or wrongly typed block *)
  | bad_free      (** free of a pointer that is not a live block *)
  | int_overflow  (** signed overflow *)
  | deadlock      (** lock of a mutex the thread already holds *)
  | unbuildable.  (** code that the build does not compile *)

#[global] Instance fault_eq_dec : EqDecision fault.
Proof. solve_decision. Defined.

(** [NoFuel] is the value of a loop whose fuel ran out; every loop of the
    development has a theorem that the fuel given is enough. *)
Inductive outcome (A : Type) :=
  | Ok (a : A)
  | Fault (f : fault)
  | NoFuel.
Arguments Ok {A} a.
Arguments Fault {A} f.
Arguments NoFuel {A}.

Definition obind {A B} (c : outcome A) (k : A → outcome B) : outcome B :=
  match c with
  | Ok a => k a
  | Fault f => Fault f
  | NoFuel => NoFuel
  end.

(** State-passing C code over a state [W]. *)
Definition M (W A : Type) : Type := W → outcome (A * W).

Definition retM {W A} (a : A) : M W A := λ w, Ok (a, w).
Definition bindM {W A B} (c : M W A) (k : A → M W B) : M W B :=
  λ w, obind (c w) (λ '(a, w'), k a w').
Definition lift {W A} (c : outcome A) : M W A := λ w, obind c (λ a, Ok (a, w)).
Definition fault_ {W A} (f : fault) : M W A := λ _, Fault f.
Definition nofuel {W A} : M W A := λ _, NoFuel.
Definition gets {W A} (f : W → A) : M W A := λ w, Ok (f w, w).
Definition modify {W} (f : W → W) : M W unit := λ w, Ok (tt, f w).

Declare Scope c_scope.
Delimit Scope c_scope with c.
Notation "'let*' x := c 'in' k" := (obind c (λ x, k))
  (at level 10, x name, c at level 100, k at level 200,
   format "'[v' 'let*'  x  :=  c  'in' '/' k ']'") : c_scope.
Notation "'let!' x := c 'in' k" := (bindM c (λ x, k))
  (at level 10, x name, c at level 100, k at level 200,
   format "'[v' 'let!'  x  :=  c  'in' '/' k ']'") : c_scope.
Notation "'do!' c 'in' k" := (bindM c (λ _, k))
  (at level 10, c at level 100, k at level 200,
   format "'[v' 'do!'  c  'in' '/' k ']'") : c_scope.
#[global] Open Scope c_scope.

(** ** Lemmas on outcomes *)

Lemma obind_Ok {A B} (a : A) (k : A → outcome B) : obind (Ok a) k = k a.
Proof. done. Qed.

Lemma obind_assoc {A B C} (c : outcome A) (k : A → outcome B) (k' : B → outcome C) :
  obind (obind c k) k' = obind c (λ a, obind (k a) k').
Proof. by destruct c. Qed.

Lemma obind_Ok_inv {A B} (c : outcome A) (k : A → outcome B) b :
  obind c k = Ok b → ∃ a, c = Ok a ∧ k a = Ok b.
Proof. destruct c; naive_solver. Qed.

Lemma obind_ext {A B} (c : outcome A) (k k' : A → outcome B) :
  (∀ a, k a = k' a) → obind c k = obind c k'.
Proof. intros H; destruct c; simpl; auto. Qed.

Lemma bindM_retM {W A B} (a : A) (k : A → M W B) w : bindM (retM a) k w = k a w.
Proof. done. Qed.

Lemma bindM_assoc {W A B C} (c : M W A) (k : A → M W B) (k' : B → M W C) w :
  bindM (bindM c k) k' w = bindM c (λ a, bindM (k a) k') w.
Proof. unfold bindM. rewrite obind_assoc. by destruct (c w) as [[]| |]. Qed.

Lemma bindM_lift_Ok {W A B} (c : outcome A) a (k : A → M W B) w :
  c = Ok a → bindM (lift c) k w = k a w.
Proof. by intros ->. Qed.

Lemma bindM_eq {W A B} (c : M W A) a w w' (k : A → M W B) :
  c w = Ok (a, w') → bindM c k w = k a w'.
Proof. unfold bindM. by intros ->. Qed.

Lemma bindM_Ok_inv {W A B} (c : M W A) (k : A → M W B) w b w'' :
  bindM c k w = Ok (b, w'') → ∃ a w', c w = Ok (a, w') ∧ k a w' = Ok (b, w'').
Proof. unfold bindM. destruct (c w) as [[a w']| |]; naive_solver. Qed.




(** ** Tactics *)

(** Split every bind that is known to have succeeded. *)
Ltac inv_ok :=
  repeat match goal with
  | H : obind _ _ = Ok _ |- _ =>
      apply obind_Ok_inv in H as (? & ? & H)
  | H : bindM _ _ _ = Ok _ |- _ =>
      apply bindM_Ok_inv in H as (? & ? & ? & H)
  | H : Ok _ = Ok _ |- _ => injection H as H
  | H : Fault _ = Ok _ |- _ => discriminate H
  | H : NoFuel = Ok _ |- _ => discriminate H
  | H : retM _ _ = Ok _ |- _ => unfold retM in H
  | H : (_, _) = (_, _) |- _ => injection H as ? ?
  end; subst.

(** Case on the innermost scrutinee of the goal. *)
Ltac case_goal :=
  match goal with
  | |- context [match ?x with _ => _ end] =>
      lazymatch x with
      | context [match _ with _ => _ end] => fail
      | _ => destruct x eqn:?
      end
  end.

(** Lengths of concatenations, then arithmetic. *)
Ltac len := repeat progress (rewrite ?length_app, ?length_drop, ?length_take, ?length_replicate in *; simpl length in *); lia.

(** One step of straight-line monadic code whose result is known. *)
Ltac step_with H := erewrite bindM_lift_Ok by (eapply H).

(** ** List lemmas shared by the components *)

Lemma drop_cons_lookup {A} (l : list A) i x r :
  drop i l = x :: r → l !! i = Some x ∧ drop (S i) l = r.
Proof.
  intros H. split.
  - rewrite <- (Nat.add_0_r i), <- lookup_drop, H. done.
  - rewrite <- Nat.add_1_r, <- drop_drop, H. done.
Qed.

Lemma drop_insert_app {A} (l : list A) i s y r x :
  drop i l = s ++ y :: r →
  drop i (<[i + length s := x]> l) = s ++ x :: r.
Proof.
  intros H. rewrite drop_insert_ge by lia.
  replace (i + length s - i) with (length s + 0) by lia.
  rewrite H, insert_app_r. done.
Qed.

Lemma take_app_exact {A} (l k : list A) n : n = length l → take n (l ++ k) = l.
Proof. intros ->. apply take_app_length. Qed.

Lemma drop_app_exact {A} (l k : list A) n : n = length l → drop n (l ++ k) = k.
Proof. intros ->. apply drop_app_length. Qed.

Lemma list_filter_ext {A} (P Q : A → Prop) `{∀ x, Decision (P x), ∀ x, Decision (Q x)} (l : list A) :
  (∀ x, x ∈ l → P x ↔ Q x) → filter P l = filter Q l.
Proof.
  induction l as [|x l IH]; intros Heq; [done|].
  rewrite !filter_cons. rewrite IH by (intros y Hy; apply Heq; by right).
  apply decide_ext, Heq. by left.
Qed.
