(* ===== verification/CLib.v ===== *)
(** * The C language and library layer

    Characters, NUL-terminated strings, bounded buffers, integer conversions
    and the library functions the sources call.  A [char*] into a buffer is
    modelled by the buffer and an offset, or, for code that only reads, by
    the suffix of the buffer that starts at the pointer; reading past the end
    of the buffer is the fault [oob]. *)
From stdpp Require Import base list numbers gmap strings.
From Stdlib Require Import Ascii ZArith.
From S2P Require Import Prelude.

(** ** Characters *)

Definition NUL : ascii := "000"%char.
Definition LF : ascii := "010"%char.

(** [isspace] of the "C" locale: HT, LF, VT, FF, CR and the space. *)
Definition isspace (c : ascii) : bool :=
  let n := nat_of_ascii c in
  (bool_decide (9 ≤ n) && bool_decide (n ≤ 13)) || bool_decide (n = 32).

(** A string constant of the source as its characters. *)
Abbreviation str := String.list_ascii_of_string.

(** The contents of a C string: no NUL inside. *)
Definition nul_free (s : list ascii) : Prop := NUL ∉ s.

(** ** Buffers *)

(** [*(buf + i)] *)
Definition load (buf : list ascii) (i : nat) : outcome ascii :=
  match buf !! i with Some c => Ok c | None => Fault oob end.

(** [*(buf + i) = c] *)
Definition store (buf : list ascii) (i : nat) (c : ascii) : outcome (list ascii) :=
  if decide (i < length buf) then Ok (<[i := c]> buf) else Fault oob.

(** [strlen] on the suffix that starts at the pointer. *)
Fixpoint strlen (s : list ascii) : outcome nat :=
  match s with
  | [] => Fault oob
  | c :: s' =>
      if decide (c = NUL) then Ok 0 else let* n := strlen s' in Ok (S n)
  end.

(** The characters a reader of the string sees, up to the NUL. *)
Definition cstring (s : list ascii) : outcome (list ascii) :=
  let* n := strlen s in Ok (take n s).

(** [strchr(chars, c) != NULL]: the terminating NUL is part of the string. *)
Definition strchr (chars : list ascii) (c : ascii) : bool :=
  bool_decide (c = NUL) || bool_decide (c ∈ chars).

(** [strcmp] on string contents, bytes compared as [unsigned char]. *)
Fixpoint strcmp (a b : list ascii) : Z :=
  match a, b with
  | [], [] => 0
  | [], _ :: _ => -1
  | _ :: _, [] => 1
  | x :: a', y :: b' =>
      if decide (x = y) then strcmp a' b'
      else if decide (nat_of_ascii x < nat_of_ascii y)%nat then -1 else 1
  end%Z.

(** ** Integers *)

Definition INT_MAX : Z := 2147483647.
Definition INT_MIN : Z := -2147483648.
Definition LONG_MAX : Z := 9223372036854775807.
Definition LONG_MIN : Z := -9223372036854775808.

(** Conversions to [unsigned int], [int], [uint64_t] and [int64_t]. *)
Definition to_uint (z : Z) : Z := z `mod` 2 ^ 32.
Definition to_int (z : Z) : Z := (z + 2 ^ 31) `mod` 2 ^ 32 - 2 ^ 31.
Definition to_u64 (z : Z) : Z := z `mod` 2 ^ 64.
Definition to_s64 (z : Z) : Z := (z + 2 ^ 63) `mod` 2 ^ 64 - 2 ^ 63.

(** [x++] on an [int]. *)
Definition int_incr (x : Z) : outcome Z :=
  if decide (x = INT_MAX) then Fault int_overflow else Ok (x + 1)%Z.

Definition digit_value (c : ascii) : option Z :=
  let n := nat_of_ascii c in
  if decide (48 ≤ n ∧ n ≤ 57) then Some (Z.of_nat n - 48)%Z else None.

(** The digits of [strtol] in base 10, accumulated without bound. *)
Fixpoint digits_value (acc : Z) (s : list ascii) : Z :=
  match s with
  | [] => acc
  | c :: s' =>
      match digit_value c with
      | Some d => digits_value (10 * acc + d) s'
      | None => acc
      end
  end.

Fixpoint skip_spaces (s : list ascii) : list ascii :=
  match s with
  | c :: s' => if isspace c then skip_spaces s' else s
  | [] => []
  end.

(** [strtol(s, NULL, 10)]: white space, an optional sign, digits; a value out
    of the range of [long] is replaced by the nearest bound. *)
Definition strtol (s : list ascii) : Z :=
  let clamp z := Z.max LONG_MIN (Z.min LONG_MAX z) in
  match skip_spaces s with
  | "-"%char :: s' => clamp (- digits_value 0 s')%Z
  | "+"%char :: s' => clamp (digits_value 0 s')
  | s' => clamp (digits_value 0 s')
  end.

(** [atoi], as the C libraries define it: [(int) strtol(s, NULL, 10)]. *)
Definition atoi (s : list ascii) : Z := to_int (strtol s).

(** ** Lemmas on characters and strings *)

Lemma isspace_NUL : isspace NUL = false.
Proof. reflexivity. Qed.

Lemma nul_free_nil : nul_free [].
Proof. apply not_elem_of_nil. Qed.

Lemma nul_free_cons c s : nul_free (c :: s) ↔ c ≠ NUL ∧ nul_free s.
Proof. unfold nul_free. rewrite not_elem_of_cons. split; intros [? ?]; split; congruence. Qed.

Lemma nul_free_app s t : nul_free (s ++ t) ↔ nul_free s ∧ nul_free t.
Proof. unfold nul_free. rewrite elem_of_app. tauto. Qed.

Lemma nul_free_take n s : nul_free s → nul_free (take n s).
Proof. intros H Hin. apply H. by apply (subseteq_take n s). Qed.

#[export] Hint Resolve nul_free_nil nul_free_take : core.

Lemma strlen_app s r : nul_free s → strlen (s ++ NUL :: r) = Ok (length s).
Proof.
  induction s as [|c s IH]; [done|].
  intros [Hc Hs]%nul_free_cons. simpl.
  rewrite decide_False by done. by rewrite IH.
Qed.

Lemma cstring_app s r : nul_free s → cstring (s ++ NUL :: r) = Ok s.
Proof. intros H. unfold cstring. rewrite strlen_app by done. simpl. by rewrite take_app_length. Qed.

Lemma strchr_spec chars c : c ≠ NUL → strchr chars c = bool_decide (c ∈ chars).
Proof. intros H. unfold strchr. by rewrite bool_decide_false. Qed.

Lemma strcmp_refl s : strcmp s s = 0%Z.
Proof. induction s as [|c s IH]; simpl; [done|]. by rewrite decide_True. Qed.

Lemma strcmp_eq_0 a b : strcmp a b = 0%Z ↔ a = b.
Proof.
  split; [|intros ->; apply strcmp_refl].
  revert b. induction a as [|x a IH]; intros [|y b]; simpl; try done.
  case_decide as E; [|by case_decide]. intros H. subst y. f_equal. by apply IH.
Qed.

Lemma load_lookup buf i c : buf !! i = Some c → load buf i = Ok c.
Proof. unfold load. by intros ->. Qed.

Lemma load_drop buf i c r : drop i buf = c :: r → load buf i = Ok c.
Proof. intros [H _]%drop_cons_lookup. by apply load_lookup. Qed.

Lemma store_Ok buf i c : i < length buf → store buf i c = Ok (<[i := c]> buf).
Proof. intros H. unfold store. by rewrite decide_True. Qed.

Lemma load_at (pre : list ascii) c r : load (pre ++ c :: r) (length pre) = Ok c.
Proof. apply load_lookup. apply list_lookup_middle. done. Qed.

Lemma store_at (pre : list ascii) c c' r :
  store (pre ++ c :: r) (length pre) c' = Ok (pre ++ c' :: r).
Proof.
  rewrite store_Ok by (rewrite length_app; simpl; lia).
  replace (length pre) with (length pre + 0) by lia.
  by rewrite insert_app_r.
Qed.

(** ** Lemmas on integers *)

Lemma to_uint_range z : (0 ≤ to_uint z < 2 ^ 32)%Z.
Proof. unfold to_uint. apply Z.mod_pos_bound. lia. Qed.

Lemma to_uint_small z : (0 ≤ z < 2 ^ 32)%Z → to_uint z = z.
Proof. apply Z.mod_small. Qed.

Lemma to_int_range z : (INT_MIN ≤ to_int z ≤ INT_MAX)%Z.
Proof.
  unfold to_int, INT_MIN, INT_MAX.
  pose proof (Z.mod_pos_bound (z + 2 ^ 31) (2 ^ 32)). lia.
Qed.

Lemma to_int_small z : (INT_MIN ≤ z ≤ INT_MAX)%Z → to_int z = z.
Proof. unfold to_int, INT_MIN, INT_MAX. intros H. rewrite Z.mod_small; lia. Qed.

(** An [int] stored in a [uint64_t] and read back as an [int] is unchanged. *)
Lemma to_int_to_u64 z : (INT_MIN ≤ z ≤ INT_MAX)%Z → to_int (to_u64 z) = z.
Proof.
  intros H. rewrite <- (to_int_small z) at 2 by done.
  unfold to_int, to_u64. f_equal.
  rewrite <- (Zplus_mod_idemp_l (z `mod` 2 ^ 64)), Z.mod_mod_divide, Zplus_mod_idemp_l.
  - done.
  - by exists (2 ^ 32)%Z.
Qed.

(** A pointer stored in a [uint64_t] through [int64_t] is read back. *)
Lemma to_u64_to_s64 z : (0 ≤ z < 2 ^ 64)%Z → to_u64 (to_s64 z) = z.
Proof.
  intros H. unfold to_s64, to_u64.
  rewrite Zminus_mod_idemp_l. rewrite <- (Z.mod_small z (2 ^ 64)) at 2 by done.
  f_equal. lia.
Qed.
