(* ===== verification/Ini.v ===== *)
(** * conf.c: the INI parser

    A translation of conf.c as it is compiled by default (the [INI_*] macros of
    conf.h): the parser works on a 200 byte stack buffer that it modifies in
    place, with [char*] variables as offsets into the buffer; the section and
    name buffers are 50 bytes.  The reader is an interface ([IniReader]) with
    the two implementations of the source, [fgets] on a file and
    [ini_reader_string] on a string; the handler is an argument, a computation
    over the state behind the [user] pointer. *)
From stdpp Require Import base list numbers gmap strings.
From Stdlib Require Import Ascii ZArith.
From S2P Require Import Prelude CLib.

(** ** conf.h: the compiled-in configuration *)

Definition INI_START_COMMENT_PREFIXES : list ascii := str ";#".
Definition INI_INLINE_COMMENT_PREFIXES : list ascii := str ";".
Definition INI_MAX_LINE : nat := 200.
Definition MAX_SECTION : nat := 50.
Definition MAX_NAME : nat := 50.

(** ** Helpers on the line buffer *)

(** The loop of [rstrip]: [p] is the pointer, as an offset. *)
Fixpoint rstrip_loop (line : list ascii) (s p : nat) : outcome (list ascii) :=
  match p with
  | O => Ok line
  | S p' =>
      if decide (s < p) then
        let* c := load line p' in
        if isspace c then
          let* line' := store line p' NUL in rstrip_loop line' s p'
        else Ok line
      else Ok line
  end.

(** [rstrip(line + s)]: the modified buffer; the returned pointer is [s]. *)
Definition rstrip (line : list ascii) (s : nat) : outcome (list ascii) :=
  let* n := strlen (drop s line) in rstrip_loop line s (s + n).

(** How far [lskip] moves the pointer. *)
Fixpoint lskip_loop (s : list ascii) : outcome nat :=
  match s with
  | [] => Fault oob
  | c :: s' =>
      if negb (bool_decide (c = NUL)) && isspace c
      then let* n := lskip_loop s' in Ok (S n)
      else Ok 0
  end.

Definition lskip (line : list ascii) (s : nat) : outcome nat :=
  let* n := lskip_loop (drop s line) in Ok (s + n).

(** How far [find_chars_or_comment] moves the pointer; [None] is the null
    [chars]. *)
Fixpoint find_loop (chars : option (list ascii)) (was_space : bool)
    (s : list ascii) : outcome nat :=
  match s with
  | [] => Fault oob
  | c :: s' =>
      if negb (bool_decide (c = NUL)) &&
         match chars with None => true | Some cs => negb (strchr cs c) end &&
         negb (was_space && strchr INI_INLINE_COMMENT_PREFIXES c)
      then let* n := find_loop chars (isspace c) s' in Ok (S n)
      else Ok 0
  end.

Definition find_chars_or_comment (line : list ascii) (s : nat)
    (chars : option (list ascii)) : outcome nat :=
  let* n := find_loop chars false (drop s line) in Ok (s + n).

(** The loop of [strncpy0] from index [i], [size - 1] in [size_t]. *)
Fixpoint strncpy0_loop (dest : list ascii) (i : nat) (src : list ascii) (size : Z)
    : outcome (list ascii) :=
  if decide (Z.of_nat i < to_u64 (size - 1))%Z then
    match src with
    | [] => Fault oob
    | c :: src' =>
        if decide (c = NUL) then store dest i NUL
        else let* dest' := store dest i c in strncpy0_loop dest' (S i) src' size
    end
  else store dest i NUL.

Definition strncpy0 (dest src : list ascii) (size : Z) : outcome (list ascii) :=
  strncpy0_loop dest 0 src size.

(** ** Readers *)

(** An [ini_reader]: the buffer, its size, the stream; [None] is NULL. *)
Class IniReader (St : Type) :=
  ini_read : list ascii → Z → St → outcome (option (list ascii) * St).

(** [FILE*] opened for reading: the bytes not yet read. *)
Record FILE := { file_left : list ascii }.

(** What one call of [fgets] takes: up to [n] bytes, through a newline. *)
Fixpoint fgets_chunk (n : nat) (l : list ascii) : list ascii :=
  match n, l with
  | S n', c :: l' => if decide (c = LF) then [c] else c :: fgets_chunk n' l'
  | _, _ => []
  end.

(** Copy [chunk] and a NUL to the start of the buffer. *)
Definition blit (buf chunk : list ascii) : outcome (list ascii) :=
  if decide (length chunk < length buf)
  then Ok (chunk ++ NUL :: drop (S (length chunk)) buf) else Fault oob.

(** The library's [fgets]; for a size that is not positive it is NULL.  (The
    parser's own sizes are at least 2, but see [grow_loop] in the file IniConf.) *)
#[export] Instance fgets : IniReader FILE := λ buf num f,
  match file_left f with
  | [] => Ok (None, f)
  | _ :: _ =>
      if decide (num ≤ 0)%Z then Ok (None, f) else
      let chunk := fgets_chunk (Z.to_nat (num - 1)) (file_left f) in
      let* buf' := blit buf chunk in
      Ok (Some buf', {| file_left := drop (length chunk) (file_left f) |})
  end.

Record ini_parse_string_ctx := { ctx_ptr : list ascii; ctx_num_left : nat }.

(** The loop of [ini_reader_string]: [i] is [strp - str]; the result is the
    buffer, [strp], [ctx_ptr] and [ctx_num_left]. *)
Fixpoint reader_string_loop (buf : list ascii) (i : nat) (num : Z)
    (ptr : list ascii) (num_left : nat) {struct num_left}
    : outcome (list ascii * nat * list ascii * nat) :=
  match num_left with
  | O => Ok (buf, i, ptr, num_left)
  | S num_left' =>
      if decide (1 < num)%Z then
        match ptr with
        | [] => Fault oob
        | c :: ptr' =>
            let* buf' := store buf i c in
            if decide (c = LF) then Ok (buf', S i, ptr', num_left')
            else reader_string_loop buf' (S i) (num - 1) ptr' num_left'
        end
      else Ok (buf, i, ptr, num_left)
  end.

#[export] Instance ini_reader_string : IniReader ini_parse_string_ctx := λ buf num ctx,
  if bool_decide (ctx_num_left ctx = 0) || bool_decide (num < 2)%Z
  then Ok (None, ctx)
  else
    let* r := reader_string_loop buf 0 num (ctx_ptr ctx) (ctx_num_left ctx) in
    let '(buf', i, ptr, num_left) := r in
    let* buf'' := store buf' i NUL in
    Ok (Some buf'', {| ctx_ptr := ptr; ctx_num_left := num_left |}).

(** ** ini_parse_stream *)

(** The locals of [ini_parse_stream] that live across lines. *)
Record ini_locals := {
  il_line : list ascii;
  il_section : list ascii;
  il_prev_name : list ascii;
  il_lineno : Z;
  il_error : Z
}.

(** [char b[n] = ""] *)
Definition empty_buffer (n : nat) : list ascii := replicate n NUL.

Section parse_stream.
Context {U : Type}.

(** An [ini_handler]: section, name and value as string contents; the state
    is what [user] points to. *)
Variable handler : list ascii → list ascii → list ascii → M U Z.

(** [HANDLER(user, section, name, value)] on pointers. *)
Definition call_handler (section name value : list ascii) : M U Z :=
  let! s := lift (cstring section) in
  let! n := lift (cstring name) in
  let! v := lift (cstring value) in
  handler s n v.

(** [if (!HANDLER(...) && !error) error = lineno;] *)
Definition note_error (r : Z) (l : ini_locals) : Z :=
  if decide (r = 0%Z) then
    if decide (il_error l = 0%Z) then il_lineno l else il_error l
  else il_error l.

Definition is_bom (line : list ascii) (lineno : Z) : outcome bool :=
  if decide (lineno = 1%Z) then
    let* c0 := load line 0 in
    if decide (c0 = "239"%char) then
      let* c1 := load line 1 in
      if decide (c1 = "187"%char) then
        let* c2 := load line 2 in Ok (bool_decide (c2 = "191"%char))
      else Ok false
    else Ok false
  else Ok false.

(** The branch of a "[section]" line; [start] points to the bracket. *)
Definition section_line (l : ini_locals) (line : list ascii) (start : nat)
    : M U ini_locals :=
  let! e := lift (find_chars_or_comment line (start + 1) (Some (str "]"))) in
  let! ce := lift (load line e) in
  if decide (ce = "]"%char) then
    let! line1 := lift (store line e NUL) in
    let! section := lift (strncpy0 (il_section l) (drop (start + 1) line1)
                                   (Z.of_nat MAX_SECTION)) in
    let! prev := lift (store (il_prev_name l) 0 NUL) in
    retM {| il_line := line1; il_section := section; il_prev_name := prev;
            il_lineno := il_lineno l; il_error := il_error l |}
  else
    retM {| il_line := line; il_section := il_section l;
            il_prev_name := il_prev_name l; il_lineno := il_lineno l;
            il_error := note_error 0 l |}.

(** The branch of a name[=:]value line; [start] points to the name. *)
Definition pair_line (l : ini_locals) (line : list ascii) (start : nat)
    : M U ini_locals :=
  let! e := lift (find_chars_or_comment line start (Some (str "=:"))) in
  let! ce := lift (load line e) in
  if decide (ce = "="%char ∨ ce = ":"%char) then
    let! line1 := lift (store line e NUL) in
    let! line2 := lift (rstrip line1 start) in
    let value := e + 1 in
    let! e2 := lift (find_chars_or_comment line2 value None) in
    let! c2 := lift (load line2 e2) in
    let! line3 := (if decide (c2 = NUL) then retM line2
                   else lift (store line2 e2 NUL)) in
    let! value := lift (lskip line3 value) in
    let! line4 := lift (rstrip line3 value) in
    let! prev := lift (strncpy0 (il_prev_name l) (drop start line4)
                                (Z.of_nat MAX_NAME)) in
    let! r := call_handler (il_section l) (drop start line4) (drop value line4) in
    retM {| il_line := line4; il_section := il_section l; il_prev_name := prev;
            il_lineno := il_lineno l; il_error := note_error r l |}
  else
    retM {| il_line := line; il_section := il_section l;
            il_prev_name := il_prev_name l; il_lineno := il_lineno l;
            il_error := note_error 0 l |}.

(** The if-else chain of the loop body: [start] is the first non-blank
    character, [c] is [*start] and [p] is [*prev_name]. *)
Definition line_branch (l : ini_locals) (line : list ascii) (start : nat)
    (c p : ascii) : M U ini_locals :=
  if strchr INI_START_COMMENT_PREFIXES c then
    retM {| il_line := line; il_section := il_section l;
            il_prev_name := il_prev_name l; il_lineno := il_lineno l;
            il_error := il_error l |}
  else if decide (p ≠ NUL ∧ c ≠ NUL ∧ 0 < start) then
    let! r := call_handler (il_section l) (il_prev_name l) (drop start line) in
    retM {| il_line := line; il_section := il_section l;
            il_prev_name := il_prev_name l; il_lineno := il_lineno l;
            il_error := note_error r l |}
  else if decide (c = "["%char) then section_line l line start
  else if decide (c ≠ NUL) then pair_line l line start
  else
    retM {| il_line := line; il_section := il_section l;
            il_prev_name := il_prev_name l; il_lineno := il_lineno l;
            il_error := il_error l |}.

(** The body of the loop after the line was read and [lineno] counted. *)
Definition process_line (l : ini_locals) : M U ini_locals :=
  let! bom := lift (is_bom (il_line l) (il_lineno l)) in
  let start := if bom : bool then 3 else 0 in
  let! line := lift (rstrip (il_line l) start) in
  let! start := lift (lskip line start) in
  let! c := lift (load line start) in
  let! p := lift (load (il_prev_name l) 0) in
  line_branch l line start c p.

Fixpoint ini_loop {St : Type} `{!IniReader St} (fuel : nat) (stream : St) (l : ini_locals) : M U Z :=
  match fuel with
  | O => nofuel
  | S fuel' =>
      let! r := lift (ini_read (il_line l) (Z.of_nat INI_MAX_LINE) stream) in
      match r with
      | (None, _) => retM (il_error l)
      | (Some line, stream') =>
          let! lineno := lift (int_incr (il_lineno l)) in
          let! l' := process_line
            {| il_line := line; il_section := il_section l;
               il_prev_name := il_prev_name l; il_lineno := lineno;
               il_error := il_error l |} in
          ini_loop fuel' stream' l'
      end
  end.

(** [line0] is the uninitialised [char line[INI_MAX_LINE]]. *)
Definition ini_parse_stream {St : Type} `{!IniReader St} (fuel : nat) (line0 : list ascii)
    (stream : St) : M U Z :=
  ini_loop fuel stream
    {| il_line := line0; il_section := empty_buffer MAX_SECTION;
       il_prev_name := empty_buffer MAX_NAME; il_lineno := 0; il_error := 0 |}.

Definition ini_parse_file (line0 : list ascii) (file : FILE) : M U Z :=
  ini_parse_stream (S (length (file_left file))) line0 file.

(** [fopen] of a file: its bytes, or [None] when it cannot be opened. *)
Definition ini_parse (line0 : list ascii) (file : option (list ascii)) : M U Z :=
  match file with
  | None => retM (-1)%Z
  | Some bytes => ini_parse_file line0 {| file_left := bytes |}
  end.

(** [string] is the memory the pointer points to. *)
Definition ini_parse_string (line0 string : list ascii) : M U Z :=
  let! n := lift (strlen string) in
  ini_parse_stream (S n) line0 {| ctx_ptr := string; ctx_num_left := n |}.
End parse_stream.
