(* ===== verification/IniSpec.v ===== *)
(** * The INI parser's contract

    What conf.c promises, without buffers and pointers: how the byte stream is
    cut into lines ([chunks]), what one line means ([parse_line]) and how the
    handler's answers make the result ([run_lines]). *)
From stdpp Require Import base list numbers gmap strings.
From Stdlib Require Import Ascii ZArith.
From S2P Require Import Prelude CLib Ini.

(** ** Pure string functions *)

(** The prefix before the first NUL. *)
Fixpoint until_nul (l : list ascii) : list ascii :=
  match l with
  | [] => []
  | c :: l' => if decide (c = NUL) then [] else c :: until_nul l'
  end.

Abbreviation lstrip := skip_spaces.

(** Remove trailing white space. *)
Fixpoint rstrip_spec (l : list ascii) : list ascii :=
  match l with
  | [] => []
  | c :: l' =>
      match rstrip_spec l' with
      | [] => if isspace c then [] else [c]
      | r => c :: r
      end
  end.

(** Split before the first of [stops] or inline comment. *)
Fixpoint span (stops : list ascii) (was_space : bool) (l : list ascii)
    : list ascii * list ascii :=
  match l with
  | [] => ([], [])
  | c :: l' =>
      if bool_decide (c ∈ stops) ||
         (was_space && bool_decide (c ∈ INI_INLINE_COMMENT_PREFIXES))
      then ([], l)
      else let '(pre, post) := span stops (isspace c) l' in (c :: pre, post)
  end.

Definition BOM : list ascii := ["239"%char; "187"%char; "191"%char].

(** ** Lines *)

(** The stream, cut the way successive calls of [fgets] on a buffer of [n + 1]
    bytes cut it.  Fuel: the length of the stream. *)
Fixpoint chunks_fuel (fuel n : nat) (l : list ascii) : list (list ascii) :=
  match fuel, l with
  | O, _ => []
  | _, [] => []
  | S fuel', _ =>
      let c := fgets_chunk n l in c :: chunks_fuel fuel' n (drop (length c) l)
  end.

Definition chunks (n : nat) (l : list ascii) : list (list ascii) :=
  chunks_fuel (length l) n l.

(** ** The meaning of a line *)

Record parse_state := { ps_section : list ascii; ps_prev : list ascii }.

Inductive action :=
  | ASkip                              (** nothing to report *)
  | ABad                               (** a syntax error *)
  | AEntry (name value : list ascii).  (** a call of the handler *)

Definition parse_section (st : parse_state) (rest : list ascii) : action * parse_state :=
  let '(name, post) := span (str "]") false rest in
  match post with
  | c :: _ =>
      if decide (c = "]"%char)
      then (ASkip, {| ps_section := take (MAX_SECTION - 1) name; ps_prev := [] |})
      else (ABad, st)
  | [] => (ABad, st)
  end.

Definition parse_value (v : list ascii) : list ascii :=
  rstrip_spec (lstrip (span [] false v).1).

Definition parse_pair (st : parse_state) (t : list ascii) : action * parse_state :=
  let '(pre, post) := span (str "=:") false t in
  match post with
  | c :: v =>
      if decide (c = "="%char ∨ c = ":"%char) then
        let name := rstrip_spec pre in
        (AEntry name (parse_value v),
         {| ps_section := ps_section st; ps_prev := take (MAX_NAME - 1) name |})
      else (ABad, st)
  | [] => (ABad, st)
  end.

(** [first]: this is line 1, where a byte order mark is skipped. *)
Definition parse_line (first : bool) (st : parse_state) (chunk : list ascii)
    : action * parse_state :=
  let text := until_nul chunk in
  let bom := first && bool_decide (take 3 text = BOM) in
  let body := rstrip_spec (if bom then drop 3 text else text) in
  let t := lstrip body in
  let indented := bom || bool_decide (length t < length body) in
  match t with
  | [] => (ASkip, st)
  | c :: rest =>
      if decide (c ∈ INI_START_COMMENT_PREFIXES) then (ASkip, st)
      else if negb (bool_decide (ps_prev st = [])) && indented
      then (AEntry (ps_prev st) t, st)
      else if decide (c = "["%char) then parse_section st rest
      else parse_pair st t
  end.

(** ** The result *)

(** The first failing line number is kept; 0 means no error so far. *)
Definition first_error (err lineno : Z) : Z := if decide (err = 0%Z) then lineno else err.

Section run.
Context {U : Type} (handler : list ascii → list ascii → list ascii → M U Z).

Definition run_action (section : list ascii) (a : action) (lineno err : Z) : M U Z :=
  match a with
  | ASkip => retM err
  | ABad => retM (first_error err lineno)
  | AEntry name value =>
      let! r := handler section name value in
      retM (if decide (r = 0%Z) then first_error err lineno else err)
  end.

(** The lines from line number [n + 1] on. *)
Fixpoint run_lines (n : Z) (st : parse_state) (err : Z) (ls : list (list ascii)) : M U Z :=
  match ls with
  | [] => retM err
  | l :: ls' =>
      let '(a, st') := parse_line (bool_decide (n = 0%Z)) st l in
      let! err' := run_action (ps_section st) a (n + 1) err in
      run_lines (n + 1) st' err' ls'
  end.

Definition parse_spec (bytes : list ascii) : M U Z :=
  run_lines 0 {| ps_section := []; ps_prev := [] |} 0 (chunks (INI_MAX_LINE - 1) bytes).
End run.

(** The entries of the lines, in order: section, name, value. *)
Fixpoint entries_of (first : bool) (st : parse_state) (ls : list (list ascii))
    : list (list ascii * list ascii * list ascii) :=
  match ls with
  | [] => []
  | l :: ls' =>
      let '(a, st') := parse_line first st l in
      match a with
      | AEntry n v => (ps_section st, n, v) :: entries_of false st' ls'
      | _ => entries_of false st' ls'
      end
  end.

Definition entries (bytes : list ascii) : list (list ascii * list ascii * list ascii) :=
  entries_of true {| ps_section := []; ps_prev := [] |} (chunks (INI_MAX_LINE - 1) bytes).
