(* ===== verification/IniRefine.v ===== *)
(** * conf.c refines the parser's contract

    Every pointer function of Ini on a buffer [pre ++ s ++ NUL :: r], the
    pointer at [length pre], computes the pure string function of IniSpec and
    stays inside the buffer; from these, one line of the parser, the loop, and
    the readers. *)
From stdpp Require Import base list numbers gmap strings.
From Stdlib Require Import Ascii ZArith.
From S2P Require Import Prelude CLib Ini IniSpec.

(** ** The pure functions *)

Lemma nul_free_until l : nul_free (until_nul l).
Proof.
  induction l as [|c l IH]; simpl; [done|]. case_decide; [done|].
  by rewrite nul_free_cons.
Qed.

Lemma until_nul_split l r : ∃ r', l ++ NUL :: r = until_nul l ++ NUL :: r'.
Proof.
  induction l as [|c l [r' IH]]; simpl; [by exists r|].
  case_decide as E; [by subst c; exists (l ++ NUL :: r)|].
  exists r'. by rewrite IH.
Qed.

Lemma until_nul_id l : nul_free l → until_nul l = l.
Proof.
  induction l as [|c l IH]; [done|]. intros [Hc Hl]%nul_free_cons. simpl.
  by rewrite decide_False, IH by done.
Qed.

Lemma rstrip_snoc l c :
  rstrip_spec (l ++ [c]) = if isspace c then rstrip_spec l else l ++ [c].
Proof.
  induction l as [|x l IH]; simpl; [by destruct (isspace c)|].
  rewrite IH. destruct (isspace c) eqn:Hc; [done|]. by destruct l.
Qed.

Lemma rstrip_decomp l : ∃ ws, l = rstrip_spec l ++ ws ∧ Forall (λ c, isspace c = true) ws.
Proof.
  induction l as [|c l [ws [IH Hws]]] using rev_ind; [by exists []|].
  rewrite rstrip_snoc. destruct (isspace c) eqn:Hc.
  - exists (ws ++ [c]). split.
    + rewrite app_assoc. by f_equal.
    + by apply Forall_app_2; [|constructor].
  - exists []. by rewrite app_nil_r.
Qed.

Lemma lstrip_decomp l : ∃ ws, l = ws ++ lstrip l ∧ Forall (λ c, isspace c = true) ws.
Proof.
  induction l as [|c l [ws [IH Hws]]]; [by exists []|]. simpl.
  destruct (isspace c) eqn:Hc; [|by exists []].
  exists (c :: ws). split; [by simpl; f_equal|by constructor].
Qed.

Lemma lstrip_head l c r : lstrip l = c :: r → isspace c = false.
Proof.
  induction l as [|x l IH]; [done|]. simpl. destruct (isspace x) eqn:E; [done|].
  intros [= <- <-]. done.
Qed.

Lemma span_decomp stops ws l : l = (span stops ws l).1 ++ (span stops ws l).2.
Proof.
  revert ws. induction l as [|c l IH]; intros ws; simpl; [done|].
  case_match; [done|]. destruct (span stops (isspace c) l) as [pre post] eqn:E.
  simpl. f_equal. specialize (IH (isspace c)). by rewrite E in IH.
Qed.

Lemma nul_free_app_l s t : nul_free (s ++ t) → nul_free s.
Proof. rewrite nul_free_app. tauto. Qed.

Lemma nul_free_app_r s t : nul_free (s ++ t) → nul_free t.
Proof. rewrite nul_free_app. tauto. Qed.

Lemma nul_free_rstrip l : nul_free l → nul_free (rstrip_spec l).
Proof. destruct (rstrip_decomp l) as (ws & H & _). rewrite H at 1. apply nul_free_app_l. Qed.

Lemma nul_free_lstrip l : nul_free l → nul_free (lstrip l).
Proof. destruct (lstrip_decomp l) as (ws & H & _). rewrite H at 1. apply nul_free_app_r. Qed.

Lemma nul_free_span stops ws l :
  nul_free l → nul_free (span stops ws l).1 ∧ nul_free (span stops ws l).2.
Proof. intros H. rewrite (span_decomp stops ws l) in H. by apply nul_free_app in H. Qed.

(** ** The pointer functions *)

Lemma pad_cons k r : ∃ r', replicate k NUL ++ NUL :: r = NUL :: r'.
Proof. destruct k; simpl; eauto. Qed.

Section pointer_functions.
Implicit Types pre s r : list ascii.

Lemma rstrip_loop_correct pre s r :
  rstrip_loop (pre ++ s ++ NUL :: r) (length pre) (length pre + length s)
  = Ok (pre ++ rstrip_spec s ++
        replicate (length s - length (rstrip_spec s)) NUL ++ NUL :: r).
Proof.
  revert r. induction s as [|c s IH] using rev_ind; intros r.
  - simpl. rewrite Nat.add_0_r. destruct (length pre) eqn:E; [by destruct pre|].
    simpl. by rewrite decide_False by lia.
  - rewrite length_app. simpl.
    replace (length pre + (length s + 1)) with (S (length pre + length s)) by lia.
    simpl. rewrite decide_True by lia.
    replace (pre ++ (s ++ [c]) ++ NUL :: r) with ((pre ++ s) ++ c :: NUL :: r)
      by (by rewrite <- !app_assoc).
    rewrite <- length_app, load_at. simpl. rewrite rstrip_snoc.
    destruct (isspace c) eqn:Hc.
    + rewrite store_at. simpl. rewrite <- app_assoc, length_app, IH.
      destruct (rstrip_decomp s) as (ws & Hs & _).
      apply (f_equal length) in Hs. rewrite length_app in Hs.
      replace (length s + 1 - length (rstrip_spec s))
        with (S (length s - length (rstrip_spec s))) by lia.
      by rewrite replicate_S_end, <- !app_assoc.
    + rewrite length_app. simpl.
      rewrite Nat.sub_diag. simpl. by rewrite <- !app_assoc.
Qed.

Lemma rstrip_correct pre s r :
  nul_free s →
  rstrip (pre ++ s ++ NUL :: r) (length pre)
  = Ok (pre ++ rstrip_spec s ++
        replicate (length s - length (rstrip_spec s)) NUL ++ NUL :: r).
Proof.
  intros Hs. unfold rstrip. rewrite drop_app_length, strlen_app by done. simpl.
  apply rstrip_loop_correct.
Qed.

Lemma lskip_loop_correct s r :
  nul_free s →
  lskip_loop (s ++ NUL :: r) = Ok (length s - length (lstrip s)).
Proof.
  induction s as [|c s IH]; [done|]. intros [Hc Hs]%nul_free_cons. simpl.
  rewrite bool_decide_false by done. simpl.
  destruct (isspace c); [|f_equal; simpl; lia]. rewrite IH by done. simpl. f_equal.
  destruct (lstrip_decomp s) as (ws & E & _).
  apply (f_equal length) in E. rewrite length_app in E. lia.
Qed.

Lemma lskip_correct pre ws t r :
  nul_free (ws ++ t) → t = lstrip (ws ++ t) →
  lskip (pre ++ ws ++ t ++ NUL :: r) (length pre) = Ok (length (pre ++ ws)).
Proof.
  intros Hn Ht. unfold lskip. rewrite drop_app_length, (app_assoc ws).
  rewrite lskip_loop_correct, <- Ht by done. simpl. f_equal.
  rewrite !length_app. lia.
Qed.

(** [chars] is null exactly when there are no stop characters. *)
Definition chars_of (stops : list ascii) : option (list ascii) :=
  match stops with [] => None | _ => Some stops end.

Lemma find_loop_correct stops ws s r :
  nul_free s →
  find_loop (chars_of stops) ws (s ++ NUL :: r) = Ok (length (span stops ws s).1).
Proof.
  revert ws. induction s as [|c s IH]; intros ws; [done|].
  intros [Hc Hs]%nul_free_cons. simpl.
  rewrite bool_decide_false by done. simpl.
  rewrite strchr_spec by done.
  assert (match chars_of stops with
          | Some cs => negb (strchr cs c) | None => true end
          = negb (bool_decide (c ∈ stops))) as ->.
  { destruct stops as [|x l]; [done|]. unfold chars_of. by rewrite strchr_spec. }
  rewrite <- negb_orb.
  destruct (bool_decide (c ∈ stops) || _); simpl; [done|].
  rewrite IH by done. by destruct (span stops (isspace c) s).
Qed.

Lemma find_correct stops pre s r :
  nul_free s →
  find_chars_or_comment (pre ++ s ++ NUL :: r) (length pre) (chars_of stops)
  = Ok (length pre + length (span stops false s).1).
Proof.
  intros Hs. unfold find_chars_or_comment.
  by rewrite drop_app_length, find_loop_correct.
Qed.

Lemma strncpy0_loop_correct d0 d src r size :
  nul_free src → 1 ≤ length d →
  size = Z.of_nat (length d0 + length d) → (size < 2 ^ 64)%Z →
  let out := take (length d - 1) src in
  strncpy0_loop (d0 ++ d) (length d0) (src ++ NUL :: r) size
  = Ok (d0 ++ out ++ NUL :: drop (S (length out)) d).
Proof.
  intros Hn Hd -> Hlt. revert d0 d Hd Hlt Hn.
  assert (Hend : ∀ d0 d : list ascii, 1 ≤ length d →
    store (d0 ++ d) (length d0) NUL = Ok (d0 ++ NUL :: drop 1 d)).
  { intros d0 [|x d] Hd; simpl in Hd; [lia|]. apply store_at. }
  induction src as [|c src IH]; intros d0 d Hd Hlt Hn; simpl.
  - case_decide; rewrite Hend by done; by rewrite take_nil.
  - apply nul_free_cons in Hn as [Hc Hn].
    assert (to_u64 (Z.of_nat (length d0 + length d) - 1)
            = Z.of_nat (length d0 + length d) - 1)%Z as ->
      by (apply Z.mod_small; lia).
    destruct d as [|x d]; simpl in Hd; [lia|]. simpl length.
    case_decide as Hcase.
    + destruct d as [|y d]; [simpl in *; lia|].
      rewrite decide_False by done. rewrite store_at. simpl.
      specialize (IH (d0 ++ [c]) (y :: d)).
      rewrite length_app in IH. simpl in IH.
      rewrite <- !app_assoc in IH. simpl in IH.
      replace (length d0 + 1) with (S (length d0)) in IH by lia.
      replace (length d0 + S (S (length d)))
        with (S (length d0) + S (length d)) by lia.
      rewrite IH; [by rewrite Nat.sub_0_r|lia|simpl in Hlt; lia|done].
    + destruct d as [|y d]; [|simpl in *; lia].
      rewrite Hend by (simpl; lia). done.
Qed.

Lemma strncpy0_correct d src r n :
  nul_free src → length d = n → 1 ≤ n → (Z.of_nat n < 2 ^ 64)%Z →
  strncpy0 d (src ++ NUL :: r) (Z.of_nat n)
  = Ok (take (n - 1) src ++ NUL :: drop (S (length (take (n - 1) src))) d).
Proof. intros Hs <- Hn Hlt. by apply (strncpy0_loop_correct [] d). Qed.
End pointer_functions.

(** ** One line *)

(** A buffer of [n] bytes that holds the string [s]. *)
Definition holds (buf : list ascii) (n : nat) (s : list ascii) : Prop :=
  length buf = n ∧ nul_free s ∧ ∃ r, buf = s ++ NUL :: r.

(** The locals of the parser against the parser state of the contract. *)
Record locals_ok (l : ini_locals) (st : parse_state) : Prop := {
  lo_line : length (il_line l) = INI_MAX_LINE;
  lo_section : holds (il_section l) MAX_SECTION (ps_section st);
  lo_prev : holds (il_prev_name l) MAX_NAME (ps_prev st)
}.

Lemma holds_cstring buf n s : holds buf n s → cstring buf = Ok s.
Proof. intros (_ & Hs & r & ->). by apply cstring_app. Qed.

Lemma holds_load_0 buf n s : holds buf n s → load buf 0 = Ok (hd NUL s).
Proof. intros (_ & _ & r & ->). by destruct s. Qed.

Lemma holds_store_0 buf n s :
  holds buf n s → ∃ buf', store buf 0 NUL = Ok buf' ∧ holds buf' n [].
Proof.
  intros (Hl & _ & r & ->). destruct s as [|c s].
  - exists (NUL :: r). split; [done|]. split; [done|]. split; [done|]. by exists r.
  - exists (NUL :: s ++ NUL :: r). split; [done|]. split; [done|]. split; [done|].
    by exists (s ++ NUL :: r).
Qed.

Lemma holds_strncpy0 buf n s src r :
  holds buf n s → nul_free src → 1 ≤ n → (Z.of_nat n < 2 ^ 64)%Z →
  ∃ buf', strncpy0 buf (src ++ NUL :: r) (Z.of_nat n) = Ok buf' ∧
          holds buf' n (take (n - 1) src).
Proof.
  intros (Hl & _ & _ & _) Hsrc Hn Hlt. eexists. split; [by apply strncpy0_correct|].
  split; [|split; [by apply nul_free_take|by eexists]].
  rewrite length_app. simpl. rewrite length_drop, length_take. lia.
Qed.

Lemma hd_nul_free (l : list ascii) : nul_free l → hd NUL l = NUL → l = [].
Proof. destruct l; [done|]. intros [Hc _]%nul_free_cons. done. Qed.

Lemma load_app_hd pre s r : load (pre ++ s ++ NUL :: r) (length pre) = Ok (hd NUL s).
Proof. destruct s; simpl; apply load_at. Qed.

Section lines.
Context {U : Type} (handler : list ascii → list ascii → list ascii → M U Z).

(** What a translated branch must do: the action's effect and error value,
    and locals that correspond to the new parse state. *)
Definition does (m : M U ini_locals) (section : list ascii) (a : action)
    (lineno err : Z) (st' : parse_state) : Prop :=
  ∃ line sec prev,
    locals_ok {| il_line := line; il_section := sec; il_prev_name := prev;
                 il_lineno := lineno; il_error := err |} st' ∧
    ∀ u, m u = obind (run_action handler section a lineno err u) (λ '(err', u'),
      Ok ({| il_line := line; il_section := sec; il_prev_name := prev;
             il_lineno := lineno; il_error := err' |}, u')).

Lemma call_handler_correct section name rn value rv s u :
  cstring section = Ok s → nul_free name → nul_free value →
  call_handler handler section (name ++ NUL :: rn) (value ++ NUL :: rv) u
  = handler s name value u.
Proof.
  intros Hs Hn Hv. unfold call_handler, bindM, lift.
  by rewrite Hs, !cstring_app by done.
Qed.

Lemma note_error_first r l :
  note_error r l = if decide (r = 0%Z) then first_error (il_error l) (il_lineno l)
                   else il_error l.
Proof. unfold note_error, first_error. by repeat case_decide. Qed.

(** A branch that only records a syntax error. *)
Lemma does_bad m l st line section :
  locals_ok l st → length line = INI_MAX_LINE →
  (∀ u, m u = retM {| il_line := line; il_section := il_section l;
                      il_prev_name := il_prev_name l; il_lineno := il_lineno l;
                      il_error := note_error 0 l |} u) →
  does m section ABad (il_lineno l) (il_error l) st.
Proof.
  intros [Hl Hsec Hprev] Hlen Hm.
  exists line, (il_section l), (il_prev_name l). split; [by split|].
  intros u. rewrite Hm, note_error_first. done.
Qed.

(** Where the scan for [stops] ends, and what it points to. *)
Lemma find_stops stops pre s r :
  nul_free s →
  let '(a, b) := span stops false s in
  find_chars_or_comment (pre ++ s ++ NUL :: r) (length pre) (chars_of stops)
    = Ok (length (pre ++ a)) ∧
  load (pre ++ s ++ NUL :: r) (length (pre ++ a)) = Ok (hd NUL b) ∧
  s = a ++ b ∧ nul_free a ∧ nul_free b.
Proof.
  intros Hs. pose proof (find_correct stops pre s r Hs) as Hfind.
  pose proof (span_decomp stops false s) as Hspan.
  pose proof (nul_free_span stops false s Hs) as [Ha Hb].
  destruct (span stops false s) as [a b]; simpl in *.
  rewrite <- length_app in Hfind. repeat split; try done.
  rewrite Hspan, <- app_assoc, (app_assoc pre). apply load_app_hd.
Qed.

Lemma section_line_correct l st pre rest r :
  locals_ok l st → nul_free rest →
  length (pre ++ "["%char :: rest ++ NUL :: r) = INI_MAX_LINE →
  does (section_line l (pre ++ "["%char :: rest ++ NUL :: r) (length pre))
    (ps_section st) (parse_section st rest).1 (il_lineno l) (il_error l)
    (parse_section st rest).2.
Proof.
  intros Hok Hrest. unfold section_line, parse_section.
  replace (pre ++ "["%char :: rest ++ NUL :: r)
    with ((pre ++ ["["%char]) ++ rest ++ NUL :: r) by (by rewrite <- app_assoc).
  replace (length pre + 1) with (length (pre ++ ["["%char])) by len.
  generalize (pre ++ ["["%char]) as pre1. clear pre. intros pre Hlen.
  pose proof (find_stops (str "]") pre rest r Hrest) as Hf.
  destruct (span (str "]") false rest) as [name post].
  destruct Hf as (Hfind & Hload & -> & Hn1 & Hn2).
  destruct post as [|c post'];
    [eapply does_bad; [done..|]; intros u; by step_with Hfind; step_with Hload|].
  simpl in Hload. case_decide as Hc;
    [|eapply does_bad; [done..|]; intros u; step_with Hfind; step_with Hload;
      by rewrite decide_False].
  destruct Hok as [Hl Hsec Hprev].
  destruct (holds_store_0 _ _ _ Hprev) as (prev & Hst & Hprev').
  destruct (holds_strncpy0 _ _ _ name (post' ++ NUL :: r) Hsec Hn1)
    as (sec & Hcp & Hsec'); [unfold MAX_SECTION; lia..|].
  exists ((pre ++ name) ++ NUL :: post' ++ NUL :: r), sec, prev. split.
  { split; simpl; [rewrite <- Hlen; len|done..]. }
  intros u. step_with Hfind. step_with Hload. rewrite decide_True by done.
  rewrite <- app_assoc, (app_assoc pre). simpl app. step_with store_at.
  rewrite <- app_assoc, drop_app_length. step_with Hcp. by step_with Hst.
Qed.

(** The value of a pair: the scan for a comment, [lskip], [rstrip].  The
    name before it in the buffer is not touched. *)
Lemma value_correct pre v r :
  nul_free v → ∃ pad e2 c2 line3 start r',
    find_chars_or_comment (pre ++ v ++ NUL :: r) (length pre) None = Ok e2 ∧
    load (pre ++ v ++ NUL :: r) e2 = Ok c2 ∧
    (c2 = NUL ∧ line3 = pre ++ v ++ NUL :: r ∨
     c2 ≠ NUL ∧ store (pre ++ v ++ NUL :: r) e2 NUL = Ok line3) ∧
    lskip line3 (length pre) = Ok start ∧
    rstrip line3 start = Ok ((pre ++ pad) ++ parse_value v ++ NUL :: r') ∧
    start = length (pre ++ pad) ∧
    length ((pre ++ pad) ++ parse_value v ++ NUL :: r') = length (pre ++ v ++ NUL :: r) ∧
    nul_free (parse_value v).
Proof.
  intros Hv. unfold parse_value.
  pose proof (find_stops [] pre v r Hv) as Hf.
  destruct (span [] false v) as [a b]. destruct Hf as (Hfind & Hload & -> & Ha & Hb).
  destruct (lstrip_decomp a) as (ws & Hws & _).
  assert (Hline3 : ∃ r1, (hd NUL b = NUL ∧
      pre ++ a ++ NUL :: r1 = pre ++ (a ++ b) ++ NUL :: r ∨
      hd NUL b ≠ NUL ∧ store (pre ++ (a ++ b) ++ NUL :: r) (length (pre ++ a)) NUL
        = Ok (pre ++ a ++ NUL :: r1)) ∧
      length (pre ++ a ++ NUL :: r1) = length (pre ++ (a ++ b) ++ NUL :: r)).
  { destruct b as [|c b].
    - exists r. rewrite app_nil_r. simpl. auto.
    - exists (b ++ NUL :: r). apply nul_free_cons in Hb as [Hc _]. split; [|len].
      right. split; [done|]. rewrite <- app_assoc, (app_assoc pre). simpl.
      rewrite store_at. by rewrite <- app_assoc. }
  destruct Hline3 as (r1 & Hcase & Hlen).
  set (t := lstrip a) in *.
  exists ws, (length (pre ++ a)), (hd NUL b), (pre ++ a ++ NUL :: r1),
    (length (pre ++ ws)).
  assert (Ht : nul_free t) by (by apply nul_free_lstrip).
  assert (Hsplit : pre ++ a ++ NUL :: r1 = pre ++ ws ++ t ++ NUL :: r1)
    by (rewrite Hws at 1; by rewrite <- !app_assoc).
  rewrite Hsplit in Hlen.
  destruct (pad_cons (length t - length (rstrip_spec t)) r1) as [r' Hpad].
  exists r'. split; [done|]. split; [done|]. split; [naive_solver|].
  split; [rewrite Hsplit; apply lskip_correct; subst t; by rewrite <- Hws|].
  split; [rewrite Hsplit, (app_assoc pre ws), rstrip_correct by done; by rewrite Hpad|].
  split; [done|].
  split; [|by apply nul_free_rstrip].
  destruct (rstrip_decomp t) as (ws' & Ht' & _).
  apply (f_equal length) in Ht', Hpad. rewrite <- Hlen. cbn [fst]. fold t. len.
Qed.

(** The buffer once the separator is a NUL and the name is stripped. *)
Lemma name_correct pre name rest :
  nul_free name → ∃ pre1,
    rstrip (pre ++ name ++ NUL :: rest) (length pre) = Ok (pre1 ++ rest) ∧
    length pre1 = length (pre ++ name) + 1 ∧
    (∀ rest', ∃ rn, pre1 ++ rest' = pre ++ rstrip_spec name ++ NUL :: rn).
Proof.
  intros Hn. pose proof (rstrip_correct pre name rest Hn) as Hrs.
  set (n := length name - length (rstrip_spec name)) in *.
  exists (pre ++ rstrip_spec name ++ replicate n NUL ++ [NUL]). split; [|split].
  - rewrite Hrs. by rewrite <- !app_assoc.
  - destruct (rstrip_decomp name) as (ws & Hd & _). apply (f_equal length) in Hd. subst n. len.
  - intros rest'. destruct (pad_cons n rest') as [rn Hrn]. exists rn. rewrite <- Hrn.
    by rewrite <- !app_assoc.
Qed.

Lemma pair_line_correct l st pre t r :
  locals_ok l st → nul_free t →
  length (pre ++ t ++ NUL :: r) = INI_MAX_LINE →
  does (pair_line handler l (pre ++ t ++ NUL :: r) (length pre))
    (ps_section st) (parse_pair st t).1 (il_lineno l) (il_error l)
    (parse_pair st t).2.
Proof.
  intros Hok Ht Hlen. unfold pair_line, parse_pair.
  pose proof (find_stops (str "=:") pre t r Ht) as Hf.
  destruct (span (str "=:") false t) as [name post].
  destruct Hf as (Hfind & Hload & -> & Hn1 & Hn2).
  destruct post as [|c v];
    [eapply does_bad; [done..|]; intros u; by step_with Hfind; step_with Hload|].
  simpl in Hload. apply nul_free_cons in Hn2 as [_ Hv].
  case_decide as Hc;
    [|eapply does_bad; [done..|]; intros u; step_with Hfind; step_with Hload;
      by rewrite decide_False].
  destruct Hok as [Hl Hsec Hprev].
  destruct (name_correct pre name (v ++ NUL :: r) Hn1) as (pre1 & Hrs & Hpre1 & Hname).
  destruct (value_correct pre1 v r Hv) as (pad & e2 & c2 & line3 & start & r' &
    Hf2 & Hl2 & Hcase & Hsk & Hrs2 & -> & Hlen2 & Hval).
  destruct (Hname (pad ++ parse_value v ++ NUL :: r')) as [rn Hbuf]. rewrite app_assoc in Hbuf.
  destruct (holds_strncpy0 _ _ _ (rstrip_spec name) rn Hprev)
    as (prev & Hcp & Hprev'); [by apply nul_free_rstrip|unfold MAX_NAME; lia..|].
  exists ((pre1 ++ pad) ++ parse_value v ++ NUL :: r'), (il_section l), prev. split.
  { split; simpl; [|done..]. rewrite Hlen2, <- Hlen. len. }
  intros u. step_with Hfind. step_with Hload. rewrite decide_True by done.
  rewrite <- app_assoc, (app_assoc pre). simpl app. step_with store_at.
  rewrite <- app_assoc. step_with Hrs. rewrite <- Hpre1.
  step_with Hf2. step_with Hl2.
  rewrite (bindM_eq _ line3 u u);
    [|destruct Hcase as [[-> ->]|[Hne Hst]];
      [done|rewrite decide_False by done; unfold lift; by rewrite Hst]].
  step_with Hsk. step_with Hrs2.
  rewrite drop_app_length.
  replace (drop (length pre) ((pre1 ++ pad) ++ parse_value v ++ NUL :: r'))
    with (rstrip_spec name ++ NUL :: rn) by (by rewrite Hbuf, drop_app_length).
  step_with Hcp. unfold bindM at 1.
  rewrite (call_handler_correct _ _ _ _ _ (ps_section st));
    [|by eapply holds_cstring|by apply nul_free_rstrip|done].
  simpl. unfold bindM. rewrite obind_assoc. apply obind_ext. intros [r2 u2].
  by rewrite note_error_first.
Qed.

(** The byte order mark test reads only the text of the line. *)
Lemma is_bom_correct text r lineno :
  is_bom (text ++ NUL :: r) lineno
  = Ok (bool_decide (lineno = 1%Z) && bool_decide (take 3 text = BOM)).
Proof.
  unfold is_bom, BOM. destruct (decide (lineno = 1%Z)) as [E|E];
    [rewrite (bool_decide_true _ E)|by rewrite (bool_decide_false _ E)].
  assert (Hf : ∀ P : Prop, ∀ d : Decision P, ¬ P → Ok false = Ok (bool_decide P))
    by (intros P d HP; by rewrite bool_decide_false).
  destruct text as [|a [|b [|c text]]]; simpl;
    repeat first [ done | by apply Hf; intros [=] | case_decide; [|by apply Hf; intros [=]]; simpl ].
  rewrite bool_decide_true; [done|by subst].
Qed.

(** A call of the handler that only changes the error value. *)
Lemma does_entry m l st line section name value :
  locals_ok l st → length line = INI_MAX_LINE →
  (∀ u, m u = obind (handler section name value u) (λ '(r, u'),
     Ok ({| il_line := line; il_section := il_section l;
            il_prev_name := il_prev_name l; il_lineno := il_lineno l;
            il_error := note_error r l |}, u'))) →
  does m section (AEntry name value) (il_lineno l) (il_error l) st.
Proof.
  intros [Hl Hsec Hprev] Hlen Hm.
  exists line, (il_section l), (il_prev_name l). split; [by split|].
  intros u. rewrite Hm. simpl. unfold bindM. rewrite obind_assoc.
  apply obind_ext. intros [r u']. by rewrite note_error_first.
Qed.

Lemma does_skip m l st line section :
  locals_ok l st → length line = INI_MAX_LINE →
  (∀ u, m u = retM {| il_line := line; il_section := il_section l;
                      il_prev_name := il_prev_name l; il_lineno := il_lineno l;
                      il_error := il_error l |} u) →
  does m section ASkip (il_lineno l) (il_error l) st.
Proof.
  intros [Hl Hsec Hprev] Hlen Hm.
  exists line, (il_section l), (il_prev_name l). split; [by split|]. intros u. by rewrite Hm.
Qed.

(** [lskip(rstrip(start))] on a line: where it ends, and what the buffer is. *)
Lemma trim_correct (bom : bool) text r :
  nul_free text → (bom = true → take 3 text = BOM) →
  let body := rstrip_spec (if bom then drop 3 text else text) in
  let t := lstrip body in
  ∃ pre r', rstrip (text ++ NUL :: r) (if bom then 3 else 0) = Ok (pre ++ t ++ NUL :: r') ∧
    lskip (pre ++ t ++ NUL :: r') (if bom then 3 else 0) = Ok (length pre) ∧
    length (pre ++ t ++ NUL :: r') = length (text ++ NUL :: r) ∧ nul_free t ∧
    bool_decide (0 < length pre) = bom || bool_decide (length t < length body).
Proof.
  intros Hn Hbom. set (head := if bom then BOM else []).
  set (body0 := if bom then drop 3 text else text).
  assert (Htext : text = head ++ body0).
  { subst head body0. destruct bom; [|done]. by rewrite <- Hbom, take_drop. }
  assert ((if bom then 3 else 0) = length head) as -> by (by destruct bom).
  intros body t. rewrite Htext in Hn. apply nul_free_app in Hn as [_ Hn].
  destruct (lstrip_decomp body) as (ws & Hws & _). fold t in Hws.
  destruct (pad_cons (length body0 - length body) r) as [r' Hr'].
  exists (head ++ ws), r'.
  assert (Hbuf : (head ++ ws) ++ t ++ NUL :: r' = head ++ body ++ NUL :: r').
  { rewrite Hws at 1. by rewrite <- !app_assoc. }
  assert (Hbody : nul_free body) by (by apply nul_free_rstrip).
  rewrite Hbuf, Htext, <- app_assoc. split.
  { rewrite rstrip_correct by done. fold body. by rewrite Hr'. }
  split. { rewrite <- Hbuf, <- !app_assoc. apply lskip_correct; by rewrite <- Hws. }
  destruct (rstrip_decomp body0) as (ws' & H & _). fold body in H.
  apply (f_equal length) in H, Hr', Hws.
  split; [len|]. split; [by apply nul_free_lstrip|].
  destruct bom; simpl; [done|].
  apply bool_decide_ext. len.
Qed.

(** The if-else chain on a trimmed line is the choice of [parse_line]. *)
Lemma line_branch_correct l st pre t r (indented : bool) :
  locals_ok l st → nul_free t → length (pre ++ t ++ NUL :: r) = INI_MAX_LINE →
  bool_decide (0 < length pre) = indented →
  let p := match t with
    | [] => (ASkip, st)
    | c :: rest =>
        if decide (c ∈ INI_START_COMMENT_PREFIXES) then (ASkip, st)
        else if negb (bool_decide (ps_prev st = [])) && indented
        then (AEntry (ps_prev st) t, st)
        else if decide (c = "["%char) then parse_section st rest
        else parse_pair st t
    end in
  does (line_branch handler l (pre ++ t ++ NUL :: r) (length pre)
          (hd NUL t) (hd NUL (ps_prev st)))
    (ps_section st) p.1 (il_lineno l) (il_error l) p.2.
Proof.
  intros Hok Hn Hlen Hind. unfold line_branch.
  destruct t as [|c rest]; [by eapply does_skip|].
  pose proof Hn as [Hc Hrest]%nul_free_cons. simpl hd.
  rewrite strchr_spec by done.
  destruct (decide (c ∈ INI_START_COMMENT_PREFIXES)) as [Hin|Hin];
    [rewrite bool_decide_true by done; by eapply does_skip|].
  rewrite bool_decide_false by done.
  destruct (lo_prev _ _ Hok) as (_ & Hprev & rp & Hp).
  assert (Hcond : hd NUL (ps_prev st) ≠ NUL ∧ c ≠ NUL ∧ 0 < length pre ↔
                  negb (bool_decide (ps_prev st = [])) && indented = true).
  { rewrite andb_true_iff, negb_true_iff, bool_decide_eq_false.
    rewrite <- Hind, bool_decide_eq_true. split.
    - intros (H1 & _ & H2). split; [|done]. intros E. by rewrite E in H1.
    - intros [H1 H2]. split; [|done]. intros E. by apply H1, hd_nul_free. }
  destruct (negb _ && _); [rewrite decide_True by (by apply Hcond)
                          |rewrite decide_False by (intros H; by apply Hcond in H)].
  - eapply does_entry; [done..|]. intros u. rewrite drop_app_length, Hp.
    unfold bindM. by rewrite (call_handler_correct _ _ _ _ _ (ps_section st));
      [|eapply holds_cstring, lo_section|..].
  - destruct (decide (c = "["%char)) as [->|Hb].
    + by apply section_line_correct.
    + rewrite decide_True by done. by apply pair_line_correct.
Qed.

Lemma does_ext m m' section a lineno err st' :
  (∀ u, m' u = m u) → does m section a lineno err st' → does m' section a lineno err st'.
Proof.
  intros E (line & sec & prev & H & Hm). exists line, sec, prev. split; [done|].
  intros u. by rewrite E, Hm.
Qed.

(** One iteration of the parser's loop is [parse_line]. *)
Lemma process_line_correct l st chunk r :
  locals_ok l st → il_line l = chunk ++ NUL :: r →
  let p := parse_line (bool_decide (il_lineno l = 1%Z)) st chunk in
  does (process_line handler l) (ps_section st) p.1 (il_lineno l) (il_error l) p.2.
Proof.
  intros Hok Hline. unfold parse_line.
  destruct (until_nul_split chunk r) as [r1 Hr1]. rewrite Hr1 in Hline.
  pose proof (nul_free_until chunk) as Htext.
  set (text := until_nul chunk) in *.
  pose proof (is_bom_correct text r1 (il_lineno l)) as Hb.
  set (bom := bool_decide (il_lineno l = 1%Z) && _) in *.
  destruct (trim_correct bom text r1) as (pre & r2 & Hrs & Hsk & Hlen & Hn & Hind);
    [done| |].
  { intros E. by apply andb_prop in E as [_ ?%bool_decide_eq_true]. }
  rewrite <- Hline, (lo_line _ _ Hok) in Hlen.
  eapply does_ext; [|by apply line_branch_correct].
  intros u. unfold process_line. rewrite <- Hline in Hb, Hrs.
  step_with Hb. step_with Hrs. step_with Hsk. step_with load_app_hd.
  by step_with (holds_load_0 _ _ _ (lo_prev _ _ Hok)).
Qed.
End lines.
