(* ===== verification/IniReader.v ===== *)
(** * The reader interface of the INI parser

    What [ini_parse_stream] relies on when it calls its [ini_reader]
    ([IniReaderSpec]), and the proofs that [fgets] on a file and
    [ini_reader_string] on a string keep that promise. *)
From stdpp Require Import base list numbers gmap strings.
From Stdlib Require Import Ascii ZArith.
From S2P Require Import Prelude CLib Ini IniSpec.

(** [pending]: the bytes still to be delivered.  A read of an exhausted stream
    is NULL; any other read puts the next piece of the stream, NUL-terminated,
    at the start of the buffer and leaves the rest of the buffer alone. *)
Class IniReaderSpec (St : Type) `{!IniReader St} := {
  pending : St → list ascii;
  reader_ok : St → Prop;
  read_eof buf n s :
    reader_ok s → pending s = [] → 2 ≤ n → ini_read buf (Z.of_nat n) s = Ok (None, s);
  read_chunk buf n s :
    reader_ok s → pending s ≠ [] → 2 ≤ n → n ≤ length buf →
    let c := fgets_chunk (n - 1) (pending s) in
    ∃ s', ini_read buf (Z.of_nat n) s = Ok (Some (c ++ NUL :: drop (S (length c)) buf), s') ∧
          pending s' = drop (length c) (pending s) ∧ reader_ok s'
}.

(** ** Pieces of the stream *)

Lemma fgets_chunk_length n l : length (fgets_chunk n l) ≤ n.
Proof.
  revert l. induction n as [|n IH]; intros [|c l]; simpl; try lia.
  case_decide; simpl; [lia|]. specialize (IH l). lia.
Qed.

Lemma fgets_chunk_length_l n l : length (fgets_chunk n l) ≤ length l.
Proof.
  revert l. induction n as [|n IH]; intros [|c l]; simpl; try lia.
  case_decide; simpl; [lia|]. specialize (IH l). lia.
Qed.

Lemma fgets_chunk_pos n l : 1 ≤ n → l ≠ [] → 1 ≤ length (fgets_chunk n l).
Proof. intros. destruct n, l; simpl; try lia; [done|]. case_decide; simpl; lia. Qed.

(** The pieces are exactly the stream. *)
Lemma fgets_chunk_split n l : fgets_chunk n l ++ drop (length (fgets_chunk n l)) l = l.
Proof.
  revert l. induction n as [|n IH]; intros [|c l]; simpl; try done.
  case_decide; simpl; [done|]. by rewrite IH.
Qed.

Lemma chunks_fuel_enough n f1 f2 l :
  1 ≤ n → length l ≤ f1 → length l ≤ f2 → chunks_fuel f1 n l = chunks_fuel f2 n l.
Proof.
  intros Hn. revert f2 l. induction f1 as [|f1 IH]; intros f2 l H1 H2.
  { destruct l; [|simpl in H1; lia]. by destruct f2. }
  destruct l as [|c l]; [by destruct f2|]. destruct f2 as [|f2]; [simpl in H2; lia|].
  simpl chunks_fuel. f_equal.
  assert (1 ≤ length (fgets_chunk n (c :: l))) by (by apply fgets_chunk_pos).
  apply IH; rewrite length_drop; simpl in *; lia.
Qed.

Lemma chunks_nil n : chunks n [] = [].
Proof. done. Qed.

Lemma chunks_unfold n l :
  1 ≤ n → l ≠ [] →
  chunks n l = fgets_chunk n l :: chunks n (drop (length (fgets_chunk n l)) l).
Proof.
  intros Hn Hl. unfold chunks. pose proof (fgets_chunk_pos n l Hn Hl).
  destruct l as [|c l]; [done|]. simpl length at 1. simpl chunks_fuel at 1. f_equal.
  apply chunks_fuel_enough; [done|rewrite length_drop; simpl in *; lia|done].
Qed.

Lemma chunks_length n l : length (chunks n l) ≤ length l.
Proof.
  unfold chunks. generalize (length l). intros f. revert l.
  induction f as [|f IH]; intros l; [done|]. destruct l as [|c l]; simpl; [lia|].
  apply le_n_S, IH.
Qed.

(** ** fgets *)

#[export] Program Instance fgets_spec : IniReaderSpec FILE := {
  pending := file_left;
  reader_ok _ := True
}.
Next Obligation. intros buf n [l] _ Hl _. unfold ini_read, fgets. simpl in *. by rewrite Hl. Qed.
Next Obligation.
  intros buf n [l] _ Hl H2 Hn. simpl in *. unfold ini_read, fgets. simpl.
  destruct l as [|x l]; [done|]. rewrite decide_False by lia.
  replace (Z.to_nat (Z.of_nat n - 1)) with (n - 1) by lia.
  pose proof (fgets_chunk_length (n - 1) (x :: l)).
  unfold blit. rewrite decide_True by lia. by eexists.
Qed.

(** ** ini_reader_string *)

Lemma reader_string_loop_correct d0 d n ptr num_left :
  num_left ≤ length ptr → n < length d →
  let c := fgets_chunk n (take num_left ptr) in
  reader_string_loop (d0 ++ d) (length d0) (Z.of_nat (S n)) ptr num_left
  = Ok (d0 ++ c ++ drop (length c) d, length d0 + length c,
        drop (length c) ptr, num_left - length c).
Proof.
  revert d0 d n ptr. induction num_left as [|k IH]; intros d0 d n ptr Hk Hn; simpl.
  { rewrite take_0. destruct n; simpl; rewrite Nat.add_0_r, !drop_0; done. }
  destruct n as [|n].
  { rewrite decide_False by lia. simpl. by rewrite Nat.add_0_r. }
  destruct ptr as [|x ptr]; simpl in Hk; [lia|]. destruct d as [|y d]; simpl in Hn; [lia|].
  rewrite decide_True by lia.
  rewrite store_at. simpl.
  case_decide as Hx; simpl.
  { rewrite Nat.sub_0_r. by rewrite Nat.add_1_r. }
  replace (Z.of_nat (S (S n)) - 1)%Z with (Z.of_nat (S n)) by lia.
  specialize (IH (d0 ++ [x]) d n ptr). rewrite length_app, <- !app_assoc in IH.
  simpl in IH. rewrite Nat.add_1_r in IH. rewrite IH by lia.
  by rewrite <- app_assoc, <- Nat.add_succ_comm.
Qed.

#[export] Program Instance ini_reader_string_spec : IniReaderSpec ini_parse_string_ctx := {
  pending c := take (ctx_num_left c) (ctx_ptr c);
  reader_ok c := ctx_num_left c ≤ length (ctx_ptr c)
}.
Next Obligation.
  intros buf n [ptr k] Hok Hl _. simpl in *. unfold ini_read, ini_reader_string. simpl.
  apply (f_equal length) in Hl. rewrite length_take in Hl. simpl in Hl.
  by rewrite (bool_decide_true (k = 0)) by lia.
Qed.
Next Obligation.
  intros buf n [ptr k] Hok Hl H2 Hn. simpl in *. unfold ini_read, ini_reader_string. simpl.
  rewrite bool_decide_false by (intros ->; by rewrite take_0 in Hl).
  rewrite bool_decide_false by lia. simpl.
  destruct n as [|n]; [lia|]. simpl. rewrite Nat.sub_0_r.
  pose proof (reader_string_loop_correct [] buf n ptr k Hok) as Hloop. simpl in Hloop.
  rewrite Hloop by lia. simpl. set (c := fgets_chunk n (take k ptr)).
  pose proof (fgets_chunk_length n (take k ptr)) as Hc1. fold c in Hc1.
  pose proof (fgets_chunk_length_l n (take k ptr)) as Hc2. fold c in Hc2.
  rewrite length_take in Hc2.
  destruct (drop (length c) buf) as [|y r] eqn:E;
    [apply (f_equal length) in E; len|].
  rewrite store_at. simpl. eexists. split; [|split; simpl].
  - apply drop_cons_lookup in E as [_ E]. by rewrite <- E.
  - simpl. rewrite take_drop_commute. by replace (length c + (k - length c)) with k by lia.
  - simpl. len.
Qed.
