(* ===== verification/IniLoop.v ===== *)
(** * The INI parser's loop

    The loop of [ini_parse_stream] over any reader that keeps the interface's
    promise is [run_lines] over the pieces of the stream; the lemmas the
    properties of the parser follow from. *)
From stdpp Require Import base list numbers gmap strings.
From Stdlib Require Import Ascii ZArith.
From S2P Require Import Prelude CLib Ini IniSpec IniRefine IniReader.

Section loop.
Context {U : Type} (handler : list ascii → list ascii → list ascii → M U Z).
Context {St : Type} `{IniReaderSpec St}.

Lemma locals_ok_init line0 :
  length line0 = INI_MAX_LINE →
  locals_ok {| il_line := line0; il_section := empty_buffer MAX_SECTION;
               il_prev_name := empty_buffer MAX_NAME; il_lineno := 0; il_error := 0 |}
            {| ps_section := []; ps_prev := [] |}.
Proof.
  intros H'. split; simpl; [done|..]; repeat split; [done| |done|];
    eexists; reflexivity.
Qed.

(** Locals that differ in line, line number and error stay well formed. *)
Lemma locals_ok_line l st line lineno err :
  locals_ok l st → length line = INI_MAX_LINE →
  locals_ok {| il_line := line; il_section := il_section l;
               il_prev_name := il_prev_name l; il_lineno := lineno;
               il_error := err |} st.
Proof. intros [? ? ?] ?. by split. Qed.

Lemma ini_loop_correct fuel stream l st u :
  locals_ok l st → reader_ok stream →
  length (pending stream) < fuel →
  (0 ≤ il_lineno l)%Z →
  (il_lineno l + Z.of_nat (length (pending stream)) ≤ INT_MAX)%Z →
  ini_loop handler fuel stream l u
  = run_lines handler (il_lineno l) st (il_error l)
      (chunks (INI_MAX_LINE - 1) (pending stream)) u.
Proof.
  revert stream l st u. induction fuel as [|fuel IH]; [lia|].
  intros stream l st u Hok Hrd Hfuel Hpos Hmax. cbn [ini_loop].
  destruct (decide (pending stream = [])) as [Hnil|Hnil].
  { rewrite Hnil.
    rewrite (bindM_lift_Ok _ _ _ _ (read_eof _ INI_MAX_LINE _ Hrd Hnil ltac:(unfold INI_MAX_LINE; lia))).
    done. }
  rewrite chunks_unfold by (done || unfold INI_MAX_LINE; lia).
  destruct (read_chunk (il_line l) INI_MAX_LINE stream) as (s' & Hread & Hpend & Hrd');
    [done|done|unfold INI_MAX_LINE; lia|by rewrite (lo_line _ _ Hok)|].
  step_with Hread. set (c := fgets_chunk _ _) in *.
  assert (1 ≤ length c) by (apply fgets_chunk_pos; [unfold INI_MAX_LINE; lia|done]).
  assert (Hc : length c ≤ INI_MAX_LINE - 1) by apply fgets_chunk_length.
  assert (Hc' : length c ≤ length (pending stream)) by apply fgets_chunk_length_l.
  assert (Hinc : int_incr (il_lineno l) = Ok (il_lineno l + 1)%Z)
    by (unfold int_incr; rewrite decide_False by lia; done).
  cbn beta iota. step_with Hinc.
  set (l1 := Build_ini_locals _ _ _ _ _).
  assert (Hl1 : locals_ok l1 st).
  { apply (locals_ok_line l); [done|]. pose proof (lo_line _ _ Hok) as Hll.
    unfold INI_MAX_LINE in *. len. }
  pose proof (process_line_correct handler l1 st c _ Hl1 eq_refl) as Hline.
  assert (bool_decide (il_lineno l1 = 1%Z) = bool_decide (il_lineno l = 0%Z)) as Hb
    by (apply bool_decide_ext; simpl; lia).
  rewrite Hb in Hline. destruct Hline as (line & sec & prev & Hok' & Hrun).
  unfold bindM at 1. rewrite Hrun. cbn [run_lines il_lineno l1].
  destruct (parse_line _ st c) as [a st'] eqn:Epl. cbn [fst snd] in *.
  unfold bindM. rewrite obind_assoc. apply obind_ext. intros [err' u'].
  cbn [obind]. rewrite (IH _ _ st').
  - by rewrite Hpend.
  - destruct Hok' as [? ? ?]. by split.
  - done.
  - rewrite Hpend, length_drop. lia.
  - simpl. lia.
  - rewrite Hpend, length_drop. simpl. lia.
Qed.

Lemma ini_parse_stream_correct fuel line0 stream u :
  length line0 = INI_MAX_LINE → reader_ok stream →
  length (pending stream) < fuel →
  (Z.of_nat (length (pending stream)) ≤ INT_MAX)%Z →
  ini_parse_stream handler fuel line0 stream u
  = parse_spec handler (pending stream) u.
Proof.
  intros Hl Hrd Hfuel Hmax. unfold ini_parse_stream, parse_spec.
  apply ini_loop_correct; simpl; [by apply locals_ok_init|done..].
Qed.
End loop.
