(* ===== verification/IniPrint.v ===== *)
(** * Printing configuration files

    A printer for the format that unreliablefs.conf(5) documents ([Option =
    Value] lines under [\[Section\]] headers) and the lemmas that lead to the
    round trip with the parser.  The printer is not part of the program: it
    states which files carry a given list of entries. *)
From stdpp Require Import base list numbers gmap strings.
From Stdlib Require Import Ascii ZArith.
From S2P Require Import Prelude CLib Ini IniSpec IniRefine IniReader.

Definition SP : ascii := " "%char.

(** A section: its name and its options. *)
Abbreviation ini_doc := (list (list ascii * list (list ascii * list ascii))).

Definition section_text (s : list ascii) : list ascii := "["%char :: s ++ ["]"%char].
Definition option_text (kv : list ascii * list ascii) : list ascii :=
  kv.1 ++ SP :: "="%char :: SP :: kv.2.

(** The lines of a document, without their newlines. *)
Definition doc_lines (d : ini_doc) : list (list ascii) :=
  concat (map (λ p, section_text p.1 :: map option_text p.2) d).

Definition print_lines (ls : list (list ascii)) : list ascii :=
  concat (map (λ l, l ++ [LF]) ls).

Definition print_doc (d : ini_doc) : list ascii := print_lines (doc_lines d).

Definition doc_entries (d : ini_doc) : list (list ascii * list ascii * list ascii) :=
  concat (map (λ p, map (λ kv, (p.1, kv.1, kv.2)) p.2) d).

(** ** Which documents survive *)

(** A line that one [fgets] reads whole and that holds no NUL. *)
Definition line_ok (l : list ascii) : Prop :=
  nul_free l ∧ (LF ∉ l) ∧ length l ≤ INI_MAX_LINE - 2.

Definition trimmed (s : list ascii) : Prop := lstrip s = s ∧ rstrip_spec s = s.

Definition section_ok (s : list ascii) : Prop :=
  span (str "]") false s = (s, []) ∧ length s ≤ MAX_SECTION - 1 ∧ line_ok (section_text s).

Definition key_ok (k : list ascii) : Prop :=
  trimmed k ∧ span (str "=:") false k = (k, []) ∧
  match k with [] => False | c :: _ => (c ∉ INI_START_COMMENT_PREFIXES) ∧ c ≠ "["%char end.

Definition value_ok (v : list ascii) : Prop :=
  trimmed v ∧ span [] true v = (v, []).

Definition option_ok (kv : list ascii * list ascii) : Prop :=
  key_ok kv.1 ∧ value_ok kv.2 ∧ line_ok (option_text kv).

Definition doc_ok (d : ini_doc) : Prop :=
  Forall (λ p, section_ok p.1 ∧ Forall option_ok p.2) d.

#[export] Instance doc_ok_dec d : Decision (doc_ok d).
Proof.
  apply Forall_dec. intros [s kvs]. apply and_dec.
  - unfold section_ok, line_ok, nul_free. apply _.
  - apply Forall_dec. intros [k v]. unfold option_ok, key_ok, value_ok, trimmed, line_ok, nul_free.
    repeat apply and_dec; try apply _. simpl. destruct k; apply _.
Defined.

(** ** Lines of the stream *)

Lemma fgets_chunk_line l rest n :
  LF ∉ l → length l < n → fgets_chunk n (l ++ LF :: rest) = l ++ [LF].
Proof.
  revert n. induction l as [|c l IH]; intros n Hl Hn; simpl in Hn.
  - destruct n; [lia|]. done.
  - destruct n; [lia|]. apply not_elem_of_cons in Hl as [Hc Hl]. simpl.
    rewrite decide_False by congruence. by rewrite IH by (done || lia).
Qed.

Lemma chunks_print_lines ls :
  Forall line_ok ls →
  chunks (INI_MAX_LINE - 1) (print_lines ls) = map (λ l, l ++ [LF]) ls.
Proof.
  induction 1 as [|l ls (_ & Hlf & Hlen) _ IH]; [done|].
  assert (print_lines (l :: ls) = l ++ LF :: print_lines ls) as ->
    by (unfold print_lines; simpl; by rewrite <- app_assoc).
  unfold INI_MAX_LINE in *.
  rewrite chunks_unfold by (lia || by destruct l).
  rewrite fgets_chunk_line by (done || lia). simpl. f_equal.
  replace (l ++ LF :: print_lines ls) with ((l ++ [LF]) ++ print_lines ls)
    by (by rewrite <- app_assoc).
  by rewrite drop_app_length.
Qed.

(** ** Lines of the document *)

Lemma rstrip_trimmed_app s : rstrip_spec s = s → rstrip_spec (s ++ [LF]) = s.
Proof. intros H. by rewrite rstrip_snoc. Qed.

Lemma until_nul_line l : nul_free l → until_nul (l ++ [LF]) = l ++ [LF].
Proof. intros H. apply until_nul_id. apply nul_free_app. split; [done|]. by apply nul_free_cons. Qed.

Lemma span_app stops ws l c r :
  span stops ws l = (l, []) → c ∈ stops → span stops ws (l ++ c :: r) = (l, c :: r).
Proof.
  revert ws. induction l as [|x l IH]; intros ws Hl Hc; simpl in *.
  - by rewrite bool_decide_true.
  - destruct (bool_decide (x ∈ stops) || _); [done|].
    destruct (span stops (isspace x) l) as [a b] eqn:E. injection Hl as -> ->.
    by rewrite IH.
Qed.

Lemma rstrip_app_nonspace a c b :
  isspace c = false → rstrip_spec (a ++ c :: b) = a ++ c :: rstrip_spec b.
Proof.
  intros Hc. assert (Hcb : rstrip_spec (c :: b) = c :: rstrip_spec b).
  { simpl. rewrite Hc. by destruct (rstrip_spec b). }
  induction a as [|x a IH]; [done|]. simpl app. simpl rstrip_spec at 1. rewrite IH.
  by destruct a.
Qed.

(** A line that starts with a visible character and is neither a comment nor,
    by its indentation, a continuation. *)
Lemma parse_line_plain first st c rest body :
  nul_free (c :: rest) → first = false ∨ c ≠ "239"%char → isspace c = false →
  c ∉ INI_START_COMMENT_PREFIXES →
  rstrip_spec (rest ++ [LF]) = body →
  parse_line first st ((c :: rest) ++ [LF])
  = if decide (c = "["%char) then parse_section st body else parse_pair st (c :: body).
Proof.
  intros Hn Hbom Hsp Hcom Hb. unfold parse_line. rewrite until_nul_line by done.
  assert (first && bool_decide (take 3 ((c :: rest) ++ [LF]) = BOM) = false) as ->.
  { destruct Hbom as [->|Hc]; [done|].
    rewrite bool_decide_false by (by intros [= ? _]). by destruct first. }
  simpl app.
  change (c :: rest ++ [LF]) with ([] ++ c :: rest ++ [LF]).
  rewrite rstrip_app_nonspace, Hb by done. simpl app.
  assert (lstrip (c :: body) = c :: body) as -> by (simpl; by rewrite Hsp).
  rewrite decide_False by done. rewrite (bool_decide_false (_ < _)) by lia.
  by rewrite andb_false_r.
Qed.

(** The meaning of a printed section line. *)
Lemma parse_section_line first st s :
  section_ok s →
  parse_line first st (section_text s ++ [LF]) = (ASkip, {| ps_section := s; ps_prev := [] |}).
Proof.
  intros (Hspan & Hlen & Hn & _). unfold section_text in *.
  rewrite (parse_line_plain _ _ _ _ (s ++ ["]"%char])).
  - rewrite decide_True by done. unfold parse_section.
    rewrite (span_app _ _ _ _ [] Hspan) by (by left). by rewrite decide_True, take_ge.
  - done.
  - by right.
  - done.
  - by intros [|[|[]%not_elem_of_nil]%elem_of_cons]%elem_of_cons.
  - by rewrite rstrip_snoc, rstrip_snoc.
Qed.

Lemma span_snoc_space stops ws l :
  span stops ws l = (l, []) → SP ∉ stops → span stops ws (l ++ [SP]) = (l ++ [SP], []).
Proof.
  intros Hl Hs. revert ws Hl. induction l as [|x l IH]; intros ws Hl; simpl in *.
  - rewrite bool_decide_false by done. by rewrite andb_false_r.
  - destruct (bool_decide (x ∈ stops) || _); [done|].
    destruct (span stops (isspace x) l) as [a b] eqn:E. injection Hl as -> ->.
    by rewrite IH.
Qed.

Lemma key_ok_head k : key_ok k →
  ∃ c k', k = c :: k' ∧ isspace c = false ∧ (c ∉ INI_START_COMMENT_PREFIXES) ∧ c ≠ "["%char.
Proof.
  intros ([Hl _] & _ & H). destruct k as [|c k]; [done|]. destruct H as [H1 H2].
  exists c, k. split; [done|]. split; [|done]. by apply (lstrip_head (c :: k) c k).
Qed.

Lemma rstrip_value v : trimmed v → rstrip_spec (SP :: v ++ [LF]) = match v with [] => [] | _ => SP :: v end.
Proof.
  intros [_ Hv]. rewrite app_comm_cons, rstrip_snoc. simpl. rewrite Hv. by destruct v.
Qed.

Lemma parse_value_printed v :
  value_ok v → parse_value (match v with [] => [] | _ => SP :: v end) = v.
Proof.
  intros [[Hl Hr] Hspan]. unfold parse_value. destruct v as [|c v]; [done|].
  assert (span [] false (SP :: c :: v) = (SP :: c :: v, [])) as ->.
  { change (span [] false (SP :: c :: v))
      with (let '(pre, post) := span [] true (c :: v) in (SP :: pre, post)).
    by rewrite Hspan. }
  cbn [fst]. change (lstrip (SP :: c :: v)) with (lstrip (c :: v)). by rewrite Hl.
Qed.

(** The meaning of a printed option line. *)
Lemma parse_option_line st kv :
  option_ok kv →
  parse_line false st (option_text kv ++ [LF])
  = (AEntry kv.1 kv.2, {| ps_section := ps_section st; ps_prev := take (MAX_NAME - 1) kv.1 |}).
Proof.
  destruct kv as [k v]. intros (Hk & Hv & Hn & _). unfold option_text in *. cbn [fst snd] in *.
  destruct (key_ok_head _ Hk) as (c & k' & -> & Hsp & Hcom & Hb).
  set (w := match v with [] => [] | _ => SP :: v end).
  rewrite <- app_comm_cons.
  rewrite (parse_line_plain _ _ _ _ (k' ++ SP :: "="%char :: w)).
  - rewrite decide_False by done. unfold parse_pair.
    destruct Hk as ([Hl Hr] & Hspan & _).
    assert (Hs : span (str "=:") false ((c :: k') ++ [SP]) = ((c :: k') ++ [SP], [])).
    { apply span_snoc_space; [done|]. by intros [|[|[]%not_elem_of_nil]%elem_of_cons]%elem_of_cons. }
    replace (c :: k' ++ SP :: "="%char :: w) with (((c :: k') ++ [SP]) ++ "="%char :: w)
      by (by rewrite <- app_assoc).
    rewrite (span_app _ _ _ _ w Hs) by (by left). rewrite decide_True by (by left).
    rewrite rstrip_snoc. change (isspace SP) with true. cbv iota. rewrite Hr.
    subst w. by rewrite parse_value_printed.
  - done.
  - by left.
  - done.
  - done.
  - rewrite <- app_assoc. cbn [app]. change (SP :: "="%char :: SP :: v ++ [LF])
      with ([SP] ++ "="%char :: (SP :: v ++ [LF])).
    rewrite app_assoc, rstrip_app_nonspace by done. rewrite rstrip_value by apply Hv.
    by rewrite <- app_assoc.
Qed.

(** ** The whole document *)

(** The options of a section, from any line but the first. *)
Lemma entries_options st kvs ls :
  Forall option_ok kvs →
  ∃ st', ps_section st' = ps_section st ∧
    entries_of false st (map (λ l, l ++ [LF]) (map option_text kvs) ++ ls)
    = map (λ kv, (ps_section st, kv.1, kv.2)) kvs ++ entries_of false st' ls.
Proof.
  intros H. revert st. induction H as [|kv kvs Hkv _ IH]; intros st; [by exists st|].
  cbn [map app entries_of]. rewrite parse_option_line by done.
  destruct (IH {| ps_section := ps_section st; ps_prev := take (MAX_NAME - 1) kv.1 |})
    as (st' & Hs & ->). exists st'. split; [done|]. by destruct kv.
Qed.

Lemma doc_line_ok d : doc_ok d → Forall line_ok (doc_lines d).
Proof.
  induction 1 as [|[s kvs] d [(_ & _ & Hs) Hkvs] _ IH]; [constructor|].
  unfold doc_lines. simpl. apply Forall_cons. split; [done|]. apply Forall_app. split; [|done].
  apply Forall_map. eapply Forall_impl; [exact Hkvs|]. by intros kv (_ & _ & ?).
Qed.

Lemma entries_of_doc first st d :
  doc_ok d → entries_of first st (map (λ l, l ++ [LF]) (doc_lines d)) = doc_entries d.
Proof.
  intros H. revert first st. induction H as [|[s kvs] d [Hs Hkvs] _ IH]; intros first st; [done|].
  unfold doc_lines, doc_entries in *. cbn [map concat fst snd app entries_of].
  rewrite parse_section_line by done. rewrite map_app.
  destruct (entries_options {| ps_section := s; ps_prev := [] |} kvs
    (map (λ l, l ++ [LF]) (concat (map (λ p, section_text p.1 :: map option_text p.2) d))) Hkvs)
    as (st' & _ & ->). by rewrite IH.
Qed.
