(* ===== verification/IniProps.v ===== *)
(** * Properties of the INI parser

    The theorems about conf.c: refinement of the parser's contract, memory
    safety and termination for every input, agreement of the two entry points,
    the result code, and the round trip with the documented file format. *)
From stdpp Require Import base list numbers gmap strings.
From Stdlib Require Import Ascii ZArith.
From S2P Require Import Prelude CLib Ini IniSpec IniRefine IniReader IniLoop IniPrint.

(** The uninitialised line buffer of the witnesses: any 200 bytes. *)
Definition garbage : list ascii := replicate INI_MAX_LINE "Z"%char.

(** A handler that records what it is called with and accepts everything. *)
Definition recorder : list ascii → list ascii → list ascii →
    M (list (list ascii * list ascii * list ascii)) Z :=
  λ s n v u, Ok (1%Z, u ++ [(s, n, v)]).

(** ** Lemmas on [run_lines] *)

Section runs.
Context {U : Type} (handler : list ascii → list ascii → list ascii → M U Z).

(** Handlers that never fault. *)
Definition never_faults : Prop :=
  ∀ s n v u, ∃ r u', handler s n v u = Ok (r, u').

Lemma run_lines_total ls n st err u :
  never_faults → (0 ≤ n)%Z → (0 ≤ err ≤ n)%Z →
  ∃ err' u', run_lines handler n st err ls u = Ok (err', u') ∧
             (0 ≤ err' ≤ n + Z.of_nat (length ls))%Z.
Proof.
  intros Hh. revert n st err u.
  induction ls as [|l ls IH]; intros n st err u Hn Herr; simpl.
  { exists err, u. split; [done|lia]. }
  destruct (parse_line _ st l) as [a st'].
  assert (∃ err1 u1, run_action handler (ps_section st) a (n + 1) err u = Ok (err1, u1)
            ∧ (0 ≤ err1 ≤ n + 1)%Z) as (err1 & u1 & Hrun & Herr1).
  { destruct a as [| |nm v]; simpl; [exists err, u; split; [done|lia]|..].
    - exists (first_error err (n + 1)), u. split; [done|].
      unfold first_error. case_decide; lia.
    - destruct (Hh (ps_section st) nm v u) as (r & u' & Hr). unfold bindM. rewrite Hr.
      eexists _, u'. split; [done|]. unfold first_error. repeat case_decide; lia. }
  rewrite (bindM_eq _ _ _ _ _ Hrun).
  destruct (IH (n + 1)%Z st' err1 u1) as (err' & u' & -> & Hb); [lia..|].
  exists err', u'. split; [done|lia].
Qed.

(** Handlers whose answer [ret] and update [f] do not depend on each other. *)
Definition pure_handler (ret : list ascii → list ascii → list ascii → Z)
    (f : U → list ascii * list ascii * list ascii → U) : Prop :=
  ∀ s n v u, handler s n v u = Ok (ret s n v, f u (s, n, v)).

(** The numbers of the lines that are in error: no meaning, or an entry the
    handler rejects with 0. *)
Fixpoint bad_lines (ret : list ascii → list ascii → list ascii → Z) (n : Z)
    (st : parse_state) (ls : list (list ascii)) : list Z :=
  match ls with
  | [] => []
  | l :: ls' =>
      let '(a, st') := parse_line (bool_decide (n = 0%Z)) st l in
      let bad := match a with
                 | ASkip => false
                 | ABad => true
                 | AEntry nm v => bool_decide (ret (ps_section st) nm v = 0%Z)
                 end in
      (if bad then [(n + 1)%Z] else []) ++ bad_lines ret (n + 1) st' ls'
  end.

Lemma run_lines_pure ret f ls n st err u :
  pure_handler ret f → (0 ≤ n)%Z →
  run_lines handler n st err ls u
  = Ok (if decide (err = 0%Z) then hd 0%Z (bad_lines ret n st ls) else err,
        fold_left f (entries_of (bool_decide (n = 0%Z)) st ls) u).
Proof.
  intros Hh. unfold pure_handler in Hh. revert n st err u.
  induction ls as [|l ls IH]; intros n st err u Hn; simpl.
  { unfold retM. case_decide; by subst. }
  destruct (parse_line _ st l) as [a st'].
  assert (Hb : bool_decide (n + 1 = 0)%Z = false) by (apply bool_decide_false; lia).
  unfold bindM, run_action, retM, first_error.
  destruct a as [| |nm v]; simpl; [| |unfold bindM; rewrite Hh; simpl; rewrite bool_decide_decide];
    rewrite IH by lia; rewrite Hb; repeat (case_decide; simpl); done || lia.
Qed.
End runs.

Lemma ini_parse_file_spec {U} (handler : list ascii → list ascii → list ascii → M U Z)
    line0 bytes u :
  length line0 = INI_MAX_LINE →
  (Z.of_nat (length bytes) ≤ INT_MAX)%Z →
  ini_parse_file handler line0 {| file_left := bytes |} u = parse_spec handler bytes u.
Proof.
  intros Hl Hmax. unfold ini_parse_file.
  rewrite (ini_parse_stream_correct handler (H := fgets_spec)); simpl; (done || lia).
Qed.

(** A line of a printed document is never in error. *)
Lemma bad_lines_doc ret n st d :
  doc_ok d → (0 ≤ n)%Z → (∀ s nm v, ret s nm v ≠ 0%Z) →
  bad_lines ret n st (map (λ l, l ++ [LF]) (doc_lines d)) = [].
Proof.
  intros Hd Hn Hret. revert n st Hn. induction Hd as [|[s kvs] d [Hs Hkvs] _ IH]; [done|].
  intros n st Hn. unfold doc_lines in *. cbn [map concat fst snd app bad_lines].
  rewrite parse_section_line by done. cbn [app]. rewrite map_app.
  generalize ({| ps_section := s; ps_prev := [] |}). assert (Hn' : (1 ≤ n + 1)%Z) by lia.
  revert Hn'. generalize (n + 1)%Z. clear n Hn.
  cbn [snd] in Hkvs. induction Hkvs as [|kv kvs' Hkv _ IHk]; intros n Hn st'; cbn [map app bad_lines]; [apply IH; lia|].
  rewrite (bool_decide_false (n = 0%Z)) by lia. rewrite parse_option_line by done.
  rewrite bool_decide_false by apply Hret. cbn [app]. apply IHk; [done|lia].
Qed.

(** C14. Reading a file with [ini_parse_file] is exactly the parser's contract
    [parse_spec]: the stream is cut into pieces of at most 199 bytes, each
    piece has the meaning [parse_line], the handler is called with the entries
    in order, and the result is the first failing line.  This holds for every
    handler, faulting ones included, and every content of the uninitialised
    line buffer. *)
Theorem ini_parse_file_refines_spec {U} (handler : list ascii → list ascii → list ascii → M U Z)
    line0 bytes u :
  length line0 = INI_MAX_LINE →
  (Z.of_nat (length bytes) ≤ INT_MAX)%Z →
  ini_parse_file handler line0 {| file_left := bytes |} u = parse_spec handler bytes u.
Proof. apply ini_parse_file_spec. Qed.

Lemma ini_parse_file_refines_spec_witness :
  length garbage = INI_MAX_LINE ∧ (Z.of_nat (length (str "a=b")) ≤ INT_MAX)%Z ∧
  ini_parse_file recorder garbage {| file_left := str "a=b" |} []
  = parse_spec recorder (str "a=b") [].
Proof.
  split; [reflexivity|]. split; [by vm_compute|].
  apply ini_parse_file_refines_spec; [reflexivity|by vm_compute].
Defined.

(** C21. [ini_parse_string] on a NUL-terminated string does what
    [ini_parse_file] does on a file with the string's characters, whatever
    follows the NUL in memory and whatever the uninitialised line buffers
    hold: [ini_reader_string] is the [fgets] of strings. *)
Theorem ini_parse_string_equals_file {U} (handler : list ascii → list ascii → list ascii → M U Z)
    line0 line1 s after u :
  length line0 = INI_MAX_LINE → length line1 = INI_MAX_LINE →
  nul_free s → (Z.of_nat (length s) ≤ INT_MAX)%Z →
  ini_parse_string handler line0 (s ++ NUL :: after) u
  = ini_parse_file handler line1 {| file_left := s |} u.
Proof.
  intros H0 H1 Hs Hmax. rewrite ini_parse_file_spec by done.
  unfold ini_parse_string. step_with (strlen_app s after Hs).
  assert (Hp : pending {| ctx_ptr := s ++ NUL :: after; ctx_num_left := length s |} = s)
    by (simpl; by rewrite take_app_length).
  rewrite (ini_parse_stream_correct handler (H := ini_reader_string_spec));
    rewrite ?Hp; [done|done|simpl; len|lia|done].
Qed.

Lemma ini_parse_string_equals_file_witness :
  nul_free (str "a=b") ∧
  ini_parse_string recorder garbage (str "a=b" ++ NUL :: str "junk") []
  = ini_parse_file recorder garbage {| file_left := str "a=b" |} [].
Proof.
  assert (nul_free (str "a=b")) as H by (by apply (bool_decide_unpack _)).
  split; [exact H|].
  apply ini_parse_string_equals_file; [reflexivity|reflexivity|exact H|by vm_compute].
Defined.

(** C19. The parser is memory safe and terminates: on any bytes (embedded NULs,
    lines longer than the buffer, byte order marks, unterminated sections), with
    a handler that does not fault, it never reads or writes outside its
    buffers, never runs out of fuel, and returns 0 or the number of a line. *)
Theorem ini_parse_file_safe {U} (handler : list ascii → list ascii → list ascii → M U Z)
    line0 bytes u :
  length line0 = INI_MAX_LINE →
  (Z.of_nat (length bytes) ≤ INT_MAX)%Z →
  never_faults handler →
  ∃ err u', ini_parse_file handler line0 {| file_left := bytes |} u = Ok (err, u') ∧
    (0 ≤ err ≤ Z.of_nat (length (chunks (INI_MAX_LINE - 1) bytes)))%Z.
Proof.
  intros Hl Hmax Hh. rewrite ini_parse_file_spec by done. unfold parse_spec.
  by apply run_lines_total.
Qed.

Lemma ini_parse_file_safe_witness :
  never_faults recorder ∧
  ∃ err u', ini_parse_file recorder garbage {| file_left := str "[x" |} [] = Ok (err, u') ∧
    (0 ≤ err ≤ Z.of_nat (length (chunks (INI_MAX_LINE - 1) (str "[x"))))%Z.
Proof.
  assert (never_faults recorder) as H by (intros s n v u; eexists _, _; reflexivity).
  split; [exact H|].
  apply ini_parse_file_safe; [reflexivity|by vm_compute|exact H].
Defined.

(** C22. The result code and the completeness of the parse: the parser does not
    stop at an error, so the handler sees every entry of the file, and the
    result is the number of the first line that is in error (no meaning, or an
    entry the handler rejects by returning 0), or 0. *)
Theorem ini_parse_file_first_error {U} (handler : list ascii → list ascii → list ascii → M U Z)
    ret f line0 bytes u :
  length line0 = INI_MAX_LINE →
  (Z.of_nat (length bytes) ≤ INT_MAX)%Z →
  pure_handler handler ret f →
  ini_parse_file handler line0 {| file_left := bytes |} u
  = Ok (hd 0%Z (bad_lines ret 0 {| ps_section := []; ps_prev := [] |}
                 (chunks (INI_MAX_LINE - 1) bytes)),
        fold_left f (entries bytes) u).
Proof.
  intros Hl Hmax Hh. rewrite ini_parse_file_spec by done. unfold parse_spec.
  by rewrite (run_lines_pure handler ret f).
Qed.

(** The handler of the witness: it rejects the option "x". *)
Definition picky : list ascii → list ascii → list ascii →
    M (list (list ascii * list ascii * list ascii)) Z :=
  λ s n v u, Ok (if bool_decide (n = str "x") then 0%Z else 1%Z, u ++ [(s, n, v)]).

Lemma ini_parse_file_first_error_witness :
  ini_parse_file picky garbage {| file_left := str "y=1" ++ LF :: str "x=2" ++ LF :: str "z=3" |} []
  = Ok (2%Z, [([], str "y", str "1"); ([], str "x", str "2"); ([], str "z", str "3")]).
Proof.
  rewrite (ini_parse_file_first_error picky
    (λ s n v, if bool_decide (n = str "x") then 0%Z else 1%Z) (λ u e, u ++ [e]));
    [by vm_compute|reflexivity|by vm_compute|].
  intros s n v u. reflexivity.
Defined.

(** C20. Round trip: a document of sections and options, printed in the format
    of unreliablefs.conf(5), is parsed back by [ini_parse_file]: the handler
    is called exactly with the document's entries in order, and the result is
    0.  [doc_ok] says what a document must satisfy: names and values without
    outer white space, separators or inline comments, and lines that fit the
    buffer. *)
Theorem ini_parse_print_roundtrip {U} (handler : list ascii → list ascii → list ascii → M U Z)
    ret f line0 d u :
  length line0 = INI_MAX_LINE →
  (Z.of_nat (length (print_doc d)) ≤ INT_MAX)%Z →
  doc_ok d → pure_handler handler ret f → (∀ s n v, ret s n v ≠ 0%Z) →
  ini_parse_file handler line0 {| file_left := print_doc d |} u
  = Ok (0%Z, fold_left f (doc_entries d) u).
Proof.
  intros Hl Hmax Hd Hh Hret. rewrite ini_parse_file_spec by done.
  unfold parse_spec, print_doc. rewrite (run_lines_pure handler ret f) by done.
  rewrite chunks_print_lines by (by apply doc_line_ok).
  by rewrite bad_lines_doc, entries_of_doc.
Qed.

Definition example_doc : ini_doc :=
  [(str "errinj_noop", [(str "path_regexp", str ".*"); (str "op_regexp", str "^read$");
                        (str "probability", str "70")]);
   (str "errinj_errno", [(str "path_regexp", []); (str "probability", str "4")])].

Lemma ini_parse_print_roundtrip_witness :
  ini_parse_file recorder garbage {| file_left := print_doc example_doc |} []
  = Ok (0%Z, doc_entries example_doc).
Proof.
  rewrite (ini_parse_print_roundtrip recorder (λ _ _ _, 1%Z) (λ u e, u ++ [e]));
    [by vm_compute|reflexivity|by vm_compute
    |apply (bool_decide_unpack (doc_ok example_doc)); by vm_compute
    |by intros s n v u|done].
Defined.
