(* ===== verification/IniConf.v ===== *)
(** * conf.c in every configuration

    The parser for any values of the [INI_*] macros of conf.h: optional
    features, the line buffer on the stack or in the heap, fixed or growing.
    The file Ini is the configuration the program is compiled with; this one
    shares its helpers and readers.  A handler is given the name and value that
    may be null, and the line number when it is compiled to take one. *)
From stdpp Require Import base list numbers gmap strings.
From Stdlib Require Import Ascii ZArith.
From S2P Require Import Prelude CLib Ini.

(** ** conf.h *)

Record ini_options := {
  INI_HANDLER_LINENO : bool;
  INI_ALLOW_MULTILINE : bool;
  INI_ALLOW_BOM : bool;
  START_COMMENT_PREFIXES : list ascii;
  INI_ALLOW_INLINE_COMMENTS : bool;
  INLINE_COMMENT_PREFIXES : list ascii;
  INI_USE_STACK : bool;
  MAX_LINE : nat;
  INI_ALLOW_REALLOC : bool;
  INI_INITIAL_ALLOC : nat;
  INI_STOP_ON_FIRST_ERROR : bool;
  INI_CALL_HANDLER_ON_NEW_SECTION : bool;
  INI_ALLOW_NO_VALUE : bool
}.

Definition conf_h_defaults : ini_options := {|
  INI_HANDLER_LINENO := false;
  INI_ALLOW_MULTILINE := true;
  INI_ALLOW_BOM := true;
  START_COMMENT_PREFIXES := INI_START_COMMENT_PREFIXES;
  INI_ALLOW_INLINE_COMMENTS := true;
  INLINE_COMMENT_PREFIXES := INI_INLINE_COMMENT_PREFIXES;
  INI_USE_STACK := true;
  MAX_LINE := INI_MAX_LINE;
  INI_ALLOW_REALLOC := false;
  INI_INITIAL_ALLOC := 200;
  INI_STOP_ON_FIRST_ERROR := false;
  INI_CALL_HANDLER_ON_NEW_SECTION := false;
  INI_ALLOW_NO_VALUE := false
|}.

(** ** Allocation of the line buffer *)

(** The calls of the allocator, with the size asked for and the success. *)
Inductive alloc_event :=
  | Ini_malloc (size : nat) (ok : bool)
  | Ini_realloc (size : nat) (ok : bool)
  | Ini_free.

(** What [user] points to, and the allocator's calls so far. *)
Record ini_state (U : Type) := { st_user : U; st_allocs : list alloc_event }.
Arguments st_user {U} _.
Arguments st_allocs {U} _.
Arguments Build_ini_state {U} _ _.

Section options.
Context (o : ini_options).

(** The loop of [find_chars_or_comment], in its two versions. *)
Fixpoint find_loop_o (chars : option (list ascii)) (was_space : bool) (s : list ascii)
    : outcome nat :=
  match s with
  | [] => Fault oob
  | c :: s' =>
      let no_stop := negb (bool_decide (c = NUL)) &&
                     match chars with None => true | Some cs => negb (strchr cs c) end in
      if INI_ALLOW_INLINE_COMMENTS o then
        if no_stop && negb (was_space && strchr (INLINE_COMMENT_PREFIXES o) c)
        then let* n := find_loop_o chars (isspace c) s' in Ok (S n)
        else Ok 0
      else if no_stop then let* n := find_loop_o chars was_space s' in Ok (S n)
      else Ok 0
  end.

Definition find_chars_or_comment_o (line : list ascii) (s : nat) (chars : option (list ascii))
    : outcome nat :=
  let* n := find_loop_o chars false (drop s line) in Ok (s + n).

Section parse_stream.
Context {U : Type}.
Variable handler : list ascii → option (list ascii) → option (list ascii) → option Z → M U Z.

(** The contents of a new block, and whether the [n]-th call of the allocator
    fails. *)
Variables (uninit : nat → list ascii) (oom : nat → bool).

Definition with_user {A} (c : M U A) : M (ini_state U) A := λ s,
  let* r := c (st_user s) in
  let '(a, u) := r in Ok (a, {| st_user := u; st_allocs := st_allocs s |}).

Definition log_alloc (e : alloc_event) : M (ini_state U) unit := modify (λ s,
  {| st_user := st_user s; st_allocs := st_allocs s ++ [e] |}).

(** The next call of the allocator succeeds. *)
Definition alloc_succeeds : M (ini_state U) bool :=
  gets (λ s, negb (oom (length (st_allocs s)))).

Definition ini_malloc (size : nat) : M (ini_state U) (option (list ascii)) :=
  let! ok := alloc_succeeds in
  do! log_alloc (Ini_malloc size ok) in
  retM (if ok : bool then Some (uninit size) else None).

Definition ini_realloc (line : list ascii) (size : nat) : M (ini_state U) (option (list ascii)) :=
  let! ok := alloc_succeeds in
  do! log_alloc (Ini_realloc size ok) in
  retM (if ok : bool then Some (take size line ++ drop (length line) (uninit size)) else None).

Definition ini_free : M (ini_state U) unit := log_alloc Ini_free.

(** A pointer argument of the handler: its string. *)
Definition string_arg (p : option (list ascii)) : outcome (option (list ascii)) :=
  match p with
  | None => Ok None
  | Some s => let* s' := cstring s in Ok (Some s')
  end.

(** [HANDLER(user, section, name, value)] *)
Definition call_handler_o (section : list ascii) (name value : option (list ascii)) (lineno : Z)
    : M (ini_state U) Z :=
  let! s := lift (cstring section) in
  let! n := lift (string_arg name) in
  let! v := lift (string_arg value) in
  with_user (handler s n v (if INI_HANDLER_LINENO o then Some lineno else None)).

(** Locals with a new line buffer, section and name, and with an answer of the
    handler noted; a syntax error is noted like an answer of 0. *)
Definition locals_after (l : ini_locals) (line section prev : list ascii) (r : Z) : ini_locals :=
  {| il_line := line; il_section := section; il_prev_name := prev;
     il_lineno := il_lineno l; il_error := note_error r l |}.

Definition section_line_o (l : ini_locals) (line : list ascii) (start : nat)
    : M (ini_state U) ini_locals :=
  let! e := lift (find_chars_or_comment_o line (start + 1) (Some (str "]"))) in
  let! ce := lift (load line e) in
  if decide (ce = "]"%char) then
    let! line1 := lift (store line e NUL) in
    let! section := lift (strncpy0 (il_section l) (drop (start + 1) line1)
                                   (Z.of_nat MAX_SECTION)) in
    let! prev := lift (store (il_prev_name l) 0 NUL) in
    if INI_CALL_HANDLER_ON_NEW_SECTION o then
      let! r := call_handler_o section None None (il_lineno l) in
      retM (locals_after l line1 section prev r)
    else retM (locals_after l line1 section prev 1)
  else retM (locals_after l line (il_section l) (il_prev_name l) 0).

(** Cut an inline comment off the value. *)
Definition cut_comment (line : list ascii) (value : nat) : M (ini_state U) (list ascii) :=
  if INI_ALLOW_INLINE_COMMENTS o then
    let! e := lift (find_chars_or_comment_o line value None) in
    let! c := lift (load line e) in
    if decide (c = NUL) then retM line else lift (store line e NUL)
  else retM line.

Definition pair_line_o (l : ini_locals) (line : list ascii) (start : nat)
    : M (ini_state U) ini_locals :=
  let! e := lift (find_chars_or_comment_o line start (Some (str "=:"))) in
  let! ce := lift (load line e) in
  if decide (ce = "="%char ∨ ce = ":"%char) then
    let! line1 := lift (store line e NUL) in
    let! line2 := lift (rstrip line1 start) in
    let value := e + 1 in
    let! line3 := cut_comment line2 value in
    let! value := lift (lskip line3 value) in
    let! line4 := lift (rstrip line3 value) in
    let! prev := lift (strncpy0 (il_prev_name l) (drop start line4) (Z.of_nat MAX_NAME)) in
    let! r := call_handler_o (il_section l) (Some (drop start line4)) (Some (drop value line4))
                             (il_lineno l) in
    retM (locals_after l line4 (il_section l) prev r)
  else if decide (il_error l = 0%Z) then
    if INI_ALLOW_NO_VALUE o then
      let! line1 := lift (store line e NUL) in
      let! line2 := lift (rstrip line1 start) in
      let! r := call_handler_o (il_section l) (Some (drop start line2)) None (il_lineno l) in
      retM (locals_after l line2 (il_section l) (il_prev_name l) r)
    else retM (locals_after l line (il_section l) (il_prev_name l) 0)
  else retM (locals_after l line (il_section l) (il_prev_name l) 1).

Definition line_branch_o (l : ini_locals) (line : list ascii) (start : nat) (c p : ascii)
    : M (ini_state U) ini_locals :=
  let skip := locals_after l line (il_section l) (il_prev_name l) 1 in
  if strchr (START_COMMENT_PREFIXES o) c then retM skip
  else if INI_ALLOW_MULTILINE o && bool_decide (p ≠ NUL ∧ c ≠ NUL ∧ 0 < start) then
    let! r := call_handler_o (il_section l) (Some (il_prev_name l)) (Some (drop start line))
                             (il_lineno l) in
    retM (locals_after l line (il_section l) (il_prev_name l) r)
  else if decide (c = "["%char) then section_line_o l line start
  else if decide (c ≠ NUL) then pair_line_o l line start
  else retM skip.

Definition process_line_o (l : ini_locals) : M (ini_state U) ini_locals :=
  let! bom := (if INI_ALLOW_BOM o then lift (is_bom (il_line l) (il_lineno l)) else retM false) in
  let start := if bom : bool then 3 else 0 in
  let! line := lift (rstrip (il_line l) start) in
  let! start := lift (lskip line start) in
  let! c := lift (load line start) in
  let! p := lift (load (il_prev_name l) 0) in
  line_branch_o l line start c p.

Section stream.
Context {St : Type} `{!IniReader St}.

(** The loop that grows the buffer while a line does not fit; [None]: out of
    memory, the buffer freed.  Fuel: the number of doublings, less than
    [INI_MAX_LINE]. *)
Fixpoint grow_loop (fuel : nat) (line : list ascii) (max_line offset : nat) (stream : St)
    : M (ini_state U) (option (list ascii * nat * St)) :=
  match fuel with
  | O => nofuel
  | S fuel' =>
      if decide (Z.of_nat offset = to_u64 (Z.of_nat max_line - 1)) then
        let! c := lift (if decide (offset = 0) then Fault oob else load line (offset - 1)) in
        if decide (c = LF) then retM (Some (line, max_line, stream))
        else
          let max_line := if decide (MAX_LINE o < 2 * max_line) then MAX_LINE o
                          else 2 * max_line in
          let! new_line := ini_realloc line max_line in
          match new_line with
          | None => do! ini_free in retM None
          | Some line =>
              let! r := lift (ini_read (drop offset line)
                                       (Z.of_nat max_line - Z.of_nat offset) stream) in
              match r with
              | (None, stream) => retM (Some (line, max_line, stream))
              | (Some rest, stream) =>
                  let line := take offset line ++ rest in
                  if decide (MAX_LINE o ≤ max_line) then retM (Some (line, max_line, stream))
                  else
                    let! n := lift (strlen rest) in
                    grow_loop fuel' line max_line (offset + n) stream
              end
          end
      else retM (Some (line, max_line, stream))
  end.

Definition grow (line : list ascii) (max_line : nat) (stream : St)
    : M (ini_state U) (option (list ascii * nat * St)) :=
  if INI_ALLOW_REALLOC o && negb (INI_USE_STACK o) then
    let! offset := lift (strlen line) in
    grow_loop (S (MAX_LINE o)) line max_line offset stream
  else retM (Some (line, max_line, stream)).

(** After the loop: the result, and the heap buffer freed. *)
Definition ini_finish (error : Z) : M (ini_state U) Z :=
  if INI_USE_STACK o then retM error else do! ini_free in retM error.

Fixpoint ini_loop_o (fuel : nat) (stream : St) (max_line : nat) (l : ini_locals)
    : M (ini_state U) Z :=
  match fuel with
  | O => nofuel
  | S fuel' =>
      let! r := lift (ini_read (il_line l) (Z.of_nat max_line) stream) in
      match r with
      | (None, _) => ini_finish (il_error l)
      | (Some line, stream) =>
          let! g := grow line max_line stream in
          match g with
          | None => retM (-2)%Z
          | Some (line, max_line, stream) =>
              let! lineno := lift (int_incr (il_lineno l)) in
              let! l' := process_line_o
                {| il_line := line; il_section := il_section l;
                   il_prev_name := il_prev_name l; il_lineno := lineno;
                   il_error := il_error l |} in
              if INI_STOP_ON_FIRST_ERROR o && bool_decide (il_error l' ≠ 0%Z)
              then ini_finish (il_error l')
              else ini_loop_o fuel' stream max_line l'
          end
      end
  end.

Definition initial_locals (line : list ascii) : ini_locals :=
  {| il_line := line; il_section := empty_buffer MAX_SECTION;
     il_prev_name := empty_buffer MAX_NAME; il_lineno := 0; il_error := 0 |}.

(** [line0] is the indeterminate stack buffer. *)
Definition ini_parse_stream_o (fuel : nat) (line0 : list ascii) (stream : St)
    : M (ini_state U) Z :=
  if INI_USE_STACK o then ini_loop_o fuel stream (MAX_LINE o) (initial_locals line0)
  else
    let! line := ini_malloc (INI_INITIAL_ALLOC o) in
    match line with
    | None => retM (-2)%Z
    | Some line => ini_loop_o fuel stream (INI_INITIAL_ALLOC o) (initial_locals line)
    end.
End stream.

Definition ini_parse_file_o (line0 : list ascii) (file : FILE) : M (ini_state U) Z :=
  ini_parse_stream_o (S (length (file_left file))) line0 file.
End parse_stream.
End options.
