(* ===== verification/IniConfSpec.v ===== *)
(** * The parser's contract in every configuration

    IniSpec for any [INI_*] macros, without buffers and pointers: where a line
    ends, what it asks of the handler, when the line buffer grows, how the
    answers make the result. *)
From stdpp Require Import base list numbers gmap strings.
From Stdlib Require Import Ascii ZArith.
From S2P Require Import Prelude CLib Ini IniSpec IniConf.

(** The configurations the contract speaks of: a buffer holds a character, sizes
    are [int]s, a heap buffer that may grow does not start beyond its limit.
    (The source checks none of this; what happens beyond the limit is in the file
    IniShrink.) *)
Record options_ok (o : ini_options) : Prop := {
  oo_max : 2 ≤ MAX_LINE o;
  oo_initial : 2 ≤ INI_INITIAL_ALLOC o;
  oo_max_int : (Z.of_nat (MAX_LINE o) ≤ INT_MAX)%Z;
  oo_initial_int : (Z.of_nat (INI_INITIAL_ALLOC o) ≤ INT_MAX)%Z;
  oo_grow : INI_ALLOW_REALLOC o = true → INI_USE_STACK o = false → INI_INITIAL_ALLOC o ≤ MAX_LINE o
}.

(** The line buffer is in the heap and grows. *)
Definition growing (o : ini_options) : bool := INI_ALLOW_REALLOC o && negb (INI_USE_STACK o).

(** The size of the buffer at the start, and the size that limits a line. *)
Definition first_size (o : ini_options) : nat :=
  if INI_USE_STACK o then MAX_LINE o else INI_INITIAL_ALLOC o.
Definition line_limit (o : ini_options) : nat :=
  if growing o then MAX_LINE o else first_size o.

Section spec.
Context (o : ini_options).

(** The characters that start an inline comment. *)
Definition inline_prefixes : list ascii :=
  if INI_ALLOW_INLINE_COMMENTS o then INLINE_COMMENT_PREFIXES o else [].

(** Split before the first of [stops] or inline comment. *)
Fixpoint span_o (stops : list ascii) (was_space : bool) (l : list ascii)
    : list ascii * list ascii :=
  match l with
  | [] => ([], [])
  | c :: l' =>
      if bool_decide (c ∈ stops) || (was_space && bool_decide (c ∈ inline_prefixes))
      then ([], l)
      else let '(pre, post) := span_o stops (isspace c) l' in (c :: pre, post)
  end.

(** What a line asks for: nothing; an error; a call of the handler with an
    entry, with the section it starts, or with a name that has no value (only
    made when there was no error before). *)
Inductive line_request :=
  | Nothing
  | Bad
  | Entry (name value : list ascii)
  | New_section
  | Name_only (name : list ascii).

Definition parse_section_o (st : parse_state) (rest : list ascii) : line_request * parse_state :=
  let '(name, post) := span_o (str "]") false rest in
  match post with
  | c :: _ =>
      if decide (c = "]"%char)
      then (if INI_CALL_HANDLER_ON_NEW_SECTION o then New_section else Nothing,
            {| ps_section := take (MAX_SECTION - 1) name; ps_prev := [] |})
      else (Bad, st)
  | [] => (Bad, st)
  end.

Definition parse_value_o (v : list ascii) : list ascii :=
  rstrip_spec (lstrip (span_o [] false v).1).

Definition no_value (name : list ascii) : line_request :=
  if INI_ALLOW_NO_VALUE o then Name_only (rstrip_spec name) else Bad.

Definition parse_pair_o (st : parse_state) (t : list ascii) : line_request * parse_state :=
  let '(pre, post) := span_o (str "=:") false t in
  match post with
  | c :: v =>
      if decide (c = "="%char ∨ c = ":"%char) then
        let name := rstrip_spec pre in
        (Entry name (parse_value_o v),
         {| ps_section := ps_section st; ps_prev := take (MAX_NAME - 1) name |})
      else (no_value pre, st)
  | [] => (no_value pre, st)
  end.

Definition parse_line_o (first : bool) (st : parse_state) (chunk : list ascii)
    : line_request * parse_state :=
  let text := until_nul chunk in
  let bom := INI_ALLOW_BOM o && (first && bool_decide (take 3 text = BOM)) in
  let body := rstrip_spec (if bom then drop 3 text else text) in
  let t := lstrip body in
  let indented := bom || bool_decide (length t < length body) in
  match t with
  | [] => (Nothing, st)
  | c :: rest =>
      if decide (c ∈ START_COMMENT_PREFIXES o) then (Nothing, st)
      else if INI_ALLOW_MULTILINE o && (negb (bool_decide (ps_prev st = [])) && indented)
      then (Entry (ps_prev st) t, st)
      else if decide (c = "["%char) then parse_section_o st rest
      else parse_pair_o st t
  end.

Section run.
Context {U : Type}.
Context (handler : list ascii → option (list ascii) → option (list ascii) → option Z → M U Z).
Context (oom : nat → bool).

Definition lineno_arg (n : Z) : option Z := if INI_HANDLER_LINENO o then Some n else None.

(** An answer of the handler. *)
Definition noted (r lineno err : Z) : Z := if decide (r = 0%Z) then first_error err lineno else err.

Definition run_request (section : list ascii) (a : line_request) (lineno err : Z)
    : M (ini_state U) Z :=
  let call n v :=
    let! r := with_user (handler section n v (lineno_arg lineno)) in
    retM (noted r lineno err) in
  match a with
  | Nothing => retM err
  | Bad => retM (first_error err lineno)
  | Entry name value => call (Some name) (Some value)
  | New_section => call None None
  | Name_only name => if decide (err = 0%Z) then call (Some name) None else retM err
  end.

(** The growth of a buffer of [size] bytes until the line [c] fits or the limit
    is reached; [None]: out of memory. *)
Fixpoint grow_line (fuel size : nat) (c : list ascii) : M (ini_state U) (option nat) :=
  match fuel with
  | O => nofuel
  | S fuel' =>
      if decide (size - 1 ≤ length c ∧ c !! (size - 2) ≠ Some LF) then
        let size := Nat.min (MAX_LINE o) (2 * size) in
        let! ok := alloc_succeeds oom in
        do! log_alloc (Ini_realloc size ok) in
        if ok : bool then
          if decide (MAX_LINE o ≤ size) then retM (Some size) else grow_line fuel' size c
        else do! ini_free in retM None
      else retM (Some size)
  end.

Definition fit_line (size : nat) (c : list ascii) : M (ini_state U) (option nat) :=
  if growing o then grow_line (S (MAX_LINE o)) size c else retM (Some size).

(** The lines from line number [n + 1] on. *)
Fixpoint run_lines_o (n : Z) (st : parse_state) (size : nat) (err : Z) (ls : list (list ascii))
    : M (ini_state U) Z :=
  match ls with
  | [] => ini_finish o err
  | c :: ls' =>
      let! g := fit_line size c in
      match g with
      | None => retM (-2)%Z
      | Some size =>
          let '(a, st') := parse_line_o (bool_decide (n = 0%Z)) st c in
          let! err' := run_request (ps_section st') a (n + 1) err in
          if INI_STOP_ON_FIRST_ERROR o && bool_decide (err' ≠ 0%Z) then ini_finish o err'
          else run_lines_o (n + 1) st' size err' ls'
      end
  end.

Definition parse_spec_o (bytes : list ascii) : M (ini_state U) Z :=
  let lines := chunks (line_limit o - 1) bytes in
  let start := run_lines_o 0 {| ps_section := []; ps_prev := [] |} (first_size o) 0 lines in
  if INI_USE_STACK o then start
  else
    let! ok := alloc_succeeds oom in
    do! log_alloc (Ini_malloc (INI_INITIAL_ALLOC o) ok) in
    if ok : bool then start else retM (-2)%Z.
End run.
End spec.
