(* ===== verification/IniConfRefine.v ===== *)
(** * The parser refines its contract in every configuration: lines

    The proofs of IniRefine for any [INI_*] macros: the scan for stop characters
    and comments, and one line of the parser. *)
From stdpp Require Import base list numbers gmap strings.
From Stdlib Require Import Ascii ZArith.
From S2P Require Import Prelude CLib Ini IniSpec IniRefine IniReader IniConf IniConfSpec.

(** The locals of the parser, with a line buffer of [n] bytes, against the parser
    state of the contract. *)
Record locals_ok_o (n : nat) (l : ini_locals) (st : parse_state) : Prop := {
  loo_line : length (il_line l) = n;
  loo_section : holds (il_section l) MAX_SECTION (ps_section st);
  loo_prev : holds (il_prev_name l) MAX_NAME (ps_prev st)
}.

Section options.
Context (o : ini_options).

(** ** The scan *)

Lemma span_o_decomp stops ws l : l = (span_o o stops ws l).1 ++ (span_o o stops ws l).2.
Proof.
  revert ws. induction l as [|c l IH]; intros ws; simpl; [done|]. case_match; [done|].
  destruct (span_o o stops (isspace c) l) as [pre post] eqn:E.
  simpl. f_equal. specialize (IH (isspace c)). by rewrite E in IH.
Qed.

Lemma inline_cases :
  (INI_ALLOW_INLINE_COMMENTS o = true ∧ inline_prefixes o = INLINE_COMMENT_PREFIXES o) ∨
  (INI_ALLOW_INLINE_COMMENTS o = false ∧ inline_prefixes o = []).
Proof. unfold inline_prefixes. destruct (INI_ALLOW_INLINE_COMMENTS o); auto. Qed.

Lemma span_o_plain stops ws ws' l :
  INI_ALLOW_INLINE_COMMENTS o = false → span_o o stops ws l = span_o o stops ws' l.
Proof.
  intros Hi. destruct l as [|c l]; [done|]. simpl.
  destruct inline_cases as [[Hi' _]|[_ ->]]; [congruence|].
  rewrite (bool_decide_false (c ∈ [])) by apply not_elem_of_nil. by rewrite !andb_false_r.
Qed.

(** Without stop characters and comments the scan goes to the end. *)
Lemma span_o_none ws l : inline_prefixes o = [] → span_o o [] ws l = (l, []).
Proof.
  intros Hp. revert ws. induction l as [|c l IH]; intros ws; simpl; [done|].
  rewrite Hp, (bool_decide_false (c ∈ [])) by apply not_elem_of_nil.
  by rewrite andb_false_r, IH.
Qed.

Lemma find_loop_o_correct stops ws s r :
  nul_free s →
  find_loop_o o (chars_of stops) ws (s ++ NUL :: r) = Ok (length (span_o o stops ws s).1).
Proof.
  revert ws. induction s as [|c s IH]; intros ws; [simpl; by destruct (INI_ALLOW_INLINE_COMMENTS o)|].
  intros [Hc Hs]%nul_free_cons. cbn [find_loop_o app span_o]. rewrite bool_decide_false by done.
  assert (match chars_of stops with
          | Some cs => negb (strchr cs c) | None => true end
          = negb (bool_decide (c ∈ stops))) as ->.
  { destruct stops as [|x l]; [done|]. unfold chars_of. by rewrite strchr_spec. }
  cbn [negb andb]. destruct inline_cases as [[Hi Hp]|[Hi Hp]]; rewrite Hi, Hp.
  - rewrite strchr_spec, <- negb_orb by done.
    destruct (bool_decide (c ∈ stops) || _); simpl; [done|].
    rewrite IH by done. by destruct (span_o o stops (isspace c) s).
  - rewrite (bool_decide_false (c ∈ [])) by apply not_elem_of_nil. rewrite andb_false_r, orb_false_r.
    destruct (bool_decide (c ∈ stops)); simpl; [done|].
    rewrite IH by done. rewrite (span_o_plain stops ws (isspace c)) by done.
    by destruct (span_o o stops (isspace c) s).
Qed.

(** Where the scan for [stops] ends, and what it points to. *)
Lemma find_stops_o stops pre s r :
  nul_free s →
  let '(a, b) := span_o o stops false s in
  find_chars_or_comment_o o (pre ++ s ++ NUL :: r) (length pre) (chars_of stops)
    = Ok (length (pre ++ a)) ∧
  load (pre ++ s ++ NUL :: r) (length (pre ++ a)) = Ok (hd NUL b) ∧
  s = a ++ b ∧ nul_free a ∧ nul_free b.
Proof.
  intros Hs. pose proof (find_loop_o_correct stops false s r Hs) as Hfind.
  pose proof (span_o_decomp stops false s) as Hspan.
  assert (Hab : nul_free (span_o o stops false s).1 ∧ nul_free (span_o o stops false s).2)
    by (rewrite Hspan in Hs; by apply nul_free_app in Hs).
  destruct (span_o o stops false s) as [a b]; simpl in *. destruct Hab as [Ha Hb].
  split; [|split; [|done]].
  - unfold find_chars_or_comment_o. rewrite drop_app_length, Hfind. simpl. by rewrite length_app.
  - rewrite Hspan, <- app_assoc, (app_assoc pre). apply load_app_hd.
Qed.

Section lines.
Context {U : Type}.
Context (handler : list ascii → option (list ascii) → option (list ascii) → option Z → M U Z).
Context (n : nat).

(** What a translated branch must do: what the line asks for, and locals that
    correspond to the new parse state. *)
Definition does_o (m : M (ini_state U) ini_locals) (a : line_request) (lineno err : Z)
    (st' : parse_state) : Prop :=
  ∃ line sec prev,
    locals_ok_o n {| il_line := line; il_section := sec; il_prev_name := prev;
                     il_lineno := lineno; il_error := err |} st' ∧
    ∀ w, m w = obind (run_request o handler (ps_section st') a lineno err w) (λ '(err', w'),
      Ok ({| il_line := line; il_section := sec; il_prev_name := prev;
             il_lineno := lineno; il_error := err' |}, w')).

Lemma does_o_ext m m' a lineno err st' :
  (∀ w, m' w = m w) → does_o m a lineno err st' → does_o m' a lineno err st'.
Proof.
  intros E (line & sec & prev & H & Hm). exists line, sec, prev. split; [done|].
  intros w. by rewrite E, Hm.
Qed.

Lemma note_error_noted r l : note_error r l = noted r (il_lineno l) (il_error l).
Proof. unfold note_error, noted, first_error. by repeat case_decide. Qed.

(** A branch that does not call the handler. *)
Lemma does_o_nothing m l st' line sec prev :
  locals_ok_o n (locals_after l line sec prev 1) st' →
  (∀ w, m w = retM (locals_after l line sec prev 1) w) →
  does_o m Nothing (il_lineno l) (il_error l) st'.
Proof. intros [H1 H2 H3] Hm. exists line, sec, prev. split; [by split|]. intros w. by rewrite Hm. Qed.

Lemma does_o_bad m l st' line sec prev :
  locals_ok_o n (locals_after l line sec prev 0) st' →
  (∀ w, m w = retM (locals_after l line sec prev 0) w) →
  does_o m Bad (il_lineno l) (il_error l) st'.
Proof.
  intros [H1 H2 H3] Hm. exists line, sec, prev. split; [by split|]. intros w.
  rewrite Hm. unfold locals_after. by rewrite note_error_noted.
Qed.

(** A string argument of the handler, as its pointer. *)
Definition string_ptr (p s : option (list ascii)) : Prop :=
  match p, s with
  | None, None => True
  | Some b, Some t => nul_free t ∧ ∃ r, b = t ++ NUL :: r
  | _, _ => False
  end.

Lemma string_arg_correct p s : string_ptr p s → string_arg p = Ok s.
Proof.
  destruct p, s; simpl; try done. intros (Hs & r & ->). by rewrite cstring_app.
Qed.

Lemma call_handler_o_correct sec s m pn nm pv v lineno w :
  holds sec m s → string_ptr pn nm → string_ptr pv v →
  call_handler_o o handler sec pn pv lineno w
  = with_user (handler s nm v (lineno_arg o lineno)) w.
Proof.
  intros Hs Hn Hv. unfold call_handler_o. step_with (holds_cstring _ _ _ Hs).
  step_with (string_arg_correct _ _ Hn). by step_with (string_arg_correct _ _ Hv).
Qed.

(** A branch that calls the handler last. *)
Lemma does_o_call m l st' line sec prev a nm v pn pv :
  locals_ok_o n (locals_after l line sec prev 1) st' →
  string_ptr pn nm → string_ptr pv v →
  (∀ w, run_request o handler (ps_section st') a (il_lineno l) (il_error l) w
        = (let! r := with_user (handler (ps_section st') nm v (lineno_arg o (il_lineno l))) in
           retM (noted r (il_lineno l) (il_error l))) w) →
  (∀ w, m w = (let! r := call_handler_o o handler sec pn pv (il_lineno l) in
               retM (locals_after l line sec prev r)) w) →
  does_o m a (il_lineno l) (il_error l) st'.
Proof.
  intros [H1 H2 H3] Hn Hv Ha Hm. exists line, sec, prev. split; [by split|]. intros w.
  rewrite Hm, Ha. unfold bindM at 1. rewrite (call_handler_o_correct _ _ _ _ _ _ _ _ _ H2 Hn Hv).
  unfold bindM. rewrite obind_assoc. apply obind_ext. intros [r w']. simpl.
  unfold locals_after. by rewrite note_error_noted.
Qed.

Lemma locals_after_ok l line st answer :
  locals_ok_o n l st → length line = n →
  locals_ok_o n (locals_after l line (il_section l) (il_prev_name l) answer) st.
Proof. intros [? ? ?] ?. by split. Qed.

(** ** The branches *)

(** The branch of a section line up to what it does with the section. *)
Definition section_close (l : ini_locals) (line : list ascii) (start : nat)
    (k : list ascii → list ascii → list ascii → M (ini_state U) ini_locals)
    : M (ini_state U) ini_locals :=
  let! e := lift (find_chars_or_comment_o o line (start + 1) (Some (str "]"))) in
  let! ce := lift (load line e) in
  if decide (ce = "]"%char) then
    let! line1 := lift (store line e NUL) in
    let! section := lift (strncpy0 (il_section l) (drop (start + 1) line1)
                                   (Z.of_nat MAX_SECTION)) in
    let! prev := lift (store (il_prev_name l) 0 NUL) in
    k line1 section prev
  else retM (locals_after l line (il_section l) (il_prev_name l) 0).

Lemma section_close_correct l st pre rest r k :
  locals_ok_o n l st → nul_free rest → length (pre ++ "["%char :: rest ++ NUL :: r) = n →
  let run := section_close l (pre ++ "["%char :: rest ++ NUL :: r) (length pre) k in
  let '(name, post) := span_o o (str "]") false rest in
  if decide (hd NUL post = "]"%char) then
    ∃ line sec prev, (∀ w, run w = k line sec prev w) ∧
      locals_ok_o n (locals_after l line sec prev 1)
        {| ps_section := take (MAX_SECTION - 1) name; ps_prev := [] |}
  else
    ∃ line, (∀ w, run w = retM (locals_after l line (il_section l) (il_prev_name l) 0) w) ∧
      locals_ok_o n (locals_after l line (il_section l) (il_prev_name l) 0) st.
Proof.
  intros Hok Hrest. unfold section_close.
  replace (pre ++ "["%char :: rest ++ NUL :: r)
    with ((pre ++ ["["%char]) ++ rest ++ NUL :: r) by (by rewrite <- app_assoc).
  replace (length pre + 1) with (length (pre ++ ["["%char])) by len.
  generalize (pre ++ ["["%char]) as pre1. clear pre. intros pre Hlen.
  pose proof (find_stops_o (str "]") pre rest r Hrest) as Hf.
  destruct (span_o o (str "]") false rest) as [name post].
  destruct Hf as (Hfind & Hload & -> & Hn1 & Hn2). case_decide as Hc.
  - destruct post as [|c post']; [done|]. simpl in Hc. subst c.
    destruct Hok as [Hl Hsec Hprev].
    destruct (holds_store_0 _ _ _ Hprev) as (prev & Hst & Hprev').
    destruct (holds_strncpy0 _ _ _ name (post' ++ NUL :: r) Hsec Hn1)
      as (sec & Hcp & Hsec'); [unfold MAX_SECTION; lia..|].
    exists ((pre ++ name) ++ NUL :: post' ++ NUL :: r), sec, prev. split.
    + intros w. step_with Hfind. step_with Hload. simpl hd. rewrite decide_True by done.
      rewrite <- app_assoc, (app_assoc pre). simpl app. step_with store_at.
      rewrite <- app_assoc, drop_app_length. step_with Hcp. by step_with Hst.
    + split; simpl; [rewrite <- Hlen; len|done..].
  - eexists. split; [|by apply locals_after_ok].
    intros w. step_with Hfind. step_with Hload. by rewrite decide_False.
Qed.

(** [parse_section_o] by the character where the scan stops. *)
Lemma parse_section_o_eq st rest :
  parse_section_o o st rest
  = let '(name, post) := span_o o (str "]") false rest in
    if decide (hd NUL post = "]"%char)
    then (if INI_CALL_HANDLER_ON_NEW_SECTION o then New_section else Nothing,
          {| ps_section := take (MAX_SECTION - 1) name; ps_prev := [] |})
    else (Bad, st).
Proof. unfold parse_section_o. by destruct (span_o o _ false rest) as [name [|c post]]. Qed.

Lemma section_line_o_correct l st pre rest r :
  locals_ok_o n l st → nul_free rest → length (pre ++ "["%char :: rest ++ NUL :: r) = n →
  does_o (section_line_o o handler l (pre ++ "["%char :: rest ++ NUL :: r) (length pre))
    (parse_section_o o st rest).1 (il_lineno l) (il_error l) (parse_section_o o st rest).2.
Proof.
  intros Hok Hrest Hlen. rewrite parse_section_o_eq.
  pose proof (λ k, section_close_correct l st pre rest r k Hok Hrest Hlen) as Hrun.
  destruct (span_o o (str "]") false rest) as [name post]. cbv zeta in Hrun. case_decide.
  - destruct (INI_CALL_HANDLER_ON_NEW_SECTION o) eqn:Hnew.
    + destruct (Hrun (λ line1 sec prev,
        let! r := call_handler_o o handler sec None None (il_lineno l) in
        retM (locals_after l line1 sec prev r))) as (line & sec & prev & Hk & Hok').
      eapply (does_o_call _ l _ line sec prev New_section None None None None Hok'); [done..|].
      intros w. rewrite <- Hk. unfold section_line_o. by rewrite Hnew.
    + destruct (Hrun (λ line1 sec prev, retM (locals_after l line1 sec prev 1)))
        as (line & sec & prev & Hk & Hok').
      eapply (does_o_nothing _ l _ line sec prev Hok').
      intros w. rewrite <- Hk. unfold section_line_o. by rewrite Hnew.
  - destruct (Hrun (λ line1 sec prev,
      if INI_CALL_HANDLER_ON_NEW_SECTION o then
        let! r := call_handler_o o handler sec None None (il_lineno l) in
        retM (locals_after l line1 sec prev r)
      else retM (locals_after l line1 sec prev 1))) as (line & Hk & Hok').
    eapply does_o_bad; [exact Hok'|]. exact Hk.
Qed.
(** The value of a pair: cutting the comment, [lskip], [rstrip].  The name before
    it in the buffer is not touched. *)
Lemma value_correct_o pre v r :
  nul_free v → ∃ pad line3 start r',
    (∀ w : ini_state U, cut_comment o (pre ++ v ++ NUL :: r) (length pre) w = Ok (line3, w)) ∧
    lskip line3 (length pre) = Ok start ∧
    rstrip line3 start = Ok ((pre ++ pad) ++ parse_value_o o v ++ NUL :: r') ∧
    start = length (pre ++ pad) ∧
    length ((pre ++ pad) ++ parse_value_o o v ++ NUL :: r') = length (pre ++ v ++ NUL :: r) ∧
    nul_free (parse_value_o o v).
Proof.
  intros Hv. unfold parse_value_o.
  assert (Hcut : ∃ r1,
    (∀ w : ini_state U, cut_comment o (pre ++ v ++ NUL :: r) (length pre) w
       = Ok (pre ++ (span_o o [] false v).1 ++ NUL :: r1, w)) ∧
    length (pre ++ (span_o o [] false v).1 ++ NUL :: r1) = length (pre ++ v ++ NUL :: r) ∧
    nul_free (span_o o [] false v).1).
  { unfold cut_comment. destruct inline_cases as [[-> _]|[-> Hp]].
    - pose proof (find_stops_o [] pre v r Hv) as Hf.
      destruct (span_o o [] false v) as [a b]. destruct Hf as (Hfind & Hload & -> & Ha & Hb).
      destruct b as [|c b].
      + exists r. rewrite app_nil_r in *. split; [|done]. intros w. step_with Hfind.
        by step_with Hload.
      + exists (b ++ NUL :: r). apply nul_free_cons in Hb as [Hc _]. split; [|split; [simpl; len|done]].
        intros w. step_with Hfind. step_with Hload. simpl hd. rewrite decide_False by done.
        rewrite <- app_assoc, (app_assoc pre). simpl app. unfold lift. rewrite store_at.
        by rewrite <- app_assoc.
    - exists r. rewrite span_o_none by done. done. }
  destruct Hcut as (r1 & Hcut & Hlen & Ha). set (a := (span_o o [] false v).1) in *.
  destruct (lstrip_decomp a) as (ws & Hws & _). set (t := lstrip a) in *.
  assert (Ht : nul_free t) by (by apply nul_free_lstrip).
  assert (Hsplit : pre ++ a ++ NUL :: r1 = pre ++ ws ++ t ++ NUL :: r1)
    by (rewrite Hws at 1; by rewrite <- !app_assoc).
  destruct (pad_cons (length t - length (rstrip_spec t)) r1) as [r' Hpad].
  exists ws, (pre ++ a ++ NUL :: r1), (length (pre ++ ws)), r'. split; [exact Hcut|].
  split; [rewrite Hsplit; apply lskip_correct; subst t; by rewrite <- Hws|].
  split; [rewrite Hsplit, (app_assoc pre ws), rstrip_correct by done; by rewrite Hpad|].
  split; [done|]. split; [|by apply nul_free_rstrip].
  destruct (rstrip_decomp t) as (ws' & Ht' & _).
  apply (f_equal length) in Ht', Hpad. rewrite Hsplit in Hlen. rewrite <- Hlen. len.
Qed.

(** A line with a separator. *)
Lemma pair_line_o_correct_sep l st pre name c v r :
  locals_ok_o n l st → nul_free name → nul_free v → c = "="%char ∨ c = ":"%char →
  length (pre ++ (name ++ c :: v) ++ NUL :: r) = n →
  find_chars_or_comment_o o (pre ++ (name ++ c :: v) ++ NUL :: r) (length pre) (Some (str "=:"))
    = Ok (length (pre ++ name)) →
  does_o (pair_line_o o handler l (pre ++ (name ++ c :: v) ++ NUL :: r) (length pre))
    (Entry (rstrip_spec name) (parse_value_o o v)) (il_lineno l) (il_error l)
    {| ps_section := ps_section st; ps_prev := take (MAX_NAME - 1) (rstrip_spec name) |}.
Proof.
  intros [Hl Hsec Hprev] Hn1 Hv Hc Hlen Hfind.
  destruct (name_correct pre name (v ++ NUL :: r) Hn1) as (pre1 & Hrs & Hpre1 & Hname).
  destruct (value_correct_o pre1 v r Hv)
    as (pad & line3 & start & r' & Hcut & Hsk & Hrs2 & -> & Hlen2 & Hval).
  destruct (Hname (pad ++ parse_value_o o v ++ NUL :: r')) as [rn Hbuf]. rewrite app_assoc in Hbuf.
  pose proof (nul_free_rstrip _ Hn1) as Hn.
  destruct (holds_strncpy0 _ _ _ (rstrip_spec name) rn Hprev Hn)
    as (prev & Hcp & Hprev'); [unfold MAX_NAME; lia..|].
  eapply (does_o_call _ l _ ((pre1 ++ pad) ++ parse_value_o o v ++ NUL :: r') (il_section l) prev
    _ (Some (rstrip_spec name)) (Some (parse_value_o o v))
    (Some (rstrip_spec name ++ NUL :: rn)) (Some (parse_value_o o v ++ NUL :: r'))).
  - split; simpl; [rewrite Hlen2, <- Hlen; len|done..].
  - split; [done|by eexists].
  - split; [done|by eexists].
  - done.
  - intros w. unfold pair_line_o. step_with Hfind. rewrite <- app_assoc, (app_assoc pre). simpl app.
    step_with load_at. rewrite decide_True by done. step_with store_at.
    rewrite <- app_assoc. step_with Hrs. rewrite <- Hpre1.
    rewrite (bindM_eq _ _ _ _ _ (Hcut w)). step_with Hsk. step_with Hrs2.
    rewrite drop_app_length.
    replace (drop (length pre) ((pre1 ++ pad) ++ parse_value_o o v ++ NUL :: r'))
      with (rstrip_spec name ++ NUL :: rn) by (by rewrite Hbuf, drop_app_length).
    by step_with Hcp.
Qed.
(** Ending a string at the place a scan stopped. *)
Lemma store_end pre (a b : list ascii) r :
  ∃ r', store (pre ++ (a ++ b) ++ NUL :: r) (length (pre ++ a)) NUL = Ok (pre ++ a ++ NUL :: r') ∧
        length (pre ++ a ++ NUL :: r') = length (pre ++ (a ++ b) ++ NUL :: r).
Proof.
  destruct b as [|c b]; [exists r|exists (b ++ NUL :: r)];
    rewrite <- ?app_assoc, (app_assoc pre); simpl app; rewrite store_at;
    (split; [by rewrite <- !app_assoc|len]).
Qed.

(** A line without a separator. *)
Lemma pair_line_o_correct_bare l st pre name post r :
  locals_ok_o n l st → nul_free name → hd NUL post ≠ "="%char ∧ hd NUL post ≠ ":"%char →
  length (pre ++ (name ++ post) ++ NUL :: r) = n →
  find_chars_or_comment_o o (pre ++ (name ++ post) ++ NUL :: r) (length pre) (Some (str "=:"))
    = Ok (length (pre ++ name)) →
  load (pre ++ (name ++ post) ++ NUL :: r) (length (pre ++ name)) = Ok (hd NUL post) →
  does_o (pair_line_o o handler l (pre ++ (name ++ post) ++ NUL :: r) (length pre))
    (no_value o name) (il_lineno l) (il_error l) st.
Proof.
  intros Hok Hn Hsep Hlen Hfind Hload. unfold no_value.
  assert (Hrun : ∀ w, pair_line_o o handler l (pre ++ (name ++ post) ++ NUL :: r) (length pre) w
    = (if decide (il_error l = 0%Z) then
         if INI_ALLOW_NO_VALUE o then
           let! line1 := lift (store (pre ++ (name ++ post) ++ NUL :: r) (length (pre ++ name)) NUL) in
           let! line2 := lift (rstrip line1 (length pre)) in
           let! r := call_handler_o o handler (il_section l) (Some (drop (length pre) line2)) None
                                    (il_lineno l) in
           retM (locals_after l line2 (il_section l) (il_prev_name l) r)
         else retM (locals_after l (pre ++ (name ++ post) ++ NUL :: r) (il_section l) (il_prev_name l) 0)
       else retM (locals_after l (pre ++ (name ++ post) ++ NUL :: r) (il_section l) (il_prev_name l) 1)) w).
  { intros w. unfold pair_line_o. step_with Hfind. step_with Hload. by rewrite decide_False by tauto. }
  destruct (INI_ALLOW_NO_VALUE o).
  - destruct (decide (il_error l = 0%Z)) as [He|He].
    + destruct (store_end pre name post r) as (r1 & Hst & Hlen1).
      destruct (name_correct pre name r1 Hn) as (pre1 & Hrs & Hpre1 & Hname).
      destruct (Hname r1) as [rn Hbuf]. pose proof (nul_free_rstrip _ Hn) as Hn'.
      eapply (does_o_call _ l _ (pre1 ++ r1) (il_section l) (il_prev_name l)
        _ (Some (rstrip_spec name)) None (Some (rstrip_spec name ++ NUL :: rn)) None).
      * apply (locals_after_ok l _ st); [done|]. rewrite <- Hlen, <- Hlen1. len.
      * split; [done|by eexists].
      * done.
      * intros w. simpl. by rewrite decide_True.
      * intros w. rewrite Hrun. step_with Hst. step_with Hrs. by rewrite Hbuf, drop_app_length.
    + exists (pre ++ (name ++ post) ++ NUL :: r), (il_section l), (il_prev_name l).
      split; [by destruct Hok; split|]. intros w. rewrite Hrun. simpl. by rewrite decide_False.
  - exists (pre ++ (name ++ post) ++ NUL :: r), (il_section l), (il_prev_name l).
    split; [by destruct Hok; split|]. intros w. rewrite Hrun. simpl. unfold locals_after.
    rewrite !note_error_noted. unfold noted, first_error. by repeat case_decide.
Qed.

Lemma pair_line_o_correct l st pre t r :
  locals_ok_o n l st → nul_free t → length (pre ++ t ++ NUL :: r) = n →
  does_o (pair_line_o o handler l (pre ++ t ++ NUL :: r) (length pre))
    (parse_pair_o o st t).1 (il_lineno l) (il_error l) (parse_pair_o o st t).2.
Proof.
  intros Hok Ht Hlen. unfold parse_pair_o.
  pose proof (find_stops_o (str "=:") pre t r Ht) as Hf.
  destruct (span_o o (str "=:") false t) as [name post].
  destruct Hf as (Hfind & Hload & -> & Hn1 & Hn2).
  destruct post as [|c v]; [by apply pair_line_o_correct_bare|].
  apply nul_free_cons in Hn2 as [_ Hv]. case_decide as Hc.
  - by apply pair_line_o_correct_sep.
  - apply pair_line_o_correct_bare; try done. simpl. tauto.
Qed.

(** ** One line *)

Lemma line_branch_o_correct l st pre t r (indented : bool) :
  locals_ok_o n l st → nul_free t → length (pre ++ t ++ NUL :: r) = n →
  bool_decide (0 < length pre) = indented →
  let p := match t with
    | [] => (Nothing, st)
    | c :: rest =>
        if decide (c ∈ START_COMMENT_PREFIXES o) then (Nothing, st)
        else if INI_ALLOW_MULTILINE o && (negb (bool_decide (ps_prev st = [])) && indented)
        then (Entry (ps_prev st) t, st)
        else if decide (c = "["%char) then parse_section_o o st rest
        else parse_pair_o o st t
    end in
  does_o (line_branch_o o handler l (pre ++ t ++ NUL :: r) (length pre)
            (hd NUL t) (hd NUL (ps_prev st)))
    p.1 (il_lineno l) (il_error l) p.2.
Proof.
  intros Hok Hn Hlen Hind. unfold line_branch_o.
  assert (Hskip : does_o (retM (locals_after l (pre ++ t ++ NUL :: r) (il_section l)
    (il_prev_name l) 1)) Nothing (il_lineno l) (il_error l) st)
    by (eapply does_o_nothing; [by apply locals_after_ok|done]).
  destruct t as [|c rest]; [exact Hskip|].
  pose proof Hn as [Hc Hrest]%nul_free_cons. simpl hd. rewrite strchr_spec by done.
  destruct (decide (c ∈ START_COMMENT_PREFIXES o)) as [Hin|Hin];
    [rewrite bool_decide_true by done; exact Hskip|].
  rewrite bool_decide_false by done.
  destruct (loo_prev _ _ _ Hok) as (_ & Hprev & rp & Hp).
  assert (Hcond : bool_decide (hd NUL (ps_prev st) ≠ NUL ∧ c ≠ NUL ∧ 0 < length pre)
                  = negb (bool_decide (ps_prev st = [])) && indented).
  { rewrite <- Hind. apply Bool.eq_iff_eq_true. rewrite andb_true_iff, negb_true_iff.
    rewrite bool_decide_eq_false, !bool_decide_eq_true. split.
    - intros (H1 & _ & H2). split; [|done]. intros E. by rewrite E in H1.
    - intros [H1 H2]. split; [|done]. intros E. by apply H1, hd_nul_free. }
  rewrite Hcond. destruct (INI_ALLOW_MULTILINE o && _).
  - eapply (does_o_call _ l st _ (il_section l) (il_prev_name l)
      _ (Some (ps_prev st)) (Some (c :: rest)) (Some (il_prev_name l)) (Some (c :: rest ++ NUL :: r))).
    + by apply (locals_after_ok l _ st).
    + split; [done|by eexists].
    + split; [done|by eexists].
    + done.
    + intros w. by rewrite drop_app_length.
  - destruct (decide (c = "["%char)) as [->|Hb].
    + by apply section_line_o_correct.
    + rewrite decide_True by done. by apply pair_line_o_correct.
Qed.

(** One iteration of the parser's loop is [parse_line_o]. *)
Lemma process_line_o_correct l st chunk r :
  locals_ok_o n l st → il_line l = chunk ++ NUL :: r →
  let p := parse_line_o o (bool_decide (il_lineno l = 1%Z)) st chunk in
  does_o (process_line_o o handler l) p.1 (il_lineno l) (il_error l) p.2.
Proof.
  intros Hok Hline. unfold parse_line_o.
  destruct (until_nul_split chunk r) as [r1 Hr1]. rewrite Hr1 in Hline.
  pose proof (nul_free_until chunk) as Htext. set (text := until_nul chunk) in *.
  pose proof (is_bom_correct text r1 (il_lineno l)) as Hb.
  set (bom := INI_ALLOW_BOM o && _) in *.
  destruct (trim_correct bom text r1) as (pre & r2 & Hrs & Hsk & Hlen & Hn & Hind);
    [done| |].
  { intros E. subst bom. apply andb_prop in E as [_ E].
    by apply andb_prop in E as [_ ?%bool_decide_eq_true]. }
  rewrite <- Hline, (loo_line _ _ _ Hok) in Hlen.
  eapply does_o_ext; [|by apply line_branch_o_correct].
  intros w. unfold process_line_o. rewrite <- Hline in Hb, Hrs.
  rewrite (bindM_eq _ bom w w)
    by (subst bom; destruct (INI_ALLOW_BOM o); [unfold lift; by rewrite Hb|done]).
  step_with Hrs. step_with Hsk. step_with load_app_hd.
  by step_with (holds_load_0 _ _ _ (loo_prev _ _ _ Hok)).
Qed.
End lines.
End options.
