(* ===== verification/IniConfLoop.v ===== *)
(** * The parser refines its contract in every configuration: the loop

    The growth of a heap buffer reads exactly the line that a buffer of the
    limit's size would hold; the loop over the lines is [run_lines_o]. *)
From stdpp Require Import base list numbers gmap strings.
From Stdlib Require Import Ascii ZArith.
From S2P Require Import Prelude CLib Ini IniSpec IniRefine IniReader IniConf IniConfSpec.
From S2P Require Import IniConfRefine.

(** ** Pieces of the stream *)

Lemma fgets_chunk_take n m l : n ≤ m → fgets_chunk n l = take n (fgets_chunk m l).
Proof.
  revert m l. induction n as [|n IH]; intros m l Hm; [done|]. destruct m as [|m]; [lia|].
  destruct l as [|c l]; simpl; [done|]. case_decide; simpl; [by rewrite take_nil|].
  by rewrite (IH m) by lia.
Qed.

(** A newline is the end of a piece. *)
Lemma fgets_chunk_LF n l i : fgets_chunk n l !! i = Some LF → length (fgets_chunk n l) = S i.
Proof.
  revert l i. induction n as [|n IH]; intros [|c l] i; simpl; try done.
  case_decide; destruct i as [|i]; simpl; try done.
  - intros E. congruence.
  - intros E. f_equal. by apply IH.
Qed.

Lemma fgets_chunk_prefix n l : fgets_chunk n l `prefix_of` l.
Proof. exists (drop (length (fgets_chunk n l)) l). by rewrite fgets_chunk_split. Qed.

Lemma nul_free_chunk n l : nul_free l → nul_free (fgets_chunk n l).
Proof. intros Hl. destruct (fgets_chunk_prefix n l) as [k E]. rewrite E in Hl. by apply nul_free_app in Hl as []. Qed.

(** A full piece without a newline is continued by the next one. *)
Lemma fgets_chunk_extend n k l :
  length (fgets_chunk n l) = n → (∀ i, fgets_chunk n l !! i ≠ Some LF) →
  fgets_chunk (n + k) l = fgets_chunk n l ++ fgets_chunk k (drop n l).
Proof.
  revert l. induction n as [|n IH]; intros l Hl Hlf; [done|].
  destruct l as [|c l]; [done|]. simpl in *. destruct (decide (c = LF)) as [->|Hc].
  - by destruct (Hlf 0).
  - simpl in *. f_equal. apply IH; [lia|]. intros i. apply (Hlf (S i)).
Qed.

(** ** The interface of readers for a buffer of one byte *)

Class IniReaderSmall (St : Type) `{IniReaderSpec St} := {
  read_one buf s :
    reader_ok s → 1 ≤ length buf →
    ∃ r s', ini_read buf 1 s = Ok (r, s') ∧ pending s' = pending s ∧ reader_ok s' ∧
            (r = None ∨ r = Some (NUL :: drop 1 buf))
}.

#[export] Instance fgets_small : IniReaderSmall FILE.
Proof.
  constructor. intros buf [l] _ Hl. unfold ini_read, fgets. simpl.
  destruct l as [|c l]; [by eexists _, _; repeat split; auto|].
  unfold blit. simpl. rewrite decide_True by lia. simpl.
  eexists _, _. split; [reflexivity|]. split; [done|]. split; [done|]. by right.
Qed.

#[export] Instance ini_reader_string_small : IniReaderSmall ini_parse_string_ctx.
Proof.
  constructor. intros buf [p k] Hok _. unfold ini_read, ini_reader_string. rewrite orb_true_r.
  eexists _, _. split; [reflexivity|]. split; [done|]. split; [done|]. by left.
Qed.

Section loop.
Context (o : ini_options) (Hopt : options_ok o).
Context {U : Type}.
Context (handler : list ascii → option (list ascii) → option (list ascii) → option Z → M U Z).
Context (uninit : nat → list ascii) (Huninit : ∀ n, length (uninit n) = n).
Context (oom : nat → bool).
Context {St : Type} `{IniReaderSmall St}.

(** The state after one more call of the allocator. *)
Definition logged (w : ini_state U) (e : alloc_event) : ini_state U :=
  {| st_user := st_user w; st_allocs := st_allocs w ++ [e] |}.

Lemma log_alloc_eq e (w : ini_state U) : log_alloc e w = Ok (tt, logged w e).
Proof. done. Qed.

Lemma ini_realloc_eq line n (w : ini_state U) :
  ini_realloc uninit oom line n w
  = let ok := negb (oom (length (st_allocs w))) in
    Ok (if ok then Some (take n line ++ drop (length line) (uninit n)) else None,
        logged w (Ini_realloc n ok)).
Proof. done. Qed.

Lemma grow_line_step fuel size c (w : ini_state U) :
  size - 1 ≤ length c ∧ c !! (size - 2) ≠ Some LF →
  let size' := Nat.min (MAX_LINE o) (2 * size) in
  grow_line o oom (S fuel) size c w
  = if oom (length (st_allocs w)) then Ok (None, logged (logged w (Ini_realloc size' false)) Ini_free)
    else if decide (MAX_LINE o ≤ size') then Ok (Some size', logged w (Ini_realloc size' true))
    else grow_line o oom fuel size' c (logged w (Ini_realloc size' true)).
Proof.
  intros Hfull size'. cbn [grow_line]. rewrite decide_True by done. fold size'.
  unfold bindM at 1. cbn [alloc_succeeds gets obind].
  destruct (oom _); simpl negb; rewrite (bindM_eq _ tt _ _ _ (log_alloc_eq _ _)); [done|].
  by case_decide.
Qed.

(** ** Growing the buffer *)

(** The buffer of [size] bytes holds the start of the line [c], up to its size,
    and the stream is behind it; the rest of the stream is [p]. *)
Definition holds_start (c p : list ascii) (size : nat) (line : list ascii) (s : St) : Prop :=
  length line = size ∧ (∃ r, line = take (size - 1) c ++ NUL :: r) ∧
  pending s = drop (length (take (size - 1) c)) p ∧ reader_ok s.

(** A buffer that is large enough holds the whole line. *)
Lemma holds_start_whole c p size line s :
  holds_start c p size line s → length c ≤ size - 1 →
  length line = size ∧ (∃ r, line = c ++ NUL :: r) ∧ pending s = drop (length c) p ∧ reader_ok s.
Proof. intros (H1 & H2 & H3 & H4) Hc. by rewrite take_ge in H2, H3 by lia. Qed.

(** When the test of the loop fails the line is complete. *)
Lemma grow_test c p size :
  c = fgets_chunk (MAX_LINE o - 1) p → 2 ≤ size →
  ¬ (size - 1 ≤ length c ∧ c !! (size - 2) ≠ Some LF) → length c ≤ size - 1.
Proof.
  intros Hc Hs Hn. destruct (decide (size - 1 ≤ length c)) as [Hl|]; [|lia].
  destruct (decide (c !! (size - 2) = Some LF)) as [E|E]; [|by destruct Hn].
  rewrite Hc in E |- *. apply fgets_chunk_LF in E. lia.
Qed.

(** The text that a full buffer holds. *)
Lemma full_text c p size :
  c = fgets_chunk (MAX_LINE o - 1) p → 2 ≤ size ≤ MAX_LINE o → size - 1 ≤ length c →
  c !! (size - 2) ≠ Some LF →
  let t := take (size - 1) c in
  length t = size - 1 ∧ t = fgets_chunk (size - 1) p ∧ ∀ i, t !! i ≠ Some LF.
Proof.
  intros Hc Hsz Hfull Hlf t.
  assert (Ht : t = fgets_chunk (size - 1) p)
    by (subst t; rewrite Hc; symmetry; apply fgets_chunk_take; lia).
  assert (Hl : length t = size - 1) by (subst t; rewrite length_take; lia).
  split; [done|]. split; [done|]. intros i Hi. pose proof Hi as Hi'. rewrite Ht in Hi'.
  apply fgets_chunk_LF in Hi'. rewrite <- Ht, Hl in Hi'.
  apply Hlf. subst t. apply lookup_take_Some in Hi as [Hi _]. by replace (size - 2) with i by lia.
Qed.

(** One read into the grown buffer [line'], which has the full text [t]. *)
Section grow_read.
Context (c p : list ascii) (size size' : nat) (u : list ascii) (s : St).
Context (Hc : c = fgets_chunk (MAX_LINE o - 1) p) (Hp : nul_free p).
Context (Hsz : 2 ≤ size ≤ MAX_LINE o) (Hsize' : size' = Nat.min (MAX_LINE o) (2 * size)).
Context (Hfull : size - 1 ≤ length c) (Hlf : c !! (size - 2) ≠ Some LF).
Context (Hu : length u = size' - size).
Let t := take (size - 1) c.
Context (Hpend : pending s = drop (size - 1) p) (Hok : reader_ok s).

Definition read_result (res : option (list ascii)) (s' : St) : Prop :=
  match res with
  | None => length c ≤ size - 1 ∧ holds_start c p size' (t ++ NUL :: u) s'
  | Some rest => holds_start c p size' (t ++ rest) s' ∧
                 (size' < MAX_LINE o → strlen rest = Ok (length (take (size' - 1) c) - (size - 1)))
  end.

(** The line is complete: nothing more is read. *)
Lemma text_complete s' :
  length c ≤ size - 1 → pending s' = pending s → reader_ok s' →
  holds_start c p size' (t ++ NUL :: u) s'.
Proof.
  intros Hcl Hp' Hok'. assert (Ht : length t = size - 1) by (subst t; rewrite length_take; lia).
  assert (Hw : take (size' - 1) c = t) by (subst t; rewrite !take_ge by lia; done).
  split; [rewrite length_app; simpl; lia|]. rewrite Hw. split; [by eexists|].
  split; [by rewrite Hp', Hpend, Ht|done].
Qed.

(** The buffer has the limit's size already. *)
Lemma read_limit :
  size' = size →
  ∃ res s', ini_read (NUL :: u) (Z.of_nat (size' - (size - 1))) s = Ok (res, s') ∧ read_result res s'.
Proof.
  intros E. assert (Hcl : length c ≤ size - 1)
    by (rewrite Hc; etrans; [apply fgets_chunk_length|lia]).
  destruct (read_one (NUL :: u) s Hok) as (res & s' & Hread & Hp' & Hok' & Hres); [simpl; lia|].
  replace (size' - (size - 1)) with 1 by lia. exists res, s'. split; [done|].
  pose proof (text_complete s' Hcl Hp' Hok') as Hs.
  destruct Hres as [->| ->]; [done|]. split; [done|lia].
Qed.

(** The stream ends with the full buffer. *)
Lemma read_end :
  size < size' → pending s = [] →
  ini_read (NUL :: u) (Z.of_nat (size' - (size - 1))) s = Ok (None, s) ∧ read_result None s.
Proof.
  intros Hlt Hnil. split; [apply read_eof; [done|done|lia]|].
  assert (Hcl : length c ≤ size - 1).
  { rewrite Hpend in Hnil. apply (f_equal length) in Hnil. rewrite length_drop in Hnil.
    simpl in Hnil. rewrite Hc. etrans; [apply fgets_chunk_length_l|]. lia. }
  split; [done|]. by apply text_complete.
Qed.

(** The next piece of the line is read. *)
Lemma read_rest :
  size < size' → pending s ≠ [] →
  ∃ res s', ini_read (NUL :: u) (Z.of_nat (size' - (size - 1))) s = Ok (res, s') ∧ read_result res s'.
Proof.
  intros Hlt Hnil. destruct (full_text c p size Hc Hsz Hfull Hlf) as (Ht & Htp & Hnolf).
  fold t in Ht, Htp, Hnolf.
  destruct (read_chunk (NUL :: u) (size' - (size - 1)) s Hok Hnil) as (s' & Hread & Hp' & Hok');
    [lia|simpl; lia|].
  set (c' := fgets_chunk _ (pending s)) in *. eexists _, s'. split; [exact Hread|].
  assert (Hc' : length c' ≤ size' - size) by (etrans; [apply fgets_chunk_length|lia]).
  assert (Htext : take (size' - 1) c = t ++ c').
  { rewrite Hc, <- fgets_chunk_take by lia.
    replace (size' - 1) with ((size - 1) + (size' - size)) by lia.
    rewrite fgets_chunk_extend by (rewrite <- Htp; done). rewrite <- Htp. f_equal.
    subst c'. rewrite Hpend. f_equal. lia. }
  unfold read_result, holds_start. rewrite Htext. repeat split.
  - rewrite !length_app. simpl. rewrite length_drop. simpl. lia.
  - eexists. by rewrite <- app_assoc.
  - by rewrite Hp', Hpend, drop_drop, length_app, Ht.
  - done.
  - intros _. rewrite strlen_app; [f_equal; rewrite length_app, Ht; lia|].
    apply nul_free_chunk. rewrite Hpend. rewrite <- (take_drop (size - 1) p) in Hp.
    by apply nul_free_app in Hp as [].
Qed.
End grow_read.

Lemma grow_read c p size line s :
  c = fgets_chunk (MAX_LINE o - 1) p → nul_free p → 2 ≤ size ≤ MAX_LINE o →
  holds_start c p size line s → size - 1 ≤ length c → c !! (size - 2) ≠ Some LF →
  let size' := Nat.min (MAX_LINE o) (2 * size) in
  let line' := take size' line ++ drop (length line) (uninit size') in
  ∃ res s', ini_read (drop (size - 1) line') (Z.of_nat size' - Z.of_nat (size - 1)) s = Ok (res, s') ∧
    match res with
    | None => length c ≤ size - 1 ∧ holds_start c p size' line' s'
    | Some rest => holds_start c p size' (take (size - 1) line' ++ rest) s' ∧
                   (size' < MAX_LINE o → strlen rest = Ok (length (take (size' - 1) c) - (size - 1)))
    end.
Proof.
  intros Hc Hp Hsz (Hlen & (r & Hline) & Hpend & Hok) Hfull Hlf size' line'.
  destruct (full_text c p size Hc Hsz Hfull Hlf) as (Ht & _). set (u := drop size (uninit size')).
  assert (Hsize' : size ≤ size' ≤ MAX_LINE o) by (subst size'; lia).
  assert (Hu : length u = size' - size) by (subst u; rewrite length_drop, Huninit; lia).
  assert (Hline' : line' = take (size - 1) c ++ NUL :: u).
  { subst line' u. rewrite Hlen, (take_ge line) by lia. rewrite Hline in Hlen |- *.
    rewrite length_app in Hlen. simpl in Hlen. destruct r; [|simpl in Hlen; lia].
    by rewrite <- app_assoc. }
  rewrite Hline', drop_app_length', take_app_length' by done. rewrite Ht in Hpend.
  replace (Z.of_nat size' - Z.of_nat (size - 1))%Z with (Z.of_nat (size' - (size - 1))) by lia.
  destruct (decide (size' = size)) as [E|E]; [by apply read_limit|].
  destruct (decide (pending s = [])) as [Hnil|Hnil]; [|by apply read_rest; [..|lia|]].
  exists None, s. by apply read_end; [..|lia|].
Qed.

(** The last character of the text in a full buffer. *)
Lemma holds_start_last c p size line s :
  holds_start c p size line s → 2 ≤ size → size - 1 ≤ length c →
  ∃ ch, c !! (size - 2) = Some ch ∧ load line (size - 2) = Ok ch.
Proof.
  intros (_ & (r & ->) & _) Hs Hc.
  destruct (lookup_lt_is_Some_2 c (size - 2)) as [ch Hch]; [lia|]. exists ch. split; [done|].
  unfold load. rewrite lookup_app_l by (rewrite length_take; lia).
  rewrite lookup_take_lt by lia. by rewrite Hch.
Qed.

Lemma size_u64 size : 2 ≤ size ≤ MAX_LINE o → to_u64 (Z.of_nat size - 1) = (Z.of_nat size - 1)%Z.
Proof.
  intros Hs. pose proof (oo_max_int _ Hopt) as Hint. unfold INT_MAX in Hint.
  apply Z.mod_small. lia.
Qed.

(** A turn of the loop that is the last. *)
Lemma grow_loop_done fuel c p size line s (w : ini_state U) :
  c = fgets_chunk (MAX_LINE o - 1) p → 2 ≤ size ≤ MAX_LINE o → holds_start c p size line s →
  ¬ (size - 1 ≤ length c ∧ c !! (size - 2) ≠ Some LF) →
  grow_loop o uninit oom (S fuel) line size (length (take (size - 1) c)) s w
  = Ok (Some (line, size, s), w).
Proof.
  intros Hc Hsz Hs Hdone. cbn [grow_loop]. rewrite size_u64, length_take by done.
  case_decide as Hoff; [|done].
  destruct (holds_start_last _ _ _ _ _ Hs) as (ch & Hch & Hload); [lia..|].
  rewrite decide_False by lia. replace (_ - 1) with (size - 2) by lia. step_with Hload.
  rewrite decide_True; [done|]. destruct (decide (ch = LF)); [done|].
  destruct Hdone. split; [lia|]. congruence.
Qed.

(** A turn of the loop that grows the buffer. *)
Lemma grow_loop_step fuel c p size line s (w : ini_state U) :
  2 ≤ size ≤ MAX_LINE o → holds_start c p size line s →
  size - 1 ≤ length c → c !! (size - 2) ≠ Some LF →
  let size' := Nat.min (MAX_LINE o) (2 * size) in
  grow_loop o uninit oom (S fuel) line size (size - 1) s w
  = (let! new_line := ini_realloc uninit oom line size' in
     match new_line with
     | None => do! ini_free in retM None
     | Some line =>
         let! r := lift (ini_read (drop (size - 1) line)
                                  (Z.of_nat size' - Z.of_nat (size - 1)) s) in
         match r with
         | (None, s) => retM (Some (line, size', s))
         | (Some rest, s) =>
             let line := take (size - 1) line ++ rest in
             if decide (MAX_LINE o ≤ size') then retM (Some (line, size', s))
             else
               let! n := lift (strlen rest) in
               grow_loop o uninit oom fuel line size' (size - 1 + n) s
         end
     end) w.
Proof.
  intros Hsz Hs Hfull Hlf size'. cbn [grow_loop]. rewrite size_u64 by done.
  rewrite (decide_True (P := Z.of_nat (size - 1) = _)) by lia.
  destruct (holds_start_last _ _ _ _ _ Hs) as (ch & Hch & Hload); [lia..|].
  rewrite (decide_False (P := size - 1 = 0)) by lia.
  replace (size - 1 - 1) with (size - 2) by lia. step_with Hload.
  rewrite (decide_False (P := ch = LF)) by congruence.
  assert ((if decide (MAX_LINE o < 2 * size) then MAX_LINE o else 2 * size) = size') as ->
    by (subst size'; case_decide; lia).
  done.
Qed.

(** The loop that grows the buffer. *)
Lemma grow_loop_correct fuel c p size line s (w : ini_state U) :
  c = fgets_chunk (MAX_LINE o - 1) p → nul_free p → 2 ≤ size ≤ MAX_LINE o →
  holds_start c p size line s → MAX_LINE o - size < fuel →
  ∃ g w', grow_line o oom fuel size c w = Ok (g, w') ∧
    match g with
    | None => grow_loop o uninit oom fuel line size (length (take (size - 1) c)) s w = Ok (None, w')
    | Some size' =>
        ∃ line' s', grow_loop o uninit oom fuel line size (length (take (size - 1) c)) s w
                    = Ok (Some (line', size', s'), w') ∧
          2 ≤ size' ≤ MAX_LINE o ∧ holds_start c p size' line' s' ∧ length c ≤ size' - 1
    end.
Proof.
  intros Hc Hp. revert size line s w. induction fuel as [|fuel IH]; intros size line s w Hsz Hs Hf; [lia|].
  destruct (decide (size - 1 ≤ length c ∧ c !! (size - 2) ≠ Some LF)) as [[Hfull Hlf]|Hdone].
  2: { exists (Some size), w. cbn [grow_line]. rewrite decide_False by done. split; [done|].
       exists line, s. split; [by apply grow_loop_done with p|].
       split; [done|]. split; [done|]. apply (grow_test c p); [done|lia|done]. }
  rewrite grow_line_step, length_take, (Nat.min_l (size - 1)) by done.
  rewrite (grow_loop_step fuel c p) by done. set (size' := Nat.min (MAX_LINE o) (2 * size)).
  rewrite (bindM_eq _ _ _ _ _ (ini_realloc_eq line size' w)).
  destruct (oom (length (st_allocs w))); [by eexists None, _; split; reflexivity|]. simpl negb.
  set (line' := take size' line ++ _). set (w1 := logged w _).
  destruct (grow_read c p size line s) as (res & s' & Hread & Hres); [done..|].
  fold size' in Hread, Hres. fold line' in Hread, Hres. cbv beta iota.
  cbn [negb]. step_with Hread.
  assert (Hw : 2 ≤ size' ≤ MAX_LINE o) by (subst size'; lia).
  destruct res as [rest|]; simpl.
  - destruct Hres as [Hs' Hn]. destruct (decide (MAX_LINE o ≤ size')) as [Hmax|Hmax].
    + exists (Some size'), w1. split; [done|]. eexists _, s'. split; [done|]. split; [done|].
      split; [exact Hs'|]. rewrite Hc. etrans; [apply fgets_chunk_length|lia].
    + step_with (Hn ltac:(lia)).
      replace (size - 1 + _) with (length (take (size' - 1) c))
        by (rewrite !length_take; subst size'; lia).
      apply IH; [done..|]. subst size'; lia.
  - destruct Hres as [Hcl Hs']. exists (Some size'), w1. split.
    + case_decide; [done|]. destruct fuel as [|fuel]; [subst size'; lia|]. cbn [grow_line].
      rewrite decide_False; [done|]. intros [? _]. subst size'; lia.
    + eexists _, s'. split; [done|]. split; [done|]. split; [exact Hs'|]. subst size'; lia.
Qed.
(** ** One line *)

(** The size of the buffer, with [p] still to be read. *)
Definition size_ok (size : nat) (p : list ascii) : Prop :=
  if growing o then 2 ≤ size ≤ MAX_LINE o ∧ nul_free p else size = line_limit o.

Lemma limit_pos : 2 ≤ line_limit o.
Proof.
  pose proof (oo_max _ Hopt). pose proof (oo_initial _ Hopt).
  unfold line_limit, first_size. by repeat case_match.
Qed.

Lemma size_ok_bounds size p : size_ok size p → 2 ≤ size ≤ line_limit o.
Proof.
  pose proof limit_pos. unfold size_ok, line_limit in *.
  destruct (growing o); [tauto|]. intros ->. lia.
Qed.

Lemma size_ok_rest size n p : size_ok size p → size_ok size (drop n p).
Proof.
  unfold size_ok. case_match; [|done]. intros [? Hp]. split; [done|].
  rewrite <- (take_drop n p) in Hp. by apply nul_free_app in Hp as [].
Qed.

(** A read into the buffer, and its growth if the line does not fit: the buffer
    then holds the whole line. *)
Definition line_read (c p : list ascii) (size : nat) (line : list ascii) (s : St) : Prop :=
  length line = size ∧ (∃ r, line = c ++ NUL :: r) ∧ pending s = drop (length c) p ∧
  reader_ok s ∧ size_ok size p.

Lemma read_line_correct line size stream :
  length line = size → reader_ok stream → pending stream ≠ [] → size_ok size (pending stream) →
  let p := pending stream in
  let c := fgets_chunk (line_limit o - 1) p in
  ∃ line0 s0, ini_read line (Z.of_nat size) stream = Ok (Some line0, s0) ∧
    ∀ w : ini_state U, ∃ g w', fit_line o oom size c w = Ok (g, w') ∧
      match g with
      | None => grow o uninit oom line0 size s0 w = Ok (None, w')
      | Some size' => ∃ line' s', grow o uninit oom line0 size s0 w = Ok (Some (line', size', s'), w') ∧
                                  line_read c p size' line' s'
      end.
Proof.
  intros Hline Hrd Hnil Hsz p c. pose proof (size_ok_bounds _ _ Hsz) as Hb.
  destruct (read_chunk line size stream Hrd Hnil) as (s0 & Hread & Hp0 & Hrd0); [lia..|].
  fold p in Hread, Hp0, Hnil, Hsz.
  assert (Ht : fgets_chunk (size - 1) p = take (size - 1) c) by (apply fgets_chunk_take; lia).
  rewrite Ht in Hread, Hp0. set (t := take (size - 1) c) in *. eexists _, s0. split; [exact Hread|].
  assert (Htl : length t ≤ size - 1) by (subst t; rewrite length_take; lia).
  intros w. unfold fit_line, grow. fold (growing o). unfold size_ok in Hsz.
  destruct (growing o) eqn:Hg.
  - destruct Hsz as [Hsz Hnul].
    assert (Hc : c = fgets_chunk (MAX_LINE o - 1) p) by (subst c; unfold line_limit; by rewrite Hg).
    assert (Hs : holds_start c p size (t ++ NUL :: drop (S (length t)) line) s0).
    { split; [len|]. split; [by eexists|done]. }
    destruct (grow_loop_correct (S (MAX_LINE o)) c p size _ s0 w Hc Hnul Hsz Hs) as (g & w' & Hfit & Hgrow);
      [lia|].
    assert (Hstr : strlen (t ++ NUL :: drop (S (length t)) line) = Ok (length t)).
    { apply strlen_app. rewrite <- Ht. by apply nul_free_chunk. }
    exists g, w'. split; [done|]. rewrite (bindM_lift_Ok _ _ _ _ Hstr).
    destruct g as [size'|]; [|done]. destruct Hgrow as (line' & s' & Hrun & Hsz' & Hs' & Hcl).
    exists line', s'. split; [done|].
    destruct (holds_start_whole _ _ _ _ _ Hs' Hcl) as (? & ? & ? & ?). unfold line_read, size_ok. by rewrite Hg.
  - exists (Some size), w. split; [done|]. eexists _, s0. split; [done|].
    assert (Htc : t = c).
    { subst t. apply take_ge. subst c. rewrite Hsz. apply fgets_chunk_length. }
    rewrite Htc in *. split; [len|]. split; [by eexists|]. unfold size_ok. by rewrite Hg.
Qed.

(** ** The loop *)

Lemma ini_loop_o_correct fuel stream size l st w :
  locals_ok_o size l st → reader_ok stream → size_ok size (pending stream) →
  length (pending stream) < fuel → (0 ≤ il_lineno l)%Z →
  (il_lineno l + Z.of_nat (length (pending stream)) ≤ INT_MAX)%Z →
  ini_loop_o o handler uninit oom fuel stream size l w
  = run_lines_o o handler oom (il_lineno l) st size (il_error l)
      (chunks (line_limit o - 1) (pending stream)) w.
Proof.
  revert stream size l st w. induction fuel as [|fuel IH]; [lia|].
  intros stream size l st w Hok Hrd Hsz Hfuel Hpos Hmax. cbn [ini_loop_o]. pose proof limit_pos as Hlim.
  destruct (decide (pending stream = [])) as [Hnil|Hnil].
  { rewrite Hnil. pose proof (size_ok_bounds _ _ Hsz).
    by rewrite (bindM_lift_Ok _ _ _ _ (read_eof _ size _ Hrd Hnil ltac:(lia))). }
  rewrite chunks_unfold by (done || lia).
  destruct (read_line_correct (il_line l) size stream) as (line0 & s0 & Hread & Hgrow);
    [apply Hok|done..|].
  step_with Hread. set (c := fgets_chunk _ (pending stream)) in *. cbv beta iota. cbn [run_lines_o].
  destruct (Hgrow w) as (g & w' & Hfit & Hg). rewrite (bindM_eq _ _ _ _ _ Hfit).
  destruct g as [size'|]; [|by rewrite (bindM_eq _ _ _ _ _ Hg)].
  destruct Hg as (line & s & Hg & Hlen & (r & Hline) & Hpend & Hrd' & Hsz').
  rewrite (bindM_eq _ _ _ _ _ Hg). cbv beta iota.
  assert (Hc : 1 ≤ length c) by (apply fgets_chunk_pos; [lia|done]).
  assert (Hc' : length c ≤ length (pending stream)) by apply fgets_chunk_length_l.
  assert (Hinc : int_incr (il_lineno l) = Ok (il_lineno l + 1)%Z)
    by (unfold int_incr; rewrite decide_False by lia; done).
  step_with Hinc. set (l1 := Build_ini_locals _ _ _ _ _).
  assert (Hl1 : locals_ok_o size' l1 st) by (destruct Hok; by split).
  pose proof (process_line_o_correct o handler size' l1 st c r Hl1 Hline) as Hrun.
  assert (bool_decide (il_lineno l1 = 1%Z) = bool_decide (il_lineno l = 0%Z)) as Hb
    by (apply bool_decide_ext; simpl; lia).
  rewrite Hb in Hrun. destruct Hrun as (line1 & sec & prev & Hok' & Hrun).
  unfold bindM at 1. rewrite Hrun. cbn [il_lineno l1].
  destruct (parse_line_o _ _ st c) as [a st'] eqn:Epl. cbn [fst snd] in *.
  unfold bindM at 1. rewrite obind_assoc. apply obind_ext. intros [err' w1]. cbn [obind].
  cbn [il_error]. destruct (INI_STOP_ON_FIRST_ERROR o && _); [done|].
  rewrite (IH _ _ _ st'); [by rewrite Hpend|..].
  - destruct Hok'; by split.
  - done.
  - rewrite Hpend. by apply size_ok_rest.
  - rewrite Hpend, length_drop. lia.
  - simpl. lia.
  - rewrite Hpend, length_drop. simpl. lia.
Qed.

Lemma initial_locals_ok n line0 :
  length line0 = n → locals_ok_o n (initial_locals line0) {| ps_section := []; ps_prev := [] |}.
Proof. intros H'. split; simpl; [done|..]; repeat split; [done| |done|]; eexists; reflexivity. Qed.

Lemma first_size_ok p : (growing o = true → nul_free p) → size_ok (first_size o) p.
Proof.
  intros Hp. unfold size_ok, line_limit. destruct (growing o) eqn:Hg; [|done].
  split; [|by apply Hp]. unfold growing in Hg. apply andb_prop in Hg as [Hg Hst].
  apply negb_true_iff in Hst. unfold first_size. rewrite Hst.
  split; [apply (oo_initial _ Hopt)|by apply (oo_grow _ Hopt)].
Qed.

Lemma ini_parse_stream_o_correct fuel line0 stream (w : ini_state U) :
  length line0 = MAX_LINE o → reader_ok stream →
  (growing o = true → nul_free (pending stream)) →
  length (pending stream) < fuel → (Z.of_nat (length (pending stream)) ≤ INT_MAX)%Z →
  ini_parse_stream_o o handler uninit oom fuel line0 stream w
  = parse_spec_o o handler oom (pending stream) w.
Proof.
  intros Hl Hrd Hnul Hfuel Hmax. unfold ini_parse_stream_o, parse_spec_o.
  assert (Hloop : ∀ line w', length line = first_size o →
    ini_loop_o o handler uninit oom fuel stream (first_size o) (initial_locals line) w'
    = run_lines_o o handler oom 0 {| ps_section := []; ps_prev := [] |} (first_size o) 0
        (chunks (line_limit o - 1) (pending stream)) w').
  { intros line w' Hline. apply ini_loop_o_correct;
      [by apply initial_locals_ok|done|by apply first_size_ok|done..]. }
  unfold first_size in *. destruct (INI_USE_STACK o); [by apply Hloop|].
  unfold ini_malloc. rewrite bindM_assoc.
  rewrite !(bindM_eq _ _ _ _ _ (eq_refl : alloc_succeeds oom w = Ok (negb (oom (length (st_allocs w))), w))).
  rewrite bindM_assoc, !(bindM_eq _ _ _ _ _ (log_alloc_eq _ w)).
  destruct (negb (oom _)); [|done]. rewrite bindM_retM. by apply Hloop.
Qed.
End loop.
