(* ===== verification/IniConfProps.v ===== *)
(** * Properties of the INI parser in every configuration

    The configuration of the program as an instance, refinement of the contract,
    growth of the line buffer, its allocation, the stop at the first error, and
    the names without a value that an earlier error hides. *)
From stdpp Require Import base list numbers gmap strings.
From Stdlib Require Import Ascii ZArith.
From S2P Require Import Prelude CLib Ini IniSpec IniRefine IniReader IniPrint.
From S2P Require Import IniConf IniConfSpec IniConfRefine IniConfLoop.

(** The start: nothing allocated. *)
Definition fresh {U} (u : U) : ini_state U := {| st_user := u; st_allocs := [] |}.

(** An allocator that never fails, and one that fails from call [n] on; blocks
    full of rubbish. *)
Definition plenty : nat → bool := λ _, false.
Definition fails_from (n : nat) : nat → bool := λ k, bool_decide (n ≤ k).
Definition rubbish (n : nat) : list ascii := replicate n "Z"%char.

Lemma rubbish_length n : length (rubbish n) = n.
Proof. apply length_replicate. Qed.

(** A handler that takes the pointers of any configuration and writes down its
    arguments. *)
Abbreviation call_args :=
  (list ascii * option (list ascii) * option (list ascii) * option Z)%type.
Definition note_args : list ascii → option (list ascii) → option (list ascii) → option Z →
    M (list call_args) Z :=
  λ s n v l u, Ok (1%Z, u ++ [(s, n, v, l)]).

(** ** The configuration of the program *)

Section defaults.
Context {U : Type} (handler : list ascii → list ascii → list ascii → M U Z).

(** A handler that is never called without a name or value. *)
Definition with_strings : list ascii → option (list ascii) → option (list ascii) → option Z → M U Z :=
  λ s n v _, match n, v with Some n, Some v => handler s n v | _, _ => retM 1%Z end.

Abbreviation D := conf_h_defaults.

Lemma bindM_ext {W A B} (c c' : M W A) (k k' : A → M W B) w :
  c w = c' w → (∀ a w', k a w' = k' a w') → bindM c k w = bindM c' k' w.
Proof. intros E H. unfold bindM. rewrite E. apply obind_ext. by intros []. Qed.

Lemma with_user_bind {A B} (c : M U A) (k : A → M U B) w :
  with_user (bindM c k) w = bindM (with_user c) (λ a, with_user (k a)) w.
Proof. unfold with_user, bindM. rewrite !obind_assoc. apply obind_ext. by intros []. Qed.

Lemma with_user_lift {A} (c : outcome A) w : with_user (lift c : M U A) w = lift c w.
Proof. unfold with_user, lift. rewrite obind_assoc. by destruct w. Qed.

Lemma with_user_retM {A} (a : A) w : with_user (retM a : M U A) w = retM a w.
Proof. by destruct w. Qed.

Lemma find_loop_o_defaults chars ws s : find_loop_o D chars ws s = find_loop chars ws s.
Proof. revert ws. induction s as [|c s IH]; intros ws; [done|]. simpl. by rewrite IH. Qed.

Lemma find_defaults line s chars :
  find_chars_or_comment_o D line s chars = find_chars_or_comment line s chars.
Proof. unfold find_chars_or_comment_o. by rewrite find_loop_o_defaults. Qed.

(** One step of the program's configuration against the general one. *)
Ltac same_step :=
  rewrite with_user_bind; apply bindM_ext; [by rewrite ?find_defaults, ?with_user_lift|];
  let a := fresh "a" in let w := fresh "w" in intros a w.

Lemma call_handler_o_defaults s n v lineno w :
  call_handler_o D with_strings s (Some n) (Some v) lineno w = with_user (call_handler handler s n v) w.
Proof.
  unfold call_handler_o, call_handler, string_arg. same_step.
  rewrite with_user_bind. unfold with_user, lift, bindM. simpl.
  destruct (cstring n), (cstring v); done.
Qed.

Lemma section_line_o_defaults l line start w :
  section_line_o D with_strings l line start w = with_user (section_line l line start) w.
Proof.
  unfold section_line_o, section_line. do 2 same_step. case_decide.
  - do 3 same_step. by rewrite with_user_retM.
  - by rewrite with_user_retM.
Qed.

Lemma pair_line_o_defaults l line start w :
  pair_line_o D with_strings l line start w = with_user (pair_line handler l line start) w.
Proof.
  unfold pair_line_o, pair_line. do 2 same_step. case_decide.
  - do 2 same_step. unfold cut_comment. cbn [INI_ALLOW_INLINE_COMMENTS D].
    rewrite bindM_assoc. same_step. rewrite bindM_assoc. same_step.
    rewrite with_user_bind. apply bindM_ext; [case_decide; by rewrite ?with_user_retM, ?with_user_lift|].
    intros line3 w_line. do 3 same_step. rewrite with_user_bind.
    apply bindM_ext; [by rewrite call_handler_o_defaults|]. intros r w_end. by rewrite with_user_retM.
  - rewrite with_user_retM. unfold locals_after, note_error. by repeat case_decide.
Qed.

Lemma process_line_o_defaults l w :
  process_line_o D with_strings l w = with_user (process_line handler l) w.
Proof.
  unfold process_line_o, process_line. cbn [INI_ALLOW_BOM D]. do 5 same_step.
  unfold line_branch_o, line_branch. cbn [START_COMMENT_PREFIXES INI_ALLOW_MULTILINE D andb].
  destruct (strchr _ _); [by rewrite with_user_retM|]. rewrite bool_decide_decide.
  case_decide; [|case_decide; [apply section_line_o_defaults|case_decide; [apply pair_line_o_defaults|
    by rewrite with_user_retM]]].
  rewrite with_user_bind. apply bindM_ext; [by rewrite call_handler_o_defaults|].
  intros r w'. by rewrite with_user_retM.
Qed.

Lemma ini_loop_o_defaults {St} `{IniReader St} uninit oom fuel (stream : St) l w :
  ini_loop_o D with_strings uninit oom fuel stream INI_MAX_LINE l w
  = with_user (ini_loop handler fuel stream l) w.
Proof.
  revert stream l w. induction fuel as [|fuel IH]; intros stream l w; [done|].
  cbn [ini_loop_o ini_loop]. same_step. destruct a as [[line|] s]; [|by rewrite with_user_retM].
  unfold grow. cbn [INI_ALLOW_REALLOC D andb]. rewrite bindM_retM. same_step.
  rewrite with_user_bind. apply bindM_ext; [apply process_line_o_defaults|]. intros l' w'. apply IH.
Qed.
End defaults.

(** The configuration the program is compiled with (the values conf.h gives
    when no macro is set) is the parser that the file Ini models: with any
    reader, handler and fuel the general parser returns, faults and calls the
    handler in the same way, and it never uses the allocator. *)
Theorem conf_h_defaults_is_ini {U} (handler : list ascii → list ascii → list ascii → M U Z)
    {St} `{IniReader St} uninit oom fuel line0 (stream : St) w :
  ini_parse_stream_o conf_h_defaults (with_strings handler) uninit oom fuel line0 stream w
  = with_user (ini_parse_stream handler fuel line0 stream) w.
Proof. apply ini_loop_o_defaults. Qed.

(** ** The calls of the allocator *)

Section allocs.
Context (o : ini_options) (Hopt : options_ok o) {U : Type} (oom : nat → bool).
Implicit Types w : ini_state U.

(** A successful growth within the limit. *)
Definition grown (e : alloc_event) : Prop :=
  match e with Ini_realloc n true => n ≤ MAX_LINE o | _ => False end.

(** The calls between two states: the user's data is not touched. *)
Definition calls_made w (l : list alloc_event) w' : Prop :=
  st_user w' = st_user w ∧ st_allocs w' = st_allocs w ++ l.

Lemma calls_logged w e : calls_made w [e] (logged w e).
Proof. done. Qed.

Lemma calls_trans w1 l1 w2 l2 w3 :
  calls_made w1 l1 w2 → calls_made w2 l2 w3 → calls_made w1 (l1 ++ l2) w3.
Proof. intros [U1 E1] [U2 E2]. split; [congruence|]. by rewrite E2, E1, app_assoc. Qed.

(** What a growth does: it succeeds, or memory runs out and the buffer is
    freed. *)
Definition fit_calls w (g : option nat) w' : Prop :=
  ∃ l, Forall grown l ∧
    match g with
    | Some _ => calls_made w l w'
    | None => (∃ n, oom n = true) ∧ ∃ k, calls_made w (l ++ [Ini_realloc k false; Ini_free]) w'
    end.

Lemma grow_line_calls fuel size c w :
  2 ≤ size → MAX_LINE o - size < fuel →
  ∃ g w', grow_line o oom fuel size c w = Ok (g, w') ∧ fit_calls w g w' ∧
          match g with Some size' => 2 ≤ size' | None => True end.
Proof.
  pose proof (oo_max _ Hopt) as Hmax.
  revert size w. induction fuel as [|fuel IH]; intros size w Hs Hf; [lia|].
  destruct (decide (size - 1 ≤ length c ∧ c !! (size - 2) ≠ Some LF)) as [Hd|Hd].
  2: { exists (Some size), w. cbn [grow_line]. rewrite decide_False by done. split; [done|].
       split; [|done]. exists []. split; [done|]. split; [done|by rewrite app_nil_r]. }
  rewrite grow_line_step by done. set (size' := Nat.min _ _).
  destruct (oom (length (st_allocs w))) eqn:Hoom.
  - eexists None, _. split; [reflexivity|]. split; [|done]. exists []. split; [done|].
    split; [by eexists|]. exists size'.
    apply (calls_trans _ [_] _ [_] _ (calls_logged _ _) (calls_logged _ _)).
  - assert (Hg : grown (Ini_realloc size' true)) by (subst size'; simpl; lia).
    case_decide.
    + exists (Some size'), (logged w (Ini_realloc size' true)). split; [done|].
      split; [exists [Ini_realloc size' true]; by repeat constructor|subst size'; lia].
    + destruct (IH size' (logged w (Ini_realloc size' true))) as (g & w' & Hrun & (l & Hl & Hcalls) & Hb);
        [subst size'; lia..|].
      exists g, w'. split; [done|]. split; [|done]. exists (Ini_realloc size' true :: l).
      split; [by constructor|]. destruct g.
      * by apply (calls_trans _ [_] _ l _ (calls_logged _ _)).
      * destruct Hcalls as [? [k Hcalls]]. split; [done|]. exists k.
        by apply (calls_trans _ [_] _ _ _ (calls_logged _ _)).
Qed.

Lemma fit_line_calls size c w :
  2 ≤ size →
  ∃ g w', fit_line o oom size c w = Ok (g, w') ∧ fit_calls w g w' ∧
          match g with Some size' => 2 ≤ size' | None => True end.
Proof.
  intros Hs. unfold fit_line. destruct (growing o).
  - apply grow_line_calls; lia.
  - exists (Some size), w. split; [done|]. split; [|done]. exists []. split; [done|].
    split; [done|by rewrite app_nil_r].
Qed.

Lemma first_size_pos : 2 ≤ first_size o.
Proof. pose proof (oo_max _ Hopt). pose proof (oo_initial _ Hopt). unfold first_size. by case_match. Qed.

(** Handlers that never fault. *)
Context (handler : list ascii → option (list ascii) → option (list ascii) → option Z → M U Z).
Definition handler_total : Prop := ∀ s n v lineno u, ∃ r u', handler s n v lineno u = Ok (r, u').

Lemma run_request_total sec a lineno err w :
  handler_total → (0 ≤ lineno)%Z → (0 ≤ err)%Z →
  ∃ err' w', run_request o handler sec a lineno err w = Ok (err', w') ∧ (0 ≤ err')%Z ∧
             st_allocs w' = st_allocs w.
Proof.
  intros Hh Hn He.
  assert (Hcall : ∀ nm v, ∃ err' w',
    (let! r := with_user (handler sec nm v (lineno_arg o lineno)) in retM (noted r lineno err)) w
    = Ok (err', w') ∧ (0 ≤ err')%Z ∧ st_allocs w' = st_allocs w).
  { intros nm v. destruct (Hh sec nm v (lineno_arg o lineno) (st_user w)) as (r & u' & Hr).
    unfold bindM, with_user. rewrite Hr. eexists _, _. split; [reflexivity|]. split; [|done].
    unfold noted, first_error. by repeat case_decide. }
  destruct a; simpl; try apply Hcall.
  - by exists err, w.
  - eexists _, w. split; [reflexivity|]. split; [|done]. unfold first_error. by case_decide.
  - case_decide; [apply Hcall|by exists err, w].
Qed.

(** The calls of the allocator in a run: only growths until the buffer is freed;
    -2 exactly when memory ran out. *)
Definition run_calls w r w' : Prop :=
  ∃ l, Forall grown l ∧
    (((0 ≤ r)%Z ∧ st_allocs w' = st_allocs w ++ l ++ (if INI_USE_STACK o then [] else [Ini_free])) ∨
     (r = (-2)%Z ∧ (∃ n, oom n = true) ∧
      ∃ k, st_allocs w' = st_allocs w ++ l ++ [Ini_realloc k false; Ini_free])).

Lemma run_calls_trans w1 l w2 r w3 :
  Forall grown l → st_allocs w2 = st_allocs w1 ++ l → run_calls w2 r w3 → run_calls w1 r w3.
Proof.
  intros Hl E (l' & Hl' & H). exists (l ++ l'). split; [by apply Forall_app|]. rewrite E in H.
  destruct H as [[Hr ->]|(-> & Ho & k & ->)]; [left|right]; rewrite <- !app_assoc; [done|].
  split; [done|]. split; [done|]. exists k. by rewrite <- !app_assoc.
Qed.

Lemma ini_finish_calls err w :
  (0 ≤ err)%Z → ∃ w', ini_finish o err w = Ok (err, w') ∧ run_calls w err w'.
Proof.
  intros He. unfold ini_finish, run_calls. destruct (INI_USE_STACK o).
  - exists w. split; [done|]. exists []. split; [done|]. left. by rewrite app_nil_r.
  - exists (logged w Ini_free). split; [done|]. exists []. split; [done|]. by left.
Qed.

Lemma run_lines_o_calls ls n st size err w :
  handler_total → 2 ≤ size → (0 ≤ n)%Z → (0 ≤ err)%Z →
  ∃ r w', run_lines_o o handler oom n st size err ls w = Ok (r, w') ∧ run_calls w r w'.
Proof.
  intros Hh. revert n st size err w.
  induction ls as [|c ls IH]; intros n st size err w Hs Hn He; cbn [run_lines_o].
  { destruct (ini_finish_calls err w He) as (w' & ? & ?). by exists err, w'. }
  destruct (fit_line_calls size c w Hs) as (g & w1 & Hfit & (l & Hl & Hcalls) & Hsize).
  rewrite (bindM_eq _ _ _ _ _ Hfit). destruct g as [size'|].
  2: { destruct Hcalls as [Ho (k & _ & E)]. exists (-2)%Z, w1. split; [done|]. exists l. split; [done|].
       right. split; [done|]. split; [done|]. by exists k. }
  destruct Hcalls as [_ E1]. destruct (parse_line_o _ _ st c) as [a st'].
  destruct (run_request_total (ps_section st') a (n + 1) err w1 Hh) as (err' & w2 & Hreq & He' & E2);
    [lia|done|].
  rewrite (bindM_eq _ _ _ _ _ Hreq). rewrite <- E2 in E1.
  assert (∃ r w', (if INI_STOP_ON_FIRST_ERROR o && bool_decide (err' ≠ 0%Z) then ini_finish o err'
    else run_lines_o o handler oom (n + 1) st' size' err' ls) w2 = Ok (r, w') ∧ run_calls w2 r w')
    as (r & w' & Hrun & Hrc).
  { destruct (INI_STOP_ON_FIRST_ERROR o && _); [|apply IH; lia].
    destruct (ini_finish_calls err' w2 He') as (w' & ? & ?). by exists err', w'. }
  exists r, w'. split; [done|]. by eapply run_calls_trans.
Qed.
End allocs.

(** Reading a file is the contract of the configuration. *)
Lemma ini_parse_file_o_spec o {U} handler uninit oom line0 bytes (w : ini_state U) :
  options_ok o → (∀ n, length (uninit n) = n) → length line0 = MAX_LINE o →
  (growing o = true → nul_free bytes) → (Z.of_nat (length bytes) ≤ INT_MAX)%Z →
  ini_parse_file_o o handler uninit oom line0 {| file_left := bytes |} w
  = parse_spec_o o handler oom bytes w.
Proof.
  intros Ho Hu Hl Hnul Hmax. unfold ini_parse_file_o.
  rewrite (ini_parse_stream_o_correct o Ho handler uninit Hu oom (H := fgets_spec)); simpl; done || lia.
Qed.

(** C15. The parser refines its contract in every configuration of conf.h whose
    buffer sizes are at least 2 and fit an [int] and whose heap buffer, if it may
    grow, does not start beyond its limit ([options_ok]; beyond it the parser
    faults, see the file IniShrink): for all other values of the macros
    (comments, multi-line values, byte order marks, calls for new sections and
    for names without values, stop at the first error, the line buffer on the
    stack, in the heap or growing), for every handler, allocator and contents of
    fresh memory, [ini_parse_file] does what [parse_spec_o] says: the same calls
    of the handler in the same order, the same calls of the allocator, the same
    result.  A line that is longer than the buffer's limit is cut there; with a
    growing buffer the file must not hold NUL bytes, which the code measures
    lines with. *)
Theorem ini_parse_file_any_configuration o {U} handler uninit oom line0 bytes (w : ini_state U) :
  options_ok o → (∀ n, length (uninit n) = n) → length line0 = MAX_LINE o →
  (growing o = true → nul_free bytes) → (Z.of_nat (length bytes) ≤ INT_MAX)%Z →
  ini_parse_file_o o handler uninit oom line0 {| file_left := bytes |} w
  = parse_spec_o o handler oom bytes w.
Proof. apply ini_parse_file_o_spec. Qed.

(** Everything that is off by default, on; a buffer that grows from 4 bytes to at
    most 12. *)
Definition all_features : ini_options := {|
  INI_HANDLER_LINENO := true;
  INI_ALLOW_MULTILINE := false;
  INI_ALLOW_BOM := false;
  START_COMMENT_PREFIXES := str "%";
  INI_ALLOW_INLINE_COMMENTS := false;
  INLINE_COMMENT_PREFIXES := str ";";
  INI_USE_STACK := false;
  MAX_LINE := 12;
  INI_ALLOW_REALLOC := true;
  INI_INITIAL_ALLOC := 4;
  INI_STOP_ON_FIRST_ERROR := true;
  INI_CALL_HANDLER_ON_NEW_SECTION := true;
  INI_ALLOW_NO_VALUE := true
|}.

Lemma all_features_ok : options_ok all_features.
Proof. split; simpl; lia || by vm_compute. Qed.

Definition small_file : list ascii :=
  str "%c" ++ LF :: str "[sec]" ++ LF :: str "key=a;b" ++ LF :: str "verbose" ++ [LF].

Lemma ini_parse_file_any_configuration_witness :
  ini_parse_file_o all_features note_args rubbish plenty (rubbish 12) {| file_left := small_file |}
    (fresh [])
  = Ok (0%Z, {| st_user := [(str "sec", None, None, Some 2%Z);
                            (str "sec", Some (str "key"), Some (str "a;b"), Some 3%Z);
                            (str "sec", Some (str "verbose"), None, Some 4%Z)];
                st_allocs := [Ini_malloc 4 true; Ini_realloc 8 true; Ini_realloc 12 true; Ini_free] |}).
Proof.
  rewrite (ini_parse_file_any_configuration all_features);
    [by vm_compute|apply all_features_ok|apply rubbish_length|reflexivity| |by vm_compute].
  intros _. by apply (bool_decide_unpack (nul_free small_file)).
Defined.

(** What the allocator has seen when [ini_parse_stream] returns [r]: no buffer
    at all, one buffer that was grown and freed once, or a failed growth, after
    which the old buffer was freed. *)
Inductive buffer_log (o : ini_options) (oom : nat → bool) : Z → list alloc_event → Prop :=
  | no_buffer :
      oom 0 = true → buffer_log o oom (-2) [Ini_malloc (INI_INITIAL_ALLOC o) false]
  | buffer_freed r l :
      oom 0 = false → (0 ≤ r)%Z → Forall (grown o) l →
      buffer_log o oom r (Ini_malloc (INI_INITIAL_ALLOC o) true :: l ++ [Ini_free])
  | growth_failed l k :
      oom 0 = false → (∃ n, oom n = true) → Forall (grown o) l →
      buffer_log o oom (-2) (Ini_malloc (INI_INITIAL_ALLOC o) true :: l ++ [Ini_realloc k false; Ini_free]).

Lemma parse_spec_o_log o {U} handler oom bytes (u : U) :
  options_ok o → INI_USE_STACK o = false → handler_total handler →
  ∃ r w, parse_spec_o o handler oom bytes (fresh u) = Ok (r, w) ∧ buffer_log o oom r (st_allocs w).
Proof.
  intros Ho Hst Hh. unfold parse_spec_o. rewrite Hst. unfold bindM at 1. cbn [alloc_succeeds gets obind].
  cbn [st_allocs fresh length]. destruct (oom 0) eqn:H0; simpl negb;
    rewrite (bindM_eq _ tt _ _ _ (log_alloc_eq _ _)).
  - eexists _, _. split; [reflexivity|]. by constructor.
  - cbv beta iota.
    destruct (run_lines_o_calls o Ho oom handler (chunks (line_limit o - 1) bytes) 0
      {| ps_section := []; ps_prev := [] |} (first_size o) 0
      (logged (fresh u) (Ini_malloc (INI_INITIAL_ALLOC o) true)) Hh (first_size_pos o Ho))
      as (r & w & Hrun & l & Hl & Hcase); [done..|].
    exists r, w. split; [exact Hrun|]. rewrite Hst in Hcase. simpl in Hcase.
    destruct Hcase as [[Hr ->]|(-> & Hoom & k & ->)]; by constructor.
Qed.

(** C16. The heap buffer never leaks and is never freed twice: in every
    configuration that keeps the line in the heap and, if it may grow, starts
    within its limit ([options_ok]), with an allocator that may fail at any call,
    on any bytes (without NUL when the buffer may grow) and with any handler that
    does not fault, [ini_parse_file] returns, without a memory fault; it asks for at most
    [INI_MAX_LINE] bytes when it grows the buffer, frees the buffer exactly
    once, and returns -2 only when the allocator failed. *)
Theorem line_buffer_freed_once o {U} handler uninit oom line0 bytes (u : U) :
  options_ok o → (∀ n, length (uninit n) = n) → length line0 = MAX_LINE o →
  (growing o = true → nul_free bytes) → (Z.of_nat (length bytes) ≤ INT_MAX)%Z →
  INI_USE_STACK o = false → handler_total handler →
  ∃ r w, ini_parse_file_o o handler uninit oom line0 {| file_left := bytes |} (fresh u) = Ok (r, w) ∧
         buffer_log o oom r (st_allocs w).
Proof. intros. rewrite ini_parse_file_o_spec by done. by apply parse_spec_o_log. Qed.

(** The second growth fails. *)
Lemma line_buffer_freed_once_witness :
  ini_parse_file_o all_features note_args rubbish (fails_from 2) (rubbish 12)
    {| file_left := small_file |} (fresh [])
  = Ok ((-2)%Z, {| st_user := [(str "sec", None, None, Some 2%Z)];
                   st_allocs := [Ini_malloc 4 true; Ini_realloc 8 true; Ini_realloc 12 false; Ini_free] |}) ∧
  ∃ r w, ini_parse_file_o all_features note_args rubbish (fails_from 2) (rubbish 12)
           {| file_left := small_file |} (fresh []) = Ok (r, w) ∧
         buffer_log all_features (fails_from 2) r (st_allocs w).
Proof.
  split; [by vm_compute|].
  apply line_buffer_freed_once; [apply all_features_ok|apply rubbish_length|reflexivity|
    |by vm_compute|reflexivity|].
  - intros _. by apply (bool_decide_unpack (nul_free small_file)).
  - intros s n v l u. by eexists _, _.
Defined.

(** ** Where the line buffer is *)

(** The same configuration with another line buffer. *)
Definition with_memory (o : ini_options) (use_stack : bool) (max : nat) (allow_realloc : bool)
    (initial : nat) : ini_options := {|
  INI_HANDLER_LINENO := INI_HANDLER_LINENO o;
  INI_ALLOW_MULTILINE := INI_ALLOW_MULTILINE o;
  INI_ALLOW_BOM := INI_ALLOW_BOM o;
  START_COMMENT_PREFIXES := START_COMMENT_PREFIXES o;
  INI_ALLOW_INLINE_COMMENTS := INI_ALLOW_INLINE_COMMENTS o;
  INLINE_COMMENT_PREFIXES := INLINE_COMMENT_PREFIXES o;
  INI_USE_STACK := use_stack;
  MAX_LINE := max;
  INI_ALLOW_REALLOC := allow_realloc;
  INI_INITIAL_ALLOC := initial;
  INI_STOP_ON_FIRST_ERROR := INI_STOP_ON_FIRST_ERROR o;
  INI_CALL_HANDLER_ON_NEW_SECTION := INI_CALL_HANDLER_ON_NEW_SECTION o;
  INI_ALLOW_NO_VALUE := INI_ALLOW_NO_VALUE o
|}.

(** A result without the allocator's history. *)
Definition observed {U A} (c : outcome (A * ini_state U)) : outcome (A * U) :=
  let* r := c in let '(a, w) := r in Ok (a, st_user w).

Section memory.
Context (o : ini_options) (use_stack : bool) (max : nat) (allow_realloc : bool) (initial : nat).
Abbreviation o' := (with_memory o use_stack max allow_realloc initial).
Context (Ho : options_ok o) (Ho' : options_ok o').
Context {U : Type}.
Context (handler : list ascii → option (list ascii) → option (list ascii) → option Z → M U Z).
Implicit Types w : ini_state U.

Lemma observed_bind {A B} (c c' : M (ini_state U) A) (k k' : A → M (ini_state U) B) w w' :
  observed (c w) = observed (c' w') →
  (∀ a w1 w1', st_user w1 = st_user w1' → observed (k a w1) = observed (k' a w1')) →
  observed (bindM c k w) = observed (bindM c' k' w').
Proof.
  intros E Hk. unfold bindM.
  destruct (c w) as [[a w1]| |], (c' w') as [[a' w1']| |]; simpl in *; try congruence.
  injection E as -> E. by apply Hk.
Qed.

Lemma observed_user {A} (c : M U A) w w' :
  st_user w = st_user w' → observed (with_user c w) = observed (with_user c w').
Proof. intros E. unfold with_user. rewrite E. by destruct (c (st_user w')) as [[]| |]. Qed.

Lemma observed_request sec a n err w w' :
  st_user w = st_user w' →
  observed (run_request o handler sec a n err w) = observed (run_request o' handler sec a n err w').
Proof.
  intros E.
  assert (Hcall : ∀ nm v, observed ((let! r := with_user (handler sec nm v (lineno_arg o n)) in
                                     retM (noted r n err)) w)
                        = observed ((let! r := with_user (handler sec nm v (lineno_arg o' n)) in
                                     retM (noted r n err)) w')).
  { intros. apply observed_bind; [by apply observed_user|]. intros. simpl. congruence. }
  destruct a; simpl; try apply Hcall; try congruence. case_decide; [apply Hcall|simpl; congruence].
Qed.

Lemma observed_finish err w w' :
  st_user w = st_user w' → observed (ini_finish o err w) = observed (ini_finish o' err w').
Proof. intros E. unfold ini_finish. do 2 case_match; simpl; congruence. Qed.

Lemma fit_line_plenty (q : ini_options) size c w :
  options_ok q → 2 ≤ size →
  ∃ size' w', fit_line q plenty size c w = Ok (Some size', w') ∧ 2 ≤ size' ∧ st_user w' = st_user w.
Proof.
  intros Hq Hs. destruct (fit_line_calls q Hq plenty size c w Hs) as (g & w' & Hfit & (l & _ & H) & Hb).
  destruct g as [size'|]; [exists size', w'; split; [done|]; split; [done|apply H]|].
  by destruct H as [[] _].
Qed.

Lemma observed_run n st size size' err ls w w' :
  2 ≤ size → 2 ≤ size' → st_user w = st_user w' →
  observed (run_lines_o o handler plenty n st size err ls w)
  = observed (run_lines_o o' handler plenty n st size' err ls w').
Proof.
  revert n st size size' err w w'. induction ls as [|c ls IH]; intros n st size size' err w w' Hs Hs' E.
  { by apply observed_finish. }
  cbn [run_lines_o].
  destruct (fit_line_plenty o size c w Ho Hs) as (s1 & w1 & Hfit & Hs1 & E1).
  destruct (fit_line_plenty o' size' c w' Ho' Hs') as (s1' & w1' & Hfit' & Hs1' & E1').
  rewrite (bindM_eq _ _ _ _ _ Hfit), (bindM_eq _ _ _ _ _ Hfit'). cbv beta iota.
  change (parse_line_o o') with (parse_line_o o). destruct (parse_line_o o _ st c) as [a st'].
  apply observed_bind; [apply observed_request; congruence|]. intros err' w2 w2' E2.
  cbn [INI_STOP_ON_FIRST_ERROR with_memory]. destruct (_ && _); [by apply observed_finish|by apply IH].
Qed.

Lemma observed_parse bytes w w' :
  line_limit o = line_limit o' → st_user w = st_user w' →
  observed (parse_spec_o o handler plenty bytes w) = observed (parse_spec_o o' handler plenty bytes w').
Proof.
  intros Hl E. unfold parse_spec_o. rewrite <- Hl.
  assert (Hq : ∀ (q : ini_options) n w0, ∃ w1, st_user w1 = st_user w0 ∧
    ∀ (k : M (ini_state U) Z), (if INI_USE_STACK q then k else
      let! ok := alloc_succeeds plenty in
      do! log_alloc (Ini_malloc n ok) in if ok : bool then k else retM (-2)%Z) w0 = k w1).
  { intros q n w0. destruct (INI_USE_STACK q); [by exists w0|].
    by exists (logged w0 (Ini_malloc n true)). }
  destruct (Hq o (INI_INITIAL_ALLOC o) w) as (w1 & E1 & ->).
  destruct (Hq o' (INI_INITIAL_ALLOC o') w') as (w1' & E1' & ->).
  apply observed_run; [by apply first_size_pos..|congruence].
Qed.
End memory.

(** C17. Where the line buffer is makes no difference: when memory does not run
    out, two configurations that differ only in the buffer (stack, fixed heap
    block, or a heap block that is doubled on demand, from a size within its
    limit) and have the same limit on a line parse every file without NUL bytes
    with the same calls of the handler and the same result, whatever fresh memory
    holds.  (A NUL byte makes the difference visible, see
    [line_buffer_visible_with_NUL].) *)
Theorem line_buffer_invisible o use_stack max allow_realloc initial {U} handler
    uninit uninit' line0 line0' bytes (w w' : ini_state U) :
  let o' := with_memory o use_stack max allow_realloc initial in
  options_ok o → options_ok o' → line_limit o = line_limit o' →
  (∀ n, length (uninit n) = n) → (∀ n, length (uninit' n) = n) →
  length line0 = MAX_LINE o → length line0' = MAX_LINE o' →
  nul_free bytes → (Z.of_nat (length bytes) ≤ INT_MAX)%Z → st_user w = st_user w' →
  observed (ini_parse_file_o o handler uninit plenty line0 {| file_left := bytes |} w)
  = observed (ini_parse_file_o o' handler uninit' plenty line0' {| file_left := bytes |} w').
Proof.
  intros o' Ho Ho' Hlim Hu Hu' Hl Hl' Hnul Hmax E.
  rewrite !ini_parse_file_o_spec by done. by apply observed_parse.
Qed.

(** The growing buffer against 12 bytes of stack. *)
Lemma line_buffer_invisible_witness :
  observed (ini_parse_file_o all_features note_args rubbish plenty (rubbish 12)
              {| file_left := small_file |} (fresh []))
  = observed (ini_parse_file_o (with_memory all_features true 12 false 4) note_args rubbish plenty
                (empty_buffer 12) {| file_left := small_file |} (fresh [])).
Proof.
  apply line_buffer_invisible;
    [apply all_features_ok|split; simpl; lia || by vm_compute|reflexivity
    |apply rubbish_length|apply rubbish_length|reflexivity|reflexivity
    |by apply (bool_decide_unpack (nul_free small_file))|by vm_compute|reflexivity].
Defined.

(** The NUL hides the rest of the line, and what hides it depends on the pieces
    in which the line is read. *)
Example line_buffer_visible_with_NUL :
  let bytes := str "a=1" ++ NUL :: str "2345" ++ [LF] in
  let call := ([], Some (str "a"), Some (str "1"), None) in
  let parse o := observed (ini_parse_file_o o note_args rubbish plenty (rubbish 12)
                             {| file_left := bytes |} (fresh [])) in
  parse (with_memory conf_h_defaults true 12 false 4) = Ok (0%Z, [call]) ∧
  parse (with_memory conf_h_defaults false 12 true 4) = Ok (2%Z, [call]).
Proof. split; by vm_compute. Qed.

(** ** The stop at the first error *)

(** The same configuration with another [INI_STOP_ON_FIRST_ERROR]. *)
Definition with_stop (o : ini_options) (stop : bool) : ini_options := {|
  INI_HANDLER_LINENO := INI_HANDLER_LINENO o;
  INI_ALLOW_MULTILINE := INI_ALLOW_MULTILINE o;
  INI_ALLOW_BOM := INI_ALLOW_BOM o;
  START_COMMENT_PREFIXES := START_COMMENT_PREFIXES o;
  INI_ALLOW_INLINE_COMMENTS := INI_ALLOW_INLINE_COMMENTS o;
  INLINE_COMMENT_PREFIXES := INLINE_COMMENT_PREFIXES o;
  INI_USE_STACK := INI_USE_STACK o;
  MAX_LINE := MAX_LINE o;
  INI_ALLOW_REALLOC := INI_ALLOW_REALLOC o;
  INI_INITIAL_ALLOC := INI_INITIAL_ALLOC o;
  INI_STOP_ON_FIRST_ERROR := stop;
  INI_CALL_HANDLER_ON_NEW_SECTION := INI_CALL_HANDLER_ON_NEW_SECTION o;
  INI_ALLOW_NO_VALUE := INI_ALLOW_NO_VALUE o
|}.

Lemma stack_fit (o : ini_options) (Hst : INI_USE_STACK o = true) {U} size c oom (w : ini_state U) :
  fit_line o oom size c w = Ok (Some size, w).
Proof. unfold fit_line, growing. rewrite Hst. by rewrite andb_false_r. Qed.

Section stop.
Context (o : ini_options) (Hopt : options_ok o) (oom : nat → bool).
Context (Hmem : INI_USE_STACK o = true ∨ ∀ n, oom n = false).
Context {U : Type} (R : relation U) `{!PreOrder R}.
Context (handler : list ascii → option (list ascii) → option (list ascii) → option Z → M U Z).
Context (Hmono : ∀ s n v l u r u', handler s n v l u = Ok (r, u') → R u u').
Implicit Types w : ini_state U.

(** While memory lasts a line always fits. *)
Lemma lasting_fit size c w :
  2 ≤ size → ∃ size' w', fit_line o oom size c w = Ok (Some size', w') ∧ 2 ≤ size' ∧ st_user w' = st_user w.
Proof.
  intros Hs. destruct Hmem as [Hst|Hoom].
  - exists size, w. split; [|done]. by apply stack_fit.
  - destruct (fit_line_calls o Hopt oom size c w Hs) as (g & w' & Hfit & (l & _ & H) & Hb).
    destruct g as [size'|].
    + exists size', w'. split; [done|]. split; [done|apply H].
    + destruct H as [[k Hk] _]. by rewrite Hoom in Hk.
Qed.

Lemma request_mono sec a n err w err' w' :
  run_request o handler sec a n err w = Ok (err', w') →
  (err ≠ 0%Z → err' = err) ∧ R (st_user w) (st_user w').
Proof.
  assert (Hcall : ∀ nm v, (let! r := with_user (handler sec nm v (lineno_arg o n)) in
      retM (noted r n err)) w = Ok (err', w') →
      (err ≠ 0%Z → err' = err) ∧ R (st_user w) (st_user w')).
  { intros nm v H. apply bindM_Ok_inv in H as (r & w1 & H & [= <- <-]).
    unfold with_user in H. apply obind_Ok_inv in H as ([r' u'] & H & [= <- <-]). simpl.
    split; [|by eapply Hmono]. intros He. unfold noted, first_error. by repeat case_decide. }
  destruct a; simpl; try apply Hcall.
  - by intros [= <- <-].
  - intros [= <- <-]. split; [|done]. intros He. unfold first_error. by case_decide.
  - case_decide; [apply Hcall|by intros [= <- <-]].
Qed.

Lemma finish_user err w : ∃ w', ini_finish o err w = Ok (err, w') ∧ st_user w' = st_user w.
Proof. unfold ini_finish. destruct (INI_USE_STACK o); by eexists. Qed.

(** After an error the result is settled. *)
Lemma run_after_error n st size err ls w r w' :
  INI_STOP_ON_FIRST_ERROR o = false → err ≠ 0%Z → 2 ≤ size →
  run_lines_o o handler oom n st size err ls w = Ok (r, w') → r = err ∧ R (st_user w) (st_user w').
Proof.
  intros Hgo. revert n st size err w.
  induction ls as [|c ls IH]; intros n st size err w He Hs; cbn [run_lines_o].
  { destruct (finish_user err w) as (w2 & -> & <-). by intros [= <- <-]. }
  destruct (lasting_fit size c w Hs) as (size' & w2 & Hfit & Hs' & E).
  rewrite (bindM_eq _ _ _ _ _ Hfit), <- E. cbv beta iota. destruct (parse_line_o _ _ st c) as [a st'].
  intros H. apply bindM_Ok_inv in H as (err' & w1 & Hreq & H).
  apply request_mono in Hreq as [Herr Hreq]. rewrite Hgo in H. simpl in H. rewrite (Herr He) in H.
  apply IH in H as [-> H]; [|done..]. split; [done|]. by etrans.
Qed.

Lemma run_stop n st size ls w r w' :
  INI_STOP_ON_FIRST_ERROR o = false → 2 ≤ size →
  run_lines_o o handler oom n st size 0 ls w = Ok (r, w') →
  ∃ w1, run_lines_o (with_stop o true) handler oom n st size 0 ls w = Ok (r, w1) ∧
        (r = 0%Z → w1 = w') ∧ R (st_user w1) (st_user w').
Proof.
  intros Hgo. revert n st size w. induction ls as [|c ls IH]; intros n st size w Hs; cbn [run_lines_o].
  { change (ini_finish (U := U) (with_stop o true)) with (ini_finish (U := U) o). intros H.
    exists w'. split; [done|]. destruct (finish_user 0 w) as (w2 & E & _). rewrite E in H.
    by injection H as <- <-. }
  change (fit_line (U := U) (with_stop o true)) with (fit_line (U := U) o).
  change (parse_line_o (with_stop o true)) with (parse_line_o o).
  destruct (lasting_fit size c w Hs) as (size' & w2 & Hfit & Hs' & _).
  rewrite !(bindM_eq _ _ _ _ _ Hfit). cbv beta iota. destruct (parse_line_o _ _ st c) as [a st'].
  intros H. apply bindM_Ok_inv in H as (err' & w1 & Hreq & H). rewrite Hgo in H. simpl in H.
  change (run_request (with_stop o true) handler) with (run_request o handler).
  rewrite (bindM_eq _ _ _ _ _ Hreq).
  cbn [INI_STOP_ON_FIRST_ERROR with_stop andb].
  destruct (decide (err' = 0%Z)) as [->|He].
  - rewrite bool_decide_false by (intros []; done). by apply IH.
  - rewrite bool_decide_true by done. apply run_after_error in H as [-> H]; [|done..].
    destruct (finish_user err' w1) as (w3 & Hfin & E). exists w3. split; [exact Hfin|].
    split; [done|by rewrite E].
Qed.
End stop.

(** C23. [INI_STOP_ON_FIRST_ERROR] changes when the parser stops and nothing else,
    with the line on the stack, or in the heap while memory lasts (when an
    allocation can fail, the parser that goes on may meet the failure and return
    -2 where the other one has returned the error): where the parser that goes on returns, the one that
    stops returns the same line number; when it is 0 the two have done the same;
    otherwise the handler of the parser that goes on has been called as the other
    one was and then further, for any preorder [R] that the handler's effects
    follow, such as the prefixes of a log. *)
Theorem stop_on_first_error o {U} (R : relation U) `{!PreOrder R} handler
    uninit oom line0 bytes (w w' : ini_state U) r :
  options_ok o → INI_USE_STACK o = true ∨ (∀ n, oom n = false) →
  INI_STOP_ON_FIRST_ERROR o = false →
  (∀ n, length (uninit n) = n) → length line0 = MAX_LINE o →
  (growing o = true → nul_free bytes) → (Z.of_nat (length bytes) ≤ INT_MAX)%Z →
  (∀ s n v l u r u', handler s n v l u = Ok (r, u') → R u u') →
  ini_parse_file_o o handler uninit oom line0 {| file_left := bytes |} w = Ok (r, w') →
  ∃ w1, ini_parse_file_o (with_stop o true) handler uninit oom line0 {| file_left := bytes |} w
          = Ok (r, w1) ∧
        (r = 0%Z → w1 = w') ∧ R (st_user w1) (st_user w').
Proof.
  intros Ho Hmem Hgo Hu Hl Hg Hmax Hmono.
  assert (Ho' : options_ok (with_stop o true)) by (destruct Ho; by split).
  rewrite !ini_parse_file_o_spec by done. unfold parse_spec_o.
  pose proof (first_size_pos o Ho) as Hfirst.
  cbn [INI_USE_STACK INI_INITIAL_ALLOC with_stop]. destruct (INI_USE_STACK o) eqn:Hst.
  { intros H. eapply run_stop; eauto. }
  destruct Hmem as [|Hoom]; [done|]. intros H.
  apply bindM_Ok_inv in H as (ok & w2 & Hok & H). rewrite (bindM_eq _ _ _ _ _ Hok).
  apply bindM_Ok_inv in H as ([] & w3 & Hlog & H). rewrite (bindM_eq _ _ _ _ _ Hlog).
  injection Hok as <- <-. rewrite Hoom in *. simpl in *. eapply run_stop; eauto.
Qed.

(** The handler of the witness: a log, "x" is rejected. *)
Definition picky_args : list ascii → option (list ascii) → option (list ascii) → option Z →
    M (list call_args) Z :=
  λ s n v l u, Ok (if bool_decide (n = Some (str "x")) then 0%Z else 1%Z, u ++ [(s, n, v, l)]).

Definition bad_x : list ascii := str "y=1" ++ LF :: str "x=2" ++ LF :: str "z=3".

(** A heap buffer that grows from 4 bytes. *)
Lemma stop_on_first_error_witness :
  let o := with_memory conf_h_defaults false 200 true 4 in
  let calls := [([], Some (str "y"), Some (str "1"), None); ([], Some (str "x"), Some (str "2"), None);
                ([], Some (str "z"), Some (str "3"), None)] in
  let w' := {| st_user := calls; st_allocs := [Ini_malloc 4 true; Ini_realloc 8 true; Ini_free] |} in
  ∃ w1, ini_parse_file_o (with_stop o true) picky_args rubbish plenty (rubbish 200)
          {| file_left := bad_x |} (fresh []) = Ok (2%Z, w1) ∧
        (2%Z = 0%Z → w1 = w') ∧ st_user w1 `prefix_of` calls.
Proof.
  intros o calls w'.
  apply (stop_on_first_error o prefix picky_args rubbish plenty (rubbish 200) bad_x (fresh []) w' 2);
    [split; simpl; lia || by vm_compute|by right|reflexivity|apply rubbish_length|reflexivity| |by vm_compute
    | |by vm_compute].
  - intros _. by apply (bool_decide_unpack (nul_free bad_x)).
  - intros s n v l u r u' [= <- <-]. by apply prefix_app_r.
Defined.

(** ** Names without a value *)

(** A line that is a name without a value, on its own line. *)
Definition name_ok (o : ini_options) (s : list ascii) : Prop :=
  trimmed s ∧ nul_free s ∧ (LF ∉ s) ∧ length s < MAX_LINE o - 1 ∧
  span_o o (str "=:") false s = (s, []) ∧
  match s with
  | [] => False
  | c :: _ => (c ∉ START_COMMENT_PREFIXES o) ∧ c ≠ "["%char ∧ c ≠ "239"%char
  end.

Section names.
Context (o : ini_options) (Ho : options_ok o).
Context (Hst : INI_USE_STACK o = true) (Hgo : INI_STOP_ON_FIRST_ERROR o = false).
Context (Hnv : INI_ALLOW_NO_VALUE o = true).
Implicit Types w : ini_state (list call_args).

Lemma chunks_lines n ls :
  Forall (λ l, (LF ∉ l) ∧ length l < n) ls → chunks n (print_lines ls) = map (λ l, l ++ [LF]) ls.
Proof.
  induction 1 as [|l ls (Hlf & Hlen) _ IH]; [done|].
  assert (print_lines (l :: ls) = l ++ LF :: print_lines ls) as ->
    by (unfold print_lines; simpl; by rewrite <- app_assoc).
  rewrite chunks_unfold by (lia || by destruct l).
  rewrite fgets_chunk_line by done. simpl. f_equal.
  replace (l ++ LF :: print_lines ls) with ((l ++ [LF]) ++ print_lines ls)
    by (by rewrite <- app_assoc).
  by rewrite drop_app_length.
Qed.

(** The meaning of such a line after no entry. *)
Lemma parse_name first s :
  name_ok o s →
  parse_line_o o first {| ps_section := []; ps_prev := [] |} (s ++ [LF])
  = (Name_only s, {| ps_section := []; ps_prev := [] |}).
Proof.
  intros ([Hl Hr] & Hn & _ & _ & Hspan & Hhd). destruct s as [|c s]; [done|].
  destruct Hhd as (Hcom & Hb & Hbom). unfold parse_line_o. rewrite until_nul_line by done.
  rewrite (bool_decide_false (take 3 _ = BOM)) by (by intros [= ? _]).
  rewrite !andb_false_r, rstrip_trimmed_app by done. rewrite Hl, decide_False by done.
  rewrite decide_False by done. unfold parse_pair_o. rewrite Hspan. unfold no_value. by rewrite Hnv, Hr.
Qed.

(** The calls for the names from line [n + 1] on. *)
Definition name_calls (n : Z) (names : list (list ascii)) : list call_args :=
  imap (λ i s, ([], Some s, None, lineno_arg o (n + 1 + Z.of_nat i))) names.

Lemma name_calls_cons n s names :
  name_calls n (s :: names) = ([], Some s, None, lineno_arg o (n + 1)) :: name_calls (n + 1) names.
Proof.
  unfold name_calls. cbn [imap]. f_equal; [by rewrite Z.add_0_r|]. apply imap_ext.
  intros i x _. simpl. do 2 f_equal. lia.
Qed.

Lemma run_names n names oom w err :
  Forall (name_ok o) names →
  run_lines_o o note_args oom n {| ps_section := []; ps_prev := [] |} (MAX_LINE o) err
    (map (λ l, l ++ [LF]) names) w
  = Ok (err, if decide (err = 0%Z)
             then {| st_user := st_user w ++ name_calls n names; st_allocs := st_allocs w |} else w).
Proof.
  intros Hnames. revert n w. induction Hnames as [|s names Hs _ IH]; intros n w; cbn [map run_lines_o].
  { unfold ini_finish, name_calls. rewrite Hst. simpl. rewrite app_nil_r. destruct w. by case_decide. }
  rewrite (bindM_eq _ _ _ _ _ (stack_fit o Hst _ _ _ _)). rewrite parse_name by done.
  rewrite Hgo. cbn [run_request andb ps_section]. case_decide as He.
  - subst err. rewrite (bindM_eq _ 0%Z w {| st_user := st_user w ++ [_]; st_allocs := _ |} _ eq_refl).
    rewrite IH, name_calls_cons. cbn [st_user st_allocs]. by rewrite <- app_assoc.
  - rewrite bindM_retM. apply IH.
Qed.
(** A section that is not closed is an error, and leaves no trace. *)
Lemma parse_open_section first :
  "["%char ∉ START_COMMENT_PREFIXES o →
  parse_line_o o first {| ps_section := []; ps_prev := [] |} (str "[" ++ [LF])
  = (Bad, {| ps_section := []; ps_prev := [] |}).
Proof.
  intros Hcom. unfold parse_line_o. rewrite until_nul_line by (by apply (bool_decide_unpack (nul_free (str "[")))).
  rewrite (bool_decide_false (take 3 _ = BOM)) by done. rewrite !andb_false_r. simpl.
  rewrite decide_False by done. done.
Qed.

Lemma name_lines n names :
  Forall (name_ok o) names → n = MAX_LINE o - 1 →
  chunks n (print_lines names) = map (λ l, l ++ [LF]) names.
Proof. intros H ->. apply chunks_lines. eapply Forall_impl; [exact H|]. by intros s (_ & _ & ? & ? & _). Qed.

Lemma spec_names oom names u :
  Forall (name_ok o) names →
  parse_spec_o o note_args oom (print_lines names) (fresh u) = Ok (0%Z, fresh (u ++ name_calls 0 names)).
Proof.
  intros Hn. unfold parse_spec_o, line_limit, growing, first_size. rewrite Hst, andb_false_r.
  rewrite name_lines by done. by rewrite run_names.
Qed.

Lemma spec_names_after_error oom names u :
  3 ≤ MAX_LINE o → "["%char ∉ START_COMMENT_PREFIXES o → Forall (name_ok o) names →
  parse_spec_o o note_args oom (print_lines (str "[" :: names)) (fresh u) = Ok (1%Z, fresh u).
Proof.
  intros Hmax Hcom Hn. unfold parse_spec_o, line_limit, growing, first_size. rewrite Hst, andb_false_r.
  rewrite chunks_lines.
  2: { constructor; [split; [by apply (bool_decide_unpack (LF ∉ str "["))|simpl; lia]|].
       eapply Forall_impl; [exact Hn|]. by intros s (_ & _ & ? & ? & _). }
  cbn [map run_lines_o]. rewrite (bindM_eq _ _ _ _ _ (stack_fit o Hst _ _ _ _)).
  rewrite parse_open_section by done. cbn [run_request ps_section]. rewrite bindM_retM, Hgo. cbn [andb].
  by rewrite run_names.
Qed.
End names.

(** C39. With [INI_ALLOW_NO_VALUE] the parser forgets names after an error: a file
    of names without values is reported to the handler line by line, but behind
    one bad line (a section that is not closed) the same names are never
    reported, though the parser goes on after errors and the lines are good; the
    handler call is inside the branch [else if (!error)] that reports a missing
    separator. *)
Theorem names_hidden_by_error o uninit oom line0 names u :
  options_ok o → 3 ≤ MAX_LINE o → INI_USE_STACK o = true → INI_STOP_ON_FIRST_ERROR o = false →
  INI_ALLOW_NO_VALUE o = true → "["%char ∉ START_COMMENT_PREFIXES o →
  (∀ n, length (uninit n) = n) → length line0 = MAX_LINE o → Forall (name_ok o) names →
  (Z.of_nat (length (print_lines (str "[" :: names))) ≤ INT_MAX)%Z →
  ini_parse_file_o o note_args uninit oom line0 {| file_left := print_lines names |} (fresh u)
  = Ok (0%Z, fresh (u ++ name_calls o 0 names)) ∧
  ini_parse_file_o o note_args uninit oom line0 {| file_left := print_lines (str "[" :: names) |} (fresh u)
  = Ok (1%Z, fresh u).
Proof.
  intros Ho H3 Hst Hgo Hnv Hcom Hu Hl Hn Hmax.
  assert (Hg : ∀ bytes, growing o = true → nul_free bytes)
    by (unfold growing; rewrite Hst, andb_false_r; done).
  assert (Hmax' : (Z.of_nat (length (print_lines names)) ≤ INT_MAX)%Z).
  { change (print_lines (str "[" :: names)) with ((str "[" ++ [LF]) ++ print_lines names) in Hmax.
    rewrite length_app in Hmax. lia. }
  split; rewrite ini_parse_file_o_spec by (done || apply Hg).
  - by apply spec_names.
  - by apply spec_names_after_error.
Qed.

Definition names_on : ini_options := {|
  INI_HANDLER_LINENO := true;
  INI_ALLOW_MULTILINE := true;
  INI_ALLOW_BOM := true;
  START_COMMENT_PREFIXES := INI_START_COMMENT_PREFIXES;
  INI_ALLOW_INLINE_COMMENTS := true;
  INLINE_COMMENT_PREFIXES := INI_INLINE_COMMENT_PREFIXES;
  INI_USE_STACK := true;
  MAX_LINE := INI_MAX_LINE;
  INI_ALLOW_REALLOC := false;
  INI_INITIAL_ALLOC := 200;
  INI_STOP_ON_FIRST_ERROR := false;
  INI_CALL_HANDLER_ON_NEW_SECTION := false;
  INI_ALLOW_NO_VALUE := true
|}.

Lemma names_hidden_by_error_witness :
  ini_parse_file_o names_on note_args rubbish plenty (rubbish 200)
    {| file_left := print_lines [str "verbose"; str "quick"] |} (fresh [])
  = Ok (0%Z, fresh [([], Some (str "verbose"), None, Some 1%Z); ([], Some (str "quick"), None, Some 2%Z)]) ∧
  ini_parse_file_o names_on note_args rubbish plenty (rubbish 200)
    {| file_left := print_lines [str "["; str "verbose"; str "quick"] |} (fresh [])
  = Ok (1%Z, fresh []).
Proof.
  apply (names_hidden_by_error names_on rubbish plenty (rubbish 200) [str "verbose"; str "quick"] []);
    [split; simpl; unfold INI_MAX_LINE; lia || by vm_compute|unfold names_on, INI_MAX_LINE; simpl; lia
    |reflexivity|reflexivity|reflexivity| |apply rubbish_length|reflexivity| |by vm_compute].
  - by apply (bool_decide_unpack ("["%char ∉ INI_START_COMMENT_PREFIXES)).
  - repeat constructor; simpl; unfold nul_free; try lia;
      by apply (bool_decide_unpack _).
Defined.
