(* ===== verification/IniShrink.v ===== *)
(** * A growing line buffer that starts beyond its limit

    [INI_INITIAL_ALLOC] greater than [INI_MAX_LINE]: the first growth shrinks the
    buffer below the text in it. *)
From stdpp Require Import base list numbers gmap strings.
From Stdlib Require Import Ascii ZArith.
From S2P Require Import Prelude CLib Ini IniSpec IniReader IniConf IniConfSpec IniConfLoop IniConfProps.

(** ** Reading a buffer that holds no NUL *)

Lemma strlen_unterminated s : nul_free s → strlen s = Fault oob.
Proof.
  induction s as [|c s IH]; [done|]. intros [Hc Hs]%nul_free_cons. simpl.
  by rewrite decide_False, (IH Hs) by done.
Qed.

Lemma rstrip_unterminated line start :
  nul_free line → rstrip line start = Fault oob.
Proof.
  intros Hl. unfold rstrip. rewrite strlen_unterminated; [done|].
  rewrite <- (take_drop start line) in Hl. by apply nul_free_app in Hl as [].
Qed.

Section shrink.
Context (o : ini_options) {U : Type}.
Context (handler : list ascii → option (list ascii) → option (list ascii) → option Z → M U Z).

(** A line that is not terminated is read past its end. *)
Lemma process_line_unterminated l (w : ini_state U) :
  nul_free (il_line l) → process_line_o o handler l w = Fault oob.
Proof.
  intros Hl. unfold process_line_o.
  assert (Hbom : ∀ start : nat, lift (rstrip (il_line l) start) w = Fault oob)
    by (intros start; unfold lift; by rewrite rstrip_unterminated).
  assert (Hb : is_bom (il_line l) (il_lineno l) = Fault oob ∨
               ∃ x, is_bom (il_line l) (il_lineno l) = Ok x).
  { unfold is_bom, load. case_decide; [|eauto].
    repeat (case_match; simpl; eauto). }
  destruct (INI_ALLOW_BOM o).
  - destruct Hb as [Hb|[x Hb]]; [unfold bindM at 1, lift at 1; by rewrite Hb|].
    step_with Hb. unfold bindM at 1. by rewrite Hbom.
  - rewrite bindM_retM. unfold bindM at 1. by rewrite Hbom.
Qed.

(** ** The growth that shrinks *)

Context (uninit : nat → list ascii) (Huninit : ∀ n, length (uninit n) = n).
Context (Hgrow : growing o = true) (Hshrink : MAX_LINE o < INI_INITIAL_ALLOC o).
Context (Hmax : 1 ≤ MAX_LINE o) (Hint : (Z.of_nat (INI_INITIAL_ALLOC o) ≤ INT_MAX)%Z).

Lemma growing_cases : INI_ALLOW_REALLOC o = true ∧ INI_USE_STACK o = false.
Proof. unfold growing in Hgrow. by apply andb_prop in Hgrow as [? ?%negb_true_iff]. Qed.

(** The first read, of a line that fills the buffer. *)
Lemma first_read text rest line :
  length line = INI_INITIAL_ALLOC o → length text = INI_INITIAL_ALLOC o - 1 → LF ∉ text →
  ini_read line (Z.of_nat (INI_INITIAL_ALLOC o)) {| file_left := text ++ rest |}
  = Ok (Some (text ++ [NUL]), {| file_left := rest |}).
Proof.
  intros Hline Htext Hlf. unfold ini_read, fgets. cbn [file_left].
  destruct (text ++ rest) as [|c l] eqn:E.
  { apply (f_equal length) in E. rewrite length_app in E. simpl in E. lia. }
  rewrite decide_False by lia. rewrite <- E.
  replace (Z.to_nat (Z.of_nat (INI_INITIAL_ALLOC o) - 1)) with (length text) by lia.
  assert (fgets_chunk (length text) (text ++ rest) = text) as ->.
  { clear -Hlf. induction text as [|c t IH]; [done|]. apply not_elem_of_cons in Hlf as [Hc Hlf].
    simpl. rewrite decide_False by congruence. by rewrite IH. }
  unfold blit. rewrite decide_True by lia. cbn [obind]. rewrite drop_app_length, drop_ge by lia. done.
Qed.

(** A read of a size that is not positive. *)
Lemma read_nothing buf num (f : FILE) : (num ≤ 0)%Z → ini_read buf num f = Ok (None, f).
Proof. intros Hn. unfold ini_read, fgets. destruct (file_left f); [done|]. by rewrite decide_True. Qed.

(** The block is cut below the text, and nothing is read into it. *)
Lemma grow_shrinks text (f : FILE) (w : ini_state U) :
  length text = INI_INITIAL_ALLOC o - 1 → nul_free text → LF ∉ text →
  grow o uninit plenty (text ++ [NUL]) (INI_INITIAL_ALLOC o) f w
  = Ok (Some (take (MAX_LINE o) text, MAX_LINE o, f), logged w (Ini_realloc (MAX_LINE o) true)).
Proof.
  intros Htext Hnul Hlf. destruct growing_cases as [Hre Hst].
  unfold grow. rewrite Hre, Hst. cbn [negb andb]. step_with (strlen_app text [] Hnul).
  cbn [grow_loop]. unfold INT_MAX in Hint.
  assert (Hu64 : to_u64 (Z.of_nat (INI_INITIAL_ALLOC o) - 1) = Z.of_nat (length text))
    by (unfold to_u64; rewrite Z.mod_small; lia).
  rewrite decide_True, (decide_False (P := length text = 0)) by (done || lia).
  destruct (lookup_lt_is_Some_2 text (length text - 1)) as [c Hc]; [lia|].
  assert (Hload : load (text ++ [NUL]) (length text - 1) = Ok c)
    by (unfold load; rewrite lookup_app_l by lia; by rewrite Hc).
  step_with Hload. rewrite decide_False by (intros ->; by apply Hlf; eapply list_elem_of_lookup_2).
  rewrite (decide_True (P := MAX_LINE o < _)) by lia.
  rewrite (bindM_eq _ _ _ _ _ (ini_realloc_eq uninit plenty (text ++ [NUL]) (MAX_LINE o) w)).
  cbn [plenty negb]. step_with (read_nothing (drop (length text) (take (MAX_LINE o) (text ++ [NUL]) ++
    drop (length (text ++ [NUL])) (uninit (MAX_LINE o)))) (Z.of_nat (MAX_LINE o) - Z.of_nat (length text)) f
    ltac:(lia)).
  unfold retM. rewrite (drop_ge (uninit _)) by (rewrite Huninit; len).
  by rewrite app_nil_r, take_app_le by lia.
Qed.

(** C18. With INI_ALLOW_REALLOC and an INI_INITIAL_ALLOC greater than INI_MAX_LINE,
    which conf.c accepts: a file that starts with a line of at least
    INI_INITIAL_ALLOC - 1 bytes makes the first growth cut the buffer below the text
    in it, the terminator with it, and the parser reads past the end of the block. *)
Theorem shrunk_line_buffer_overflows line0 text rest (u : U) :
  length text = INI_INITIAL_ALLOC o - 1 → nul_free text → LF ∉ text →
  ini_parse_file_o o handler uninit plenty line0 {| file_left := text ++ rest |} (fresh u) = Fault oob.
Proof.
  intros Htext Hnul Hlf. destruct growing_cases as [_ Hst].
  unfold ini_parse_file_o, ini_parse_stream_o. rewrite Hst. unfold ini_malloc.
  rewrite bindM_assoc, (bindM_eq _ _ _ _ _ (eq_refl : alloc_succeeds plenty (fresh u) = Ok (true, fresh u))), bindM_assoc.
  rewrite (bindM_eq _ _ _ _ _ (log_alloc_eq _ _)). rewrite bindM_retM.
  cbn [ini_loop_o]. step_with (first_read text rest (uninit (INI_INITIAL_ALLOC o)) (Huninit _) Htext Hlf).
  cbv beta iota. rewrite (bindM_eq _ _ _ _ _ (grow_shrinks text _ _ Htext Hnul Hlf)). cbv beta iota.
  rewrite (bindM_lift_Ok _ 1%Z _ _ eq_refl). unfold bindM at 1.
  rewrite process_line_unterminated; [done|]. simpl.
  rewrite <- (take_drop (MAX_LINE o) text) in Hnul. by apply nul_free_app in Hnul as [].
Qed.
End shrink.

(** 16 bytes at the start and at most 8: a first line of 20 characters. *)
Lemma shrunk_line_buffer_overflows_witness :
  let o := with_memory all_features false 8 true 16 in
  ini_parse_file_o o (λ _ _ _ _, retM 1%Z) (λ n, repeat "x"%char n) plenty []
    {| file_left := str "abcdefghijklmno" ++ str "pqrst" |} (fresh tt) = Fault oob.
Proof.
  apply shrunk_line_buffer_overflows; try (vm_compute; lia); try done.
  - intros n. apply repeat_length.
  - by apply (bool_decide_unpack (nul_free (str "abcdefghijklmno"))).
  - by apply (bool_decide_unpack (LF ∉ str "abcdefghijklmno")).
Defined.
