(* ===== verification/Errno.v ===== *)
(** * The errno tables

    The tables of unreliablefs_errno_linux.h, unreliablefs_errno_freebsd.h,
    unreliablefs_errno_openbsd.h and unreliablefs_errno_macosx.h: for each
    operation the error numbers that the manual page of the platform lists. *)
From stdpp Require Import base list numbers.
From Stdlib Require Import ZArith.
From S2P Require Import Prelude.

(** The error constants of <errno.h> the tables use. *)
Inductive errno_name :=
  | E2BIG | EACCES | EAGAIN | EBADF | EBUSY | ECAPMODE | ECONNRESET
  | EDEADLK | EDESTADDRREQ | EDQUOT | EEXIST | EFAULT | EFBIG | EFTYPE
  | EINTEGRITY | EINTR | EINVAL | EIO | EISDIR | ELOOP | EMFILE
  | EMLINK | ENAMETOOLONG | ENETDOWN | ENETUNREACH | ENFILE | ENOATTR
  | ENOBUFS | ENODATA | ENODEV | ENOENT | ENOLCK | ENOMEM | ENOSPC
  | ENOSYS | ENOTCAPABLE | ENOTCONN | ENOTDIR | ENOTEMPTY | ENOTSUP
  | ENOTTY | ENXIO | EOPNOTSUPP | EOVERFLOW | EPERM | EPIPE | ERANGE
  | EROFS | ESPIPE | ESRCH | ETIMEDOUT | ETXTBSY | EWOULDBLOCK | EXDEV.

#[export] Instance errno_name_eq_dec : EqDecision errno_name.
Proof. solve_decision. Defined.

(** The arrays, by their name in the sources. *)
Inductive errno_table :=
  | errno_access | errno_chmod | errno_creat | errno_ftruncate
  | errno_link | errno_mkdir | errno_mknod | errno_opendir
  | errno_readdir | errno_read | errno_readlink | errno_rename
  | errno_rmdir | errno_symlink | errno_truncate | errno_unlink
  | errno_write | errno_lstat | errno_statfs | errno_close
  | errno_utimensat | errno_fsync | errno_setxattr | errno_getxattr
  | errno_listxattr | errno_removexattr | errno_flock | errno_fallocate
  | errno_ioctl | errno_fcntl.

#[export] Instance errno_table_eq_dec : EqDecision errno_table.
Proof. solve_decision. Defined.

(** The platforms of unreliablefs_errinj.h; [ge12] is [__FreeBSD__ >= 12]. *)
Inductive platform := Linux | FreeBSD (ge12 : bool) | OpenBSD | MacOSX.

(** [#if __FreeBSD__ >= 12] *)
Definition since12 (ge12 : bool) (e : errno_name) : list errno_name :=
  if ge12 then [e] else [].

(** ** unreliablefs_errno_linux.h *)

Definition linux_errno_access : list errno_name :=
  [EACCES; ELOOP; ENAMETOOLONG; ENOENT; ENOTDIR; EROFS; EFAULT; EINVAL; EIO;
  ENOMEM; ETXTBSY].

Definition linux_errno_chmod : list errno_name :=
  [EACCES; EFAULT; EIO; ELOOP; ENAMETOOLONG; ENOENT; ENOMEM; ENOTDIR; EPERM;
  EROFS].

Definition linux_errno_creat : list errno_name :=
  [EACCES; EDQUOT; EEXIST; EFAULT; EFBIG; EINTR; EINVAL; EISDIR; ELOOP;
  EMFILE; ENAMETOOLONG; ENFILE; ENODEV; ENOENT; ENOMEM; ENOSPC; ENOTDIR;
  ENXIO; EOPNOTSUPP; EOVERFLOW; EPERM; EROFS; ETXTBSY; EWOULDBLOCK].

Definition linux_errno_ftruncate : list errno_name :=
  [EACCES; EBADF; EFAULT; EFBIG; EINTR; EINVAL; EIO; EISDIR; ELOOP;
  ENAMETOOLONG; ENOTDIR; EPERM; EROFS; ETXTBSY].

Definition linux_errno_link : list errno_name :=
  [EACCES; EDQUOT; EEXIST; EFAULT; EIO; ELOOP; EMLINK; ENAMETOOLONG; ENOENT;
  ENOMEM; ENOSPC; ENOTDIR; EPERM; EROFS; EXDEV].

Definition linux_errno_mkdir : list errno_name :=
  [EACCES; EDQUOT; EEXIST; EFAULT; EINVAL; ELOOP; EMLINK; ENAMETOOLONG;
  ENOENT; ENOMEM; ENOSPC; ENOTDIR; EPERM; EROFS].

Definition linux_errno_mknod : list errno_name :=
  [EACCES; EDQUOT; EEXIST; EFAULT; EINVAL; ELOOP; ENAMETOOLONG; ENOENT;
  ENOMEM; ENOSPC; ENOTDIR; EPERM; EROFS].

Definition linux_errno_opendir : list errno_name :=
  [EACCES; EBADF; EMFILE; ENOENT; ENOMEM; ENOTDIR].

Definition linux_errno_readdir : list errno_name :=
  [EBADF].

Definition linux_errno_read : list errno_name :=
  [EAGAIN; EWOULDBLOCK; EBADF; EFAULT; EINTR; EINVAL; EIO; EISDIR].

Definition linux_errno_readlink : list errno_name :=
  [EACCES; EFAULT; EINVAL; EIO; ELOOP; ENAMETOOLONG; ENOENT; ENOMEM; ENOTDIR].

Definition linux_errno_rename : list errno_name :=
  [EACCES; EBUSY; EDQUOT; EEXIST; EFAULT; EINVAL; EISDIR; ELOOP; EMLINK;
  ENAMETOOLONG; ENOENT; ENOMEM; ENOSPC; ENOTDIR; ENOTEMPTY; EPERM; EROFS].

Definition linux_errno_rmdir : list errno_name :=
  [EACCES; EBUSY; EFAULT; EINVAL; ELOOP; ENAMETOOLONG; ENOENT; ENOMEM;
  ENOTDIR; ENOTEMPTY; EPERM; EROFS].

Definition linux_errno_symlink : list errno_name :=
  [EACCES; EDQUOT; EEXIST; EFAULT; EIO; ELOOP; ENAMETOOLONG; ENOENT; ENOMEM;
  ENOSPC; ENOTDIR; EPERM; EROFS].

Definition linux_errno_truncate : list errno_name :=
  [EACCES; EFAULT; EFBIG; EINTR; EINVAL; EIO; EISDIR; ELOOP; ENAMETOOLONG;
  ENOENT; ENOTDIR; EPERM; EROFS; ETXTBSY].

Definition linux_errno_unlink : list errno_name :=
  [EACCES; EBUSY; EFAULT; EIO; EISDIR; ELOOP; ENAMETOOLONG; ENOENT; ENOMEM;
  ENOTDIR].

Definition linux_errno_write : list errno_name :=
  [EAGAIN; EWOULDBLOCK; EBADF; EDESTADDRREQ; EDQUOT; EFAULT; EFBIG; EINTR;
  EINVAL; ENOSPC; EPERM; EPIPE].

Definition linux_errno_lstat : list errno_name :=
  [EACCES; EBADF; EFAULT; EINVAL; ELOOP; ENAMETOOLONG; ENOENT; ENOMEM;
  ENOTDIR; EOVERFLOW].

Definition linux_errno_statfs : list errno_name :=
  [EACCES; EFAULT; EINTR; EIO; ELOOP; ENAMETOOLONG; ENOENT; ENOMEM; ENOSYS;
  ENOTDIR; EOVERFLOW].

Definition linux_errno_close : list errno_name :=
  [EBADF; EDQUOT; EINTR; EIO; ENOSPC].

Definition linux_errno_utimensat : list errno_name :=
  [EACCES; EBADF; EFAULT; EINVAL; ELOOP; ENAMETOOLONG; ENOENT; ENOTDIR;
  EPERM; EROFS; ESRCH].

Definition linux_errno_fsync : list errno_name :=
  [EBADF; EDQUOT; EINVAL; EIO; ENOSPC; EROFS].

Definition linux_errno_setxattr : list errno_name :=
  [EDQUOT; EEXIST; ENODATA; ENOSPC; ENOTSUP; EPERM; ERANGE; EACCES; EBADF;
  EFAULT; ELOOP; ENAMETOOLONG; ENOENT; ENOMEM; ENOTDIR; EOVERFLOW].

Definition linux_errno_getxattr : list errno_name :=
  [E2BIG; ENODATA; ENOTSUP; ERANGE; EACCES; EBADF; EFAULT; ELOOP;
  ENAMETOOLONG; ENOENT; ENOMEM; ENOTDIR; EOVERFLOW].

Definition linux_errno_listxattr : list errno_name :=
  [E2BIG; ENOTSUP; ERANGE; EACCES; EBADF; EFAULT; ELOOP; ENAMETOOLONG;
  ENOENT; ENOMEM; ENOTDIR; EOVERFLOW].

Definition linux_errno_removexattr : list errno_name :=
  [ENODATA; ENOTSUP; EACCES; EBADF; EFAULT; ELOOP; ENAMETOOLONG; ENOENT;
  ENOMEM; ENOTDIR; EOVERFLOW].

Definition linux_errno_flock : list errno_name :=
  [EBADF; EINTR; EINVAL; ENOLCK; EWOULDBLOCK].

Definition linux_errno_fallocate : list errno_name :=
  [EBADF; EFBIG; EINTR; EINVAL; EIO; ENODEV; ENOSPC; ENOSYS; EOPNOTSUPP;
  EPERM; ESPIPE; ETXTBSY].

Definition linux_errno_ioctl : list errno_name :=
  [EBADF; EFAULT; EINVAL; ENOTTY].

Definition linux_errno_fcntl : list errno_name :=
  [EACCES; EAGAIN; EBADF; EBUSY; EDEADLK; EFAULT; EINTR; EINVAL; EMFILE;
  ENOLCK; ENOTDIR; EPERM].

(** ** unreliablefs_errno_freebsd.h *)

Definition freebsd_errno_access (ge12 : bool) : list errno_name :=
  [EACCES; EFAULT] ++ since12 ge12 EINTEGRITY ++ [EINVAL; EIO; ELOOP;
  ENAMETOOLONG; ENOENT; ENOTDIR; EROFS; ETXTBSY].

Definition freebsd_errno_chmod (ge12 : bool) : list errno_name :=
  [EACCES; EFAULT; EFTYPE] ++ since12 ge12 EINTEGRITY ++ [EIO; ELOOP;
  ENAMETOOLONG; ENOENT; ENOTDIR; EPERM; EPERM; EROFS].

Definition freebsd_errno_creat (ge12 : bool) : list errno_name :=
  [EACCES; EBADF; ECAPMODE; EDQUOT; EEXIST; EFAULT] ++ since12 ge12
  EINTEGRITY ++ [EINTR; EINVAL; EIO; EISDIR; ELOOP; EMFILE; EMLINK;
  ENAMETOOLONG; ENFILE; ENOENT; ENOSPC; ENOTCAPABLE; ENOTDIR; ENXIO;
  EOPNOTSUPP; EPERM; EROFS; ETXTBSY; EWOULDBLOCK].

Definition freebsd_errno_ftruncate (ge12 : bool) : list errno_name :=
  [EACCES; EBADF; EFAULT; EFBIG] ++ since12 ge12 EINTEGRITY ++ [EINVAL; EIO;
  EISDIR; ELOOP; ENAMETOOLONG; ENOENT; ENOTDIR; EPERM; EROFS; ETXTBSY].

Definition freebsd_errno_link (ge12 : bool) : list errno_name :=
  [EACCES; EBADF; EDQUOT; EEXIST; EFAULT] ++ since12 ge12 EINTEGRITY ++
  [EINVAL; EIO; ELOOP; EMLINK; ENAMETOOLONG; ENOENT; ENOSPC; ENOTDIR;
  EOPNOTSUPP; EPERM; EROFS; EXDEV].

Definition freebsd_errno_mkdir (ge12 : bool) : list errno_name :=
  [EACCES; EBADF; EDQUOT; EEXIST; EFAULT] ++ since12 ge12 EINTEGRITY ++ [EIO;
  ELOOP; EMLINK; ENAMETOOLONG; ENOENT; ENOSPC; ENOTDIR; EPERM; EROFS].

Definition freebsd_errno_mknod (ge12 : bool) : list errno_name :=
  [EACCES; EBADF; EDQUOT; EEXIST; EFAULT] ++ since12 ge12 EINTEGRITY ++
  [EINVAL; EIO; ELOOP; ENAMETOOLONG; ENOENT; ENOSPC; ENOTDIR; EPERM; EROFS].

Definition freebsd_errno_opendir (ge12 : bool) : list errno_name :=
  [EACCES; ELOOP; ENAMETOOLONG; ENOENT; ENOTDIR].

Definition freebsd_errno_readdir (ge12 : bool) : list errno_name :=
  [EBADF; EFAULT] ++ since12 ge12 EINTEGRITY ++ [EINVAL; EIO].

Definition freebsd_errno_read (ge12 : bool) : list errno_name :=
  [EAGAIN; EBADF; EBUSY; ECONNRESET; EFAULT] ++ since12 ge12 EINTEGRITY ++
  [EINTR; EINVAL; EIO; EISDIR; EOPNOTSUPP; EOVERFLOW].

Definition freebsd_errno_readlink (ge12 : bool) : list errno_name :=
  [EACCES; EFAULT] ++ since12 ge12 EINTEGRITY ++ [EINVAL; EIO; ELOOP;
  ENAMETOOLONG; ENOENT; ENOTDIR].

Definition freebsd_errno_rename (ge12 : bool) : list errno_name :=
  [EACCES; ECAPMODE; EDQUOT; EFAULT] ++ since12 ge12 EINTEGRITY ++ [EINVAL;
  EIO; EISDIR; ELOOP; ENAMETOOLONG; ENOENT; ENOSPC; ENOTDIR; ENOTEMPTY;
  EPERM; EROFS; EXDEV].

Definition freebsd_errno_rmdir (ge12 : bool) : list errno_name :=
  [EACCES; EBUSY; EFAULT] ++ since12 ge12 EINTEGRITY ++ [EINVAL; EIO; ELOOP;
  ENAMETOOLONG; ENOENT; ENOTDIR; ENOTEMPTY; EPERM; EROFS].

Definition freebsd_errno_symlink (ge12 : bool) : list errno_name :=
  [EACCES; EDQUOT; EEXIST; EFAULT] ++ since12 ge12 EINTEGRITY ++ [EIO; ELOOP;
  ENAMETOOLONG; ENOENT; ENOSPC; ENOTDIR; EPERM; EROFS].

Definition freebsd_errno_truncate (ge12 : bool) : list errno_name :=
  [EACCES; EFAULT; EFBIG] ++ since12 ge12 EINTEGRITY ++ [EINVAL; EIO; EISDIR;
  ELOOP; ENAMETOOLONG; ENOENT; ENOTDIR; EPERM; EROFS; ETXTBSY].

Definition freebsd_errno_unlink (ge12 : bool) : list errno_name :=
  [EACCES; EFAULT] ++ since12 ge12 EINTEGRITY ++ [EIO; EISDIR; ELOOP;
  ENAMETOOLONG; ENOENT; ENOSPC; ENOTDIR; EPERM; EROFS].

Definition freebsd_errno_write (ge12 : bool) : list errno_name :=
  [EAGAIN; EBADF; EDQUOT; EFAULT; EFBIG] ++ since12 ge12 EINTEGRITY ++
  [EINTR; EINVAL; EIO; ENOSPC; EPIPE; EROFS].

Definition freebsd_errno_lstat (ge12 : bool) : list errno_name :=
  [EACCES; EFAULT] ++ since12 ge12 EINTEGRITY ++ [EIO; ELOOP; ENAMETOOLONG;
  ENOENT; ENOTDIR; EOVERFLOW].

Definition freebsd_errno_statfs (ge12 : bool) : list errno_name :=
  [EACCES; EFAULT] ++ since12 ge12 EINTEGRITY ++ [EIO; ELOOP; ENAMETOOLONG;
  ENOENT; ENOTDIR].

Definition freebsd_errno_close (ge12 : bool) : list errno_name :=
  [EBADF; EINTR; ENOSPC; ECONNRESET].

Definition freebsd_errno_utimensat (ge12 : bool) : list errno_name :=
  [EACCES; EBADF; EFAULT] ++ since12 ge12 EINTEGRITY ++ [EINVAL; EIO; ELOOP;
  ENAMETOOLONG; ENOENT; ENOTDIR; EPERM; EROFS; ESRCH].

Definition freebsd_errno_fsync (ge12 : bool) : list errno_name :=
  [EBADF] ++ since12 ge12 EINTEGRITY ++ [EINVAL; EIO].

Definition freebsd_errno_flock (ge12 : bool) : list errno_name :=
  [EBADF; EINVAL; ENOLCK; EOPNOTSUPP; EWOULDBLOCK].

Definition freebsd_errno_ioctl (ge12 : bool) : list errno_name :=
  [EBADF; EFAULT; EINVAL; ENOTTY].

Definition freebsd_errno_fcntl (ge12 : bool) : list errno_name :=
  [EAGAIN; EBADF; EDEADLK; EINTR; EINVAL; EMFILE; ENOLCK; ENOTTY; EOPNOTSUPP;
  EOVERFLOW; EPERM; ESRCH].

(** ** unreliablefs_errno_openbsd.h *)

Definition openbsd_errno_access : list errno_name :=
  [EACCES; EFAULT; EINVAL; EIO; ELOOP; ENAMETOOLONG; ENOENT; ENOTDIR; EPERM;
  EROFS; ETXTBSY].

Definition openbsd_errno_chmod : list errno_name :=
  [EACCES; EFAULT; EINVAL; EIO; ELOOP; ENAMETOOLONG; ENOENT; ENOTDIR; EPERM;
  EROFS].

Definition openbsd_errno_creat : list errno_name :=
  [EACCES; EBUSY; EDQUOT; EEXIST; EFAULT; EINTR; EINVAL; EIO; EISDIR; ELOOP;
  EMFILE; ENAMETOOLONG; ENFILE; ENOENT; ENOSPC; ENOTDIR; ENXIO; EOPNOTSUPP;
  EPERM; EROFS; ETXTBSY; EWOULDBLOCK].

Definition openbsd_errno_ftruncate : list errno_name :=
  [EBADF; EFBIG; EINVAL; EIO].

Definition openbsd_errno_link : list errno_name :=
  [EACCES; EDQUOT; EEXIST; EFAULT; EIO; ELOOP; EMLINK; ENAMETOOLONG; ENOENT;
  ENOSPC; ENOTDIR; EOPNOTSUPP; EPERM; EROFS; EXDEV].

Definition openbsd_errno_mkdir : list errno_name :=
  [EACCES; EDQUOT; EEXIST; EFAULT; EIO; ELOOP; ENAMETOOLONG; ENOENT; ENOSPC;
  ENOTDIR; EROFS].

Definition openbsd_errno_mknod : list errno_name :=
  [EACCES; EDQUOT; EEXIST; EFAULT; EINVAL; EIO; ELOOP; ENAMETOOLONG; ENOENT;
  ENOSPC; ENOTDIR; EPERM; EROFS].

Definition openbsd_errno_opendir : list errno_name :=
  [ENOTDIR; EAGAIN; EBADF; EDEADLK; EINTR; EINVAL; EMFILE; ENOLCK; EOVERFLOW;
  ESRCH; EBADF; EFAULT; EIO; EACCES; EBUSY; EDQUOT; EEXIST; EFAULT; EINTR;
  EINVAL; EIO; EISDIR; ELOOP; EMFILE; ENAMETOOLONG; ENFILE; ENOENT; ENOSPC;
  ENOTDIR; ENXIO; EOPNOTSUPP; EPERM; EROFS; ETXTBSY; EWOULDBLOCK; ENOMEM].

Definition openbsd_errno_readdir : list errno_name :=
  [EBADF; EFAULT; EINVAL; EIO].

Definition openbsd_errno_read : list errno_name :=
  [EAGAIN; EBADF; EFAULT; EINTR; EINVAL; EIO; EISDIR; ENOTCONN].

Definition openbsd_errno_readlink : list errno_name :=
  [EACCES; EFAULT; EINVAL; EIO; ELOOP; ENAMETOOLONG; ENOENT; ENOTDIR].

Definition openbsd_errno_rename : list errno_name :=
  [EACCES; EDQUOT; EFAULT; EINVAL; EIO; EISDIR; ELOOP; EMLINK; ENAMETOOLONG;
  ENOENT; ENOSPC; ENOTDIR; ENOTEMPTY; EPERM; EROFS; EXDEV].

Definition openbsd_errno_rmdir : list errno_name :=
  [EACCES; EBUSY; EFAULT; EINVAL; EIO; ELOOP; ENAMETOOLONG; ENOENT; ENOTDIR;
  ENOTEMPTY; EPERM; EROFS].

Definition openbsd_errno_symlink : list errno_name :=
  [EACCES; EDQUOT; EEXIST; EFAULT; EIO; ELOOP; ENAMETOOLONG; ENOENT; ENOSPC;
  ENOTDIR; EROFS].

Definition openbsd_errno_truncate : list errno_name :=
  [EACCES; EFAULT; EFBIG; EINVAL; EIO; EISDIR; ELOOP; ENAMETOOLONG; ENOENT;
  ENOTDIR; EROFS; ETXTBSY].

Definition openbsd_errno_unlink : list errno_name :=
  [EACCES; EBUSY; EFAULT; EIO; ELOOP; ENAMETOOLONG; ENOENT; ENOTDIR; EPERM;
  EROFS].

Definition openbsd_errno_write : list errno_name :=
  [EAGAIN; EBADF; EDESTADDRREQ; EDQUOT; EFAULT; EFBIG; EINTR; EINVAL; EIO;
  ENETDOWN; ENOSPC; EPIPE].

Definition openbsd_errno_lstat : list errno_name :=
  [EACCES; EFAULT; EIO; ELOOP; ENAMETOOLONG; ENOENT; ENOTDIR].

Definition openbsd_errno_statfs : list errno_name :=
  [EACCES; EFAULT; EIO; ELOOP; ENAMETOOLONG; ENOENT; ENOTDIR].

Definition openbsd_errno_close : list errno_name :=
  [EBADF; EINTR; EIO].

Definition openbsd_errno_utimensat : list errno_name :=
  [EACCES; EBADF; EFAULT; EINVAL; EIO; ELOOP; ENAMETOOLONG; ENOENT; ENOTDIR;
  EPERM; EROFS].

Definition openbsd_errno_fsync : list errno_name :=
  [EBADF; EINVAL; EIO].

Definition openbsd_errno_flock : list errno_name :=
  [EBADF; EINVAL; EOPNOTSUPP; EWOULDBLOCK].

Definition openbsd_errno_fcntl : list errno_name :=
  [EAGAIN; EBADF; EDEADLK; EINTR; EINVAL; EMFILE; ENOLCK; EOVERFLOW; ESRCH].

(** ** unreliablefs_errno_macosx.h *)

Definition macosx_errno_access : list errno_name :=
  [EACCES; EFAULT; EINVAL; EIO; ELOOP; ENAMETOOLONG; ENOENT; ENOTDIR; EROFS;
  ETXTBSY].

Definition macosx_errno_chmod : list errno_name :=
  [EACCES; EFAULT; EINTR; EIO; ELOOP; ENAMETOOLONG; ENOENT; ENOTDIR; EPERM;
  EROFS].

Definition macosx_errno_creat : list errno_name :=
  [EACCES; EAGAIN; EDQUOT; EEXIST; EFAULT; EINTR; EINVAL; EIO; EISDIR; ELOOP;
  EMFILE; ENAMETOOLONG; ENFILE; ENOENT; ENOSPC; ENOTDIR; ENXIO; EOPNOTSUPP;
  EOVERFLOW; EROFS; ETXTBSY].

Definition macosx_errno_ftruncate : list errno_name :=
  [EBADF; EFBIG; EINTR; EINVAL; EIO; EROFS].

Definition macosx_errno_link : list errno_name :=
  [EACCES; EDQUOT; EEXIST; EFAULT; EIO; ELOOP; EMLINK; ENAMETOOLONG; ENOENT;
  ENOSPC; ENOTDIR; EPERM; EROFS; EXDEV].

Definition macosx_errno_mkdir : list errno_name :=
  [EACCES; EDQUOT; EEXIST; EFAULT; EIO; ELOOP; EMLINK; ENAMETOOLONG; ENOENT;
  ENOSPC; ENOTDIR; EROFS].

Definition macosx_errno_mknod : list errno_name :=
  [EACCES; EDQUOT; EEXIST; EFAULT; EINVAL; EIO; ELOOP; ENAMETOOLONG; ENOENT;
  ENOSPC; ENOTDIR; EPERM; EROFS].

Definition macosx_errno_opendir : list errno_name := [].

Definition macosx_errno_readdir : list errno_name := [].

Definition macosx_errno_read : list errno_name :=
  [EAGAIN; EBADF; ECONNRESET; EFAULT; EINTR; EINVAL; EIO; EISDIR; ENOBUFS;
  ENOMEM; ENOTCONN; ENXIO; ETIMEDOUT].

Definition macosx_errno_readlink : list errno_name :=
  [EACCES; EFAULT; EINVAL; EIO; ELOOP; ENAMETOOLONG; ENOENT; ENOTDIR].

Definition macosx_errno_rename : list errno_name :=
  [EACCES; EDQUOT; EFAULT; EINVAL; EIO; EISDIR; ELOOP; ENAMETOOLONG; ENOENT;
  ENOSPC; ENOTDIR; ENOTEMPTY; EPERM; EROFS; EXDEV].

Definition macosx_errno_rmdir : list errno_name :=
  [EACCES; EBUSY; EFAULT; EIO; ELOOP; ENAMETOOLONG; ENOENT; ENOTDIR;
  ENOTEMPTY; EPERM; EROFS].

Definition macosx_errno_symlink : list errno_name :=
  [EACCES; EDQUOT; EEXIST; EFAULT; EIO; ELOOP; ENAMETOOLONG; ENOENT; ENOSPC;
  ENOTDIR; EROFS].

Definition macosx_errno_truncate : list errno_name :=
  [EACCES; EFAULT; EFBIG; EINTR; EINVAL; EIO; EISDIR; ELOOP; ENAMETOOLONG;
  ENOENT; ENOTDIR; EROFS; ETXTBSY].

Definition macosx_errno_unlink : list errno_name :=
  [EACCES; EBUSY; EFAULT; EIO; ELOOP; ENAMETOOLONG; ENOENT; ENOTDIR; EPERM;
  EROFS].

Definition macosx_errno_write : list errno_name :=
  [EAGAIN; EBADF; ECONNRESET; EDQUOT; EFAULT; EFBIG; EINTR; EINVAL; EIO;
  ENETDOWN; ENETUNREACH; ENOSPC; ENXIO; EPIPE; EWOULDBLOCK].

Definition macosx_errno_lstat : list errno_name :=
  [EACCES; EFAULT; EIO; ELOOP; ENAMETOOLONG; ENOENT; ENOTDIR; EOVERFLOW].

Definition macosx_errno_statfs : list errno_name :=
  [EACCES; EFAULT; EIO; ELOOP; ENAMETOOLONG; ENOENT; ENOTDIR].

Definition macosx_errno_close : list errno_name :=
  [EBADF; EINTR; EIO].

Definition macosx_errno_utimensat : list errno_name :=
  [EACCES; EBADF; EFAULT; EINVAL; EIO; ELOOP; ENAMETOOLONG; ENOENT; ENOTDIR;
  EPERM; EROFS; ESRCH].

Definition macosx_errno_fsync : list errno_name :=
  [EBADF; EINTR; EINVAL; EIO].

Definition macosx_errno_setxattr : list errno_name :=
  [E2BIG; EACCES; EEXIST; EFAULT; EINVAL; EIO; ELOOP; ENAMETOOLONG; ENOATTR;
  ENOSPC; ENOTDIR; ENOTSUP; EPERM; ERANGE; EROFS].

Definition macosx_errno_getxattr : list errno_name :=
  [EACCES; EFAULT; EINVAL; EIO; EISDIR; ELOOP; ENAMETOOLONG; ENOATTR;
  ENOTDIR; ENOTSUP; EPERM; ERANGE].

Definition macosx_errno_listxattr : list errno_name :=
  [EACCES; EFAULT; EINVAL; EIO; ELOOP; ENAMETOOLONG; ENOTDIR; ENOTSUP; EPERM;
  ERANGE].

Definition macosx_errno_removexattr : list errno_name :=
  [EACCES; EFAULT; EINVAL; EIO; ELOOP; ENAMETOOLONG; ENOATTR; ENOTDIR;
  ENOTSUP; EPERM; EROFS].

Definition macosx_errno_flock : list errno_name :=
  [EBADF; EINVAL; ENOTSUP; EWOULDBLOCK].

Definition macosx_errno_ioctl : list errno_name :=
  [EBADF; EINVAL; ENOTTY].

Definition macosx_errno_fcntl : list errno_name :=
  [EACCES; EBADF; EDEADLK; EINTR; EINVAL; EMFILE; ENOLCK; EOVERFLOW; ESRCH].

(** ** The table an array name stands for; [None]: the header has no such array *)

Definition linux_table (t : errno_table) : option (list errno_name) :=
  match t with
  | errno_access => Some linux_errno_access
  | errno_chmod => Some linux_errno_chmod
  | errno_creat => Some linux_errno_creat
  | errno_ftruncate => Some linux_errno_ftruncate
  | errno_link => Some linux_errno_link
  | errno_mkdir => Some linux_errno_mkdir
  | errno_mknod => Some linux_errno_mknod
  | errno_opendir => Some linux_errno_opendir
  | errno_readdir => Some linux_errno_readdir
  | errno_read => Some linux_errno_read
  | errno_readlink => Some linux_errno_readlink
  | errno_rename => Some linux_errno_rename
  | errno_rmdir => Some linux_errno_rmdir
  | errno_symlink => Some linux_errno_symlink
  | errno_truncate => Some linux_errno_truncate
  | errno_unlink => Some linux_errno_unlink
  | errno_write => Some linux_errno_write
  | errno_lstat => Some linux_errno_lstat
  | errno_statfs => Some linux_errno_statfs
  | errno_close => Some linux_errno_close
  | errno_utimensat => Some linux_errno_utimensat
  | errno_fsync => Some linux_errno_fsync
  | errno_setxattr => Some linux_errno_setxattr
  | errno_getxattr => Some linux_errno_getxattr
  | errno_listxattr => Some linux_errno_listxattr
  | errno_removexattr => Some linux_errno_removexattr
  | errno_flock => Some linux_errno_flock
  | errno_fallocate => Some linux_errno_fallocate
  | errno_ioctl => Some linux_errno_ioctl
  | errno_fcntl => Some linux_errno_fcntl
  end.

Definition freebsd_table (ge12 : bool) (t : errno_table) : option (list errno_name) :=
  match t with
  | errno_access => Some (freebsd_errno_access ge12)
  | errno_chmod => Some (freebsd_errno_chmod ge12)
  | errno_creat => Some (freebsd_errno_creat ge12)
  | errno_ftruncate => Some (freebsd_errno_ftruncate ge12)
  | errno_link => Some (freebsd_errno_link ge12)
  | errno_mkdir => Some (freebsd_errno_mkdir ge12)
  | errno_mknod => Some (freebsd_errno_mknod ge12)
  | errno_opendir => Some (freebsd_errno_opendir ge12)
  | errno_readdir => Some (freebsd_errno_readdir ge12)
  | errno_read => Some (freebsd_errno_read ge12)
  | errno_readlink => Some (freebsd_errno_readlink ge12)
  | errno_rename => Some (freebsd_errno_rename ge12)
  | errno_rmdir => Some (freebsd_errno_rmdir ge12)
  | errno_symlink => Some (freebsd_errno_symlink ge12)
  | errno_truncate => Some (freebsd_errno_truncate ge12)
  | errno_unlink => Some (freebsd_errno_unlink ge12)
  | errno_write => Some (freebsd_errno_write ge12)
  | errno_lstat => Some (freebsd_errno_lstat ge12)
  | errno_statfs => Some (freebsd_errno_statfs ge12)
  | errno_close => Some (freebsd_errno_close ge12)
  | errno_utimensat => Some (freebsd_errno_utimensat ge12)
  | errno_fsync => Some (freebsd_errno_fsync ge12)
  | errno_flock => Some (freebsd_errno_flock ge12)
  | errno_ioctl => Some (freebsd_errno_ioctl ge12)
  | errno_fcntl => Some (freebsd_errno_fcntl ge12)
  | _ => None
  end.

Definition openbsd_table (t : errno_table) : option (list errno_name) :=
  match t with
  | errno_access => Some openbsd_errno_access
  | errno_chmod => Some openbsd_errno_chmod
  | errno_creat => Some openbsd_errno_creat
  | errno_ftruncate => Some openbsd_errno_ftruncate
  | errno_link => Some openbsd_errno_link
  | errno_mkdir => Some openbsd_errno_mkdir
  | errno_mknod => Some openbsd_errno_mknod
  | errno_opendir => Some openbsd_errno_opendir
  | errno_readdir => Some openbsd_errno_readdir
  | errno_read => Some openbsd_errno_read
  | errno_readlink => Some openbsd_errno_readlink
  | errno_rename => Some openbsd_errno_rename
  | errno_rmdir => Some openbsd_errno_rmdir
  | errno_symlink => Some openbsd_errno_symlink
  | errno_truncate => Some openbsd_errno_truncate
  | errno_unlink => Some openbsd_errno_unlink
  | errno_write => Some openbsd_errno_write
  | errno_lstat => Some openbsd_errno_lstat
  | errno_statfs => Some openbsd_errno_statfs
  | errno_close => Some openbsd_errno_close
  | errno_utimensat => Some openbsd_errno_utimensat
  | errno_fsync => Some openbsd_errno_fsync
  | errno_flock => Some openbsd_errno_flock
  | errno_fcntl => Some openbsd_errno_fcntl
  | _ => None
  end.

Definition macosx_table (t : errno_table) : option (list errno_name) :=
  match t with
  | errno_access => Some macosx_errno_access
  | errno_chmod => Some macosx_errno_chmod
  | errno_creat => Some macosx_errno_creat
  | errno_ftruncate => Some macosx_errno_ftruncate
  | errno_link => Some macosx_errno_link
  | errno_mkdir => Some macosx_errno_mkdir
  | errno_mknod => Some macosx_errno_mknod
  | errno_opendir => Some macosx_errno_opendir
  | errno_readdir => Some macosx_errno_readdir
  | errno_read => Some macosx_errno_read
  | errno_readlink => Some macosx_errno_readlink
  | errno_rename => Some macosx_errno_rename
  | errno_rmdir => Some macosx_errno_rmdir
  | errno_symlink => Some macosx_errno_symlink
  | errno_truncate => Some macosx_errno_truncate
  | errno_unlink => Some macosx_errno_unlink
  | errno_write => Some macosx_errno_write
  | errno_lstat => Some macosx_errno_lstat
  | errno_statfs => Some macosx_errno_statfs
  | errno_close => Some macosx_errno_close
  | errno_utimensat => Some macosx_errno_utimensat
  | errno_fsync => Some macosx_errno_fsync
  | errno_setxattr => Some macosx_errno_setxattr
  | errno_getxattr => Some macosx_errno_getxattr
  | errno_listxattr => Some macosx_errno_listxattr
  | errno_removexattr => Some macosx_errno_removexattr
  | errno_flock => Some macosx_errno_flock
  | errno_ioctl => Some macosx_errno_ioctl
  | errno_fcntl => Some macosx_errno_fcntl
  | _ => None
  end.

(** The [#if] chain of unreliablefs_errinj.h that includes one header. *)
Definition platform_table (p : platform) : errno_table → option (list errno_name) :=
  match p with
  | Linux => linux_table
  | FreeBSD ge12 => freebsd_table ge12
  | OpenBSD => openbsd_table
  | MacOSX => macosx_table
  end.

(** The values of the constants are the C library's; POSIX: positive. *)
Class ErrnoValues := {
  errno_value : errno_name → Z;
  errno_value_pos e : (0 < errno_value e)%Z
}.

(** The values on Linux (asm-generic).  The BSD-only names, which no Linux table
    uses, get the values FreeBSD and macOS give them. *)
Definition linux_errno_value (e : errno_name) : Z :=
  match e with
  | E2BIG => 7
  | EACCES => 13
  | EAGAIN => 11
  | EBADF => 9
  | EBUSY => 16
  | ECAPMODE => 94
  | ECONNRESET => 104
  | EDEADLK => 35
  | EDESTADDRREQ => 89
  | EDQUOT => 122
  | EEXIST => 17
  | EFAULT => 14
  | EFBIG => 27
  | EFTYPE => 79
  | EINTEGRITY => 97
  | EINTR => 4
  | EINVAL => 22
  | EIO => 5
  | EISDIR => 21
  | ELOOP => 40
  | EMFILE => 24
  | EMLINK => 31
  | ENAMETOOLONG => 36
  | ENETDOWN => 100
  | ENETUNREACH => 101
  | ENFILE => 23
  | ENOATTR => 93
  | ENOBUFS => 105
  | ENODATA => 61
  | ENODEV => 19
  | ENOENT => 2
  | ENOLCK => 37
  | ENOMEM => 12
  | ENOSPC => 28
  | ENOSYS => 38
  | ENOTCAPABLE => 93
  | ENOTCONN => 107
  | ENOTDIR => 20
  | ENOTEMPTY => 39
  | ENOTSUP => 95
  | ENOTTY => 25
  | ENXIO => 6
  | EOPNOTSUPP => 95
  | EOVERFLOW => 75
  | EPERM => 1
  | EPIPE => 32
  | ERANGE => 34
  | EROFS => 30
  | ESPIPE => 29
  | ESRCH => 3
  | ETIMEDOUT => 110
  | ETXTBSY => 26
  | EWOULDBLOCK => 11
  | EXDEV => 18
  end%Z.

#[export] Program Instance linux_errno_values : ErrnoValues := {
  errno_value := linux_errno_value
}.
Next Obligation. intros []; by vm_compute. Qed.
