(* ===== verification/FuseOp.v ===== *)
(** * Operations and build configurations

    The enumeration [fuse_op] of unreliablefs_ops.h and the array
    [fuse_op_name] of unreliablefs_ops.c.  Both are written under the same
    [#if]s, so they are functions of the build: the platform and the
    [HAVE_*] macros that CMakeLists.txt sets. *)
From stdpp Require Import base list numbers gmap strings.
From Stdlib Require Import Ascii ZArith.
From S2P Require Import Prelude CLib Errno.

Record build := {
  b_platform : platform;
  HAVE_XATTR : bool;
  HAVE_FLOCK : bool;
  HAVE_FALLOCATE : bool;
  HAVE_UTIMENSAT : bool
}.

#[export] Instance platform_eq_dec : EqDecision platform.
Proof. solve_decision. Defined.
#[export] Instance build_eq_dec : EqDecision build.
Proof. solve_decision. Defined.

Inductive fuse_op :=
  | OP_GETATTR | OP_READLINK | OP_MKNOD | OP_MKDIR | OP_UNLINK | OP_RMDIR
  | OP_SYMLINK | OP_RENAME | OP_LINK | OP_CHMOD | OP_CHOWN | OP_TRUNCATE
  | OP_OPEN | OP_READ | OP_WRITE | OP_STATFS | OP_FLUSH | OP_RELEASE
  | OP_FSYNC | OP_SETXATTR | OP_GETXATTR | OP_LISTXATTR | OP_REMOVEXATTR
  | OP_OPENDIR | OP_READDIR | OP_RELEASEDIR | OP_FSYNCDIR | OP_ACCESS
  | OP_CREAT | OP_FTRUNCATE | OP_FGETATTR | OP_LOCK | OP_IOCTL | OP_FLOCK
  | OP_FALLOCATE | OP_UTIMENS | OP_LSTAT.

#[export] Instance fuse_op_eq_dec : EqDecision fuse_op.
Proof. solve_decision. Defined.

(** [#if c ... #endif] around list items. *)
Definition guarded {A} (c : bool) (l : list A) : list A := if c then l else [].

(** [#if !defined(__OpenBSD__)] *)
Definition not_openbsd (b : build) : bool :=
  match b_platform b with OpenBSD => false | _ => true end.

(** The enumerators, in order. *)
Definition fuse_ops (b : build) : list fuse_op :=
  [OP_GETATTR; OP_READLINK; OP_MKNOD; OP_MKDIR; OP_UNLINK; OP_RMDIR; OP_SYMLINK;
   OP_RENAME; OP_LINK; OP_CHMOD; OP_CHOWN; OP_TRUNCATE; OP_OPEN; OP_READ; OP_WRITE;
   OP_STATFS; OP_FLUSH; OP_RELEASE; OP_FSYNC] ++
  guarded (HAVE_XATTR b) [OP_SETXATTR; OP_GETXATTR; OP_LISTXATTR; OP_REMOVEXATTR] ++
  [OP_OPENDIR; OP_READDIR; OP_RELEASEDIR; OP_FSYNCDIR; OP_ACCESS; OP_CREAT;
   OP_FTRUNCATE; OP_FGETATTR; OP_LOCK] ++
  guarded (not_openbsd b) [OP_IOCTL] ++
  guarded (HAVE_FLOCK b) [OP_FLOCK] ++
  guarded (HAVE_FALLOCATE b) [OP_FALLOCATE] ++
  guarded (HAVE_UTIMENSAT b) [OP_UTIMENS] ++
  [OP_LSTAT].

(** [fuse_op_name], in order. *)
Definition fuse_op_name (b : build) : list (list ascii) := str <$>
  ["getattr"; "readlink"; "mknod"; "mkdir"; "unlink"; "rmdir"; "symlink";
   "rename"; "link"; "chmod"; "chown"; "truncate"; "open"; "read"; "write";
   "statfs"; "flush"; "release"; "fsync"] ++
  guarded (HAVE_XATTR b) ["setxattr"; "getxattr"; "listxattr"; "removexattr"] ++
  ["opendir"; "readdir"; "releasedir"; "fsyncdir"; "access"; "creat";
   "ftruncate"; "fgetattr"; "lock"] ++
  guarded (not_openbsd b) ["ioctl"] ++
  guarded (HAVE_FLOCK b) ["flock"] ++
  guarded (HAVE_FALLOCATE b) ["fallocate"] ++
  guarded (HAVE_UTIMENSAT b) ["utimens"] ++
  ["lstat"].

(** The operation exists in the build. *)
Definition enabled (b : build) (op : fuse_op) : bool := bool_decide (op ∈ fuse_ops b).

Fixpoint index_of {A} `{EqDecision A} (x : A) (l : list A) : nat :=
  match l with
  | [] => 0
  | y :: l' => if decide (x = y) then 0 else S (index_of x l')
  end.

(** The value of the enumerator. *)
Definition op_value (b : build) (op : fuse_op) : nat := index_of op (fuse_ops b).

(** [fuse_op_name\[operation\]] *)
Definition op_name (b : build) (op : fuse_op) : outcome (list ascii) :=
  match fuse_op_name b !! op_value b op with Some n => Ok n | None => Fault oob end.

(** The operation an enumerator is meant to name: its identifier without [OP_],
    in lower case. *)
Definition op_label (op : fuse_op) : list ascii := str
  match op with
  | OP_GETATTR => "getattr"
  | OP_READLINK => "readlink"
  | OP_MKNOD => "mknod"
  | OP_MKDIR => "mkdir"
  | OP_UNLINK => "unlink"
  | OP_RMDIR => "rmdir"
  | OP_SYMLINK => "symlink"
  | OP_RENAME => "rename"
  | OP_LINK => "link"
  | OP_CHMOD => "chmod"
  | OP_CHOWN => "chown"
  | OP_TRUNCATE => "truncate"
  | OP_OPEN => "open"
  | OP_READ => "read"
  | OP_WRITE => "write"
  | OP_STATFS => "statfs"
  | OP_FLUSH => "flush"
  | OP_RELEASE => "release"
  | OP_FSYNC => "fsync"
  | OP_SETXATTR => "setxattr"
  | OP_GETXATTR => "getxattr"
  | OP_LISTXATTR => "listxattr"
  | OP_REMOVEXATTR => "removexattr"
  | OP_OPENDIR => "opendir"
  | OP_READDIR => "readdir"
  | OP_RELEASEDIR => "releasedir"
  | OP_FSYNCDIR => "fsyncdir"
  | OP_ACCESS => "access"
  | OP_CREAT => "creat"
  | OP_FTRUNCATE => "ftruncate"
  | OP_FGETATTR => "fgetattr"
  | OP_LOCK => "lock"
  | OP_IOCTL => "ioctl"
  | OP_FLOCK => "flock"
  | OP_FALLOCATE => "fallocate"
  | OP_UTIMENS => "utimens"
  | OP_LSTAT => "lstat"
  end.

(** Every build the sources can be configured for. *)
Definition all_builds : list build :=
  p ← [Linux; FreeBSD false; FreeBSD true; OpenBSD; MacOSX];
  x ← [true; false]; f ← [true; false]; a ← [true; false]; u ← [true; false];
  [{| b_platform := p; HAVE_XATTR := x; HAVE_FLOCK := f;
      HAVE_FALLOCATE := a; HAVE_UTIMENSAT := u |}].

Lemma all_builds_complete b : b ∈ all_builds.
Proof.
  apply (bool_decide_unpack _). destruct b as [p [] [] [] []];
    destruct p as [|[]| |]; by vm_compute.
Qed.
