(* ===== verification/Heap.v ===== *)
(** * The C heap of the configuration

    The blocks that unreliablefs_errinj.c allocates: the queue head
    ([struct err_inj_q], a [TAILQ_HEAD]), its entries ([struct errinj_conf])
    and the option strings.  Pointers are optional addresses, the null pointer
    is [None].  Allocation can fail: [m_oom] says for each allocation, by its
    number, whether it does. *)
From stdpp Require Import base list numbers gmap strings.
From Stdlib Require Import Ascii ZArith.
From S2P Require Import Prelude CLib.

Abbreviation addr := positive.
Abbreviation ptr := (option addr).

(** [struct errinj_conf]; [type] holds the value of the enumeration and the
    links of the queue are in the queue's list of addresses. *)
Record errinj_conf := {
  err_injection_name : ptr;
  op_regexp : ptr;
  path_regexp : ptr;
  errno_regexp : ptr;
  probability : Z;
  duration : Z;
  type_ : Z
}.

Inductive block :=
  | Str (s : list ascii)
  | Conf (c : errinj_conf)
  | Queue (q : list addr).

Record mem := {
  m_heap : gmap addr block;
  m_oom : nat → bool;
  m_count : nat
}.

Definition set_heap (h : gmap addr block) (m : mem) : mem :=
  {| m_heap := h; m_oom := m_oom m; m_count := m_count m |}.

(** [malloc], [calloc] and [strdup] of a block with the given contents. *)
Definition alloc (b : block) : M mem ptr := λ m,
  let n := S (m_count m) in
  if m_oom m (m_count m)
  then Ok (None, {| m_heap := m_heap m; m_oom := m_oom m; m_count := n |})
  else
    let a := fresh (dom (m_heap m)) in
    Ok (Some a, {| m_heap := <[a := b]> (m_heap m); m_oom := m_oom m; m_count := n |}).

(** [free(p)]: nothing for the null pointer. *)
Definition free (p : ptr) : M mem unit := λ m,
  match p with
  | None => Ok (tt, m)
  | Some a =>
      match m_heap m !! a with
      | Some _ => Ok (tt, set_heap (delete a (m_heap m)) m)
      | None => Fault bad_free
      end
  end.

(** [*p], at the three types of blocks. *)
Definition deref (p : ptr) : M mem block := λ m,
  match p with
  | None => Fault null_deref
  | Some a => match m_heap m !! a with Some b => Ok (b, m) | None => Fault bad_deref end
  end.

Definition deref_conf (p : ptr) : M mem errinj_conf :=
  let! b := deref p in match b with Conf c => retM c | _ => fault_ bad_deref end.
Definition deref_queue (p : ptr) : M mem (list addr) :=
  let! b := deref p in match b with Queue q => retM q | _ => fault_ bad_deref end.

(** The string a [char*] points to; the null pointer stays visible. *)
Definition read_str (p : ptr) : M mem (option (list ascii)) :=
  match p with
  | None => retM None
  | Some _ =>
      let! b := deref p in match b with Str s => retM (Some s) | _ => fault_ bad_deref end
  end.

(** [*p = b] *)
Definition assign (p : ptr) (b : block) : M mem unit := λ m,
  match p with
  | None => Fault null_deref
  | Some a =>
      match m_heap m !! a with
      | Some _ => Ok (tt, set_heap (<[a := b]> (m_heap m)) m)
      | None => Fault bad_deref
      end
  end.

(** Memory in which no allocation fails. *)
Definition no_oom (m : mem) : Prop := ∀ n, m_oom m n = false.

(** ** Lemmas *)

Lemma alloc_ok b m :
  m_oom m (m_count m) = false →
  ∃ a m', alloc b m = Ok (Some a, m') ∧ m_heap m !! a = None ∧
          m_heap m' = <[a := b]> (m_heap m) ∧ m_oom m' = m_oom m.
Proof.
  intros H. unfold alloc. rewrite H. eexists _, _. split; [done|].
  split; [|done]. apply not_elem_of_dom, is_fresh.
Qed.

Lemma alloc_fail b m :
  m_oom m (m_count m) = true →
  alloc b m = Ok (None, {| m_heap := m_heap m; m_oom := m_oom m; m_count := S (m_count m) |}).
Proof. intros H. unfold alloc. by rewrite H. Qed.

(** Both outcomes of an allocation. *)
Lemma alloc_cases b m :
  ∃ p m', alloc b m = Ok (p, m') ∧ m_oom m' = m_oom m ∧
    match p with
    | None => m_heap m' = m_heap m ∧ m_oom m (m_count m) = true
    | Some a => m_heap m !! a = None ∧ m_heap m' = <[a := b]> (m_heap m)
    end.
Proof.
  destruct (m_oom m (m_count m)) eqn:E.
  - unfold alloc. rewrite E. by eexists _, _.
  - destruct (alloc_ok b m E) as (a & m' & ? & ? & ? & ?). by exists (Some a), m'.
Qed.

Lemma free_live a b m :
  m_heap m !! a = Some b → free (Some a) m = Ok (tt, set_heap (delete a (m_heap m)) m).
Proof. intros H. unfold free. by rewrite H. Qed.

Lemma deref_conf_live a c m : m_heap m !! a = Some (Conf c) → deref_conf (Some a) m = Ok (c, m).
Proof. intros H. unfold deref_conf, bindM, deref. by rewrite H. Qed.

Lemma deref_queue_live a q m : m_heap m !! a = Some (Queue q) → deref_queue (Some a) m = Ok (q, m).
Proof. intros H. unfold deref_queue, bindM, deref. by rewrite H. Qed.

Lemma assign_live a b b' m :
  m_heap m !! a = Some b → assign (Some a) b' m = Ok (tt, set_heap (<[a := b']> (m_heap m)) m).
Proof. intros H. unfold assign. by rewrite H. Qed.
