(* ===== verification/ErrInjConf.v ===== *)
(** * unreliablefs_errinj.c: the configuration of the error injections

    [errinj_type_by_name], [conf_option_handler] (the handler the INI parser
    calls) and [config_delete], on the heap.  [config_init], which also calls
    the file system, is in ErrInj. *)
From stdpp Require Import base list numbers gmap strings.
From Stdlib Require Import Ascii ZArith.
From S2P Require Import Prelude CLib Heap.

(** ** unreliablefs_errinj.h *)

Definition MIN_PROBABLITY : Z := 0.
Definition MAX_PROBABLITY : Z := 100.
Definition ERRNO_NOOP : Z := -999.
(** [DEFAULT_SIGNAL_NAME], which is [SIGKILL]. *)
Definition DEFAULT_SIGNAL_NAME : Z := 9.

Definition errinj_name : list (list ascii) :=
  [str "errinj_errno"; str "errinj_kill_caller"; str "errinj_noop"; str "errinj_slowdown"].

(** The enumeration [errinj_type]. *)
Definition ERRINJ_ERRNO : Z := 0.
Definition ERRINJ_KILL_CALLER : Z := 1.
Definition ERRINJ_NOOP : Z := 2.
Definition ERRINJ_SLOWDOWN : Z := 3.

(** [calloc(1, sizeof(struct errinj_conf))] *)
Definition zero_conf : errinj_conf :=
  {| err_injection_name := None; op_regexp := None; path_regexp := None;
     errno_regexp := None; probability := 0; duration := 0; type_ := 0 |}.

(** ** errinj_type_by_name *)

(** The loop from index [i]; [idx] is the last match so far. *)
Fixpoint type_by_name_loop (name : list ascii) (names : list (list ascii)) (i idx : Z) : Z :=
  match names with
  | [] => idx
  | n :: names' =>
      type_by_name_loop name names' (i + 1) (if decide (strcmp n name = 0%Z) then i else idx)
  end.

(** The result has the enumeration's type, an [unsigned int]. *)
Definition errinj_type_by_name (name : list ascii) : Z :=
  to_uint (type_by_name_loop name errinj_name 0 (-1)).

(** ** conf_option_handler *)

Definition set_type (t : Z) (c : errinj_conf) : errinj_conf :=
  {| err_injection_name := err_injection_name c; op_regexp := op_regexp c;
     path_regexp := path_regexp c; errno_regexp := errno_regexp c;
     probability := probability c; duration := duration c; type_ := t |}.
Definition set_op_regexp (p : ptr) (c : errinj_conf) : errinj_conf :=
  {| err_injection_name := err_injection_name c; op_regexp := p;
     path_regexp := path_regexp c; errno_regexp := errno_regexp c;
     probability := probability c; duration := duration c; type_ := type_ c |}.
Definition set_path_regexp (p : ptr) (c : errinj_conf) : errinj_conf :=
  {| err_injection_name := err_injection_name c; op_regexp := op_regexp c;
     path_regexp := p; errno_regexp := errno_regexp c;
     probability := probability c; duration := duration c; type_ := type_ c |}.
Definition set_probability (v : Z) (c : errinj_conf) : errinj_conf :=
  {| err_injection_name := err_injection_name c; op_regexp := op_regexp c;
     path_regexp := path_regexp c; errno_regexp := errno_regexp c;
     probability := v; duration := duration c; type_ := type_ c |}.
Definition set_duration (v : Z) (c : errinj_conf) : errinj_conf :=
  {| err_injection_name := err_injection_name c; op_regexp := op_regexp c;
     path_regexp := path_regexp c; errno_regexp := errno_regexp c;
     probability := probability c; duration := v; type_ := type_ c |}.

(** [err->f = ...] *)
Definition update_conf (p : ptr) (f : errinj_conf → errinj_conf) : M mem unit :=
  let! c := deref_conf p in assign p (Conf (f c)).

(** The search for an entry of type [t], [TAILQ_FOREACH] with [break]. *)
Fixpoint find_type (t : Z) (q : list addr) : M mem ptr :=
  match q with
  | [] => retM None
  | a :: q' =>
      let! np := deref_conf (Some a) in
      if decide (type_ np = t) then retM (Some a) else find_type t q'
  end.

(** [if (p) free(p);] *)
Definition free_if (p : ptr) : M mem unit :=
  match p with None => retM tt | Some _ => free p end.

(** The chain of [strcmp(key, ...)]. *)
Definition set_option (err : ptr) (key value : list ascii) : M mem Z :=
  if decide (strcmp key (str "path_regexp") = 0%Z) then
    let! c := deref_conf err in
    do! free_if (path_regexp c) in
    let! p := alloc (Str value) in
    do! update_conf err (set_path_regexp p) in
    retM 1%Z
  else if decide (strcmp key (str "op_regexp") = 0%Z) then
    let! c := deref_conf err in
    do! free_if (op_regexp c) in
    let! p := alloc (Str value) in
    do! update_conf err (set_op_regexp p) in
    retM 1%Z
  else if decide (strcmp key (str "probability") = 0%Z) then
    do! update_conf err (set_probability (to_uint (atoi value))) in
    retM 1%Z
  else if decide (strcmp key (str "duration") = 0%Z) then
    do! update_conf err (set_duration (to_uint (atoi value))) in
    retM 1%Z
  else retM 0%Z.

Definition conf_option_handler (cfg : ptr) (section key value : list ascii) : M mem Z :=
  let cur_type := to_int (errinj_type_by_name section) in
  if decide (cur_type = -1)%Z then retM (-1)%Z
  else
    let! q := deref_queue cfg in
    let! found := find_type (to_uint cur_type) q in
    match found with
    | Some _ => set_option found key value
    | None =>
        let! err := alloc (Conf zero_conf) in
        match err with
        | None => retM (-1)%Z
        | Some a =>
            do! update_conf err (set_type (to_uint cur_type)) in
            (* TAILQ_INSERT_TAIL *)
            let! q := deref_queue cfg in
            do! assign cfg (Queue (q ++ [a])) in
            set_option err key value
        end
    end.

(** ** config_delete *)

(** The loop of [config_delete]; fuel: the length of the queue and one more. *)
Fixpoint config_delete_loop (fuel : nat) (errors : ptr) : M mem unit :=
  match fuel with
  | O => nofuel
  | S fuel' =>
      let! q := deref_queue errors in
      match q with
      | [] => retM tt
      | err :: rest =>
          let! c := deref_conf (Some err) in
          do! free_if (path_regexp c) in
          do! free_if (op_regexp c) in
          (* TAILQ_REMOVE *)
          do! assign errors (Queue rest) in
          do! free (Some err) in
          config_delete_loop fuel' errors
      end
  end.

Definition config_delete (errors : ptr) : M mem unit :=
  match errors with
  | None => retM tt
  | Some _ =>
      let! q := deref_queue errors in
      do! config_delete_loop (S (length q)) errors in
      free errors
  end.
