(* ===== verification/ConfSpec.v ===== *)
(** * The configuration's contract

    What the configuration of the error injections is, without the heap: a
    list of injections with at most one per type ([config]), the update that
    an option of the file makes ([config_set]), the relation between a heap and
    a configuration ([queue_rep]) and the rest of the heap ([frame_of]). *)
From stdpp Require Import base list numbers gmap strings.
From Stdlib Require Import Ascii ZArith.
From S2P Require Import Prelude CLib Heap ErrInjConf.

(** ** Configurations *)

Record injection := {
  i_type : Z;
  i_op : option (list ascii);
  i_path : option (list ascii);
  i_probability : Z;
  i_duration : Z
}.

Abbreviation config := (list injection).

(** The type a section name stands for. *)
Definition section_type (s : list ascii) : option Z :=
  if decide (s = str "errinj_errno") then Some ERRINJ_ERRNO
  else if decide (s = str "errinj_kill_caller") then Some ERRINJ_KILL_CALLER
  else if decide (s = str "errinj_noop") then Some ERRINJ_NOOP
  else if decide (s = str "errinj_slowdown") then Some ERRINJ_SLOWDOWN
  else None.

Definition new_injection (t : Z) : injection :=
  {| i_type := t; i_op := None; i_path := None; i_probability := 0; i_duration := 0 |}.

(** The effect of an option on an injection; [None]: not an option. *)
Definition set_key (key value : list ascii) (i : injection) : option injection :=
  if decide (key = str "path_regexp") then
    Some {| i_type := i_type i; i_op := i_op i; i_path := Some value;
            i_probability := i_probability i; i_duration := i_duration i |}
  else if decide (key = str "op_regexp") then
    Some {| i_type := i_type i; i_op := Some value; i_path := i_path i;
            i_probability := i_probability i; i_duration := i_duration i |}
  else if decide (key = str "probability") then
    Some {| i_type := i_type i; i_op := i_op i; i_path := i_path i;
            i_probability := to_uint (atoi value); i_duration := i_duration i |}
  else if decide (key = str "duration") then
    Some {| i_type := i_type i; i_op := i_op i; i_path := i_path i;
            i_probability := i_probability i; i_duration := to_uint (atoi value) |}
  else None.

(** Set the option in the injection of type [t], which is appended when the
    configuration has none. *)
Fixpoint set_in (t : Z) (key value : list ascii) (cfg : config) : config :=
  match cfg with
  | [] => [default (new_injection t) (set_key key value (new_injection t))]
  | i :: cfg' =>
      if decide (i_type i = t) then default i (set_key key value i) :: cfg'
      else i :: set_in t key value cfg'
  end.

(** The handler's contract: its result and the new configuration. *)
Definition config_set (cfg : config) (section key value : list ascii) : Z * config :=
  match section_type section with
  | None => ((-1)%Z, cfg)
  | Some t =>
      (match set_key key value (new_injection t) with Some _ => 1%Z | None => 0%Z end,
       set_in t key value cfg)
  end.

(** Well-formed configurations: known types, each at most once, and the
    numbers are [unsigned int]s. *)
Definition injection_ok (i : injection) : Prop :=
  (0 ≤ i_type i ≤ 3)%Z ∧ (0 ≤ i_probability i < 2 ^ 32)%Z ∧ (0 ≤ i_duration i < 2 ^ 32)%Z.
Definition config_ok (cfg : config) : Prop :=
  NoDup (i_type <$> cfg) ∧ Forall injection_ok cfg.

(** ** Configurations in the heap *)

Abbreviation heap := (gmap addr block).

Definition ptr_fp (p : ptr) : list addr :=
  match p with Some a => [a] | None => [] end.

(** The addresses of an entry: its block and its strings. *)
Definition conf_fp (h : heap) (a : addr) : list addr :=
  a :: match h !! a with
       | Some (Conf c) => ptr_fp (op_regexp c) ++ ptr_fp (path_regexp c)
       | _ => []
       end.

(** The addresses of a queue: its head and its entries. *)
Definition queue_fp (h : heap) (q : addr) : list addr :=
  q :: match h !! q with
       | Some (Queue l) => concat (map (conf_fp h) l)
       | _ => []
       end.

Definition str_rep (h : heap) (p : ptr) (o : option (list ascii)) : Prop :=
  match p, o with
  | None, None => True
  | Some a, Some s => h !! a = Some (Str s)
  | _, _ => False
  end.

Definition conf_rep (h : heap) (a : addr) (i : injection) : Prop :=
  ∃ c, h !! a = Some (Conf c) ∧
    str_rep h (op_regexp c) (i_op i) ∧ str_rep h (path_regexp c) (i_path i) ∧
    probability c = i_probability i ∧ duration c = i_duration i ∧ type_ c = i_type i.

(** The queue at [q] holds the configuration, in blocks of its own. *)
Definition queue_rep (h : heap) (q : addr) (cfg : config) : Prop :=
  ∃ l, h !! q = Some (Queue l) ∧ Forall2 (conf_rep h) l cfg ∧ NoDup (queue_fp h q).

(** The heap without the queue's blocks. *)
Definition frame_of (h : heap) (q : addr) : heap :=
  filter (λ kv, kv.1 ∉ queue_fp h q) h.

(** ** Lemmas on representations *)

Lemma conf_fp_live h a i x : conf_rep h a i → x ∈ conf_fp h a → is_Some (h !! x).
Proof.
  intros (c & Hc & Hop & Hpath & _). unfold conf_fp. rewrite Hc.
  rewrite elem_of_cons, elem_of_app. intros [->|[Hx|Hx]]; [by eexists|..].
  - destruct (op_regexp c), (i_op i); simpl in *; try done; [|by apply not_elem_of_nil in Hx].
    apply list_elem_of_singleton in Hx as ->. by eexists.
  - destruct (path_regexp c), (i_path i); simpl in *; try done; [|by apply not_elem_of_nil in Hx].
    apply list_elem_of_singleton in Hx as ->. by eexists.
Qed.

Lemma conf_rep_self h a i : conf_rep h a i → a ∈ conf_fp h a.
Proof. intros _. by left. Qed.

(** An entry depends only on its own addresses. *)
Lemma conf_fp_local h h' a :
  (∀ x, x ∈ conf_fp h a → h' !! x = h !! x) → conf_fp h' a = conf_fp h a.
Proof. intros H. unfold conf_fp. by rewrite (H a) by (by left). Qed.

Lemma str_rep_local h h' p o :
  (∀ x, x ∈ ptr_fp p → h' !! x = h !! x) → str_rep h p o → str_rep h' p o.
Proof. intros H. destruct p, o; simpl; try done. intros <-. apply H. by left. Qed.

Lemma conf_rep_local h h' a i :
  (∀ x, x ∈ conf_fp h a → h' !! x = h !! x) → conf_rep h a i → conf_rep h' a i.
Proof.
  intros H (c & Hc & Hop & Hpath & Hrest). exists c. unfold conf_fp in H. rewrite Hc in H.
  split; [by rewrite H by (by left)|]. split; [|split; [|done]].
  - eapply str_rep_local; [|done]. intros x Hx. apply H. right. apply elem_of_app. by left.
  - eapply str_rep_local; [|done]. intros x Hx. apply H. right. apply elem_of_app. by right.
Qed.

Lemma frame_lookup h q x :
  frame_of h q !! x = if decide (x ∈ queue_fp h q) then None else h !! x.
Proof.
  unfold frame_of. rewrite map_lookup_filter. destruct (h !! x) eqn:E; simpl; case_decide; simpl.
  - by rewrite option_guard_False by (intros Hn; by apply Hn).
  - by rewrite option_guard_True.
  - done.
  - done.
Qed.
