(* ===== verification/ConfRefine.v ===== *)
(** * The configuration code refines its contract

    [conf_option_handler] on a heap that holds a configuration is [config_set]
    on the configuration; it touches no other block, leaks nothing and never
    faults, even when allocations fail.  [config_delete] frees exactly the
    queue's blocks. *)
From stdpp Require Import base list numbers gmap strings.
From Stdlib Require Import Ascii ZArith.
From S2P Require Import Prelude CLib Heap ErrInjConf ConfSpec.

(** ** Lists of entries *)

Lemma confs_live h l cfg x :
  Forall2 (conf_rep h) l cfg → x ∈ concat (map (conf_fp h) l) → is_Some (h !! x).
Proof.
  induction 1 as [|a i l cfg Hai _ IH]; cbn [map concat]; [by intros ?%not_elem_of_nil|].
  intros [Hx|Hx]%elem_of_app; [by eapply conf_fp_live|by apply IH].
Qed.

Lemma confs_local h h' l cfg :
  Forall2 (conf_rep h) l cfg →
  (∀ x, x ∈ concat (map (conf_fp h) l) → h' !! x = h !! x) →
  Forall2 (conf_rep h') l cfg ∧ map (conf_fp h') l = map (conf_fp h) l.
Proof.
  induction 1 as [|a i l cfg Hai _ IH]; intros Heq; [done|]. cbn [map concat] in *.
  assert (∀ x, x ∈ conf_fp h a → h' !! x = h !! x) as Ha
    by (intros x Hx; apply Heq, elem_of_app; by left).
  destruct IH as [IH1 IH2]; [intros x Hx; apply Heq, elem_of_app; by right|].
  split; [constructor; [by eapply conf_rep_local|done]|].
  by rewrite IH2, (conf_fp_local h h' a).
Qed.

(** The blocks of a queue with an entry at [a]. *)
Lemma queue_fp_split h q l1 a l2 :
  h !! q = Some (Queue (l1 ++ a :: l2)) →
  queue_fp h q = q :: concat (map (conf_fp h) l1) ++ conf_fp h a ++ concat (map (conf_fp h) l2).
Proof. intros Hq. unfold queue_fp. by rewrite Hq, map_app, concat_app. Qed.

(** Replacing the entry at [a] by [i'] in a heap that changes only the entry's
    old blocks, which are reused or freed, and blocks that were not live. *)
Lemma queue_rep_update h h' q l1 a l2 cfg1 i cfg2 i' :
  h !! q = Some (Queue (l1 ++ a :: l2)) →
  Forall2 (conf_rep h) l1 cfg1 → conf_rep h a i → Forall2 (conf_rep h) l2 cfg2 →
  NoDup (queue_fp h q) →
  conf_rep h' a i' → NoDup (conf_fp h' a) →
  (∀ x, x ∈ conf_fp h' a → x ∈ conf_fp h a ∨ h !! x = None) →
  (∀ x, x ∉ conf_fp h a → x ∉ conf_fp h' a → h' !! x = h !! x) →
  (∀ x, x ∈ conf_fp h a → x ∉ conf_fp h' a → h' !! x = None) →
  queue_rep h' q (cfg1 ++ i' :: cfg2) ∧ frame_of h' q = frame_of h q.
Proof.
  intros Hq H1 Ha H2 Hnd Ha' Hnd' Hnew Hsame Hfreed.
  pose proof (queue_fp_split _ _ _ _ _ Hq) as Hfp.
  pose proof Hnd as Hnd0. rewrite Hfp in Hnd.
  apply NoDup_cons in Hnd as [Hqn Hnd]. apply NoDup_app in Hnd as (Hnd1 & Hd1 & Hnd).
  apply NoDup_app in Hnd as (_ & Hd2 & Hnd2).
  rewrite !elem_of_app in Hqn.
  assert (Hout : ∀ x, is_Some (h !! x) → x ∉ conf_fp h a → (x ∉ conf_fp h' a) ∧ h' !! x = h !! x).
  { intros x Hx Hxa. assert (x ∉ conf_fp h' a) as Hxa'.
    { intros Hin. destruct (Hnew x Hin) as [|E]; [done|]. rewrite E in Hx. by destruct Hx. }
    split; [done|by apply Hsame]. }
  assert (Hl1 : ∀ x, x ∈ concat (map (conf_fp h) l1) → (x ∉ conf_fp h' a) ∧ h' !! x = h !! x).
  { intros x Hx. apply Hout; [by apply (confs_live h l1 cfg1)|]. intros Hxa.
    apply (Hd1 x Hx). apply elem_of_app. by left. }
  assert (Hl2 : ∀ x, x ∈ concat (map (conf_fp h) l2) → (x ∉ conf_fp h' a) ∧ h' !! x = h !! x).
  { intros x Hx. apply Hout; [by apply (confs_live h l2 cfg2)|]. intros Hxa. by apply (Hd2 x Hxa). }
  assert (Hqq : (q ∉ conf_fp h' a) ∧ h' !! q = h !! q).
  { apply Hout; [rewrite Hq; by eexists|]. tauto. }
  destruct (confs_local h h' l1 cfg1) as [H1' E1]; [done|intros x Hx; by apply Hl1|].
  destruct (confs_local h h' l2 cfg2) as [H2' E2]; [done|intros x Hx; by apply Hl2|].
  assert (Hq' : h' !! q = Some (Queue (l1 ++ a :: l2))) by (by rewrite (proj2 Hqq)).
  assert (Hfp' : queue_fp h' q = q :: concat (map (conf_fp h) l1) ++ conf_fp h' a
                                   ++ concat (map (conf_fp h) l2)).
  { by rewrite (queue_fp_split _ _ _ _ _ Hq'), E1, E2. }
  split.
  - exists (l1 ++ a :: l2). split; [done|]. split; [by apply Forall2_app; [|constructor]|].
    rewrite Hfp'. apply NoDup_cons. split; [rewrite !elem_of_app; tauto|].
    apply NoDup_app. split; [done|]. split.
    { intros x Hx. rewrite elem_of_app. intros [Hx'|Hx']; [by apply (Hl1 x Hx)|].
      apply (Hd1 x Hx). apply elem_of_app. by right. }
    apply NoDup_app. split; [done|]. split; [|done].
    intros x Hx Hx2. by apply (Hl2 x Hx2).
  - apply map_eq. intros x. rewrite !frame_lookup.
    destruct (decide (x ∈ queue_fp h' q)) as [E'|E'], (decide (x ∈ queue_fp h q)) as [E|E];
      rewrite Hfp in E; rewrite Hfp' in E'; rewrite elem_of_cons, !elem_of_app in E, E'.
    + done.
    + destruct (Hnew x); [tauto..|done].
    + apply Hfreed; tauto.
    + apply Hsame; tauto.
Qed.

(** ** Strings *)

Definition delete_ptr (p : ptr) (h : heap) : heap :=
  match p with None => h | Some a => delete a h end.

Lemma free_if_correct p o m :
  str_rep (m_heap m) p o →
  free_if p m = Ok (tt, set_heap (delete_ptr p (m_heap m)) m).
Proof.
  destruct p as [a|]; simpl; [|by destruct m]. destruct o as [s|]; [|done]. apply free_live.
Qed.

Lemma update_conf_correct a c f m :
  m_heap m !! a = Some (Conf c) →
  update_conf (Some a) f m = Ok (tt, set_heap (<[a := Conf (f c)]> (m_heap m)) m).
Proof.
  intros H. unfold update_conf. rewrite (bindM_eq _ _ _ _ _ (deref_conf_live _ _ _ H)).
  by apply assign_live with (Conf c).
Qed.

Lemma delete_ptr_lookup p h x :
  delete_ptr p h !! x = if decide (x ∈ ptr_fp p) then None else h !! x.
Proof.
  destruct p as [o|]; simpl; [|done].
  destruct (decide (x ∈ [o])) as [E|E]; rewrite list_elem_of_singleton in E.
  - subst. apply lookup_delete_eq.
  - by apply lookup_delete_ne.
Qed.

(** The assignment of a new string to a field: the old string is freed, the new
    one allocated (or not), the entry rewritten. *)
Definition replace_str (a : addr) (old : ptr) (f : ptr → errinj_conf → errinj_conf)
    (value : list ascii) : M mem Z :=
  do! free_if old in
  let! p := alloc (Str value) in
  do! update_conf (Some a) (f p) in
  retM 1%Z.

(** The allocation of a string, whether it fails or not. *)
Lemma alloc_str_correct value m :
  ∃ p m', alloc (Str value) m = Ok (p, m') ∧ m_oom m' = m_oom m ∧ NoDup (ptr_fp p) ∧
    (∀ x, x ∈ ptr_fp p → m_heap m !! x = None) ∧
    (∀ x, x ∉ ptr_fp p → m_heap m' !! x = m_heap m !! x) ∧
    (∃ s', str_rep (m_heap m') p s' ∧ (no_oom m → s' = Some value)).
Proof.
  destruct (alloc_cases (Str value) m) as ([b|] & m' & Halloc & Hoom & Hb & Hh);
    eexists _, m'; (split; [exact Halloc|]); (split; [done|]); simpl.
  - split; [apply NoDup_singleton|]. setoid_rewrite list_elem_of_singleton.
    split; [by intros x ->|]. split; [intros x Hx; rewrite Hh; by apply lookup_insert_ne|].
    exists (Some value). split; [|done]. by rewrite Hh, lookup_insert_eq.
  - split; [constructor|]. split; [by intros x Hx%not_elem_of_nil|].
    split; [intros x _; by rewrite Hb|]. exists None. split; [done|]. intros Hno. by rewrite Hno in Hh.
Qed.

(** After it, with [keep] the other string of the entry. *)
Lemma replace_str_correct a c old keep so sk f value m :
  m_heap m !! a = Some (Conf c) → NoDup (a :: ptr_fp keep ++ ptr_fp old) →
  str_rep (m_heap m) old so → str_rep (m_heap m) keep sk →
  ∃ p m', replace_str a old f value m = Ok (1%Z, m') ∧ m_oom m' = m_oom m ∧
    let h := m_heap m in let h' := m_heap m' in
    h' !! a = Some (Conf (f p c)) ∧ str_rep h' keep sk ∧
    (∃ s', str_rep h' p s' ∧ (no_oom m → s' = Some value)) ∧
    NoDup (a :: ptr_fp keep ++ ptr_fp p) ∧
    (∀ x, x ∈ ptr_fp p → x ∈ ptr_fp old ∨ h !! x = None) ∧
    (∀ x, x ≠ a → x ∉ ptr_fp old → x ∉ ptr_fp p → h' !! x = h !! x) ∧
    (∀ x, x ∈ ptr_fp old → x ∉ ptr_fp p → h' !! x = None).
Proof.
  intros Ha Hnd Hold Hkeep. unfold replace_str.
  rewrite (bindM_eq _ _ _ _ _ (free_if_correct _ _ _ Hold)).
  set (h := m_heap m) in *. set (m1 := set_heap _ m).
  destruct (alloc_str_correct value m1) as (p & m2 & Halloc & Hoom & Hndp & Hpl & Hm2 & s' & Hs' & Hval).
  rewrite (bindM_eq _ _ _ _ _ Halloc).
  apply NoDup_cons in Hnd as [Han Hnd]. apply NoDup_app in Hnd as (Hndk & Hdisj & _).
  rewrite elem_of_app in Han.
  assert (Ha1 : m_heap m1 !! a = Some (Conf c)).
  { simpl. rewrite delete_ptr_lookup, decide_False by tauto. done. }
  assert (Hap : a ∉ ptr_fp p) by (intros Hx; rewrite (Hpl a Hx) in Ha1; done).
  assert (Hkp : ∀ x, x ∈ ptr_fp keep → (x ∉ ptr_fp p) ∧ m_heap m1 !! x = h !! x).
  { intros x Hx. assert (m_heap m1 !! x = h !! x) as E.
    { simpl. rewrite delete_ptr_lookup, decide_False by (by apply Hdisj). done. }
    split; [|done]. intros Hxp. rewrite (Hpl x Hxp) in E.
    destruct keep as [k|]; [|by apply not_elem_of_nil in Hx].
    apply list_elem_of_singleton in Hx as ->. destruct sk; simpl in Hkeep; congruence. }
  rewrite (bindM_eq _ _ _ _ _ (update_conf_correct a c (f p) m2
    ltac:(rewrite Hm2 by done; exact Ha1))).
  exists p, (set_heap (<[a:=Conf (f p c)]> (m_heap m2)) m2). split; [done|].
  split; [done|]. cbv zeta. cbn [m_heap set_heap].
  split; [apply lookup_insert_eq|]. split; [|split; [|split; [|split; [|split]]]].
  - eapply str_rep_local; [|exact Hkeep]. intros x Hx. destruct (Hkp x Hx) as [Hxp E].
    rewrite lookup_insert_ne by (intros <-; tauto). by rewrite Hm2.
  - exists s'. split; [|exact Hval]. eapply str_rep_local; [|exact Hs'].
    intros x Hx. by rewrite lookup_insert_ne by (by intros <-).
  - apply NoDup_cons. split; [rewrite elem_of_app; tauto|].
    apply NoDup_app. split; [done|]. split; [by apply Hkp|done].
  - intros x Hx. specialize (Hpl x Hx). simpl in Hpl. rewrite delete_ptr_lookup in Hpl.
    case_decide; tauto.
  - intros x Hxa Hxo Hxp. rewrite lookup_insert_ne by done. rewrite Hm2 by done.
    simpl. by rewrite delete_ptr_lookup, decide_False.
  - intros x Hxo Hxp. rewrite lookup_insert_ne by (intros <-; tauto). rewrite Hm2 by done.
    simpl. by rewrite delete_ptr_lookup, decide_True.
Qed.

(** ** Options *)

(** The entry [a] of the queue at [q], with what is before and after it. *)
Record entry_at (h : heap) (q : addr) (l1 : list addr) (a : addr) (l2 : list addr)
    (cfg1 : config) (i : injection) (cfg2 : config) : Prop := {
  ea_queue : h !! q = Some (Queue (l1 ++ a :: l2));
  ea_before : Forall2 (conf_rep h) l1 cfg1;
  ea_entry : conf_rep h a i;
  ea_after : Forall2 (conf_rep h) l2 cfg2;
  ea_nodup : NoDup (queue_fp h q)
}.

Lemma entry_at_rep h q l1 a l2 cfg1 i cfg2 :
  entry_at h q l1 a l2 cfg1 i cfg2 → queue_rep h q (cfg1 ++ i :: cfg2).
Proof.
  intros [Hq H1 Ha H2 Hnd]. exists (l1 ++ a :: l2). split; [done|]. split; [|done].
  by apply Forall2_app; [|constructor].
Qed.

Lemma entry_at_nodup h q l1 a l2 cfg1 i cfg2 :
  entry_at h q l1 a l2 cfg1 i cfg2 → NoDup (conf_fp h a).
Proof.
  intros [Hq _ _ _ Hnd]. unfold queue_fp in Hnd. rewrite Hq, map_app, concat_app in Hnd.
  cbn [map concat] in Hnd. apply NoDup_cons in Hnd as [_ Hnd].
  apply NoDup_app in Hnd as (_ & _ & Hnd). by apply NoDup_app in Hnd as (? & _ & _).
Qed.

(** What an option does to the entry, when the assignment itself is known. *)
Lemma option_update m m' q l1 a l2 cfg1 i cfg2 (c' : errinj_conf) i' :
  entry_at (m_heap m) q l1 a l2 cfg1 i cfg2 →
  m_heap m' !! a = Some (Conf c') → conf_rep (m_heap m') a i' →
  NoDup (a :: ptr_fp (op_regexp c') ++ ptr_fp (path_regexp c')) →
  (∀ x, x ∈ ptr_fp (op_regexp c') ++ ptr_fp (path_regexp c') →
    x ∈ conf_fp (m_heap m) a ∨ m_heap m !! x = None) →
  (∀ x, x ∉ conf_fp (m_heap m) a → x ∉ ptr_fp (op_regexp c') ++ ptr_fp (path_regexp c') →
    m_heap m' !! x = m_heap m !! x) →
  (∀ x, x ≠ a → x ∈ conf_fp (m_heap m) a →
    x ∉ ptr_fp (op_regexp c') ++ ptr_fp (path_regexp c') → m_heap m' !! x = None) →
  queue_rep (m_heap m') q (cfg1 ++ i' :: cfg2) ∧
  frame_of (m_heap m') q = frame_of (m_heap m) q.
Proof.
  intros [Hq H1 Ha H2 Hnd] Hc' Ha' Hnd' Hnew Hsame Hfreed.
  assert (Hfp : conf_fp (m_heap m') a = a :: ptr_fp (op_regexp c') ++ ptr_fp (path_regexp c'))
    by (unfold conf_fp; by rewrite Hc').
  eapply queue_rep_update; [done..| | | |]; rewrite ?Hfp.
  - done.
  - intros x [->|Hx]%elem_of_cons; [left; by left|by apply Hnew].
  - intros x Hx Hx'. apply not_elem_of_cons in Hx' as [_ Hx']. by apply Hsame.
  - intros x Hx Hx'. apply not_elem_of_cons in Hx' as [Hxa Hx']. by apply Hfreed.
Qed.

Lemma decide_strcmp {A} key s (x y : A) :
  (if decide (strcmp key s = 0%Z) then x else y) = (if decide (key = s) then x else y).
Proof. apply decide_ext. apply strcmp_eq_0. Qed.

(** The result of [set_option] and what it makes of the entry. *)
Definition option_result (key value : list ascii) (i : injection) : Z * injection :=
  match set_key key value i with Some i' => (1%Z, i') | None => (0%Z, i) end.

(** The contract of one branch: the result, the entry, the rest of the heap. *)
Definition option_done (run : M mem Z) (m : mem) (q : addr) (cfg1 : config)
    (i : injection) (cfg2 : config) (spec : Z * injection) : Prop :=
  ∃ m' i', run m = Ok (spec.1, m') ∧ m_oom m' = m_oom m ∧
    queue_rep (m_heap m') q (cfg1 ++ i' :: cfg2) ∧
    frame_of (m_heap m') q = frame_of (m_heap m) q ∧
    (i_type i' = i_type i ∧ (injection_ok i → injection_ok i')) ∧
    (no_oom m → i' = spec.2).

(** A branch that assigns a number. *)
Lemma number_option_correct m q l1 a l2 cfg1 i cfg2 f i' :
  entry_at (m_heap m) q l1 a l2 cfg1 i cfg2 →
  i_type i' = i_type i ∧ (injection_ok i → injection_ok i') →
  (∀ h c, h !! a = Some (Conf (f c)) → str_rep h (op_regexp c) (i_op i) →
    str_rep h (path_regexp c) (i_path i) → probability c = i_probability i →
    duration c = i_duration i → type_ c = i_type i → conf_rep h a i') →
  (∀ c, op_regexp (f c) = op_regexp c ∧ path_regexp (f c) = path_regexp c) →
  option_done (do! update_conf (Some a) f in retM 1%Z) m q cfg1 i cfg2 (1%Z, i').
Proof.
  intros He Ht Hrep Hf. pose proof (entry_at_nodup _ _ _ _ _ _ _ _ He) as Hnd.
  destruct (ea_entry _ _ _ _ _ _ _ _ He) as (c & Hc & Hop & Hpath & Hp & Hd & Hty).
  unfold conf_fp in Hnd. rewrite Hc in Hnd. destruct (Hf c) as [Ho Hpa].
  set (m' := set_heap (<[a := Conf (f c)]> (m_heap m)) m).
  assert (Hlk : ∀ x, x ≠ a → m_heap m' !! x = m_heap m !! x)
    by (intros x Hx; simpl; by rewrite lookup_insert_ne).
  assert (Hloc : ∀ p o, a ∉ ptr_fp p → str_rep (m_heap m) p o → str_rep (m_heap m') p o).
  { intros p o Hap. apply str_rep_local. intros x Hx. apply Hlk. by intros ->. }
  apply NoDup_cons in Hnd as [Han Hnd]. rewrite elem_of_app in Han.
  exists m', i'. split; [by rewrite (bindM_eq _ _ _ _ _ (update_conf_correct a c f m Hc))|].
  split; [done|]. rewrite (and_assoc (queue_rep _ _ _)). split; [|done].
  eapply (option_update _ _ _ _ _ _ _ _ _ (f c)); [exact He|simpl; apply lookup_insert_eq|..];
    rewrite ?Ho, ?Hpa.
  - apply (Hrep _ c); [simpl; apply lookup_insert_eq|apply Hloc; tauto..|done|done|done].
  - apply NoDup_cons. by rewrite elem_of_app.
  - intros x Hx. left. unfold conf_fp. rewrite Hc. by right.
  - intros x Hx _. apply Hlk. intros ->. apply Hx. by left.
  - intros x Hxa Hx Hx'. unfold conf_fp in Hx. rewrite Hc in Hx.
    by apply elem_of_cons in Hx as [|].
Qed.

(** A branch that assigns a string: [get] and [f] are the field, [keep] the
    other string field. *)
Lemma string_option_correct m q l1 a l2 cfg1 i cfg2
    (get keep : errinj_conf → ptr) (f : ptr → errinj_conf → errinj_conf)
    value (oget okeep : injection → option (list ascii))
    (upd : option (list ascii) → injection) :
  entry_at (m_heap m) q l1 a l2 cfg1 i cfg2 →
  (∀ c, ptr_fp (op_regexp c) ++ ptr_fp (path_regexp c) ≡ₚ ptr_fp (keep c) ++ ptr_fp (get c)) →
  (∀ c p, keep (f p c) = keep c ∧ get (f p c) = p) →
  (∀ h c, str_rep h (op_regexp c) (i_op i) → str_rep h (path_regexp c) (i_path i) →
    str_rep h (get c) (oget i) ∧ str_rep h (keep c) (okeep i)) →
  (∀ h c p s, h !! a = Some (Conf (f p c)) → str_rep h p s → str_rep h (keep c) (okeep i) →
    probability c = i_probability i → duration c = i_duration i → type_ c = i_type i →
    conf_rep h a (upd s)) →
  (∀ s, i_type (upd s) = i_type i ∧ (injection_ok i → injection_ok (upd s))) →
  option_done (let! c := deref_conf (Some a) in replace_str a (get c) f value)
    m q cfg1 i cfg2 (1%Z, upd (Some value)).
Proof.
  intros He Hperm Hf Hget Hrep Hty. pose proof (entry_at_nodup _ _ _ _ _ _ _ _ He) as Hnd.
  destruct (ea_entry _ _ _ _ _ _ _ _ He) as (c & Hc & Hop & Hpath & Hp & Hd & Ht).
  destruct (Hget _ _ Hop Hpath) as [Hg Hk].
  assert (Hfp : conf_fp (m_heap m) a ≡ₚ a :: ptr_fp (keep c) ++ ptr_fp (get c))
    by (unfold conf_fp; by rewrite Hc, Hperm).
  rewrite Hfp in Hnd.
  destruct (replace_str_correct a c (get c) (keep c) _ _ f value m Hc Hnd Hg Hk)
    as (p & m' & Hrun & Hoom & Hc' & Hk' & (s' & Hs' & Hval) & Hnd' & Hnew & Hsame & Hfreed).
  destruct (Hf c p) as [Hfk Hfg].
  assert (Hfp' : ptr_fp (op_regexp (f p c)) ++ ptr_fp (path_regexp (f p c))
                 ≡ₚ ptr_fp (keep c) ++ ptr_fp p) by (by rewrite Hperm, Hfk, Hfg).
  exists m', (upd s'). unfold option_done.
  split; [by rewrite (bindM_eq _ _ _ _ _ (deref_conf_live _ _ _ Hc))|].
  split; [done|]. rewrite (and_assoc (queue_rep _ _ _)). split; [|].
  - eapply (option_update _ _ _ _ _ _ _ _ _ (f p c)); [exact He|exact Hc'|..].
    + by eapply Hrep.
    + by rewrite Hfp'.
    + intros x. rewrite Hfp', Hfp, elem_of_app. intros [Hx|Hx].
      * left. right. apply elem_of_app. by left.
      * destruct (Hnew x Hx); [|by right]. left. right. apply elem_of_app. by right.
    + intros x. rewrite Hfp', Hfp, not_elem_of_cons, !not_elem_of_app.
      intros (Hxa & Hx1 & Hx2) (_ & Hx3). by apply Hsame.
    + intros x Hxa. rewrite Hfp', Hfp, elem_of_cons, elem_of_app, not_elem_of_app.
      intros [|[|Hx]] [H1 H2]; [done..|]. by apply Hfreed.
  - split; [apply Hty|]. intros Hno. by rewrite (Hval Hno).
Qed.

Lemma set_option_correct m q l1 a l2 cfg1 i cfg2 key value :
  entry_at (m_heap m) q l1 a l2 cfg1 i cfg2 →
  option_done (set_option (Some a) key value) m q cfg1 i cfg2 (option_result key value i).
Proof.
  intros He. unfold set_option, option_result, set_key. rewrite !decide_strcmp.
  repeat case_decide.
  - apply (string_option_correct m q l1 a l2 cfg1 i cfg2 path_regexp op_regexp set_path_regexp
      value i_path i_op (λ s, Build_injection _ _ s _ _)); try done.
    intros h c p s ? ? ? ? ? ?. by exists (set_path_regexp p c).
  - apply (string_option_correct m q l1 a l2 cfg1 i cfg2 op_regexp path_regexp set_op_regexp
      value i_op i_path (λ s, Build_injection _ s _ _ _)); try done.
    + intros c. apply Permutation_app_comm.
    + intros h c p s ? ? ? ? ? ?. by exists (set_op_regexp p c).
  - eapply number_option_correct; [done| | |done].
    + split; [done|]. unfold injection_ok. pose proof (to_uint_range (atoi value)). simpl. tauto.
    + intros h c ? ? ? ? ? ?. by exists (set_probability (to_uint (atoi value)) c).
  - eapply number_option_correct; [done| | |done].
    + split; [done|]. unfold injection_ok. pose proof (to_uint_range (atoi value)). simpl. tauto.
    + intros h c ? ? ? ? ? ?. by exists (set_duration (to_uint (atoi value)) c).
  - exists m, i. split; [done|]. split; [done|]. split; [by eapply entry_at_rep|]. done.
Qed.

(** ** The handler *)

(** The section names, as the loop over [errinj_name] finds them. *)
Lemma type_by_name_correct s :
  to_int (errinj_type_by_name s) = match section_type s with Some t => t | None => (-1)%Z end.
Proof.
  unfold errinj_type_by_name, section_type.
  repeat (case_decide; [subst s; by vm_compute|]).
  cbn [errinj_name type_by_name_loop]. rewrite !decide_strcmp.
  rewrite !decide_False by congruence. by vm_compute.
Qed.

Lemma section_type_range s t : section_type s = Some t → (0 ≤ t ≤ 3)%Z.
Proof. unfold section_type. repeat case_decide; intros [= <-]; done. Qed.

Lemma find_type_correct t l cfg m :
  Forall2 (conf_rep (m_heap m)) l cfg →
  (find_type t l m = Ok (None, m) ∧ Forall (λ i, i_type i ≠ t) cfg) ∨
  (∃ l1 a l2 cfg1 i cfg2, find_type t l m = Ok (Some a, m) ∧
    l = l1 ++ a :: l2 ∧ cfg = cfg1 ++ i :: cfg2 ∧ i_type i = t ∧
    Forall (λ i, i_type i ≠ t) cfg1 ∧
    Forall2 (conf_rep (m_heap m)) l1 cfg1 ∧ conf_rep (m_heap m) a i ∧
    Forall2 (conf_rep (m_heap m)) l2 cfg2).
Proof.
  induction 1 as [|a i l cfg Hai Hl IH]; [by left|]. cbn [find_type].
  pose proof Hai as (c & Hc & _ & _ & _ & _ & Ht).
  rewrite (bindM_eq _ _ _ _ _ (deref_conf_live _ _ _ Hc)). rewrite Ht.
  case_decide as Et.
  - right. by exists [], a, l, [], i, cfg.
  - destruct IH as [[-> IH]|(l1 & a' & l2 & cfg1 & i' & cfg2 & -> & -> & -> & ? & ? & ? & ? & ?)].
    + left. split; [done|by constructor].
    + right. exists (a :: l1), a', l2, (i :: cfg1), i', cfg2.
      repeat (split; [first [done|by constructor]|]). done.
Qed.

Lemma set_in_found t key value cfg1 i cfg2 :
  Forall (λ i, i_type i ≠ t) cfg1 → i_type i = t →
  set_in t key value (cfg1 ++ i :: cfg2) = cfg1 ++ (option_result key value i).2 :: cfg2.
Proof.
  intros H Ht. induction H as [|i1 cfg1 Hi _ IH]; simpl.
  - rewrite decide_True by done. unfold option_result. by destruct (set_key key value i).
  - by rewrite decide_False, IH by done.
Qed.

Lemma set_in_append t key value cfg :
  Forall (λ i, i_type i ≠ t) cfg →
  set_in t key value cfg = cfg ++ [(option_result key value (new_injection t)).2].
Proof.
  induction 1 as [|i cfg Hi _ IH]; simpl.
  - unfold option_result. by destruct (set_key key value (new_injection t)).
  - by rewrite decide_False, IH by done.
Qed.

(** Whether an option exists does not depend on the injection. *)
Lemma option_result_code key value i t :
  (option_result key value i).1
  = match set_key key value (new_injection t) with Some _ => 1%Z | None => 0%Z end.
Proof. unfold option_result, set_key. by repeat case_decide. Qed.

(** Well-formedness under the two changes of the handler. *)
Lemma config_ok_replace cfg1 i' cfg2 i :
  i_type i' = i_type i ∧ (injection_ok i → injection_ok i') →
  config_ok (cfg1 ++ i :: cfg2) → config_ok (cfg1 ++ i' :: cfg2).
Proof.
  intros [Ht Hok] [Hnd Hall]. split.
  - rewrite fmap_app, fmap_cons in Hnd |- *. by rewrite Ht.
  - apply Forall_app in Hall as [H1 [Hi H2]%Forall_cons]. apply Forall_app. auto.
Qed.

Lemma config_ok_append cfg t :
  (0 ≤ t ≤ 3)%Z → Forall (λ i, i_type i ≠ t) cfg → config_ok cfg →
  config_ok (cfg ++ [new_injection t]).
Proof.
  intros Ht Hall [Hnd Hok]. split.
  - rewrite fmap_app. apply NoDup_app. split; [done|]. split; [|apply NoDup_singleton].
    intros x (i & -> & Hi)%list_elem_of_fmap. rewrite Forall_forall in Hall.
    simpl. intros Hx%list_elem_of_singleton. by apply (Hall i Hi).
  - apply Forall_app. split; [done|]. constructor; [|done]. unfold injection_ok. simpl. lia.
Qed.

(** A new entry at the tail of the queue. *)
Lemma append_correct h q cfg l t b :
  h !! q = Some (Queue l) → Forall2 (conf_rep h) l cfg → NoDup (queue_fp h q) →
  h !! b = None →
  let h' := <[q := Queue (l ++ [b])]> (<[b := Conf (set_type t zero_conf)]> h) in
  entry_at h' q l b [] cfg (new_injection t) [] ∧ frame_of h' q = frame_of h q.
Proof.
  intros Hq Hl Hnd Hb h'.
  assert (Hqb : q ≠ b) by congruence.
  assert (Hfp : queue_fp h q = q :: concat (map (conf_fp h) l))
    by (unfold queue_fp; by rewrite Hq).
  rewrite Hfp in Hnd. apply NoDup_cons in Hnd as [Hqn Hnd].
  assert (Hbn : b ∉ concat (map (conf_fp h) l)).
  { intros Hin. destruct (confs_live _ _ _ _ Hl Hin) as [x Hx]. congruence. }
  destruct (confs_local h h' l cfg Hl) as [Hl' El].
  { intros x Hx. unfold h'. rewrite !lookup_insert_ne; [done|congruence..]. }
  assert (Hq' : h' !! q = Some (Queue (l ++ [b]))) by apply lookup_insert_eq.
  assert (Hb' : h' !! b = Some (Conf (set_type t zero_conf))).
  { unfold h'. rewrite lookup_insert_ne by done. apply lookup_insert_eq. }
  assert (Hfb : conf_fp h' b = [b]) by (unfold conf_fp; by rewrite Hb').
  assert (Hfp' : queue_fp h' q = q :: concat (map (conf_fp h) l) ++ [b]).
  { unfold queue_fp. rewrite Hq', map_app, concat_app, El. cbn [map concat].
    by rewrite Hfb, app_nil_r. }
  split.
  - split; [done|done|by exists (set_type t zero_conf)|constructor|].
    rewrite Hfp'. apply NoDup_cons. rewrite elem_of_app, list_elem_of_singleton.
    split; [tauto|]. apply NoDup_app. split; [done|]. split; [|apply NoDup_singleton].
    intros x Hx ->%list_elem_of_singleton. done.
  - apply map_eq. intros x. rewrite !frame_lookup.
    destruct (decide (x ∈ queue_fp h' q)) as [E'|E'], (decide (x ∈ queue_fp h q)) as [E|E];
      rewrite Hfp, elem_of_cons in E;
      rewrite Hfp', elem_of_cons, elem_of_app, list_elem_of_singleton in E'.
    + done.
    + assert (x = b) as -> by tauto. done.
    + tauto.
    + unfold h'. rewrite !lookup_insert_ne; [done|intros ->; tauto..].
Qed.

(** The handler from a configuration [cfg] in the heap: no fault, nothing
    leaked or touched outside the queue, and the contract's answer. *)
Lemma conf_option_handler_correct m q cfg section key value :
  queue_rep (m_heap m) q cfg →
  ∃ r m' cfg', conf_option_handler (Some q) section key value m = Ok (r, m') ∧
    m_oom m' = m_oom m ∧ queue_rep (m_heap m') q cfg' ∧
    frame_of (m_heap m') q = frame_of (m_heap m) q ∧
    (config_ok cfg → config_ok cfg') ∧
    (no_oom m → (r, cfg') = config_set cfg section key value).
Proof.
  intros Hrep. pose proof Hrep as (l & Hq & Hl & Hnd).
  unfold conf_option_handler, config_set. rewrite type_by_name_correct.
  destruct (section_type section) as [t|] eqn:Es;
    [|exists (-1)%Z, m, cfg; by repeat (split; [done|])].
  pose proof (section_type_range _ _ Es) as Ht.
  rewrite decide_False by lia. rewrite to_uint_small by lia.
  rewrite (bindM_eq _ _ _ _ _ (deref_queue_live _ _ _ Hq)).
  destruct (find_type_correct t l cfg m Hl)
    as [[Hf Hall]|(l1 & a & l2 & cfg1 & i & cfg2 & Hf & -> & -> & Hti & Hall & H1 & Ha & H2)];
    rewrite (bindM_eq _ _ _ _ _ Hf).
  - destruct (alloc_cases (Conf zero_conf) m) as (p & m1 & Halloc & Hoom & Hp).
    rewrite (bindM_eq _ _ _ _ _ Halloc). destruct p as [b|].
    2:{ exists (-1)%Z, m1, cfg. destruct Hp as [-> Hp]. repeat (split; [done|]).
        intros Hno. by rewrite Hno in Hp. }
    destruct Hp as [Hb Hh1].
    destruct (append_correct _ q cfg l t b Hq Hl Hnd Hb) as [He Hfr].
    rewrite (bindM_eq _ _ _ _ _ (update_conf_correct b zero_conf (set_type t) m1
      ltac:(rewrite Hh1; apply lookup_insert_eq))).
    rewrite Hh1, insert_insert_eq. set (m2 := set_heap _ m1).
    assert (Hq2 : m_heap m2 !! q = Some (Queue l))
      by (simpl; rewrite lookup_insert_ne by congruence; done).
    rewrite (bindM_eq _ _ _ _ _ (deref_queue_live _ _ _ Hq2)).
    rewrite (bindM_eq _ _ _ _ _ (assign_live _ _ _ _ Hq2)).
    set (m3 := set_heap _ m2). change (entry_at (m_heap m3) q l b [] cfg (new_injection t) []) in He.
    destruct (set_option_correct m3 q l b [] cfg (new_injection t) [] key value He)
      as (m' & i' & Hrun & Hoom' & Hrep' & Hfr' & Hokt & Hval).
    eexists _, m', _. split; [exact Hrun|]. split; [by rewrite Hoom'|].
    split; [exact Hrep'|]. split; [by rewrite Hfr'|].
    split; [intros Hok; apply (config_ok_replace cfg _ [] (new_injection t) Hokt);
            by apply config_ok_append|].
    intros Hno. rewrite Hval by (intros n; simpl; by rewrite Hoom).
    by rewrite (option_result_code _ _ _ t), set_in_append.
  - destruct (set_option_correct m q l1 a l2 cfg1 i cfg2 key value)
      as (m' & i' & Hrun & Hoom' & Hrep' & Hfr' & Hokt & Hval); [by split|].
    eexists _, m', _. split; [exact Hrun|]. split; [done|]. split; [exact Hrep'|].
    split; [done|]. split; [by apply config_ok_replace|].
    intros Hno. by rewrite Hval, (option_result_code _ _ _ t), set_in_found.
Qed.

(** ** config_delete *)

(** The heap after one iteration of the loop on the entry [a] with contents [c]. *)
Definition popped (h : heap) (q a : addr) (l : list addr) (c : errinj_conf) : heap :=
  delete a (<[q := Queue l]> (delete_ptr (op_regexp c) (delete_ptr (path_regexp c) h))).

Lemma popped_lookup h q a l c x :
  h !! a = Some (Conf c) → q ∉ conf_fp h a →
  popped h q a l c !! x
  = if decide (x ∈ conf_fp h a) then None else if decide (x = q) then Some (Queue l) else h !! x.
Proof.
  intros Hc Hq. unfold popped, conf_fp in *. rewrite Hc in *.
  rewrite not_elem_of_cons, not_elem_of_app in Hq. destruct Hq as (Hqa & Hqo & Hqp).
  destruct (decide (x ∈ _)) as [E|E]; rewrite elem_of_cons, elem_of_app in E.
  - destruct (decide (x = a)) as [->|Hxa]; [apply lookup_delete_eq|].
    rewrite lookup_delete_ne by done. rewrite lookup_insert_ne by (intros <-; tauto).
    rewrite !delete_ptr_lookup. repeat case_decide; tauto.
  - rewrite lookup_delete_ne by (intros ->; tauto).
    destruct (decide (x = q)) as [->|Hxq]; [apply lookup_insert_eq|].
    rewrite lookup_insert_ne by done. rewrite !delete_ptr_lookup.
    by rewrite !decide_False by tauto.
Qed.

(** The code of the iteration. *)
Lemma popped_run {A} m q a l i c (k : M mem A) :
  m_heap m !! q = Some (Queue (a :: l)) → m_heap m !! a = Some (Conf c) →
  conf_rep (m_heap m) a i → NoDup (conf_fp (m_heap m) a) → q ∉ conf_fp (m_heap m) a →
  (do! free_if (path_regexp c) in do! free_if (op_regexp c) in
   do! assign (Some q) (Queue l) in do! free (Some a) in k) m
  = k (set_heap (popped (m_heap m) q a l c) m).
Proof.
  intros Hq Hc (c' & Hc' & Hop & Hpath & _) Hnd Hqn. rewrite Hc in Hc'. injection Hc' as <-.
  unfold conf_fp in Hnd, Hqn. rewrite Hc in Hnd, Hqn.
  rewrite not_elem_of_cons, not_elem_of_app in Hqn. destruct Hqn as (Hqa & Hqo & Hqp).
  apply NoDup_cons in Hnd as [Han Hnd]. apply NoDup_app in Hnd as (_ & Hpo & _).
  rewrite not_elem_of_app in Han. set (h := m_heap m) in *.
  rewrite (bindM_eq _ _ _ _ _ (free_if_correct _ _ _ Hpath)).
  assert (str_rep (delete_ptr (path_regexp c) h) (op_regexp c) (i_op i)) as Hop'.
  { eapply str_rep_local; [|exact Hop]. intros x Hx.
    rewrite delete_ptr_lookup, decide_False; [done|by apply Hpo]. }
  rewrite (bindM_eq _ _ _ _ _ (free_if_correct _ _ (set_heap _ m) Hop')).
  set (h2 := delete_ptr (op_regexp c) (delete_ptr (path_regexp c) h)).
  assert (Hh2 : ∀ x, x ∉ ptr_fp (op_regexp c) → x ∉ ptr_fp (path_regexp c) → h2 !! x = h !! x).
  { intros x H1 H2. unfold h2. rewrite !delete_ptr_lookup. by rewrite !decide_False. }
  assert (Hq2 : h2 !! q = Some (Queue (a :: l))) by (by rewrite Hh2).
  assert (Ha2 : <[q := Queue l]> h2 !! a = Some (Conf c)).
  { rewrite lookup_insert_ne by done. by rewrite Hh2 by tauto. }
  rewrite (bindM_eq _ _ _ _ _ (assign_live q _ (Queue l) (set_heap h2 m) Hq2)).
  by rewrite (bindM_eq _ _ _ _ _ (free_live a _ (set_heap (<[q:=Queue l]> h2) m) Ha2)).
Qed.

(** One iteration of the loop frees the blocks of the first entry. *)
Lemma popped_rep h q a l i c cfg :
  entry_at h q [] a l [] i cfg → h !! a = Some (Conf c) →
  q ∉ conf_fp h a →
  let h' := popped h q a l c in
  h' !! q = Some (Queue l) ∧ queue_rep h' q cfg ∧ frame_of h' q = frame_of h q.
Proof.
  intros [Hq _ _ Hl Hnd] Hc Hqa h'.
  pose proof (λ x, popped_lookup h q a l c x Hc Hqa) as Hlk. fold h' in Hlk.
  assert (Hfp : queue_fp h q = q :: conf_fp h a ++ concat (map (conf_fp h) l))
    by (unfold queue_fp; by rewrite Hq).
  rewrite Hfp in Hnd. apply NoDup_cons in Hnd as [Hqn Hnd].
  apply NoDup_app in Hnd as (_ & Hdis & Hnd). rewrite elem_of_app in Hqn.
  assert (Hq' : h' !! q = Some (Queue l))
    by (by rewrite Hlk, decide_False, decide_True).
  destruct (confs_local h h' l cfg Hl) as [Hl' El].
  { intros x Hx. rewrite Hlk, !decide_False; [done|intros ->; tauto|].
    intros Hxa. by apply (Hdis x Hxa). }
  assert (Hfp' : queue_fp h' q = q :: concat (map (conf_fp h) l))
    by (unfold queue_fp; by rewrite Hq', El).
  split; [done|]. split.
  - exists l. split; [done|]. split; [done|]. rewrite Hfp'. apply NoDup_cons. tauto.
  - apply map_eq. intros x. rewrite !frame_lookup, Hlk, Hfp, Hfp'.
    destruct (decide (x ∈ q :: concat _)) as [E'|E'], (decide (x ∈ q :: _ ++ _)) as [E|E];
      rewrite elem_of_cons in E'; rewrite elem_of_cons, elem_of_app in E;
      repeat case_decide; tauto || done.
Qed.

Lemma delete_first_correct m q a l i cfg :
  entry_at (m_heap m) q [] a l [] i cfg →
  ∃ c m', m_heap m !! a = Some (Conf c) ∧ m_oom m' = m_oom m ∧
    (∀ k : M mem unit,
      (do! free_if (path_regexp c) in do! free_if (op_regexp c) in
       do! assign (Some q) (Queue l) in do! free (Some a) in k) m = k m') ∧
    m_heap m' !! q = Some (Queue l) ∧
    queue_rep (m_heap m') q cfg ∧ frame_of (m_heap m') q = frame_of (m_heap m) q.
Proof.
  intros He. pose proof (entry_at_nodup _ _ _ _ _ _ _ _ He) as Hnda.
  pose proof He as [Hq _ Ha _ Hnd]. pose proof Ha as (c & Hc & _).
  assert (Hqa : q ∉ conf_fp (m_heap m) a).
  { unfold queue_fp in Hnd. rewrite Hq in Hnd. cbn [app map concat] in Hnd.
    apply NoDup_cons in Hnd as [Hqn _]. rewrite elem_of_app in Hqn. tauto. }
  exists c, (set_heap (popped (m_heap m) q a l c) m).
  split; [done|]. split; [done|]. split; [intros k; by eapply popped_run|].
  by apply (popped_rep _ _ _ _ i).
Qed.

Lemma config_delete_loop_correct fuel m q cfg l :
  m_heap m !! q = Some (Queue l) → queue_rep (m_heap m) q cfg → length l < fuel →
  ∃ m', config_delete_loop fuel (Some q) m = Ok (tt, m') ∧ m_oom m' = m_oom m ∧
    m_heap m' !! q = Some (Queue []) ∧ delete q (m_heap m') = frame_of (m_heap m) q.
Proof.
  revert m cfg l. induction fuel as [|fuel IH]; intros m cfg l Hq Hrep Hlen; [lia|].
  cbn [config_delete_loop]. rewrite (bindM_eq _ _ _ _ _ (deref_queue_live _ _ _ Hq)).
  destruct Hrep as (l' & Hq' & Hl & Hnd). rewrite Hq in Hq'. injection Hq' as <-.
  destruct Hl as [|a i l cfg Ha Hl].
  - exists m. split; [done|]. split; [done|]. split; [done|].
    apply map_eq. intros x. rewrite frame_lookup. unfold queue_fp. rewrite Hq. simpl.
    rewrite lookup_delete. repeat case_decide; rewrite ?list_elem_of_singleton in *; congruence.
  - destruct (delete_first_correct m q a l i cfg) as (c & m' & Hc & Hoom & Hrun & Hq' & Hrep' & Hfr);
      [by split|].
    rewrite (bindM_eq _ _ _ _ _ (deref_conf_live _ _ _ Hc)). rewrite Hrun.
    destruct (IH m' cfg l Hq' Hrep') as (m2 & -> & Hoom2 & Hq2 & Hd); [simpl in Hlen; lia|].
    exists m2. by rewrite Hoom2, Hd, Hfr.
Qed.

Lemma config_delete_correct m q cfg :
  queue_rep (m_heap m) q cfg →
  ∃ m', config_delete (Some q) m = Ok (tt, m') ∧ m_oom m' = m_oom m ∧
    m_heap m' = frame_of (m_heap m) q.
Proof.
  intros Hrep. pose proof Hrep as (l & Hq & _). unfold config_delete.
  rewrite (bindM_eq _ _ _ _ _ (deref_queue_live _ _ _ Hq)).
  destruct (config_delete_loop_correct (S (length l)) m q cfg l Hq Hrep) as (m' & Hrun & Hoom & Hq' & Hd);
    [lia|].
  rewrite (bindM_eq _ _ _ _ _ Hrun). exists (set_heap (delete q (m_heap m')) m').
  split; [by eapply free_live|]. split; [done|]. done.
Qed.
