(* ===== verification/World.v ===== *)
(** * The world of the program

    The program's global state and what it calls: the kernel and libfuse
    ([kcall], a parameter: one function from system calls to results), the
    regular expressions of the C library and [rand] (parameters), the heap of
    the configuration and the global [conf] of unreliablefs.c. *)
From stdpp Require Import base list numbers gmap strings.
From Stdlib Require Import Ascii ZArith.
From S2P Require Import Prelude CLib Heap.

Abbreviation cstr := (list ascii).

(** [struct timespec\[2\]] of [utimens]. *)
Abbreviation timespecs := ((Z * Z) * (Z * Z))%type.

(** System and library calls, with their arguments.  The [_apple] variants are
    the calls of the [__APPLE__] branches. *)
Inductive syscall :=
  | Sys_lstat (path : cstr) | Sys_fstat (fd : Z)
  | Sys_readlink (path : cstr) (bufsiz : Z)
  | Sys_mknod (path : cstr) (mode dev : Z) | Sys_mkdir (path : cstr) (mode : Z)
  | Sys_unlink (path : cstr) | Sys_rmdir (path : cstr)
  | Sys_symlink (target linkpath : cstr) | Sys_rename (oldpath newpath : cstr)
  | Sys_link (oldpath newpath : cstr)
  | Sys_chmod (path : cstr) (mode : Z) | Sys_chown (path : cstr) (owner group : Z)
  | Sys_truncate (path : cstr) (length : Z)
  | Sys_open (path : cstr) (flags : Z) | Sys_open_mode (path : cstr) (flags mode : Z)
  | Sys_pread (fd size offset : Z) | Sys_pwrite (fd : Z) (buf : cstr) (size offset : Z)
  | Sys_close (fd : Z) | Sys_dup (fd : Z)
  | Sys_statvfs (path : cstr)
  | Sys_fsync (fd : Z) | Sys_fdatasync (fd : Z)
  | Sys_setxattr (path name value : cstr) (size flags : Z)
  | Sys_setxattr_apple (path name value : cstr) (size position options : Z)
  | Sys_getxattr (path name : cstr) (size : Z)
  | Sys_getxattr_apple (path name : cstr) (size position options : Z)
  | Sys_listxattr (path : cstr) (size : Z)
  | Sys_listxattr_apple (path : cstr) (size options : Z)
  | Sys_removexattr (path name : cstr)
  | Sys_removexattr_apple (path name : cstr) (options : Z)
  | Sys_opendir (path : cstr) | Sys_readdir (dir : Z) | Sys_closedir (dir : Z)
  | Sys_dirfd (dir : Z)
  | Sys_access (path : cstr) (mode : Z)
  | Sys_fcntl (fd cmd : Z) (fl : cstr)
  | Sys_ioctl (fd cmd arg : Z) | Sys_flock (fd op : Z)
  | Sys_fallocate (fd mode offset len : Z)
  | Sys_utimensat (dirfd : Z) (path : cstr) (ts : timespecs) (flags : Z)
  | Sys_stat (path : cstr) | Sys_realpath (path : cstr)
  | Sys_fopen (path : cstr) | Sys_fclose
  | Sys_kill (pid sig : Z) | Sys_nanosleep (sec nsec : Z).

#[export] Instance syscall_eq_dec : EqDecision syscall.
Proof. solve_decision. Defined.

(** [struct dirent]: inode, type, name. *)
Record dirent := { d_ino : Z; d_type : Z; d_name : cstr }.

(** The result of a call: its return value (a pointer is its address, 0 for NULL;
    [fopen] gives -1 for NULL), the value of [errno] after it, the bytes it wrote
    to an output buffer, the entry [readdir] returned. *)
Record sysres := {
  sr_ret : Z;
  sr_errno : Z;
  sr_out : cstr;
  sr_dirent : option dirent
}.

Class Env := {
  kstate : Type;
  kcall : syscall → kstate → sysres * kstate;
  (** [fuse_get_context()->pid]; [None]: a null context. *)
  fuse_context : kstate → option Z;
  (** [regcomp] with [REG_ICASE | REG_EXTENDED], and [regexec]. *)
  regcomp : cstr → Z;
  regexec : cstr → cstr → Z;
  (** [regfree] on what [regcomp] made of the expression. *)
  regfree : cstr → outcome ();
  (** The [n]-th value of [rand] after [srand(seed)]. *)
  rand_at : Z → nat → Z;
  (** The indeterminate contents of the parser's line buffer. *)
  uninit_line : cstr
}.

(** The calls that return an [int]; the others return an [ssize_t] or a pointer. *)
Definition returns_int (c : syscall) : bool :=
  match c with
  | Sys_readlink _ _ | Sys_pread _ _ _ | Sys_pwrite _ _ _ _
  | Sys_getxattr _ _ _ | Sys_getxattr_apple _ _ _ _ _
  | Sys_listxattr _ _ | Sys_listxattr_apple _ _ _
  | Sys_opendir _ | Sys_readdir _ | Sys_fopen _ | Sys_realpath _ => false
  | _ => true
  end.

(** The documented behaviour of these calls that theorems rely on. *)
Class EnvSpec `{!Env} : Prop := {
  rand_at_range seed n : (0 ≤ rand_at seed n ≤ INT_MAX)%Z;
  uninit_line_length : length uninit_line = 200;
  (** Also for an expression that [regcomp] rejected, which the program relies on:
      POSIX does not define what [regcomp] leaves behind then; glibc leaves an
      empty pattern, which [regfree] accepts. *)
  regfree_ok re : regfree re = Ok tt;
  kcall_errno c k : sr_ret (kcall c k).1 = (-1)%Z → (0 < sr_errno (kcall c k).1)%Z;
  kcall_int c k : returns_int c = true → (-1 ≤ sr_ret (kcall c k).1 ≤ INT_MAX)%Z;
  opendir_errno p k :
    sr_ret (kcall (Sys_opendir p) k).1 = 0%Z → (0 < sr_errno (kcall (Sys_opendir p) k).1)%Z
}.

(** [struct unreliablefs_config] of unreliablefs.h; [mutex]: locked. *)
Record unreliablefs_config := {
  errors : ptr;
  basedir : cstr;
  config_path : cstr;
  seed : Z;
  debug : Z;
  mutex : bool
}.

Section world.
Context {env : Env}.

Record world := {
  w_conf : unreliablefs_config;
  w_mem : mem;
  w_nrand : nat;           (** calls of [rand] so far *)
  w_kstate : kstate;
  w_errno : Z;
  w_trace : list (syscall * sysres)  (** the calls made, oldest first *)
}.

Definition set_conf (c : unreliablefs_config) (w : world) : world :=
  {| w_conf := c; w_mem := w_mem w; w_nrand := w_nrand w; w_kstate := w_kstate w;
     w_errno := w_errno w; w_trace := w_trace w |}.
Definition set_mem (m : mem) (w : world) : world :=
  {| w_conf := w_conf w; w_mem := m; w_nrand := w_nrand w; w_kstate := w_kstate w;
     w_errno := w_errno w; w_trace := w_trace w |}.

(** A system call. *)
Definition sys (c : syscall) : M world sysres := λ w,
  let '(r, k) := kcall c (w_kstate w) in
  Ok (r, {| w_conf := w_conf w; w_mem := w_mem w; w_nrand := w_nrand w; w_kstate := k;
            w_errno := sr_errno r; w_trace := w_trace w ++ [(c, r)] |}).

(** [rand()] *)
Definition rand : M world Z := λ w,
  Ok (rand_at (seed (w_conf w)) (w_nrand w),
      {| w_conf := w_conf w; w_mem := w_mem w; w_nrand := S (w_nrand w);
         w_kstate := w_kstate w; w_errno := w_errno w; w_trace := w_trace w |}).

(** Heap code. *)
Definition with_mem {A} (c : M mem A) : M world A := λ w,
  let* r := c (w_mem w) in let '(a, m) := r in Ok (a, set_mem m w).

Definition set_errors (p : ptr) : M world unit := modify (λ w,
  let c := w_conf w in
  set_conf {| errors := p; basedir := basedir c; config_path := config_path c;
              seed := seed c; debug := debug c; mutex := mutex c |} w).

Definition set_mutex (b : bool) : M world unit := modify (λ w,
  let c := w_conf w in
  set_conf {| errors := errors c; basedir := basedir c; config_path := config_path c;
              seed := seed c; debug := debug c; mutex := b |} w).

(** [pthread_mutex_lock(&conf.mutex)] by the only thread that holds it. *)
Definition mutex_lock : M world unit :=
  let! c := gets w_conf in if mutex c then fault_ deadlock else set_mutex true.
Definition mutex_unlock : M world unit := set_mutex false.

(** ** Lemmas *)

(** The result of a call made now, and the world after it. *)
Definition sys_res (c : syscall) (w : world) : sysres := (kcall c (w_kstate w)).1.
Definition sys_world (c : syscall) (w : world) : world :=
  {| w_conf := w_conf w; w_mem := w_mem w; w_nrand := w_nrand w;
     w_kstate := (kcall c (w_kstate w)).2; w_errno := sr_errno (sys_res c w);
     w_trace := w_trace w ++ [(c, sys_res c w)] |}.

Lemma sys_eq c w : sys c w = Ok (sys_res c w, sys_world c w).
Proof. unfold sys, sys_world, sys_res. by destruct (kcall c (w_kstate w)). Qed.

Lemma bind_sys {A} c (k : sysres → M world A) w :
  bindM (sys c) k w = k (sys_res c w) (sys_world c w).
Proof. by rewrite (bindM_eq _ _ _ _ _ (sys_eq c w)). Qed.

Lemma bind_with_mem {A B} (c : M mem A) a m (k : A → M world B) w :
  c (w_mem w) = Ok (a, m) → bindM (with_mem c) k w = k a (set_mem m w).
Proof. intros Hc. apply bindM_eq. unfold with_mem. by rewrite Hc. Qed.

(** The configuration with the mutex in a given state. *)
Definition locked (l : bool) (w : world) : world :=
  set_conf {| errors := errors (w_conf w); basedir := basedir (w_conf w);
              config_path := config_path (w_conf w); seed := seed (w_conf w);
              debug := debug (w_conf w); mutex := l |} w.

Lemma mutex_lock_eq w :
  mutex (w_conf w) = false → mutex_lock w = Ok (tt, locked true w).
Proof. intros Hm. unfold mutex_lock, bindM. simpl. by rewrite Hm. Qed.

Lemma mutex_unlock_eq w : mutex_unlock w = Ok (tt, locked false w).
Proof. done. Qed.

(** The heap of the world. *)
Definition heap_of (w : world) : gmap addr block := m_heap (w_mem w).
End world.
