(* ===== verification/ErrInj.v ===== *)
(** * unreliablefs_errinj.c: loading the configuration and injecting errors

    [config_init], the random choices, [is_regex_matched] and [error_inject],
    the function every file operation calls first. *)
From stdpp Require Import base list numbers gmap strings.
From Stdlib Require Import Ascii ZArith.
From S2P Require Import Prelude CLib Ini Errno FuseOp Heap ErrInjConf World.

(** [rand() % (max_n - min_n + 1) + min_n], of a value [r] of [rand]. *)
Definition in_range (r min_n max_n : Z) : Z := Z.rem r (max_n - min_n + 1) + min_n.

(** [arr\[i\]] *)
Definition array_at {A} (arr : list A) (i : Z) : outcome A :=
  if decide (i < 0)%Z then Fault oob
  else match arr !! Z.to_nat i with Some x => Ok x | None => Fault oob end.

(** The [switch] of [op_random_errno]: the array of each case. *)
Definition op_errno_table (op_n : fuse_op) : errno_table :=
  match op_n with
  | OP_LSTAT => errno_lstat
  | OP_GETATTR => errno_lstat
  | OP_READLINK => errno_readlink
  | OP_MKNOD => errno_mknod
  | OP_MKDIR => errno_mkdir
  | OP_UNLINK => errno_unlink
  | OP_RMDIR => errno_rmdir
  | OP_SYMLINK => errno_symlink
  | OP_RENAME => errno_rename
  | OP_LINK => errno_link
  | OP_CHMOD => errno_chmod
  | OP_CHOWN => errno_chmod
  | OP_TRUNCATE => errno_truncate
  | OP_OPEN => errno_creat
  | OP_READ => errno_read
  | OP_WRITE => errno_write
  | OP_STATFS => errno_statfs
  | OP_FLUSH => errno_close
  | OP_RELEASE => errno_close
  | OP_FSYNC => errno_fsync
  | OP_SETXATTR => errno_setxattr
  | OP_GETXATTR => errno_getxattr
  | OP_LISTXATTR => errno_listxattr
  | OP_REMOVEXATTR => errno_removexattr
  | OP_OPENDIR => errno_opendir
  | OP_READDIR => errno_readdir
  | OP_RELEASEDIR => errno_close
  | OP_FSYNCDIR => errno_fsync
  | OP_ACCESS => errno_access
  | OP_CREAT => errno_creat
  | OP_FTRUNCATE => errno_ftruncate
  | OP_FGETATTR => errno_lstat
  | OP_LOCK => errno_fcntl
  | OP_IOCTL => errno_ioctl
  | OP_FLOCK => errno_flock
  | OP_FALLOCATE => errno_fallocate
  | OP_UTIMENS => errno_utimensat
  end.

Definition F_OK : Z := 0.

Section errinj.
Context {env : Env} {vals : ErrnoValues} (b : build).

Definition rand_range (min_n max_n : Z) : M world Z :=
  let! r := rand in retM (in_range r min_n max_n).

(** [RANDOM_ELEMENT(arr)]; [ARRAY_SIZE(arr)] is passed as an [int]. *)
Definition random_element (arr : list errno_name) : M world Z :=
  let! i := rand_range 0 (to_int (Z.of_nat (length arr))) in
  let! e := lift (array_at arr i) in
  retM (errno_value e).

(** The cases under [#ifdef] exist in the builds that have the operation; the
    [default] case leaves -1.  A case whose array the platform's header does
    not define does not compile. *)
Definition op_random_errno (op_n : fuse_op) : M world Z :=
  if enabled b op_n then
    match platform_table (b_platform b) (op_errno_table op_n) with
    | Some arr => random_element arr
    | None => fault_ unbuildable
    end
  else
    do! lift (op_name b op_n) in retM (-1)%Z.

(** ** config_init *)

(** [ini_parse] with its [fopen] and [fclose]. *)
Definition ini_parse_path (path : cstr) (cfg : ptr) : M world Z :=
  let! f := sys (Sys_fopen path) in
  let file := if decide (sr_ret f = -1)%Z then None else Some (sr_out f) in
  let! error := with_mem (ini_parse (conf_option_handler cfg) uninit_line file) in
  match file with
  | None => retM error
  | Some _ => do! sys Sys_fclose in retM error
  end.

Definition config_init (conf_path : cstr) : M world ptr :=
  let! errors := with_mem (alloc (Queue [])) in
  match errors with
  | None => retM None
  | Some _ =>
      let! a := sys (Sys_access conf_path F_OK) in
      if decide (sr_ret a = 0)%Z then
        let! r := ini_parse_path conf_path errors in
        if decide (r < 0)%Z then retM None else retM errors
      else retM errors
  end.

(** ** error_inject *)

(** 0: matched.  A null expression or string matches. *)
Definition is_regex_matched (regex string : option cstr) : outcome Z :=
  match regex, string with
  | Some re, Some s =>
      let rc := regcomp re in
      if decide (rc ≠ 0%Z) then let* _ := regfree re in Ok rc
      else
        let rc := regexec re s in
        let* _ := regfree re in Ok rc
  | _, _ => Ok 0%Z
  end.

(** [errinj_name\[err->type\]], for the messages. *)
Definition errinj_label (c : errinj_conf) : outcome cstr := array_at errinj_name (type_ c).

(** The [switch (err->type)]: the new [rc]. *)
Definition inject_switch (operation : fuse_op) (c : errinj_conf) (rc : Z) : M world Z :=
  if decide (type_ c = ERRINJ_NOOP) then retM (- ERRNO_NOOP)%Z
  else if decide (type_ c = ERRINJ_KILL_CALLER) then
    let! k := gets w_kstate in
    match fuse_context k with
    | Some pid => do! sys (Sys_kill pid DEFAULT_SIGNAL_NAME) in retM rc
    | None => retM rc
    end
  else if decide (type_ c = ERRINJ_ERRNO) then
    let! e := op_random_errno operation in retM (- e)%Z
  else if decide (type_ c = ERRINJ_SLOWDOWN) then
    do! sys (Sys_nanosleep 0 (duration c)) in retM rc
  else retM rc.

(** One iteration of [TAILQ_FOREACH]. *)
Definition inject_one (path : cstr) (operation : fuse_op) (err : addr) (rc : Z)
    : M world Z :=
  let! c := with_mem (deref_conf (Some err)) in
  let! r := rand_range MIN_PROBABLITY MAX_PROBABLITY in
  let p := to_uint r in
  if decide (p ≤ probability c)%Z then
    let! name := lift (op_name b operation) in
    let! path_re := with_mem (read_str (path_regexp c)) in
    let! m := lift (is_regex_matched path_re (Some path)) in
    if decide (m ≠ 0)%Z then
      do! lift (errinj_label c) in retM rc
    else
      let! op_re := with_mem (read_str (op_regexp c)) in
      let! m := lift (is_regex_matched op_re (Some name)) in
      if decide (m ≠ 0)%Z then
        do! lift (errinj_label c) in retM rc
      else
        do! lift (errinj_label c) in
        inject_switch operation c rc
  else do! lift (errinj_label c) in retM rc.

Fixpoint inject_loop (path : cstr) (operation : fuse_op) (q : list addr) (rc : Z)
    : M world Z :=
  match q with
  | [] => retM rc
  | err :: q' =>
      let! rc' := inject_one path operation err rc in
      inject_loop path operation q' rc'
  end.

Definition error_inject (path : cstr) (operation : fuse_op) : M world Z :=
  do! mutex_lock in
  let! conf := gets w_conf in
  if decide (strcmp path (config_path conf) = 0%Z) then
    do! with_mem (config_delete (errors conf)) in
    let! e := config_init path in
    do! set_errors e in
    do! mutex_unlock in
    retM 0%Z
  else
    match errors conf with
    | None => do! mutex_unlock in retM 0%Z
    | Some _ =>
        let! q := with_mem (deref_queue (errors conf)) in
        let! rc := inject_loop path operation q 0 in
        do! mutex_unlock in
        retM rc
    end.
End errinj.
