(* ===== verification/ConfLoad.v ===== *)
(** * Loading a configuration file

    The INI parser with [conf_option_handler] as its handler, and
    [config_init]: what configuration a file stands for ([config_of]), and that
    this is what the heap holds after the file was read. *)
From stdpp Require Import base list numbers gmap strings.
From Stdlib Require Import Ascii ZArith.
From S2P Require Import Prelude CLib Ini IniSpec IniReader IniLoop IniProps.
From S2P Require Import Heap ErrInjConf ConfSpec ConfRefine World ErrInj Errno FuseOp.

(** The configuration that a file's entries make, starting from nothing. *)
Definition add_entry (cfg : config) (e : list ascii * list ascii * list ascii) : config :=
  (config_set cfg e.1.1 e.1.2 e.2).2.
Definition config_of (bytes : list ascii) : config := fold_left add_entry (entries bytes) [].

(** ** Well-formedness *)

Lemma set_key_type key value i i' : set_key key value i = Some i' → i_type i' = i_type i.
Proof. unfold set_key. repeat case_decide; intros [= <-]; done. Qed.

Lemma set_key_ok key value i i' :
  set_key key value i = Some i' → injection_ok i → injection_ok i'.
Proof.
  unfold set_key, injection_ok. pose proof (to_uint_range (atoi value)).
  repeat case_decide; intros [= <-]; simpl; tauto.
Qed.

Lemma set_in_types t key value cfg :
  i_type <$> set_in t key value cfg
  = (i_type <$> cfg) ++ (if decide (t ∈ i_type <$> cfg) then [] else [t]).
Proof.
  induction cfg as [|i cfg IH]; simpl.
  - destruct (set_key key value (new_injection t)) eqn:E; simpl; [|done].
    by rewrite (set_key_type _ _ _ _ E).
  - destruct (decide (i_type i = t)) as [E|E]; simpl.
    + rewrite decide_True by (rewrite E; by left). rewrite app_nil_r. f_equal.
      destruct (set_key key value i) eqn:Ek; simpl; [by rewrite (set_key_type _ _ _ _ Ek)|done].
    + f_equal. etrans; [exact IH|]. f_equal. apply decide_ext. rewrite elem_of_cons. intuition congruence.
Qed.

Lemma config_set_ok cfg section key value :
  config_ok cfg → config_ok (config_set cfg section key value).2.
Proof.
  intros [Hnd Hall]. unfold config_set.
  destruct (section_type section) as [t|] eqn:Es; [|done]. cbn [snd].
  apply section_type_range in Es. split.
  - rewrite set_in_types. apply NoDup_app. split; [done|].
    case_decide; split.
    + intros x _. apply not_elem_of_nil.
    + apply NoDup_nil_2.
    + by intros x Hx ->%list_elem_of_singleton.
    + apply NoDup_singleton.
  - assert (injection_ok (new_injection t)) as Hnew by (unfold injection_ok; simpl; lia).
    clear Hnd. induction Hall as [|i cfg Hi Hall IH]; simpl.
    + constructor; [|done]. destruct (set_key _ _ _) eqn:E; simpl; [by eapply set_key_ok|done].
    + case_decide; constructor; try done.
      destruct (set_key key value i) eqn:E; simpl; [by eapply set_key_ok|done].
Qed.

Lemma config_ok_nil : config_ok [].
Proof. split; constructor. Qed.

(** The configuration of any file is well formed: at most one injection of each
    of the four types. *)
Lemma config_of_ok bytes : config_ok (config_of bytes).
Proof.
  unfold config_of. generalize config_ok_nil. generalize (@nil injection).
  induction (entries bytes) as [|e es IH]; intros cfg Hcfg; [done|].
  simpl. by apply IH, config_set_ok.
Qed.

Lemma config_ok_length cfg : config_ok cfg → length cfg ≤ 4.
Proof.
  intros [Hnd Hall].
  assert (length (i_type <$> cfg) ≤ length [0; 1; 2; 3]%Z) as H.
  { apply submseteq_length, NoDup_submseteq; [done|].
    intros t (i & -> & Hi)%list_elem_of_fmap.
    rewrite Forall_forall in Hall. destruct (Hall i Hi) as [H _].
    rewrite !elem_of_cons. lia. }
  by rewrite length_fmap in H.
Qed.

(** ** The parser on a heap *)

Lemma first_error_range err n :
  (0 ≤ n)%Z → (0 ≤ err ≤ n)%Z → (0 ≤ first_error err (n + 1) ≤ n + 1)%Z.
Proof. intros Hn Herr. unfold first_error. case_decide; lia. Qed.

(** From a queue that holds [cfg], a run of the parser ends with a queue that
    holds the entries added to [cfg], in the same frame. *)
Lemma run_lines_config q ls n st err m cfg :
  queue_rep (m_heap m) q cfg → (0 ≤ n)%Z → (0 ≤ err ≤ n)%Z →
  ∃ err' m' cfg', run_lines (conf_option_handler (Some q)) n st err ls m = Ok (err', m') ∧
    (0 ≤ err')%Z ∧ m_oom m' = m_oom m ∧ queue_rep (m_heap m') q cfg' ∧
    frame_of (m_heap m') q = frame_of (m_heap m) q ∧ (config_ok cfg → config_ok cfg') ∧
    (no_oom m → cfg' = fold_left add_entry (entries_of (bool_decide (n = 0%Z)) st ls) cfg).
Proof.
  revert n st err m cfg. induction ls as [|l ls IH]; intros n st err m cfg Hrep Hn Herr.
  { exists err, m, cfg. repeat (split; [done || lia|]). done. }
  cbn [run_lines entries_of]. destruct (parse_line _ st l) as [a st'].
  assert (Hb : bool_decide (n + 1 = 0)%Z = false) by (apply bool_decide_false; lia).
  destruct a as [| |nm v]; cbn [run_action].
  - rewrite (bindM_eq _ _ _ _ _ (eq_refl : retM err m = Ok (err, m))).
    rewrite <- Hb. apply IH; [done|lia..].
  - rewrite (bindM_eq _ _ _ _ _ (eq_refl : retM (first_error err (n + 1)) m = Ok (_, m))).
    rewrite <- Hb. apply IH; [done|lia|by apply first_error_range].
  - destruct (conf_option_handler_correct m q cfg (ps_section st) nm v Hrep)
      as (r & m1 & cfg1 & Hrun & Hoom1 & Hrep1 & Hfr1 & Hok1 & Hval1).
    rewrite bindM_assoc, (bindM_eq _ _ _ _ _ Hrun).
    set (err1 := if decide (r = 0%Z) then first_error err (n + 1) else err).
    rewrite (bindM_eq _ _ _ _ _ (eq_refl : retM err1 m1 = Ok (err1, m1))).
    destruct (IH (n + 1)%Z st' err1 m1 cfg1 Hrep1) as (err' & m' & cfg' & Hrun' & Herr' & Hoom' &
      Hrep' & Hfr' & Hok' & Hval'); [lia| |].
    { subst err1. destruct (decide (r = 0%Z)); [by apply first_error_range|lia]. }
    exists err', m', cfg'. split; [exact Hrun'|]. split; [done|]. split; [congruence|].
    split; [done|]. split; [congruence|]. split; [by auto|]. intros Hno.
    rewrite Hval' by (intros k; by rewrite Hoom1). rewrite Hb. simpl. f_equal.
    unfold add_entry. simpl. by rewrite <- (Hval1 Hno).
Qed.

Lemma ini_parse_config q line0 bytes m cfg :
  length line0 = INI_MAX_LINE → (Z.of_nat (length bytes) ≤ INT_MAX)%Z →
  queue_rep (m_heap m) q cfg →
  ∃ err m' cfg', ini_parse (conf_option_handler (Some q)) line0 (Some bytes) m = Ok (err, m') ∧
    (0 ≤ err)%Z ∧ m_oom m' = m_oom m ∧ queue_rep (m_heap m') q cfg' ∧
    frame_of (m_heap m') q = frame_of (m_heap m) q ∧ (config_ok cfg → config_ok cfg') ∧
    (no_oom m → cfg' = fold_left add_entry (entries bytes) cfg).
Proof.
  intros Hl Hb Hrep. unfold ini_parse. rewrite ini_parse_file_spec by done.
  unfold parse_spec, entries. change true with (bool_decide (0%Z = 0%Z)).
  by apply run_lines_config.
Qed.

(** ** config_init *)

Section load.
Context {env : Env}.

(** What [config_init] reads, as a function of the kernel's state: the
    configuration ([None]: the file exists and cannot be opened), the state
    after, and the calls made. *)
Definition load_run (path : cstr) (k : kstate)
    : option config * kstate * list (syscall * sysres) :=
  let acc := kcall (Sys_access path F_OK) k in
  if decide (sr_ret acc.1 = 0%Z) then
    let f := kcall (Sys_fopen path) acc.2 in
    if decide (sr_ret f.1 = (-1)%Z) then
      (None, f.2, [(Sys_access path F_OK, acc.1); (Sys_fopen path, f.1)])
    else
      let c := kcall Sys_fclose f.2 in
      (Some (config_of (sr_out f.1)), c.2,
       [(Sys_access path F_OK, acc.1); (Sys_fopen path, f.1); (Sys_fclose, c.1)])
  else (Some [], acc.2, [(Sys_access path F_OK, acc.1)]).

Definition load_config path k := (load_run path k).1.1.
Definition load_kstate path k := (load_run path k).1.2.
Definition load_calls path k := (load_run path k).2.

(** Configuration files fit the parser's [int] line counter. *)
Definition conf_files_fit : Prop :=
  ∀ path k, (Z.of_nat (length (sr_out (kcall (Sys_fopen path) k).1)) ≤ INT_MAX)%Z.

Lemma queue_rep_new h q : h !! q = None → queue_rep (<[q := Queue []]> h) q [].
Proof.
  intros H. exists []. rewrite lookup_insert_eq. split; [done|]. split; [done|].
  unfold queue_fp. rewrite lookup_insert_eq. apply NoDup_singleton.
Qed.

Lemma frame_of_new h q : h !! q = None → frame_of (<[q := Queue []]> h) q = h.
Proof.
  intros H. apply map_eq. intros x. rewrite frame_lookup. unfold queue_fp.
  rewrite lookup_insert_eq. simpl. case_decide as E; rewrite list_elem_of_singleton in E.
  - by subst.
  - by rewrite lookup_insert_ne by done.
Qed.

(** The world [w'] after a load from [w], with the result [p]. *)
Definition loaded (path : cstr) (w : world) (p : ptr) (w' : world) : Prop :=
  w_conf w' = w_conf w ∧ w_nrand w' = w_nrand w ∧
  w_kstate w' = load_kstate path (w_kstate w) ∧
  w_trace w' = w_trace w ++ load_calls path (w_kstate w) ∧
  m_oom (w_mem w') = m_oom (w_mem w) ∧
  match load_config path (w_kstate w), p with
  | Some cfg, Some q =>
      ∃ cfg', queue_rep (heap_of w') q cfg' ∧ frame_of (heap_of w') q = heap_of w ∧
              config_ok cfg' ∧ (no_oom (w_mem w) → cfg' = cfg)
  | None, None => ∃ q, heap_of w !! q = None ∧ heap_of w' = <[q := Queue []]> (heap_of w)
  | _, _ => False
  end.

Lemma ini_parse_path_missing path q w :
  sr_ret (sys_res (Sys_fopen path) w) = (-1)%Z →
  ini_parse_path path (Some q) w = Ok ((-1)%Z, sys_world (Sys_fopen path) w).
Proof.
  intros Hf. unfold ini_parse_path. rewrite bind_sys. rewrite Hf. simpl.
  rewrite (bind_with_mem _ _ _ _ _ eq_refl). unfold retM. by destruct w.
Qed.

Lemma ini_parse_path_opened path q w cfg :
  EnvSpec → conf_files_fit →
  sr_ret (sys_res (Sys_fopen path) w) ≠ (-1)%Z → queue_rep (heap_of w) q cfg →
  ∃ err m cfg', ini_parse_path path (Some q) w
      = Ok (err, sys_world Sys_fclose (set_mem m (sys_world (Sys_fopen path) w))) ∧
    (0 ≤ err)%Z ∧ m_oom m = m_oom (w_mem w) ∧ queue_rep (m_heap m) q cfg' ∧
    frame_of (m_heap m) q = frame_of (heap_of w) q ∧ (config_ok cfg → config_ok cfg') ∧
    (no_oom (w_mem w) →
     cfg' = fold_left add_entry (entries (sr_out (sys_res (Sys_fopen path) w))) cfg).
Proof.
  intros Henv Hfit Hf Hrep. unfold ini_parse_path. rewrite bind_sys, decide_False by done.
  destruct (ini_parse_config q uninit_line (sr_out (sys_res (Sys_fopen path) w))
    (w_mem w) cfg uninit_line_length (Hfit _ _) Hrep) as (err & m & cfg' & Hrun & Hrest).
  exists err, m, cfg'. split; [|exact Hrest].
  erewrite bind_with_mem by exact Hrun. by rewrite bind_sys.
Qed.

(** [config_init] on any heap, when the queue can be allocated. *)
Lemma config_init_correct path w :
  EnvSpec → conf_files_fit → m_oom (w_mem w) (m_count (w_mem w)) = false →
  ∃ p w', config_init path w = Ok (p, w') ∧ loaded path w p w'.
Proof.
  intros Henv Hfit Hoom. unfold config_init.
  destruct (alloc_ok (Queue []) _ Hoom) as (q & m & Hal & Hq & Hh & Hoom').
  rewrite (bind_with_mem _ _ _ _ _ Hal), bind_sys. set (w1 := set_mem m w).
  assert (queue_rep (heap_of w1) q []) as Hrep by (unfold heap_of; simpl; rewrite Hh; by apply queue_rep_new).
  assert (frame_of (heap_of w1) q = heap_of w) as Hfr
    by (unfold heap_of; simpl; rewrite Hh; by apply frame_of_new).
  unfold loaded, load_config, load_kstate, load_calls, load_run.
  change (sys_res (Sys_access path F_OK) w1) with (kcall (Sys_access path F_OK) (w_kstate w)).1.
  destruct (decide (sr_ret (kcall (Sys_access path F_OK) (w_kstate w)).1 = 0%Z)) as [Ha|Ha].
  2: { exists (Some q), (sys_world (Sys_access path F_OK) w1). split; [done|].
       repeat (split; [done|]). exists []. repeat (split; [done || apply config_ok_nil|]). done. }
  set (w2 := sys_world (Sys_access path F_OK) w1).
  change (kcall (Sys_fopen path) (kcall (Sys_access path F_OK) (w_kstate w)).2).1
    with (sys_res (Sys_fopen path) w2).
  destruct (decide (sr_ret (sys_res (Sys_fopen path) w2) = (-1)%Z)) as [Hf|Hf].
  - rewrite (bindM_eq _ _ _ _ _ (ini_parse_path_missing path q w2 Hf)).
    exists None, (sys_world (Sys_fopen path) w2). split; [done|].
    repeat (split; [done || (simpl; by rewrite <- app_assoc)|]). by exists q.
  - destruct (ini_parse_path_opened path q w2 [] Henv Hfit Hf Hrep)
      as (err & m' & cfg' & Hrun & Herr & Hoom2 & Hrep' & Hfr' & Hok' & Hval).
    rewrite (bindM_eq _ _ _ _ _ Hrun), decide_False by lia.
    eexists (Some q), _. split; [done|].
    split; [done|]. split; [done|]. split; [done|].
    split; [simpl; by rewrite <- !app_assoc|]. split; [etrans; [exact Hoom2|exact Hoom']|].
    exists cfg'. split; [exact Hrep'|]. split; [etrans; [exact Hfr'|exact Hfr]|].
    split; [apply Hok', config_ok_nil|]. intros Hno. apply Hval. intros n. change (m_oom m n = false). rewrite Hoom'. apply Hno.
Qed.
(** When the queue cannot be allocated: no configuration, nothing read. *)
Lemma config_init_oom path w :
  m_oom (w_mem w) (m_count (w_mem w)) = true →
  ∃ w', config_init path w = Ok (None, w') ∧ w_conf w' = w_conf w ∧ heap_of w' = heap_of w ∧
        m_oom (w_mem w') = m_oom (w_mem w).
Proof.
  intros Hoom. unfold config_init. eexists.
  by rewrite (bind_with_mem _ _ _ _ _ (alloc_fail _ _ Hoom)).
Qed.
End load.
