(* ===== verification/ErrInjSpec.v ===== *)
(** * What an operation's error injection does

    The contract of [error_inject] without the heap: an injection triggers when
    its draw is within its probability and both of its expressions match; the
    injections of the configuration act one after the other ([spec_loop]); an
    operation on the configuration file itself reloads the configuration
    instead.  The refinement is in ErrInjRefine. *)
From stdpp Require Import base list numbers gmap strings.
From Stdlib Require Import Ascii ZArith.
From S2P Require Import Prelude CLib Errno FuseOp Heap ErrInjConf ConfSpec ConfLoad.
From S2P Require Import World ErrInj.

(** ** Random choices *)

(** The draw [r] is within the probability [p] (percents). *)
Definition chance (r p : Z) : bool :=
  bool_decide (to_uint (in_range r MIN_PROBABLITY MAX_PROBABLITY) ≤ p)%Z.

(** The error that [RANDOM_ELEMENT] takes from an array, for the value [r] of
    [rand]: the index is [r] modulo one more than the number of elements. *)
Definition pick (arr : list errno_name) (r : Z) : outcome errno_name :=
  match arr !! Z.to_nat (r `mod` (Z.of_nat (length arr) + 1))%Z with
  | Some e => Ok e
  | None => Fault oob
  end.

(** The errors the build injects in an operation. *)
Definition op_errnos (b : build) (op : fuse_op) : option (list errno_name) :=
  platform_table (b_platform b) (op_errno_table op).

Section spec.
Context {env : Env} {vals : ErrnoValues} (b : build).

(** The next value of [rand], and the world after it. *)
Definition draw (w : world) : Z := rand_at (seed (w_conf w)) (w_nrand w).
Definition next_draw (w : world) : world :=
  {| w_conf := w_conf w; w_mem := w_mem w; w_nrand := S (w_nrand w);
     w_kstate := w_kstate w; w_errno := w_errno w; w_trace := w_trace w |}.

(** A missing expression matches everything, one that does not compile
    nothing. *)
Definition matches (re : option cstr) (s : cstr) : bool :=
  match re with
  | None => true
  | Some re => bool_decide (regcomp re = 0%Z) && bool_decide (regexec re s = 0%Z)
  end.

Definition triggers (path : cstr) (op : fuse_op) (i : injection) (r : Z) : bool :=
  chance r (i_probability i) && matches (i_path i) path && matches (i_op i) (op_label op).

(** What a triggered injection does to the result [rc] of the earlier ones. *)
Definition effect (op : fuse_op) (i : injection) (rc : Z) (w : world)
    : outcome (Z * world) :=
  if decide (i_type i = ERRINJ_NOOP) then Ok ((- ERRNO_NOOP)%Z, w)
  else if decide (i_type i = ERRINJ_KILL_CALLER) then
    Ok (rc, match fuse_context (w_kstate w) with
            | Some pid => sys_world (Sys_kill pid DEFAULT_SIGNAL_NAME) w
            | None => w
            end)
  else if decide (i_type i = ERRINJ_ERRNO) then
    match op_errnos b op with
    | Some arr =>
        let* e := pick arr (draw w) in Ok ((- errno_value e)%Z, next_draw w)
    | None => Fault unbuildable
    end
  else Ok (rc, sys_world (Sys_nanosleep 0 (i_duration i)) w).

Definition spec_one (path : cstr) (op : fuse_op) (i : injection) (rc : Z) (w : world)
    : outcome (Z * world) :=
  if triggers path op i (draw w) then effect op i rc (next_draw w)
  else Ok (rc, next_draw w).

Fixpoint spec_loop (path : cstr) (op : fuse_op) (cfg : config) (rc : Z) (w : world)
    : outcome (Z * world) :=
  match cfg with
  | [] => Ok (rc, w)
  | i :: cfg' =>
      let* r := spec_one path op i rc w in
      spec_loop path op cfg' r.1 r.2
  end.

(** ** The state between two operations *)

(** The mutex is free, the global configuration is [ocfg] and the rest of the
    heap is [fr]. *)
Definition world_rep (w : world) (ocfg : option config) (fr : heap) : Prop :=
  mutex (w_conf w) = false ∧
  match errors (w_conf w), ocfg with
  | None, None => heap_of w = fr
  | Some q, Some cfg =>
      queue_rep (heap_of w) q cfg ∧ frame_of (heap_of w) q = fr ∧ config_ok cfg
  | _, _ => False
  end.

(** ** Facts *)

(** Steps of the injections change neither the heap nor the global [conf]. *)
Definition same_conf (w w' : world) : Prop := w_conf w' = w_conf w ∧ w_mem w' = w_mem w.

Lemma effect_same_conf op i rc w rc' w' :
  effect op i rc w = Ok (rc', w') → same_conf w w'.
Proof.
  unfold effect, same_conf. intros E. repeat case_decide.
  - by simplify_eq.
  - simplify_eq. by destruct (fuse_context (w_kstate w)).
  - destruct (op_errnos b op); [|done]. inv_ok. done.
  - by simplify_eq.
Qed.

Lemma spec_one_same_conf path op i rc w rc' w' :
  spec_one path op i rc w = Ok (rc', w') → same_conf w w'.
Proof.
  unfold spec_one. destruct (triggers _ _ _ _).
  - intros [Hc Hm]%effect_same_conf. split; by rewrite ?Hc, ?Hm.
  - intros E. by simplify_eq.
Qed.

Lemma spec_loop_same_conf path op cfg rc w rc' w' :
  spec_loop path op cfg rc w = Ok (rc', w') → same_conf w w'.
Proof.
  revert rc w. induction cfg as [|i cfg IH]; intros rc w; simpl; [by intros E; simplify_eq|].
  intros E. inv_ok. destruct x as [rc1 w1]. simpl in E.
  match goal with H : spec_one _ _ _ _ _ = _ |- _ => apply spec_one_same_conf in H as [Hc Hm] end.
  apply IH in E as [Hc' Hm']. split; congruence.
Qed.
End spec.
