(* ===== verification/ErrInjRefine.v ===== *)
(** * error_inject refines its contract

    On a heap that holds a configuration, the loop of [error_inject] over the
    queue is [spec_loop] over the configuration; the mutex is taken and
    released; the reload replaces the configuration and loses no block but the
    queue of a file that cannot be opened. *)
From stdpp Require Import base list numbers gmap strings.
From Stdlib Require Import Ascii ZArith.
From S2P Require Import Prelude CLib Errno FuseOp Heap ErrInjConf ConfSpec ConfRefine ConfLoad.
From S2P Require Import World ErrInj ErrInjSpec.

(** ** Names and tables *)

Definition all_fuse_ops : list fuse_op :=
  [OP_GETATTR; OP_READLINK; OP_MKNOD; OP_MKDIR; OP_UNLINK; OP_RMDIR; OP_SYMLINK;
   OP_RENAME; OP_LINK; OP_CHMOD; OP_CHOWN; OP_TRUNCATE; OP_OPEN; OP_READ; OP_WRITE;
   OP_STATFS; OP_FLUSH; OP_RELEASE; OP_FSYNC; OP_SETXATTR; OP_GETXATTR; OP_LISTXATTR;
   OP_REMOVEXATTR; OP_OPENDIR; OP_READDIR; OP_RELEASEDIR; OP_FSYNCDIR; OP_ACCESS;
   OP_CREAT; OP_FTRUNCATE; OP_FGETATTR; OP_LOCK; OP_IOCTL; OP_FLOCK; OP_FALLOCATE;
   OP_UTIMENS; OP_LSTAT].

Lemma all_fuse_ops_complete op : op ∈ all_fuse_ops.
Proof. apply (bool_decide_unpack _). by destruct op; vm_compute. Qed.

(** A decidable property of builds and operations holds if it computes to true. *)
Lemma all_builds_ops (P : build → fuse_op → bool) :
  forallb (λ b, forallb (P b) all_fuse_ops) all_builds = true → ∀ b op, P b op = true.
Proof.
  intros H b op. rewrite forallb_forall in H.
  assert (forallb (P b) all_fuse_ops = true) as Hb
    by (apply H, list_elem_of_In, all_builds_complete).
  rewrite forallb_forall in Hb. apply Hb, list_elem_of_In, all_fuse_ops_complete.
Qed.

#[export] Instance outcome_eq_dec {A} `{EqDecision A} : EqDecision (outcome A).
Proof. solve_decision. Defined.

Lemma op_name_label b op : enabled b op = true → op_name b op = Ok (op_label op).
Proof.
  intros H. pose proof (all_builds_ops
    (λ b op, implb (enabled b op) (bool_decide (op_name b op = Ok (op_label op))))) as Hall.
  specialize (Hall ltac:(by vm_compute) b op). simpl in Hall. rewrite H in Hall.
  by apply bool_decide_eq_true in Hall.
Qed.

Lemma table_length p t arr : platform_table p t = Some arr → length arr ≤ 100.
Proof. destruct p as [|[]| |], t; simpl; intros E; simplify_eq; vm_compute; lia. Qed.

Lemma errinj_label_ok c : (0 ≤ type_ c ≤ 3)%Z → ∃ n, errinj_label c = Ok n.
Proof.
  intros H. unfold errinj_label.
  assert (type_ c = 0 ∨ type_ c = 1 ∨ type_ c = 2 ∨ type_ c = 3)%Z as Hc by lia.
  destruct Hc as [->|[->|[->| ->]]]; by eexists.
Qed.

(** ** Random choices *)

Lemma in_range_0 r n : (0 ≤ r)%Z → (0 ≤ n)%Z → in_range r 0 n = (r `mod` (n + 1))%Z.
Proof. intros Hr Hn. unfold in_range. by rewrite Z.add_0_r, Z.sub_0_r, Z.rem_mod_nonneg by lia. Qed.

Lemma array_at_mod {A} (arr : list A) r :
  array_at arr (r `mod` (Z.of_nat (length arr) + 1))
  = match arr !! Z.to_nat (r `mod` (Z.of_nat (length arr) + 1)) with
    | Some x => Ok x | None => Fault oob end.
Proof.
  unfold array_at. rewrite decide_False; [done|].
  pose proof (Z.mod_pos_bound r (Z.of_nat (length arr) + 1)). lia.
Qed.

Section refine.
Context {env : Env} {spec : EnvSpec} {vals : ErrnoValues} (b : build).

Lemma draw_range w : (0 ≤ draw w ≤ INT_MAX)%Z.
Proof. apply rand_at_range. Qed.

Lemma rand_range_eq n w :
  (0 ≤ n)%Z → rand_range 0 n w = Ok ((draw w `mod` (n + 1))%Z, next_draw w).
Proof.
  intros Hn. unfold rand_range, bindM, rand. simpl. unfold retM.
  fold (draw w). rewrite in_range_0; [done|apply draw_range|done].
Qed.

Lemma random_element_eq arr w :
  length arr ≤ 100 →
  random_element arr w
  = let* e := pick arr (draw w) in Ok (errno_value e, next_draw w).
Proof.
  intros Hl. unfold random_element. rewrite (to_int_small (Z.of_nat (length arr))) by (unfold INT_MIN, INT_MAX; lia).
  rewrite (bindM_eq _ _ _ _ _ (rand_range_eq (Z.of_nat (length arr)) w ltac:(lia))).
  unfold bindM, lift. rewrite array_at_mod. unfold pick. by case_match.
Qed.

Lemma op_random_errno_eq op w :
  enabled b op = true →
  op_random_errno b op w
  = match op_errnos b op with
    | Some arr => let* e := pick arr (draw w) in Ok (errno_value e, next_draw w)
    | None => Fault unbuildable
    end.
Proof.
  intros He. unfold op_random_errno, op_errnos. rewrite He.
  destruct (platform_table _ _) as [arr|] eqn:Et; [|done].
  by apply random_element_eq, (table_length _ _ _ Et).
Qed.

(** ** One injection *)

Lemma inject_switch_eq op c i rc w :
  enabled b op = true → type_ c = i_type i → duration c = i_duration i →
  (0 ≤ i_type i ≤ 3)%Z →
  inject_switch b op c rc w = effect b op i rc w.
Proof.
  intros He Ht Hd Hrange. unfold inject_switch, effect. rewrite Ht, Hd.
  repeat case_decide.
  - done.
  - unfold bindM at 1, gets at 1. simpl. destruct (fuse_context (w_kstate w)); [|done].
    by rewrite bind_sys.
  - unfold bindM at 1. rewrite op_random_errno_eq by done.
    destruct (op_errnos b op) as [arr|]; [|done]. by destruct (pick arr (draw w)).
  - by rewrite bind_sys.
  - unfold ERRINJ_NOOP, ERRINJ_KILL_CALLER, ERRINJ_ERRNO, ERRINJ_SLOWDOWN in *. lia.
Qed.

Lemma read_str_eq p o m : str_rep (m_heap m) p o → read_str p m = Ok (o, m).
Proof.
  unfold str_rep, read_str. destruct p as [a|], o as [s|]; try done.
  intros Ha. unfold bindM, deref. by rewrite Ha.
Qed.

Lemma set_mem_same w : set_mem (w_mem w) w = w.
Proof. by destruct w. Qed.

Lemma read_str_world p o w :
  str_rep (heap_of w) p o → with_mem (read_str p) w = Ok (o, w).
Proof.
  intros Hs. unfold with_mem. rewrite (read_str_eq p o) by done. simpl.
  by rewrite set_mem_same.
Qed.

Lemma label_bind {A} c (k : cstr → M world A) w :
  (0 ≤ type_ c ≤ 3)%Z →
  ∃ n, bindM (lift (errinj_label c)) k w = k n w.
Proof.
  intros [n Hn]%errinj_label_ok. exists n. by apply bindM_lift_Ok.
Qed.

Lemma is_regex_matched_eq re s :
  ∃ m, is_regex_matched re (Some s) = Ok m ∧ matches re s = bool_decide (m = 0%Z).
Proof.
  destruct re as [re|]; simpl; [|by exists 0%Z]. rewrite regfree_ok. simpl. case_decide as Hc.
  - eexists. split; [done|]. by rewrite !(bool_decide_false (regcomp re = 0%Z)).
  - eexists. split; [done|]. by rewrite (bool_decide_true (regcomp re = 0%Z)) by lia.
Qed.

Lemma inject_one_eq path op a i rc w :
  enabled b op = true → conf_rep (heap_of w) a i → injection_ok i →
  inject_one b path op a rc w = spec_one b path op i rc w.
Proof.
  intros He (c & Hc & Hop & Hpath & Hp & Hd & Ht) (Hrange & _).
  unfold inject_one, spec_one, triggers.
  rewrite (bind_with_mem _ _ _ _ _ (deref_conf_live _ _ _ Hc)), set_mem_same.
  unfold MIN_PROBABLITY, MAX_PROBABLITY.
  rewrite (bindM_eq _ _ _ _ _ (rand_range_eq 100 w ltac:(lia))).
  assert (Hlab : (0 ≤ type_ c ≤ 3)%Z) by (by rewrite Ht).
  unfold chance, MIN_PROBABLITY, MAX_PROBABLITY.
  rewrite in_range_0 by (pose proof (draw_range w); lia). rewrite Hp, bool_decide_decide.
  case_decide as Hch; simpl andb; [|by destruct (label_bind c (λ _, retM rc) (next_draw w) Hlab) as [n ->]].
  rewrite (bindM_lift_Ok _ _ _ _ (op_name_label b op He)).
  rewrite (bindM_eq _ _ _ _ _ (read_str_world _ _ (next_draw w) Hpath)).
  destruct (is_regex_matched_eq (i_path i) path) as (m & Hm & ->).
  destruct (is_regex_matched_eq (i_op i) (op_label op)) as (m' & Hm' & ->).
  rewrite (bindM_lift_Ok _ _ _ _ Hm), !bool_decide_decide.
  destruct (decide (m = 0%Z)) as [E|E]; simpl andb.
  2: { rewrite decide_True by done. by destruct (label_bind c (λ _, retM rc) (next_draw w) Hlab) as [n ->]. }
  rewrite decide_False by tauto.
  rewrite (bindM_eq _ _ _ _ _ (read_str_world _ _ (next_draw w) Hop)).
  rewrite (bindM_lift_Ok _ _ _ _ Hm'). destruct (decide (m' = 0%Z)) as [E'|E'].
  - rewrite decide_False by tauto.
    destruct (label_bind c (λ _, inject_switch b op c rc) (next_draw w) Hlab) as [n ->].
    by apply inject_switch_eq.
  - rewrite decide_True by done.
    by destruct (label_bind c (λ _, retM rc) (next_draw w) Hlab) as [n ->].
Qed.

Lemma inject_loop_eq path op l cfg rc w :
  enabled b op = true → Forall2 (conf_rep (heap_of w)) l cfg → Forall injection_ok cfg →
  inject_loop b path op l rc w = spec_loop b path op cfg rc w.
Proof.
  intros He Hl Hok. revert rc w Hl Hok. revert cfg.
  induction l as [|a l IH]; intros cfg rc w Hl Hok; inversion Hl as [|? i ? cfg' Hai Hrest]; subst;
    [done|].
  apply Forall_cons in Hok as [Hi Hok]. simpl. unfold bindM. rewrite (inject_one_eq _ _ _ i) by done.
  destruct (spec_one b path op i rc w) as [[rc1 w1]| |] eqn:E; [|done..]. simpl.
  apply IH; [|done]. apply spec_one_same_conf in E as [_ Hm].
  unfold heap_of. by rewrite Hm.
Qed.
(** ** The mutex *)

(** The injections do not look at the mutex. *)
Definition map_world {A} (f : world → world) (c : outcome (A * world)) : outcome (A * world) :=
  let* r := c in Ok (r.1, f r.2).

Lemma effect_locked l op i rc w :
  effect b op i rc (locked l w) = map_world (locked l) (effect b op i rc w).
Proof.
  unfold effect, map_world. repeat case_decide; simpl; [done| | |done].
  - by destruct (fuse_context (w_kstate w)).
  - destruct (op_errnos b op) as [arr|]; [|done].
    change (draw (locked l w)) with (draw w). by destruct (pick arr (draw w)).
Qed.

Lemma spec_one_locked l path op i rc w :
  spec_one b path op i rc (locked l w) = map_world (locked l) (spec_one b path op i rc w).
Proof.
  unfold spec_one. change (draw (locked l w)) with (draw w).
  destruct (triggers _ _ _ _); [|done]. apply (effect_locked l op i rc (next_draw w)).
Qed.

Lemma spec_loop_locked l path op cfg rc w :
  spec_loop b path op cfg rc (locked l w) = map_world (locked l) (spec_loop b path op cfg rc w).
Proof.
  revert rc w. induction cfg as [|i cfg IH]; intros rc w; [done|]. cbn [spec_loop].
  rewrite spec_one_locked. unfold map_world at 1. rewrite obind_assoc.
  destruct (spec_one b path op i rc w) as [[rc1 w1]| |]; simpl; [apply IH|done..].
Qed.

Lemma locked_locked l l' w : locked l (locked l' w) = locked l w.
Proof. done. Qed.

Lemma locked_id w : locked (mutex (w_conf w)) w = w.
Proof. by destruct w as [[]]. Qed.

(** ** error_inject *)

(** An operation on any file but the configuration. *)
Lemma error_inject_eq path op w ocfg fr :
  enabled b op = true → path ≠ config_path (w_conf w) → world_rep w ocfg fr →
  error_inject b path op w = spec_loop b path op (default [] ocfg) 0 w.
Proof.
  intros He Hpath [Hm Hrep]. unfold error_inject.
  rewrite (bindM_eq _ _ _ _ _ (mutex_lock_eq w Hm)).
  unfold bindM at 1, gets at 1. cbn [obind]. rewrite decide_strcmp, decide_False by done.
  change (errors (w_conf (locked true w))) with (errors (w_conf w)).
  destruct (errors (w_conf w)) as [q|], ocfg as [cfg|]; try done.
  2: { rewrite (bindM_eq _ _ _ _ _ (mutex_unlock_eq _)), locked_locked, <- Hm, locked_id. done. }
  destruct Hrep as ((l & Hq & Hl & _) & _ & [_ Hok]). simpl default.
  rewrite (bind_with_mem _ _ _ _ (locked true w) (deref_queue_live q l (w_mem w) Hq)).
  change (set_mem (w_mem w) (locked true w)) with (locked true w).
  unfold bindM. rewrite (inject_loop_eq _ _ _ cfg) by done. rewrite spec_loop_locked.
  destruct (spec_loop b path op cfg 0 w) as [[rc w']| |] eqn:E; [|done..]. simpl.
  assert (mutex (w_conf w') = false) as Hm'; [|by destruct w' as [[]]; simpl in *; subst].
  apply spec_loop_same_conf in E as [-> _]. done.
Qed.

(** The injections keep the state. *)
Lemma spec_loop_rep path op cfg rc w rc' w' ocfg fr :
  spec_loop b path op cfg rc w = Ok (rc', w') → world_rep w ocfg fr → world_rep w' ocfg fr.
Proof.
  intros [Hc Hm]%spec_loop_same_conf. unfold world_rep, heap_of. by rewrite Hc, Hm.
Qed.

(** ** The reload *)

Lemma config_delete_world w ocfg fr :
  world_rep w ocfg fr →
  ∃ m, config_delete (errors (w_conf w)) (w_mem w) = Ok (tt, m) ∧
    m_oom m = m_oom (w_mem w) ∧ m_heap m = fr.
Proof.
  intros [_ Hrep]. destruct (errors (w_conf w)) as [q|], ocfg as [cfg|]; try done.
  - destruct Hrep as (Hq & Hfr & _).
    destruct (config_delete_correct _ _ _ Hq) as (m & Hrun & Hoom & Hh).
    exists m. split; [done|]. split; [done|]. by rewrite Hh, <- Hfr.
  - by exists (w_mem w).
Qed.

(** The world [w'] after a reload of [path] from [w] whose heap outside the
    configuration is [fr]: the configuration is the file's; when the file
    exists but cannot be opened there is none and the new queue is lost. *)
Definition reloaded (path : cstr) (w w' : world) (fr : heap) : Prop :=
  w_nrand w' = w_nrand w ∧
  w_kstate w' = load_kstate path (w_kstate w) ∧
  w_trace w' = w_trace w ++ load_calls path (w_kstate w) ∧
  match load_config path (w_kstate w) with
  | Some cfg => world_rep w' (Some cfg) fr
  | None => ∃ q, fr !! q = None ∧ world_rep w' None (<[q := Queue []]> fr)
  end.

(** The state is well formed, for some configuration, and the blocks [fr0] are
    live and as they were. *)
Definition world_ok (fr0 : heap) (w : world) : Prop :=
  ∃ ocfg fr, world_rep w ocfg fr ∧ fr0 ⊆ fr.

(** What a reload leaves as it was. *)
Definition kept (w w' : world) : Prop :=
  config_path (w_conf w') = config_path (w_conf w) ∧ seed (w_conf w') = seed (w_conf w) ∧
  m_oom (w_mem w') = m_oom (w_mem w).

(** The reload, up to the call of [config_init]. *)
Lemma error_inject_reload_init op w ocfg fr p w' m :
  config_delete (errors (w_conf w)) (w_mem w) = Ok (tt, m) →
  world_rep w ocfg fr →
  config_init (config_path (w_conf w)) (set_mem m (locked true w)) = Ok (p, w') →
  ∃ w1, error_inject b (config_path (w_conf w)) op w = Ok (0%Z, w1) ∧
    errors (w_conf w1) = p ∧ mutex (w_conf w1) = false ∧ w_mem w1 = w_mem w' ∧
    w_nrand w1 = w_nrand w' ∧ w_kstate w1 = w_kstate w' ∧ w_trace w1 = w_trace w' ∧
    config_path (w_conf w1) = config_path (w_conf w') ∧ seed (w_conf w1) = seed (w_conf w').
Proof.
  intros Hdel [Hm _] Hrun. unfold error_inject.
  rewrite (bindM_eq _ _ _ _ _ (mutex_lock_eq w Hm)).
  unfold bindM at 1, gets at 1. cbn [obind]. rewrite decide_strcmp, decide_True by done.
  rewrite (bind_with_mem _ _ _ _ (locked true w) Hdel).
  rewrite (bindM_eq _ _ _ _ _ Hrun). eexists. by split.
Qed.

Lemma error_inject_reload op w ocfg fr :
  conf_files_fit → world_rep w ocfg fr →
  ∃ w', error_inject b (config_path (w_conf w)) op w = Ok (0%Z, w') ∧
    world_ok fr w' ∧ kept w w' ∧
    (no_oom (w_mem w) → reloaded (config_path (w_conf w)) w w' fr).
Proof.
  intros Hfit Hrep. set (path := config_path (w_conf w)).
  destruct (config_delete_world _ _ _ Hrep) as (m & Hdel & Hoom & Hh).
  set (w0 := set_mem m (locked true w)).
  destruct (m_oom m (m_count m)) eqn:Ho.
  - destruct (config_init_oom path w0 Ho) as (w' & Hrun & Hconf & Hh' & Ho').
    destruct (error_inject_reload_init op w _ _ _ _ _ Hdel Hrep Hrun)
      as (w1 & Hinj & He & Hm1 & Hmem & _ & _ & _ & Hp & Hs).
    exists w1. split; [done|]. rewrite Hconf in Hp, Hs. split; [|split].
    + exists None, fr. split; [|done]. split; [done|]. rewrite He.
      unfold heap_of in *. rewrite Hmem, Hh'. exact Hh.
    + split; [done|]. split; [done|]. by rewrite Hmem, Ho'.
    + intros Hno. rewrite Hoom in Ho. by rewrite Hno in Ho.
  - destruct (config_init_correct path w0 spec Hfit Ho)
      as (p & w' & Hrun & Hconf & Hn & Hk & Htr & Hoom' & Hres).
    destruct (error_inject_reload_init op w _ _ _ _ _ Hdel Hrep Hrun)
      as (w1 & Hinj & He & Hm1 & Hmem & Hn1 & Hk1 & Htr1 & Hp & Hs).
    exists w1. split; [done|]. rewrite Hconf in Hp, Hs.
    assert (Hkept : kept w w1) by (split; [done|]; split; [done|]; rewrite Hmem, Hoom'; exact Hoom).
    subst p. rewrite Hn in Hn1. rewrite Hk in Hk1. rewrite Htr in Htr1.
    change (w_kstate w0) with (w_kstate w) in *. change (heap_of w0) with (m_heap m) in Hres.
    rewrite Hh in Hres. unfold reloaded, world_ok, world_rep. rewrite Hm1. unfold heap_of in *. rewrite Hmem.
    destruct (load_config path (w_kstate w)) as [cfg|], (errors (w_conf w1)) as [q|]; try done.
    + destruct Hres as (cfg' & Hq & Hfr & Hok & Hval). split; [by exists (Some cfg'), fr|].
      split; [done|]. intros Hno. rewrite <- (Hval (λ n, eq_trans (f_equal (λ f, f n) Hoom) (Hno n))).
      by repeat (split; [done|]).
    + destruct Hres as (q & Hq & Hw). split.
      { exists None, (m_heap (w_mem w')). split; [done|]. rewrite Hw. by apply insert_subseteq. }
      split; [done|]. intros _. repeat (split; [done|]). by exists q.
Qed.
End refine.
