(* ===== verification/TestEnv.v ===== *)
(** * A concrete environment

    A kernel, regular expressions and a [rand] to evaluate the model with: the
    kernel has a configuration file, and answers every other call from a
    script.  The theorems' witnesses use it. *)
From stdpp Require Import base list numbers gmap strings.
From Stdlib Require Import Ascii ZArith.
From S2P Require Import Prelude CLib Ini Heap World ConfLoad.

(** The configuration file ([None]: it does not exist), whether it can be
    opened, the results of the calls to come, as return value, output and
    directory entry. *)
Record script := {
  sc_conf : option cstr;
  sc_readable : bool;
  sc_results : list (Z * cstr * option dirent)
}.

(** A result: [errno] is ENOENT after a failure and after a 0. *)
Definition answer (r : Z) (out : cstr) (d : option dirent) : sysres :=
  {| sr_ret := r; sr_errno := if decide (r = (-1)%Z ∨ r = 0%Z) then 2 else 0; sr_out := out;
     sr_dirent := d |}.

Definition script_call (c : syscall) (k : script) : sysres * script :=
  match c with
  | Sys_access _ 0 =>
      (answer (match sc_conf k with Some _ => 0 | None => -1 end) [] None, k)
  | Sys_fopen _ =>
      match sc_conf k with
      | Some bytes =>
          if sc_readable k && bool_decide (Z.of_nat (length bytes) ≤ INT_MAX)%Z
          then (answer 0 bytes None, k) else (answer (-1) [] None, k)
      | None => (answer (-1) [] None, k)
      end
  | Sys_fclose => (answer 0 [] None, k)
  | _ =>
      match sc_results k with
      | (r, out, d) :: rs =>
          (answer (if returns_int c then Z.max (-1) (Z.min INT_MAX r) else r) out d, {| sc_conf := sc_conf k; sc_readable := sc_readable k;
                              sc_results := rs |})
      | [] => (answer 0 [] None, k)
      end
  end%Z.

(** A pattern matches when it is [".*"] or the string itself; the lone star
    does not compile, with [REG_BADRPT]. *)
Definition toy_regcomp (re : cstr) : Z :=
  match re with "*"%char :: _ => 13 | _ => 0 end%Z.
Definition toy_regexec (re s : cstr) : Z :=
  if decide (re = str ".*" ∨ re = s) then 0%Z else 1%Z.

(** [rand] counts up from the seed. *)
Definition toy_rand (seed : Z) (n : nat) : Z := ((seed + Z.of_nat n) `mod` (INT_MAX + 1))%Z.

#[export] Instance test_env : Env := {
  kstate := script;
  kcall := script_call;
  fuse_context := λ _, Some 4242%Z;
  regcomp := toy_regcomp;
  regexec := toy_regexec;
  regfree := λ _, Ok tt;
  rand_at := toy_rand;
  uninit_line := replicate INI_MAX_LINE "Z"%char
}.

Lemma answer_errno r out d :
  r = (-1)%Z ∨ r = 0%Z → (0 < sr_errno (answer r out d))%Z.
Proof. intros Hr. simpl. by rewrite decide_True. Qed.

#[export] Instance test_env_spec : EnvSpec.
Proof.
  split.
  - intros seed n. unfold rand_at. simpl. unfold toy_rand.
    pose proof (Z.mod_pos_bound (seed + Z.of_nat n) (INT_MAX + 1)). unfold INT_MAX in *. lia.
  - done.
  - done.
  - intros c k. simpl. unfold script_call.
    repeat case_match; simplify_eq; intros ?; apply answer_errno; auto.
  - intros c k. simpl. unfold script_call, INT_MAX.
    repeat case_match; simplify_eq; intros ?; unfold answer, INT_MAX; simpl; done || lia.
  - intros p k. simpl. repeat case_match; simplify_eq; intros ?; apply answer_errno; auto.
Qed.

Lemma test_conf_files_fit : conf_files_fit.
Proof.
  intros path k. simpl. destruct (sc_conf k) as [bytes|]; [|done].
  destruct (sc_readable k); [|done]. simpl.
  destruct (bool_decide _) eqn:E; [|done]. by apply bool_decide_eq_true in E.
Qed.

(** Memory with no block in which every allocation succeeds. *)
Definition empty_mem : mem := {| m_heap := ∅; m_oom := λ _, false; m_count := 0 |}.

(** The state of the program before it has read a configuration. *)
Definition test_world (seed0 : Z) (k : script) : world := {|
  w_conf := {| errors := None; basedir := str "/tmp"; config_path := str "/tmp/unreliablefs.conf";
               seed := seed0; debug := 0; mutex := false |};
  w_mem := empty_mem; w_nrand := 0; w_kstate := k; w_errno := 0; w_trace := []
|}.

Lemma test_world_no_oom s k : no_oom (w_mem (test_world s k)).
Proof. done. Qed.

(** A kernel whose configuration file has the given bytes. *)
Definition with_file (bytes : cstr) : script :=
  {| sc_conf := Some bytes; sc_readable := true; sc_results := [] |}.
Definition unreadable : script :=
  {| sc_conf := Some []; sc_readable := false; sc_results := [] |}.
