(* ===== verification/ConfProps.v ===== *)
(** * Properties of the configuration

    What a configuration file means ([config_of]), that the handler and
    [config_delete] implement it in the heap without losing a block, and that
    [config_init] loads it. *)
From stdpp Require Import base list numbers gmap strings.
From Stdlib Require Import Ascii ZArith.
From S2P Require Import Prelude CLib Ini IniSpec IniPrint IniProps.
From S2P Require Import Heap ErrInjConf ConfSpec ConfRefine ConfLoad World ErrInj TestEnv.

(** ** The meaning of a list of entries *)

Abbreviation entry := (list ascii * list ascii * list ascii)%type.

(** The value of the last option [key] in the sections of type [t]. *)
Definition last_option (t : Z) (key : list ascii) (es : list entry) : option (list ascii) :=
  last (omap (λ e, if decide (section_type e.1.1 = Some t ∧ e.1.2 = key)
                   then Some e.2 else None) es).

(** The last number, 0 when there is none. *)
Definition last_number (t : Z) (key : list ascii) (es : list entry) : Z :=
  match last_option t key es with Some v => to_uint (atoi v) | None => 0 end.

(** The injection that the entries of type [t] make. *)
Definition last_values (t : Z) (es : list entry) : injection :=
  {| i_type := t;
     i_op := last_option t (str "op_regexp") es;
     i_path := last_option t (str "path_regexp") es;
     i_probability := last_number t (str "probability") es;
     i_duration := last_number t (str "duration") es |}.

(** There is one when a section of the type has an entry. *)
Definition injection_of (t : Z) (es : list entry) : option injection :=
  if decide (Some t ∈ map (λ e, section_type e.1.1) es) then Some (last_values t es) else None.

(** The types in the order of their first entries. *)
Definition types_in_order (es : list entry) : list Z :=
  fold_left (λ ts t, if decide (t ∈ ts) then ts else ts ++ [t])
            (omap (λ e, section_type e.1.1) es) [].

(** The injection of type [t] in a configuration. *)
Fixpoint lookup_type (t : Z) (cfg : config) : option injection :=
  match cfg with
  | [] => None
  | i :: cfg' => if decide (i_type i = t) then Some i else lookup_type t cfg'
  end.

Lemma lookup_set_in t t' key value cfg :
  lookup_type t (set_in t' key value cfg)
  = if decide (t = t') then
      let i := default (new_injection t) (lookup_type t cfg) in
      Some (default i (set_key key value i))
    else lookup_type t cfg.
Proof.
  assert (Hk : ∀ i, i_type (default i (set_key key value i)) = i_type i).
  { intros i. destruct (set_key key value i) eqn:E; [|done]. by apply (set_key_type key value). }
  induction cfg as [|i cfg IH]; simpl.
  - rewrite (Hk (new_injection t')). simpl.
    destruct (decide (t = t')) as [->|E]; [by rewrite decide_True|by rewrite decide_False].
  - destruct (decide (t = t')) as [->|E].
    + destruct (decide (i_type i = t')) as [E|E]; simpl.
      * by rewrite Hk, decide_True.
      * by rewrite decide_False, IH.
    + destruct (decide (i_type i = t')) as [E'|E']; simpl; [|by rewrite IH].
      by rewrite Hk, !decide_False by (by rewrite E').
Qed.

Lemma last_option_snoc t key es e :
  last_option t key (es ++ [e])
  = if decide (section_type e.1.1 = Some t ∧ e.1.2 = key) then Some e.2
    else last_option t key es.
Proof.
  unfold last_option. rewrite omap_app. simpl. case_decide; [apply last_snoc|by rewrite app_nil_r].
Qed.

Lemma last_values_snoc t es e :
  last_values t (es ++ [e])
  = if decide (section_type e.1.1 = Some t)
    then default (last_values t es) (set_key e.1.2 e.2 (last_values t es))
    else last_values t es.
Proof.
  unfold last_values at 1, last_number. rewrite !last_option_snoc.
  destruct (decide (section_type e.1.1 = Some t)) as [E|E].
  - assert (Hand : ∀ s (x y : option (list ascii)),
      (if decide (section_type e.1.1 = Some t ∧ e.1.2 = s) then x else y)
      = (if decide (e.1.2 = s) then x else y)) by (intros s x y; apply decide_ext; tauto).
    rewrite !Hand. clear Hand E. generalize e.1.2, e.2. intros k v. unfold set_key.
    destruct (decide (k = str "path_regexp")) as [->|H1]; [done|].
    destruct (decide (k = str "op_regexp")) as [->|H2]; [done|].
    destruct (decide (k = str "probability")) as [->|H3]; [done|].
    destruct (decide (k = str "duration")) as [->|H4]; done.
  - rewrite !decide_False by (by intros [? _]). done.
Qed.

Lemma last_values_none t es :
  Some t ∉ map (λ e, section_type e.1.1) es → last_values t es = new_injection t.
Proof.
  induction es as [|e es IH] using rev_ind; [done|].
  rewrite map_app, not_elem_of_app. intros [H1 H2%not_elem_of_cons]. destruct H2 as [H2 _].
  rewrite last_values_snoc, decide_False by done. by apply IH.
Qed.

Lemma injection_of_snoc t es e :
  injection_of t (es ++ [e])
  = if decide (section_type e.1.1 = Some t) then
      let i := default (new_injection t) (injection_of t es) in
      Some (default i (set_key e.1.2 e.2 i))
    else injection_of t es.
Proof.
  unfold injection_of. rewrite map_app, last_values_snoc.
  assert (Hi : default (new_injection t)
    (if decide (Some t ∈ map (λ e, section_type e.1.1) es) then Some (last_values t es) else None)
    = last_values t es).
  { case_decide as E; [done|]. simpl. by rewrite last_values_none. }
  rewrite Hi. destruct (decide (section_type e.1.1 = Some t)) as [E|E].
  - rewrite decide_True; [done|]. apply elem_of_app. right. simpl. rewrite E. by left.
  - apply decide_ext. rewrite elem_of_app. simpl. rewrite list_elem_of_singleton.
    intuition congruence.
Qed.

Lemma types_in_order_snoc es e :
  types_in_order (es ++ [e])
  = match section_type e.1.1 with
    | Some t => if decide (t ∈ types_in_order es) then types_in_order es
                else types_in_order es ++ [t]
    | None => types_in_order es
    end.
Proof.
  unfold types_in_order. rewrite omap_app, fold_left_app. simpl.
  by destruct (section_type e.1.1).
Qed.

Lemma fold_entries_meaning es :
  (∀ t, lookup_type t (fold_left add_entry es []) = injection_of t es) ∧
  i_type <$> fold_left add_entry es [] = types_in_order es.
Proof.
  induction es as [|e es [IH1 IH2]] using rev_ind; [done|].
  rewrite fold_left_app. cbn [fold_left].
  set (cfg := fold_left add_entry es []) in *. unfold add_entry, config_set.
  split.
  - intros t. rewrite injection_of_snoc. destruct (section_type e.1.1) as [t'|] eqn:Es; simpl.
    + rewrite lookup_set_in, IH1.
      destruct (decide (t = t')) as [->|E]; [by rewrite decide_True|].
      by rewrite decide_False by congruence.
    + by rewrite IH1.
  - rewrite types_in_order_snoc. destruct (section_type e.1.1) as [t'|] eqn:Es; [|done].
    cbn [snd]. rewrite set_in_types, IH2. case_decide; [by rewrite app_nil_r|done].
Qed.

(** C11. The handler the parser calls implements an option of the file in the
    heap: on a queue that holds a configuration it never faults (no dead or
    wrongly typed block is read, nothing is freed twice), it leaves every block
    outside the queue as it was and no block of its own unreachable, it keeps
    the configuration well formed, even when [calloc] or [strdup] fail, and
    when they do not, its result and the new configuration are those of
    [config_set]. *)
Theorem conf_option_handler_refines m q cfg section key value :
  queue_rep (m_heap m) q cfg → config_ok cfg →
  ∃ r m' cfg', conf_option_handler (Some q) section key value m = Ok (r, m') ∧
    queue_rep (m_heap m') q cfg' ∧ config_ok cfg' ∧
    frame_of (m_heap m') q = frame_of (m_heap m) q ∧
    (no_oom m → (r, cfg') = config_set cfg section key value).
Proof.
  intros Hrep Hok.
  destruct (conf_option_handler_correct m q cfg section key value Hrep)
    as (r & m' & cfg' & Hrun & _ & Hrep' & Hfr & Hok' & Hval).
  exists r, m', cfg'. auto.
Qed.

(** A heap with an empty queue and an unrelated string. *)
Definition small_mem : mem :=
  {| m_heap := {[1%positive := Queue []; 2%positive := Str (str "other")]};
     m_oom := λ _, false; m_count := 0 |}.

Lemma small_mem_rep : queue_rep (m_heap small_mem) 1%positive [].
Proof. exists []. split; [done|]. split; [done|]. apply NoDup_singleton. Qed.

Lemma conf_option_handler_refines_witness :
  ∃ r m' cfg', conf_option_handler (Some 1%positive) (str "errinj_noop") (str "probability")
      (str "70") small_mem = Ok (r, m') ∧
    queue_rep (m_heap m') 1%positive cfg' ∧ config_ok cfg' ∧
    frame_of (m_heap m') 1%positive = frame_of (m_heap small_mem) 1%positive ∧
    (no_oom small_mem →
     (r, cfg') = config_set [] (str "errinj_noop") (str "probability") (str "70")).
Proof. apply conf_option_handler_refines; [apply small_mem_rep|apply config_ok_nil]. Defined.

Section init.
Context {env : Env} {spec : EnvSpec}.

(** C12. Loading and deleting: [config_init], from any state in which the queue
    can be allocated, makes exactly the system calls [load_calls], keeps the
    global [conf], and either returns a queue, with which [config_delete]
    gives back exactly the heap of before (nothing leaked, nothing else
    freed), or returns NULL because the existing file could not be opened,
    and then one block more than before is live, the queue's, to which no
    pointer is left. *)
Theorem config_init_delete path w :
  conf_files_fit → m_oom (w_mem w) (m_count (w_mem w)) = false →
  ∃ p w', config_init path w = Ok (p, w') ∧ w_conf w' = w_conf w ∧
    w_trace w' = w_trace w ++ load_calls path (w_kstate w) ∧
    match p with
    | Some q => load_config path (w_kstate w) ≠ None ∧
        ∃ m', config_delete (Some q) (w_mem w') = Ok (tt, m') ∧ m_heap m' = heap_of w
    | None => load_config path (w_kstate w) = None ∧
        ∃ q, heap_of w !! q = None ∧ heap_of w' = <[q := Queue []]> (heap_of w)
    end.
Proof.
  intros Hfit Hoom.
  destruct (config_init_correct path w spec Hfit Hoom)
    as (p & w' & Hrun & Hconf & _ & _ & Htr & _ & Hres).
  exists p, w'. split; [done|]. split; [done|]. split; [done|].
  destruct (load_config path (w_kstate w)) as [cfg|], p as [q|]; try done.
  destruct Hres as (cfg' & Hq & Hfr & _). split; [done|].
  destruct (config_delete_correct _ _ _ Hq) as (m' & Hdel & _ & Hh).
  exists m'. split; [done|]. by rewrite Hh.
Qed.

(** C10. What any configuration file, well formed or not, makes of the program's
    state: when the file is there, can be opened and memory lasts, [config_init]
    returns a new queue in the heap whose configuration has, for each type of
    injection, an injection iff some line of the file sets an option (known or
    not) in a section of that name; its four settings are the last values the
    file gives them, wherever the sections stand, and the defaults otherwise (no
    expression, 0); the injections stand in the queue in the order in which the
    file first mentions their types.  Nothing else in the heap changes. *)
Theorem config_init_meaning path w :
  conf_files_fit → no_oom (w_mem w) →
  let access := kcall (Sys_access path F_OK) (w_kstate w) in
  let fopen := kcall (Sys_fopen path) access.2 in
  let es := entries (sr_out fopen.1) in
  sr_ret access.1 = 0%Z → sr_ret fopen.1 ≠ (-1)%Z →
  ∃ q w' cfg, config_init path w = Ok (Some q, w') ∧
    queue_rep (heap_of w') q cfg ∧ frame_of (heap_of w') q = heap_of w ∧
    (∀ t, lookup_type t cfg = injection_of t es) ∧
    i_type <$> cfg = types_in_order es.
Proof.
  intros Hfit Hno access fopen es Ha Hf.
  assert (Hload : load_config path (w_kstate w) = Some (config_of (sr_out fopen.1))).
  { unfold load_config, load_run. fold access. rewrite decide_True by done. fold fopen.
    by rewrite decide_False. }
  destruct (config_init_correct path w spec Hfit (Hno _))
    as (p & w' & Hrun & _ & _ & _ & _ & _ & Hres).
  rewrite Hload in Hres. destruct p as [q|]; [|done].
  destruct Hres as (cfg' & Hq & Hfr & _ & Hval). exists q, w', cfg'.
  split; [done|]. split; [done|]. split; [done|]. rewrite (Hval Hno).
  apply fold_entries_meaning.
Qed.

(** C13. From the documented file format to the program's state: when the
    configuration file is the printed form of a document of sections and
    options, [config_init] returns a queue whose configuration has, for every
    type of injection, the document's last value of each option. *)
Theorem config_init_document path d w :
  conf_files_fit → no_oom (w_mem w) → doc_ok d →
  load_config path (w_kstate w) = Some (config_of (print_doc d)) →
  ∃ q w' cfg, config_init path w = Ok (Some q, w') ∧
    queue_rep (heap_of w') q cfg ∧ config_ok cfg ∧
    (∀ t, lookup_type t cfg = injection_of t (doc_entries d)).
Proof.
  intros Hfit Hno Hd Hload.
  destruct (config_init_correct path w spec Hfit (Hno _))
    as (p & w' & Hrun & _ & _ & _ & _ & _ & Hres).
  rewrite Hload in Hres. destruct p as [q|]; [|done].
  destruct Hres as (cfg' & Hq & _ & Hok & Hval). exists q, w', cfg'.
  split; [done|]. split; [done|]. split; [done|]. intros t. rewrite (Hval Hno).
  unfold config_of. rewrite (proj1 (fold_entries_meaning _)). unfold entries, print_doc.
  rewrite chunks_print_lines by (by apply doc_line_ok). by rewrite entries_of_doc.
Qed.
End init.

(** A section that comes back, an option that no injection knows, a bad line. *)
Definition scattered_file : list ascii :=
  print_lines [str "[errinj_noop]"; str "probability=30"; str "op_regexp = read"; str "[errinj_errno]";
               str "colour=red"; str "nonsense"; str "[errinj_noop]"; str "probability=40"].

Lemma config_init_meaning_witness :
  ∃ q w' cfg, config_init (str "c") (test_world 0 (with_file scattered_file)) = Ok (Some q, w') ∧
    queue_rep (heap_of w') q cfg ∧ frame_of (heap_of w') q = ∅ ∧
    (∀ t, lookup_type t cfg = injection_of t (entries scattered_file)) ∧
    i_type <$> cfg = [ERRINJ_NOOP; ERRINJ_ERRNO].
Proof.
  apply (config_init_meaning (str "c") (test_world 0 (with_file scattered_file)));
    [apply test_conf_files_fit|apply test_world_no_oom|reflexivity|discriminate].
Defined.

Lemma config_init_delete_witness :
  ∃ p w', config_init (str "c") (test_world 0 unreadable) = Ok (p, w') ∧
    w_conf w' = w_conf (test_world 0 unreadable) ∧
    w_trace w' = [] ++ load_calls (str "c") unreadable ∧
    match p with
    | Some q => load_config (str "c") unreadable ≠ None ∧
        ∃ m', config_delete (Some q) (w_mem w') = Ok (tt, m') ∧ m_heap m' = ∅
    | None => load_config (str "c") unreadable = None ∧
        ∃ q, (∅ : heap) !! q = None ∧ heap_of w' = <[q := Queue []]> ∅
    end.
Proof.
  apply (config_init_delete (str "c") (test_world 0 unreadable) test_conf_files_fit).
  reflexivity.
Defined.

Lemma config_init_document_witness :
  ∃ q w' cfg, config_init (str "c") (test_world 0 (with_file (print_doc example_doc))) = Ok (Some q, w') ∧
    queue_rep (heap_of w') q cfg ∧ config_ok cfg ∧
    (∀ t, lookup_type t cfg = injection_of t (doc_entries example_doc)).
Proof.
  apply config_init_document.
  - apply test_conf_files_fit.
  - apply test_world_no_oom.
  - apply (bool_decide_unpack (doc_ok example_doc)); by vm_compute.
  - reflexivity.
Defined.
