(* ===== verification/ErrInjProps.v ===== *)
(** * Properties of the error injection

    The theorems about unreliablefs_errinj.c beyond the configuration: the
    refinement of the contract, the reload, safety along any sequence of
    operations, which results are possible, how likely an injection is, and
    what the errno tables allow. *)
From stdpp Require Import base list numbers gmap strings.
From Stdlib Require Import Ascii ZArith.
From S2P Require Import Prelude CLib Errno FuseOp Ini IniPrint IniProps Heap ErrInjConf ConfSpec.
From S2P Require Import ConfRefine ConfLoad World ErrInj ErrInjSpec ErrInjRefine TestEnv.

(** ** Builds *)

(** Every array the switch of [op_random_errno] names is in the platform's
    header, so that unreliablefs_errinj.c compiles. *)
Definition buildable (b : build) : bool :=
  forallb (λ op, match op_errnos b op with Some _ => true | None => false end) (fuse_ops b).

Lemma buildable_table b op :
  buildable b = true → enabled b op = true → ∃ arr, op_errnos b op = Some arr.
Proof.
  unfold buildable, enabled. rewrite forallb_forall. intros Hb Hop%bool_decide_eq_true.
  specialize (Hb op ltac:(by apply list_elem_of_In)). destruct (op_errnos b op); [by eexists|done].
Qed.

(** ** Random choices *)

Lemma chance_mod r p : (0 ≤ r)%Z → chance r p = bool_decide (r `mod` 101 ≤ p)%Z.
Proof.
  intros Hr. unfold chance, MIN_PROBABLITY, MAX_PROBABLITY. rewrite in_range_0 by lia.
  change (100 + 1)%Z with 101%Z. pose proof (Z.mod_pos_bound r 101).
  by rewrite to_uint_small by lia.
Qed.

Lemma pick_small arr i :
  (0 ≤ i ≤ Z.of_nat (length arr))%Z →
  pick arr i = match arr !! Z.to_nat i with Some e => Ok e | None => Fault oob end.
Proof. intros Hi. unfold pick. by rewrite Z.mod_small by lia. Qed.

Lemma pick_elem arr r e : pick arr r = Ok e → e ∈ arr.
Proof.
  unfold pick. case_match; intros [= <-]. by eapply list_elem_of_lookup_2.
Qed.

Lemma pick_cases arr r : (∃ e, pick arr r = Ok e) ∨ pick arr r = Fault oob.
Proof. unfold pick. case_match; eauto. Qed.

Section props.
Context {env : Env} {spec : EnvSpec} {vals : ErrnoValues} (b : build).

(** ** Results of the loop *)

(** What decided the result: no injection, a no-op or an errno injection of
    the configuration that matches the operation. *)
Definition result_of (path : cstr) (op : fuse_op) (cfg : config) (rc : Z) : Prop :=
  ∃ i, i ∈ cfg ∧ matches (i_path i) path = true ∧ matches (i_op i) (op_label op) = true ∧
    ((i_type i = ERRINJ_NOOP ∧ rc = 999%Z) ∨
     (i_type i = ERRINJ_ERRNO ∧ ∃ arr e, op_errnos b op = Some arr ∧ e ∈ arr ∧
                                       rc = (- errno_value e)%Z)).

Lemma effect_result op i rc w rc' w' :
  effect b op i rc w = Ok (rc', w') →
  rc' = rc ∨ (i_type i = ERRINJ_NOOP ∧ rc' = 999%Z) ∨
  (i_type i = ERRINJ_ERRNO ∧ ∃ arr e, op_errnos b op = Some arr ∧ e ∈ arr ∧
                                    rc' = (- errno_value e)%Z).
Proof.
  unfold effect. intros E. repeat case_decide.
  - simplify_eq. auto.
  - simplify_eq. auto.
  - destruct (op_errnos b op) as [arr|] eqn:Et; [|done]. inv_ok.
    right; right. split; [done|]. eexists arr, _. split; [done|]. split; [|done].
    by eapply pick_elem.
  - simplify_eq. auto.
Qed.

Lemma spec_loop_result path op cfg rc w rc' w' :
  spec_loop b path op cfg rc w = Ok (rc', w') → rc' = rc ∨ result_of path op cfg rc'.
Proof.
  revert rc w. induction cfg as [|i cfg IH]; intros rc w; simpl; [intros E; simplify_eq; auto|].
  intros E. apply obind_Ok_inv in E as ([rc1 w1] & E1 & E). simpl in E.
  assert (Hmono : result_of path op cfg rc' → result_of path op (i :: cfg) rc').
  { intros (j & Hj & Hrest). exists j. split; [by right|done]. }
  apply IH in E as [->|E]; [|auto]. unfold spec_one in E1.
  destruct (triggers path op i (draw w)) eqn:Et; [|simplify_eq; auto].
  unfold triggers in Et. apply andb_true_iff in Et as [Et Ho]. apply andb_true_iff in Et as [_ Hp].
  apply effect_result in E1 as [->|E1]; [auto|]. right. exists i. split; [by left|auto].
Qed.

(** ** The loop does not fault but in the errno tables *)

Lemma effect_safe op i rc w :
  buildable b = true → enabled b op = true →
  (∃ r, effect b op i rc w = Ok r) ∨ effect b op i rc w = Fault oob.
Proof.
  intros Hb He. unfold effect. repeat case_decide; [by left; eexists..| |by left; eexists].
  destruct (buildable_table b op Hb He) as [arr ->].
  destruct (pick_cases arr (draw w)) as [[e ->]| ->]; [left; by eexists|by right].
Qed.

Lemma spec_loop_safe path op cfg rc w :
  buildable b = true → enabled b op = true →
  (∃ r, spec_loop b path op cfg rc w = Ok r) ∨ spec_loop b path op cfg rc w = Fault oob.
Proof.
  intros Hb He. revert rc w. induction cfg as [|i cfg IH]; intros rc w; simpl; [left; by eexists|].
  unfold spec_one. destruct (triggers _ _ _ _); [|apply IH].
  destruct (effect_safe op i rc (next_draw w) Hb He) as [[r ->]| ->]; [apply IH|by right].
Qed.

(** ** Injections that do not match *)

Definition after_draws (n : nat) (w : world) : world :=
  {| w_conf := w_conf w; w_mem := w_mem w; w_nrand := n + w_nrand w;
     w_kstate := w_kstate w; w_errno := w_errno w; w_trace := w_trace w |}.

Lemma spec_loop_nothing path op cfg rc w :
  Forall (λ i, matches (i_path i) path && matches (i_op i) (op_label op) = false) cfg →
  spec_loop b path op cfg rc w = Ok (rc, after_draws (length cfg) w).
Proof.
  intros Hall. revert w. induction Hall as [|i cfg Hi _ IH]; intros w; simpl; [by destruct w|].
  unfold spec_one, triggers. rewrite <- andb_assoc, Hi, andb_false_r. simpl.
  rewrite IH. unfold after_draws. simpl. by rewrite Nat.add_succ_r.
Qed.

Lemma spec_loop_app path op cfg1 cfg2 rc w :
  spec_loop b path op (cfg1 ++ cfg2) rc w
  = let* r := spec_loop b path op cfg1 rc w in spec_loop b path op cfg2 r.1 r.2.
Proof.
  revert rc w. induction cfg1 as [|i cfg1 IH]; intros rc w; [done|].
  cbn [app spec_loop]. rewrite obind_assoc. apply obind_ext. intros [rc1 w1]. apply IH.
Qed.
End props.

(** ** Worlds of the witnesses *)

Definition linux_build : build :=
  {| b_platform := Linux; HAVE_XATTR := true; HAVE_FLOCK := true; HAVE_FALLOCATE := true;
     HAVE_UTIMENSAT := true |}.

(** A configuration with one injection of type [t] and probability [p], on
    [read] of any path. *)
Definition one_injection (t p : Z) : injection :=
  {| i_type := t; i_op := Some (str "read"); i_path := None; i_probability := p;
     i_duration := 0 |}.

Definition one_mem (t p : Z) : mem :=
  {| m_heap := {[1%positive := Queue [2%positive];
                 2%positive := Conf {| err_injection_name := None; op_regexp := Some 3%positive;
                                       path_regexp := None; errno_regexp := None;
                                       probability := p; duration := 0; type_ := t |};
                 3%positive := Str (str "read")]};
     m_oom := λ _, false; m_count := 0 |}.

Definition one_world (seed0 t p : Z) (k : script) : world := {|
  w_conf := {| errors := Some 1%positive; basedir := str "/tmp";
               config_path := str "/tmp/unreliablefs.conf";
               seed := seed0; debug := 0; mutex := false |};
  w_mem := one_mem t p; w_nrand := 0; w_kstate := k; w_errno := 0; w_trace := []
|}.

Lemma one_world_rep s t p k :
  (0 ≤ t ≤ 3)%Z → (0 ≤ p < 2 ^ 32)%Z →
  world_rep (one_world s t p k) (Some [one_injection t p])
            (frame_of (m_heap (one_mem t p)) 1%positive).
Proof.
  intros Ht Hp. split; [done|]. simpl. split; [|split; [done|]].
  - exists [2%positive]. split; [done|]. split.
    + constructor; [|done]. eexists. split; [done|]. by repeat split.
    + apply (bool_decide_unpack (NoDup [1; 2; 3]%positive)). by vm_compute.
  - split; [apply NoDup_singleton|]. constructor; [|done]. unfold injection_ok. simpl. lia.
Qed.

(** ** Theorems *)

Section theorems.
Context {env : Env} {spec : EnvSpec} {vals : ErrnoValues} (b : build).

(** C1. The refinement: for an operation on any path but the configuration
    file's, [error_inject], which walks the queue in the heap under the
    mutex, does exactly what the contract [spec_loop] says of the
    configuration the heap holds: the same result, the same draws of [rand],
    the same system calls, the same state afterwards, with the mutex
    released; and it faults exactly when the contract does. *)
Theorem error_inject_refines path op w ocfg fr :
  enabled b op = true → path ≠ config_path (w_conf w) → world_rep w ocfg fr →
  error_inject b path op w = spec_loop b path op (default [] ocfg) 0 w ∧
  (∀ rc w', error_inject b path op w = Ok (rc, w') → world_rep w' ocfg fr).
Proof.
  intros He Hpath Hrep. pose proof (error_inject_eq b path op w ocfg fr He Hpath Hrep) as E.
  split; [done|]. rewrite E. intros rc w' Hrun. by eapply spec_loop_rep.
Qed.

(** C9. The reload: an operation on the configuration file itself returns 0
    without injecting anything, draws no random number and makes only the
    calls that read the file; the old configuration's blocks are all freed
    and the program's configuration is then the meaning of the file's current
    contents (none, with the new queue lost, when the file exists and cannot
    be opened). *)
Theorem error_inject_reloads op w ocfg fr :
  conf_files_fit → no_oom (w_mem w) → world_rep w ocfg fr →
  ∃ w', error_inject b (config_path (w_conf w)) op w = Ok (0%Z, w') ∧
    reloaded (config_path (w_conf w)) w w' fr.
Proof.
  intros Hfit Hno Hrep.
  destruct (error_inject_reload b op w ocfg fr Hfit Hrep) as (w' & Hrun & _ & _ & Hre).
  exists w'. auto.
Qed.

(** One call of [error_inject] keeps the state well formed. *)
Lemma error_inject_step path op w fr0 :
  conf_files_fit → buildable b = true → enabled b op = true → world_ok fr0 w →
  (∃ rc w', error_inject b path op w = Ok (rc, w') ∧ world_ok fr0 w' ∧ kept w w') ∨
  error_inject b path op w = Fault oob.
Proof.
  intros Hfit Hb He (ocfg & fr & Hrep & Hfr).
  destruct (decide (path = config_path (w_conf w))) as [->|Hpath].
  - destruct (error_inject_reload b op w ocfg fr Hfit Hrep) as (w' & Hrun & Hok & Hk & _).
    left. exists 0%Z, w'. split; [done|]. split; [|done].
    destruct Hok as (o & fr' & Hrep' & Hfr'). exists o, fr'. split; [done|]. by etrans.
  - rewrite (error_inject_eq b path op w ocfg fr He Hpath Hrep).
    destruct (spec_loop_safe b path op (default [] ocfg) 0 w Hb He) as [[[rc w'] E]| ->]; [|by right].
    left. exists rc, w'. rewrite E. split; [done|]. split.
    + exists ocfg, fr. split; [by eapply spec_loop_rep|done].
    + apply spec_loop_same_conf in E as [Hc Hm]. unfold kept. by rewrite Hc, Hm.
Qed.

(** The calls of [error_inject] of a sequence of operations. *)
Fixpoint injections (evs : list (cstr * fuse_op)) : M world (list Z) :=
  match evs with
  | [] => retM []
  | (path, op) :: evs' =>
      let! rc := error_inject b path op in
      let! rcs := injections evs' in
      retM (rc :: rcs)
  end.

(** Safety along any sequence of operations, on any paths and with any
    failing allocations: the mutex is never locked twice, no dead, null or
    wrongly typed block is dereferenced, no block is freed twice and no block of
    another owner ([fr0]) is freed or changed; every operation returns and
    leaves a well-formed state.  The only fault that
    can happen is the read past the end of an errno table. *)
Theorem error_inject_sequence_safe evs w fr0 :
  conf_files_fit → buildable b = true → Forall (λ ev, enabled b ev.2 = true) evs → world_ok fr0 w →
  (∃ rcs w', injections evs w = Ok (rcs, w') ∧ length rcs = length evs ∧ world_ok fr0 w') ∨
  injections evs w = Fault oob.
Proof.
  intros Hfit Hb Hall. revert w. induction Hall as [|[path op] evs He _ IH]; intros w Hok.
  { left. by exists [], w. }
  cbn [injections]. unfold bindM.
  destruct (error_inject_step path op w fr0 Hfit Hb He Hok) as [(rc & w1 & E & Hok1 & _)|E];
    rewrite E; [|by right]. cbn [obind].
  destruct (IH w1 Hok1) as [(rcs & w' & E' & Hlen & Hok')|E']; rewrite E'; [|by right].
  left. exists (rc :: rcs), w'. simpl. by rewrite Hlen.
Qed.

(** C24. The possible results: 0, 999 (no-op) when a no-op injection of the
    configuration matches the path and the operation, or the negated value of
    an error of the platform's table for this operation when an errno
    injection does. *)
Theorem error_inject_results path op w cfg fr rc w' :
  enabled b op = true → path ≠ config_path (w_conf w) → world_rep w (Some cfg) fr →
  error_inject b path op w = Ok (rc, w') →
  rc = 0%Z ∨ result_of b path op cfg rc.
Proof.
  intros He Hpath Hrep. rewrite (error_inject_eq b path op w _ fr He Hpath Hrep).
  apply spec_loop_result.
Qed.

(** Without a configuration, or when no injection of it matches both the
    path and the operation, [error_inject] returns 0 and changes nothing but
    the state of [rand], which it advances by one draw per injection. *)
Theorem error_inject_transparent path op w ocfg fr :
  enabled b op = true → path ≠ config_path (w_conf w) → world_rep w ocfg fr →
  Forall (λ i, matches (i_path i) path && matches (i_op i) (op_label op) = false)
         (default [] ocfg) →
  error_inject b path op w = Ok (0%Z, after_draws (length (default [] ocfg)) w).
Proof.
  intros He Hpath Hrep Hall. rewrite (error_inject_eq b path op w _ fr He Hpath Hrep).
  by apply spec_loop_nothing.
Qed.

(** A no-op injection of probability 100 or more that matches and comes
    last decides every operation that does not fault: the result is 999,
    whatever the draws and whatever the injections before it did. *)
Theorem error_inject_noop_certain path op w cfg i fr rc w' :
  enabled b op = true → path ≠ config_path (w_conf w) → world_rep w (Some (cfg ++ [i])) fr →
  i_type i = ERRINJ_NOOP → (100 ≤ i_probability i)%Z →
  matches (i_path i) path = true → matches (i_op i) (op_label op) = true →
  error_inject b path op w = Ok (rc, w') → rc = 999%Z.
Proof.
  intros He Hpath Hrep Ht Hp Hmp Hmo. rewrite (error_inject_eq b path op w _ fr He Hpath Hrep).
  simpl default. rewrite spec_loop_app. intros E.
  apply obind_Ok_inv in E as ([rc1 w1] & _ & E). simpl in E. unfold spec_one, triggers in E.
  rewrite Hmp, Hmo, chance_mod in E by apply draw_range.
  pose proof (Z.mod_pos_bound (draw w1) 101).
  rewrite bool_decide_true in E by lia. simpl in E. unfold effect in E.
  rewrite Ht, decide_True in E by done. simpl in E. by simplify_eq.
Qed.
End theorems.

(** Of the 101 remainders, [min p 100 + 1] are within [p]. *)
Lemma remainders_within p :
  (0 ≤ p)%Z →
  length (filter (λ r, (r ≤ p)%Z) (Z.of_nat <$> seq 0 101)) = S (Z.to_nat (Z.min p 100)).
Proof.
  intros Hp.
  assert (Hall : Forall (λ p, length (filter (λ r, (r ≤ p)%Z) (Z.of_nat <$> seq 0 101))
                              = S (Z.to_nat p)) (Z.of_nat <$> seq 0 101))
    by (apply (bool_decide_unpack _); by vm_compute).
  rewrite Forall_forall in Hall. rewrite <- (Hall (Z.min p 100)).
  - f_equal. apply list_filter_ext. intros r (k & -> & Hk)%list_elem_of_fmap.
    apply elem_of_seq in Hk. lia.
  - apply list_elem_of_fmap. exists (Z.to_nat (Z.min p 100)). split; [lia|]. apply elem_of_seq. lia.
Qed.

(** C25. How likely an injection is: one iteration of the loop of [error_inject],
    at an entry of the queue whose expressions match, draws once and then injects
    exactly when the remainder of the draw modulo 101 is at most the entry's
    probability [p]; otherwise the draw is all it does.  That is [min p 100 + 1]
    of the 101 remainders: an injection of probability 100 or more is certain,
    and one of probability 0 happens for one remainder in 101. *)
Theorem inject_one_probability {env : Env} {spec : EnvSpec} {vals : ErrnoValues}
    b path op a i rc w :
  enabled b op = true → conf_rep (heap_of w) a i → injection_ok i →
  matches (i_path i) path = true → matches (i_op i) (op_label op) = true →
  inject_one b path op a rc w
  = (if decide (draw w `mod` 101 ≤ i_probability i)%Z then effect b op i rc (next_draw w)
     else Ok (rc, next_draw w)) ∧
  length (filter (λ r, (r ≤ i_probability i)%Z) (Z.of_nat <$> seq 0 101))
  = S (Z.to_nat (Z.min (i_probability i) 100)).
Proof.
  intros He Hc Hi Hmp Hmo. split; [|apply remainders_within, Hi].
  rewrite (inject_one_eq b path op a i rc w He Hc Hi). unfold spec_one, triggers.
  rewrite Hmp, Hmo, chance_mod, bool_decide_decide, !andb_true_r by apply draw_range.
  by case_decide.
Qed.

(** C26. The random error: [op_random_errno] takes the element of the
    operation's table at the draw modulo the number of elements plus one.  Every
    element of the table can be chosen; but the index can also be the number of
    elements, and then the read is past the end of the array. *)
Theorem op_random_errno_choice {env : Env} {spec : EnvSpec} {vals : ErrnoValues} b op arr w :
  enabled b op = true → op_errnos b op = Some arr →
  let i := Z.to_nat (draw w `mod` (Z.of_nat (length arr) + 1)) in
  i ≤ length arr ∧
  op_random_errno b op w
  = match arr !! i with
    | Some e => Ok (errno_value e, next_draw w)
    | None => Fault oob
    end ∧
  (op_random_errno b op w = Fault oob ↔ i = length arr).
Proof.
  intros He Harr i. rewrite op_random_errno_eq, Harr by done. unfold pick. fold i.
  pose proof (Z.mod_pos_bound (draw w) (Z.of_nat (length arr) + 1)) as Hmod.
  assert (Hi : i ≤ length arr) by (unfold i; lia).
  split; [done|]. destruct (arr !! i) as [e|] eqn:E; simpl.
  - split; [done|]. apply lookup_lt_Some in E. split; [done|lia].
  - split; [done|]. apply lookup_ge_None in E. split; [lia|done].
Qed.

(** Nine errors in the table of [readlink]: with a draw of 9 the tenth is read. *)
Lemma op_random_errno_choice_witness :
  op_random_errno linux_build OP_READLINK (test_world 9 (with_file [])) = Fault oob.
Proof.
  destruct (op_random_errno_choice linux_build OP_READLINK linux_errno_readlink
    (test_world 9 (with_file [])) eq_refl eq_refl) as (_ & _ & Hf).
  apply Hf. reflexivity.
Defined.

(** The array [fuse_op_name] and the enumeration [fuse_op], which two files
    write under the same conditions, agree in every build: the enumerators are
    distinct and the name at the value of an enumerator is the operation's. *)
Theorem fuse_op_names_aligned b :
  fuse_op_name b = op_label <$> fuse_ops b ∧ NoDup (fuse_ops b).
Proof.
  pose proof (all_builds_ops (λ b _, bool_decide (fuse_op_name b = op_label <$> fuse_ops b)
    && bool_decide (NoDup (fuse_ops b))) ltac:(by vm_compute) b OP_READ) as H.
  apply andb_true_iff in H as [H1 H2]. by apply bool_decide_eq_true in H1, H2.
Qed.

(** Which builds compile: those whose header defines an array for each
    case of the switch.  The BSD headers have none for the extended attributes,
    only the Linux header has one for [fallocate]. *)
Theorem buildable_platforms b :
  buildable b = match b_platform b with
                | Linux => true
                | MacOSX => negb (HAVE_FALLOCATE b)
                | FreeBSD _ | OpenBSD => negb (HAVE_XATTR b) && negb (HAVE_FALLOCATE b)
                end.
Proof. destruct b as [[|[]| |] [] [] [] []]; by vm_compute. Qed.

(** On macOS the arrays for [opendir] and [readdir] are empty: an errno
    injection that is certain to trigger makes every such operation read past
    the end of the array, whatever the draw. *)
Theorem macosx_directory_errno_faults {env : Env} {spec : EnvSpec} {vals : ErrnoValues}
    b op path w i fr :
  b_platform b = MacOSX → op = OP_OPENDIR ∨ op = OP_READDIR →
  path ≠ config_path (w_conf w) → world_rep w (Some [i]) fr →
  i_type i = ERRINJ_ERRNO → (100 ≤ i_probability i)%Z →
  matches (i_path i) path = true → matches (i_op i) (op_label op) = true →
  error_inject b path op w = Fault oob.
Proof.
  intros Hb Hop Hpath Hrep Ht Hp Hmp Hmo.
  assert (He : enabled b op = true).
  { destruct b as [pf [] [] [] []]; simpl in Hb; subst pf; by destruct Hop as [->| ->]. }
  assert (Harr : op_errnos b op = Some []).
  { unfold op_errnos. rewrite Hb. by destruct Hop as [->| ->]. }
  rewrite (error_inject_eq b path op w _ fr He Hpath Hrep). simpl.
  unfold spec_one, triggers. rewrite Hmp, Hmo, chance_mod by apply draw_range.
  pose proof (Z.mod_pos_bound (draw w) 101). rewrite bool_decide_true by lia. simpl.
  unfold effect. rewrite Ht, !decide_False by done. rewrite decide_True by done.
  by rewrite Harr.
Qed.

(** ** Witnesses *)

(** The other blocks in the heap of [one_world]: none. *)
Definition one_frame (t p : Z) : heap := frame_of (m_heap (one_mem t p)) 1%positive.

Definition noop_world : world := one_world 0 ERRINJ_NOOP 100 (with_file (print_doc example_doc)).
(** Probability 0, and a draw whose remainder is 0: a no-op. *)
Lemma inject_one_probability_witness :
  let w := one_world 101 ERRINJ_NOOP 0 (with_file []) in
  inject_one linux_build (str "/a") OP_READ 2%positive 0 w = Ok (999%Z, next_draw w) ∧
  length (filter (λ r, (r ≤ 0)%Z) (Z.of_nat <$> seq 0 101)) = 1.
Proof.
  intros w.
  apply (inject_one_probability linux_build (str "/a") OP_READ 2%positive (one_injection ERRINJ_NOOP 0) 0 w).
  - reflexivity.
  - eexists. split; [reflexivity|]. by repeat split.
  - unfold injection_ok. simpl. unfold ERRINJ_NOOP. lia.
  - reflexivity.
  - reflexivity.
Defined.

Definition errno_world : world := one_world 5 ERRINJ_ERRNO 100 (with_file []).

Lemma noop_world_rep :
  world_rep noop_world (Some [one_injection ERRINJ_NOOP 100]) (one_frame ERRINJ_NOOP 100).
Proof. by apply one_world_rep. Qed.

Lemma errno_world_rep :
  world_rep errno_world (Some [one_injection ERRINJ_ERRNO 100]) (one_frame ERRINJ_ERRNO 100).
Proof. by apply one_world_rep. Qed.

(** The result of a run. *)
Definition result_code {env : Env} (c : outcome (Z * world)) : option Z :=
  match c with Ok (rc, _) => Some rc | _ => None end.

Lemma error_inject_refines_witness :
  error_inject linux_build (str "/a") OP_READ noop_world
  = spec_loop linux_build (str "/a") OP_READ [one_injection ERRINJ_NOOP 100] 0 noop_world.
Proof.
  apply (error_inject_refines linux_build (str "/a") OP_READ noop_world
    (Some [one_injection ERRINJ_NOOP 100]) (one_frame ERRINJ_NOOP 100)).
  - reflexivity.
  - by vm_compute.
  - apply noop_world_rep.
Defined.

Lemma error_inject_reloads_witness :
  ∃ w', error_inject linux_build (str "/tmp/unreliablefs.conf") OP_OPEN noop_world = Ok (0%Z, w') ∧
    reloaded (str "/tmp/unreliablefs.conf") noop_world w' (one_frame ERRINJ_NOOP 100).
Proof.
  apply (error_inject_reloads linux_build OP_OPEN noop_world
    (Some [one_injection ERRINJ_NOOP 100]) (one_frame ERRINJ_NOOP 100)).
  - apply test_conf_files_fit.
  - intros n. reflexivity.
  - apply noop_world_rep.
Defined.

Lemma error_inject_sequence_safe_witness :
  let evs := [(str "/tmp/unreliablefs.conf", OP_WRITE); (str "/a", OP_READ)] in
  (∃ rcs w', injections linux_build evs noop_world = Ok (rcs, w') ∧ length rcs = 2 ∧
     world_ok (one_frame ERRINJ_NOOP 100) w') ∨
  injections linux_build evs noop_world = Fault oob.
Proof.
  apply error_inject_sequence_safe.
  - apply test_conf_files_fit.
  - reflexivity.
  - by repeat constructor.
  - eexists _, _. split; [apply noop_world_rep|done].
Defined.

Lemma error_inject_results_witness :
  ∃ rc w', error_inject linux_build (str "/a") OP_READ errno_world = Ok (rc, w') ∧
    (rc = 0%Z ∨ result_of linux_build (str "/a") OP_READ [one_injection ERRINJ_ERRNO 100] rc).
Proof.
  assert (Hrc : result_code (error_inject linux_build (str "/a") OP_READ errno_world) ≠ None)
    by (by vm_compute).
  destruct (error_inject linux_build (str "/a") OP_READ errno_world) as [[rc w']| |] eqn:E;
    [|by destruct Hrc..].
  exists rc, w'. split; [reflexivity|].
  apply (error_inject_results linux_build (str "/a") OP_READ errno_world _
    (one_frame ERRINJ_ERRNO 100) rc w'); [reflexivity|by vm_compute|apply errno_world_rep|exact E].
Defined.

Lemma error_inject_transparent_witness :
  error_inject linux_build (str "/a") OP_WRITE noop_world = Ok (0%Z, after_draws 1 noop_world).
Proof.
  apply (error_inject_transparent linux_build (str "/a") OP_WRITE noop_world
    (Some [one_injection ERRINJ_NOOP 100]) (one_frame ERRINJ_NOOP 100)).
  - reflexivity.
  - by vm_compute.
  - apply noop_world_rep.
  - constructor; [by vm_compute|constructor].
Defined.

Lemma error_inject_noop_certain_witness :
  ∃ rc w', error_inject linux_build (str "/a") OP_READ noop_world = Ok (rc, w') ∧ rc = 999%Z.
Proof.
  assert (Hrc : result_code (error_inject linux_build (str "/a") OP_READ noop_world) ≠ None)
    by (by vm_compute).
  destruct (error_inject linux_build (str "/a") OP_READ noop_world) as [[rc w']| |] eqn:E;
    [|by destruct Hrc..].
  exists rc, w'. split; [reflexivity|].
  apply (error_inject_noop_certain linux_build (str "/a") OP_READ noop_world []
    (one_injection ERRINJ_NOOP 100) (one_frame ERRINJ_NOOP 100) rc w');
    [reflexivity|by vm_compute|apply noop_world_rep|reflexivity|done|reflexivity|by vm_compute|exact E].
Defined.

Definition macosx_build : build :=
  {| b_platform := MacOSX; HAVE_XATTR := true; HAVE_FLOCK := true; HAVE_FALLOCATE := false;
     HAVE_UTIMENSAT := true |}.

(** An errno injection on every operation. *)
Definition any_op_world : world := {|
  w_conf := w_conf errno_world;
  w_mem := {| m_heap := {[1%positive := Queue [2%positive];
                          2%positive := Conf (set_type ERRINJ_ERRNO (set_probability 100 zero_conf))]};
              m_oom := λ _, false; m_count := 0 |};
  w_nrand := 0; w_kstate := with_file []; w_errno := 0; w_trace := []
|}.
Definition any_op_injection : injection :=
  {| i_type := ERRINJ_ERRNO; i_op := None; i_path := None; i_probability := 100; i_duration := 0 |}.

Lemma any_op_world_rep :
  world_rep any_op_world (Some [any_op_injection]) (frame_of (heap_of any_op_world) 1%positive).
Proof.
  split; [done|]. simpl. split; [|split; [done|]].
  - exists [2%positive]. split; [done|]. split.
    + constructor; [|done]. eexists. split; [done|]. by repeat split.
    + apply (bool_decide_unpack (NoDup [1; 2]%positive)). by vm_compute.
  - split; [apply NoDup_singleton|]. by repeat constructor.
Qed.

Lemma macosx_directory_errno_faults_witness :
  error_inject macosx_build (str "/a") OP_OPENDIR any_op_world = Fault oob.
Proof.
  apply (macosx_directory_errno_faults macosx_build OP_OPENDIR (str "/a") any_op_world
    any_op_injection (frame_of (heap_of any_op_world) 1%positive));
    [reflexivity|by left|by vm_compute|apply any_op_world_rep|reflexivity|done|reflexivity|reflexivity].
Defined.
