(* ===== verification/Ops.v ===== *)
(** * unreliablefs_ops.c: the file operations

    The handlers that FUSE calls, one definition per function.  Each first
    calls [error_inject] and returns at once when an error or a no-op is
    injected ([guard]); else it makes the system calls of the operation.
    Output parameters are passed in and returned: a buffer is its bytes, the
    [fuse_file_info] an optional record ([None]: the null pointer). *)
From stdpp Require Import base list numbers gmap strings.
From Stdlib Require Import Ascii ZArith.
From S2P Require Import Prelude CLib Errno FuseOp Heap ErrInjConf World ErrInj.

(** The members of [struct fuse_file_info] the handlers use. *)
Record fuse_file_info := { flags : Z; fh : Z }.
Definition set_fh (h : Z) (fi : fuse_file_info) : fuse_file_info :=
  {| flags := flags fi; fh := h |}.

(** The members of [struct stat] that [readdir] fills; the others are 0. *)
Record dir_stat := { st_ino : Z; st_mode : Z }.

Definition O_RDONLY : Z := 0.
Definition O_WRONLY : Z := 1.
Definition XATTR_NOFOLLOW : Z := 1.
Definition AT_SYMLINK_NOFOLLOW (p : platform) : Z :=
  match p with Linux => 256 | FreeBSD _ => 512 | OpenBSD => 2 | MacOSX => 32 end.

(** What a call that succeeded wrote to a buffer. *)
Definition copy_out (buf out : cstr) : outcome cstr :=
  if decide (length out ≤ length buf) then Ok (out ++ drop (length out) buf) else Fault oob.

Section ops.
Context {env : Env} {vals : ErrnoValues} (b : build).

(** [fi->...] *)
Definition deref_fi (fi : option fuse_file_info) : M world fuse_file_info :=
  match fi with Some i => retM i | None => fault_ null_deref end.

(** [return -errno;] *)
Definition neg_errno : M world Z := gets (λ w, (- w_errno w)%Z).

(** The first statements of every handler; [reply ret] returns [ret] with the
    output parameters as they were. *)
Definition guard {A} (path : cstr) (op : fuse_op) (reply : Z → A) (body : M world A)
    : M world A :=
  let! ret := error_inject b path op in
  if decide (ret = - ERRNO_NOOP)%Z then retM (reply 0%Z)
  else if decide (ret ≠ 0%Z) then retM (reply ret)
  else body.

(** [ret = call; if (ret == -1) return -errno; return 0;] *)
Definition call_check (c : syscall) : M world Z :=
  let! r := sys c in
  let ret := to_int (sr_ret r) in
  if decide (ret = -1)%Z then neg_errno else retM 0%Z.

(** The same with [if (ret < 0)]. *)
Definition call_check_lt (c : syscall) : M world Z :=
  let! r := sys c in
  let ret := to_int (sr_ret r) in
  if decide (ret < 0)%Z then neg_errno else retM 0%Z.

(** The same when the call writes to [buf]. *)
Definition call_check_out (c : syscall) (buf : cstr) : M world (Z * cstr) :=
  let! r := sys c in
  let ret := to_int (sr_ret r) in
  if decide (ret = -1)%Z then let! e := neg_errno in retM (e, buf)
  else let! buf' := lift (copy_out buf (sr_out r)) in retM (0%Z, buf').

(** ** Attributes *)

(** [memset(buf, 0, sizeof(struct stat))], then [lstat]. *)
Definition unreliable_lstat (path buf : cstr) : M world (Z * cstr) :=
  guard path OP_LSTAT (λ ret, (ret, buf)) (
    call_check_out (Sys_lstat path) (replicate (length buf) NUL)).

Definition unreliable_getattr (path buf : cstr) : M world (Z * cstr) :=
  guard path OP_GETATTR (λ ret, (ret, buf)) (
    call_check_out (Sys_lstat path) (replicate (length buf) NUL)).

(** [buf] is the caller's buffer of [bufsiz] bytes. *)
Definition unreliable_readlink (path buf : cstr) (bufsiz : Z) : M world (Z * cstr) :=
  guard path OP_READLINK (λ ret, (ret, buf)) (
    let! r := sys (Sys_readlink path bufsiz) in
    let ret := to_int (sr_ret r) in
    if decide (ret = -1)%Z then let! e := neg_errno in retM (e, buf)
    else
      let! buf' := lift (copy_out buf (sr_out r)) in
      (* buf[ret] = 0; *)
      let! buf'' := (if decide (ret < 0)%Z then fault_ oob
                     else lift (store buf' (Z.to_nat ret) NUL)) in
      retM (0%Z, buf'')).

Definition unreliable_fgetattr (path buf : cstr) (fi : option fuse_file_info)
    : M world (Z * cstr) :=
  guard path OP_FGETATTR (λ ret, (ret, buf)) (
    let! i := deref_fi fi in
    call_check_out (Sys_fstat (to_int (fh i))) buf).

Definition unreliable_statfs (path buf : cstr) : M world (Z * cstr) :=
  guard path OP_STATFS (λ ret, (ret, buf)) (call_check_out (Sys_statvfs path) buf).

Definition unreliable_access (path : cstr) (mode : Z) : M world Z :=
  guard path OP_ACCESS id (call_check (Sys_access path mode)).

(** Nothing is set up or torn down: [init] returns NULL, the private data. *)
Definition unreliable_init : ptr := None.
Definition unreliable_destroy (private_data : ptr) : M world unit := retM tt.

(** ** Names *)

Definition unreliable_mknod (path : cstr) (mode dev : Z) : M world Z :=
  guard path OP_MKNOD id (call_check (Sys_mknod path mode dev)).

Definition unreliable_mkdir (path : cstr) (mode : Z) : M world Z :=
  guard path OP_MKDIR id (call_check (Sys_mkdir path mode)).

Definition unreliable_unlink (path : cstr) : M world Z :=
  guard path OP_UNLINK id (call_check (Sys_unlink path)).

Definition unreliable_rmdir (path : cstr) : M world Z :=
  guard path OP_RMDIR id (call_check (Sys_rmdir path)).

(** The injection looks at the target. *)
Definition unreliable_symlink (target linkpath : cstr) : M world Z :=
  guard target OP_SYMLINK id (call_check (Sys_symlink target linkpath)).

Definition unreliable_rename (oldpath newpath : cstr) : M world Z :=
  guard oldpath OP_RENAME id (call_check (Sys_rename oldpath newpath)).

Definition unreliable_link (oldpath newpath : cstr) : M world Z :=
  guard oldpath OP_LINK id (call_check_lt (Sys_link oldpath newpath)).

Definition unreliable_chmod (path : cstr) (mode : Z) : M world Z :=
  guard path OP_CHMOD id (call_check_lt (Sys_chmod path mode)).

Definition unreliable_chown (path : cstr) (owner group : Z) : M world Z :=
  guard path OP_CHOWN id (call_check (Sys_chown path owner group)).

Definition unreliable_truncate (path : cstr) (length : Z) : M world Z :=
  guard path OP_TRUNCATE id (call_check (Sys_truncate path length)).

Definition unreliable_ftruncate (path : cstr) (length : Z) (fi : option fuse_file_info)
    : M world Z :=
  guard path OP_FTRUNCATE id (call_check (Sys_truncate path length)).

Definition unreliable_utimens (path : cstr) (ts : timespecs) : M world Z :=
  guard path OP_UTIMENS id (
    call_check (Sys_utimensat 0 path ts (AT_SYMLINK_NOFOLLOW (b_platform b)))).

(** ** Open files *)

(** [ret = open(...); if (ret == -1) return -errno; fi->fh = ret; return 0;] *)
Definition open_check (c : syscall) (i : fuse_file_info)
    : M world (Z * option fuse_file_info) :=
  let! r := sys c in
  let ret := to_int (sr_ret r) in
  if decide (ret = -1)%Z then let! e := neg_errno in retM (e, Some i)
  else retM (0%Z, Some (set_fh (to_u64 ret) i)).

Definition unreliable_open (path : cstr) (fi : option fuse_file_info)
    : M world (Z * option fuse_file_info) :=
  guard path OP_OPEN (λ ret, (ret, fi)) (
    let! i := deref_fi fi in
    open_check (Sys_open path (flags i)) i).

Definition unreliable_create (path : cstr) (mode : Z) (fi : option fuse_file_info)
    : M world (Z * option fuse_file_info) :=
  guard path OP_CREAT (λ ret, (ret, fi)) (
    let! i := deref_fi fi in
    open_check (Sys_open_mode path (flags i) mode) i).

(** [fd = fi == NULL ? open(path, fl) : fi->fh] *)
Definition get_fd (path : cstr) (fl : Z) (fi : option fuse_file_info) : M world Z :=
  match fi with
  | None => let! r := sys (Sys_open path fl) in retM (to_int (sr_ret r))
  | Some i => retM (to_int (fh i))
  end.

(** [if (fi == NULL) close(fd);] *)
Definition put_fd (fd : Z) (fi : option fuse_file_info) : M world unit :=
  match fi with
  | None => do! sys (Sys_close fd) in retM tt
  | Some _ => retM tt
  end.

Definition unreliable_read (path buf : cstr) (size offset : Z) (fi : option fuse_file_info)
    : M world (Z * cstr) :=
  guard path OP_READ (λ ret, (ret, buf)) (
    let! fd := get_fd path O_RDONLY fi in
    if decide (fd = -1)%Z then let! e := neg_errno in retM (e, buf)
    else
      let! r := sys (Sys_pread fd size offset) in
      let ret := to_int (sr_ret r) in
      let! res := (if decide (ret = -1)%Z then let! e := neg_errno in retM (e, buf)
                   else let! buf' := lift (copy_out buf (sr_out r)) in retM (ret, buf')) in
      do! put_fd fd fi in
      retM res).

Definition unreliable_write (path buf : cstr) (size offset : Z) (fi : option fuse_file_info)
    : M world Z :=
  guard path OP_WRITE id (
    let! fd := get_fd path O_WRONLY fi in
    if decide (fd = -1)%Z then neg_errno
    else
      let! r := sys (Sys_pwrite fd buf size offset) in
      let ret := to_int (sr_ret r) in
      let! ret := (if decide (ret = -1)%Z then neg_errno else retM ret) in
      do! put_fd fd fi in
      retM ret).

(** [close(dup(fi->fh))] *)
Definition unreliable_flush (path : cstr) (fi : option fuse_file_info) : M world Z :=
  guard path OP_FLUSH id (
    let! i := deref_fi fi in
    let! d := sys (Sys_dup (to_int (fh i))) in
    call_check (Sys_close (to_int (sr_ret d)))).

Definition unreliable_release (path : cstr) (fi : option fuse_file_info) : M world Z :=
  guard path OP_RELEASE id (
    let! i := deref_fi fi in
    call_check (Sys_close (to_int (fh i)))).

Definition unreliable_fsync (path : cstr) (datasync : Z) (fi : option fuse_file_info)
    : M world Z :=
  guard path OP_FSYNC id (
    let! i := deref_fi fi in
    if decide (datasync ≠ 0%Z) then call_check (Sys_fdatasync (to_int (fh i)))
    else call_check (Sys_fsync (to_int (fh i)))).

(** [fl] is the bytes of the [struct flock], which F_GETLK overwrites. *)
Definition unreliable_lock (path : cstr) (fi : option fuse_file_info) (cmd : Z) (fl : cstr)
    : M world (Z * cstr) :=
  guard path OP_LOCK (λ ret, (ret, fl)) (
    let! i := deref_fi fi in
    call_check_out (Sys_fcntl (to_int (fh i)) cmd fl) fl).

(** [arg] is the pointer; what the device does through it is the kernel's. *)
Definition unreliable_ioctl (path : cstr) (cmd arg : Z) (fi : option fuse_file_info)
    (fl data : Z) : M world Z :=
  guard path OP_IOCTL id (
    let! i := deref_fi fi in
    let! r := sys (Sys_ioctl (to_int (fh i)) cmd arg) in
    let ret := to_int (sr_ret r) in
    if decide (ret = -1)%Z then neg_errno else retM ret).

Definition unreliable_flock (path : cstr) (fi : option fuse_file_info) (op : Z) : M world Z :=
  guard path OP_FLOCK id (
    let! i := deref_fi fi in
    call_check (Sys_flock (to_int (fh i)) op)).

Definition unreliable_fallocate (path : cstr) (mode offset len : Z)
    (fi : option fuse_file_info) : M world Z :=
  guard path OP_FALLOCATE id (
    if decide (mode ≠ 0%Z) then retM (- errno_value EOPNOTSUPP)%Z
    else
      let! fd := get_fd path O_WRONLY fi in
      if decide (fd = -1)%Z then neg_errno
      else
        let! i := deref_fi fi in
        let! r := sys (Sys_fallocate (to_int (fh i)) mode offset len) in
        if decide (to_int (sr_ret r) = -1)%Z then neg_errno
        else do! put_fd fd fi in retM 0%Z).

(** ** Extended attributes *)

Definition is_apple : bool := bool_decide (b_platform b = MacOSX).

Definition unreliable_setxattr (path name value : cstr) (size fl : Z) : M world Z :=
  guard path OP_SETXATTR id (
    call_check (if is_apple then Sys_setxattr_apple path name value size 0 fl
                else Sys_setxattr path name value size fl)).

Definition unreliable_getxattr (path name value : cstr) (size : Z) : M world (Z * cstr) :=
  guard path OP_GETXATTR (λ ret, (ret, value)) (
    call_check_out (if is_apple then Sys_getxattr_apple path name size 0 XATTR_NOFOLLOW
                    else Sys_getxattr path name size) value).

Definition unreliable_listxattr (path list : cstr) (size : Z) : M world (Z * cstr) :=
  guard path OP_LISTXATTR (λ ret, (ret, list)) (
    let! r := sys (if is_apple then Sys_listxattr_apple path size XATTR_NOFOLLOW
                   else Sys_listxattr path size) in
    let ret := to_int (sr_ret r) in
    if decide (ret = -1)%Z then let! e := neg_errno in retM (e, list)
    else let! list' := lift (copy_out list (sr_out r)) in retM (ret, list')).

Definition unreliable_removexattr (path name : cstr) : M world Z :=
  guard path OP_REMOVEXATTR id (
    call_check (if is_apple then Sys_removexattr_apple path name XATTR_NOFOLLOW
                else Sys_removexattr path name)).

(** ** Directories *)

(** [fi->fh = (int64_t) dir;] *)
Definition unreliable_opendir (path : cstr) (fi : option fuse_file_info)
    : M world (Z * option fuse_file_info) :=
  guard path OP_OPENDIR (λ ret, (ret, fi)) (
    let! dir := sys (Sys_opendir path) in
    if decide (sr_ret dir = 0%Z) then let! e := neg_errno in retM (e, fi)
    else
      let! i := deref_fi fi in
      retM (0%Z, Some (set_fh (to_u64 (to_s64 (sr_ret dir))) i))).

Section filler.
(** [fuse_fill_dir_t]: from the buffer, the name, the attributes and the
    offset, the result and the new buffer. *)
Context {F : Type} (filler : F → cstr → dir_stat → Z → Z * F).

(** The [while] loop; fuel: more than the number of entries. *)
Fixpoint readdir_loop (fuel : nat) (dp : Z) (buf : F) : M world F :=
  match fuel with
  | O => nofuel
  | S fuel' =>
      let! de := sys (Sys_readdir dp) in
      match sr_dirent de with
      | None => retM buf
      | Some d =>
          let st := {| st_ino := d_ino d; st_mode := Z.shiftl (d_type d) 12 |} in
          let '(full, buf') := filler buf (d_name d) st 0%Z in
          if decide (full ≠ 0%Z) then retM buf' else readdir_loop fuel' dp buf'
      end
  end.

Definition unreliable_readdir (fuel : nat) (path : cstr) (buf : F) (offset : Z)
    (fi : option fuse_file_info) : M world (Z * F) :=
  guard path OP_READDIR (λ ret, (ret, buf)) (
    let! dp := sys (Sys_opendir path) in
    if decide (sr_ret dp = 0%Z) then let! e := neg_errno in retM (e, buf)
    else
      let! buf' := readdir_loop fuel (sr_ret dp) buf in
      do! sys (Sys_closedir (sr_ret dp)) in
      retM (0%Z, buf')).
End filler.

Definition unreliable_releasedir (path : cstr) (fi : option fuse_file_info) : M world Z :=
  guard path OP_RELEASEDIR id (
    let! i := deref_fi fi in
    call_check (Sys_closedir (fh i))).

Definition unreliable_fsyncdir (path : cstr) (datasync : Z) (fi : option fuse_file_info)
    : M world Z :=
  guard path OP_FSYNCDIR id (
    let! dir := sys (Sys_opendir path) in
    if decide (sr_ret dir = 0%Z) then neg_errno
    else
      let! fd := sys (Sys_dirfd (sr_ret dir)) in
      let! r := sys (if decide (datasync ≠ 0%Z) then Sys_fdatasync (to_int (sr_ret fd))
                     else Sys_fsync (to_int (sr_ret fd))) in
      if decide (to_int (sr_ret r) = -1)%Z then neg_errno
      else do! sys (Sys_closedir (sr_ret dir)) in retM 0%Z).
End ops.
