(* ===== verification/Handlers.v ===== *)
(** * Requests and their dispatch

    The handlers of unreliablefs_ops.c as one function of a request, which is
    how FUSE sees them, the table [unreliable_ops] of unreliablefs.c, and the
    contract of the requests that need one system call ([single], [finish]). *)
From stdpp Require Import base list numbers gmap strings.
From Stdlib Require Import Ascii ZArith.
From S2P Require Import Prelude CLib Errno FuseOp Heap ErrInjConf World ErrInj Ops.

(** A call of a handler with its arguments; [lstat] is a handler that the table
    does not register. *)
Inductive request :=
  | RLstat (path buf : cstr) | RGetattr (path buf : cstr)
  | RReadlink (path buf : cstr) (bufsiz : Z)
  | RMknod (path : cstr) (mode dev : Z) | RMkdir (path : cstr) (mode : Z)
  | RUnlink (path : cstr) | RRmdir (path : cstr)
  | RSymlink (target linkpath : cstr) | RRename (oldpath newpath : cstr)
  | RLink (oldpath newpath : cstr)
  | RChmod (path : cstr) (mode : Z) | RChown (path : cstr) (owner group : Z)
  | RTruncate (path : cstr) (length : Z)
  | ROpen (path : cstr) (fi : option fuse_file_info)
  | RRead (path buf : cstr) (size offset : Z) (fi : option fuse_file_info)
  | RWrite (path buf : cstr) (size offset : Z) (fi : option fuse_file_info)
  | RStatfs (path buf : cstr)
  | RFlush (path : cstr) (fi : option fuse_file_info)
  | RRelease (path : cstr) (fi : option fuse_file_info)
  | RFsync (path : cstr) (datasync : Z) (fi : option fuse_file_info)
  | RSetxattr (path name value : cstr) (size fl : Z)
  | RGetxattr (path name value : cstr) (size : Z)
  | RListxattr (path list : cstr) (size : Z)
  | RRemovexattr (path name : cstr)
  | ROpendir (path : cstr) (fi : option fuse_file_info)
  | RReaddir (path : cstr) (offset : Z) (fi : option fuse_file_info)
  | RReleasedir (path : cstr) (fi : option fuse_file_info)
  | RFsyncdir (path : cstr) (datasync : Z) (fi : option fuse_file_info)
  | RAccess (path : cstr) (mode : Z)
  | RCreate (path : cstr) (mode : Z) (fi : option fuse_file_info)
  | RFtruncate (path : cstr) (length : Z) (fi : option fuse_file_info)
  | RFgetattr (path buf : cstr) (fi : option fuse_file_info)
  | RLock (path : cstr) (fi : option fuse_file_info) (cmd : Z) (fl : cstr)
  | RIoctl (path : cstr) (cmd arg : Z) (fi : option fuse_file_info) (fl data : Z)
  | RFlock (path : cstr) (fi : option fuse_file_info) (op : Z)
  | RFallocate (path : cstr) (mode offset len : Z) (fi : option fuse_file_info)
  | RUtimens (path : cstr) (ts : timespecs).

(** The operation a request is for. *)
Definition req_op (q : request) : fuse_op :=
  match q with
  | RLstat _ _ => OP_LSTAT | RGetattr _ _ => OP_GETATTR | RReadlink _ _ _ => OP_READLINK
  | RMknod _ _ _ => OP_MKNOD | RMkdir _ _ => OP_MKDIR | RUnlink _ => OP_UNLINK
  | RRmdir _ => OP_RMDIR | RSymlink _ _ => OP_SYMLINK | RRename _ _ => OP_RENAME
  | RLink _ _ => OP_LINK | RChmod _ _ => OP_CHMOD | RChown _ _ _ => OP_CHOWN
  | RTruncate _ _ => OP_TRUNCATE | ROpen _ _ => OP_OPEN | RRead _ _ _ _ _ => OP_READ
  | RWrite _ _ _ _ _ => OP_WRITE | RStatfs _ _ => OP_STATFS | RFlush _ _ => OP_FLUSH
  | RRelease _ _ => OP_RELEASE | RFsync _ _ _ => OP_FSYNC
  | RSetxattr _ _ _ _ _ => OP_SETXATTR | RGetxattr _ _ _ _ => OP_GETXATTR
  | RListxattr _ _ _ => OP_LISTXATTR | RRemovexattr _ _ => OP_REMOVEXATTR
  | ROpendir _ _ => OP_OPENDIR | RReaddir _ _ _ => OP_READDIR
  | RReleasedir _ _ => OP_RELEASEDIR | RFsyncdir _ _ _ => OP_FSYNCDIR
  | RAccess _ _ => OP_ACCESS | RCreate _ _ _ => OP_CREAT | RFtruncate _ _ _ => OP_FTRUNCATE
  | RFgetattr _ _ _ => OP_FGETATTR | RLock _ _ _ _ => OP_LOCK
  | RIoctl _ _ _ _ _ _ => OP_IOCTL | RFlock _ _ _ => OP_FLOCK
  | RFallocate _ _ _ _ _ => OP_FALLOCATE | RUtimens _ _ => OP_UTIMENS
  end.

(** The path the injection looks at: the first path of the request. *)
Definition req_path (q : request) : cstr :=
  match q with
  | RLstat p _ | RGetattr p _ | RReadlink p _ _ | RMknod p _ _ | RMkdir p _ | RUnlink p
  | RRmdir p | RSymlink p _ | RRename p _ | RLink p _ | RChmod p _ | RChown p _ _
  | RTruncate p _ | ROpen p _ | RRead p _ _ _ _ | RWrite p _ _ _ _ | RStatfs p _
  | RFlush p _ | RRelease p _ | RFsync p _ _ | RSetxattr p _ _ _ _ | RGetxattr p _ _ _
  | RListxattr p _ _ | RRemovexattr p _ | ROpendir p _ | RReaddir p _ _ | RReleasedir p _
  | RFsyncdir p _ _ | RAccess p _ | RCreate p _ _ | RFtruncate p _ _ | RFgetattr p _ _
  | RLock p _ _ _ | RIoctl p _ _ _ _ _ | RFlock p _ _ | RFallocate p _ _ _ _
  | RUtimens p _ => p
  end.

(** The request's [fuse_file_info] and output buffer. *)
Definition req_fi (q : request) : option fuse_file_info :=
  match q with
  | ROpen _ fi | RRead _ _ _ _ fi | RWrite _ _ _ _ fi | RFlush _ fi | RRelease _ fi
  | RFsync _ _ fi | ROpendir _ fi | RReaddir _ _ fi | RReleasedir _ fi | RFsyncdir _ _ fi
  | RCreate _ _ fi | RFtruncate _ _ fi | RFgetattr _ _ fi | RLock _ fi _ _
  | RIoctl _ _ _ fi _ _ | RFlock _ fi _ | RFallocate _ _ _ _ fi => fi
  | _ => None
  end.

Definition req_buf (q : request) : cstr :=
  match q with
  | RLstat _ buf | RGetattr _ buf | RReadlink _ buf _ | RRead _ buf _ _ _ | RStatfs _ buf
  | RGetxattr _ _ buf _ | RListxattr _ buf _ | RFgetattr _ buf _ | RLock _ _ _ buf => buf
  | _ => []
  end.

Section handlers.
Context {env : Env} {vals : ErrnoValues} (b : build).
Context {F : Type} (filler : F → cstr → dir_stat → Z → Z * F) (fuel : nat).

(** What the caller gets back: the result and the output parameters. *)
Record response := {
  r_ret : Z;
  r_fi : option fuse_file_info;
  r_buf : cstr;
  r_dir : F
}.

(** A reply that leaves the output parameters as they were; [d] is the
    directory buffer of the caller. *)
Definition reply (q : request) (d : F) (ret : Z) : response :=
  {| r_ret := ret; r_fi := req_fi q; r_buf := req_buf q; r_dir := d |}.
Definition reply_buf (q : request) (d : F) (r : Z * cstr) : response :=
  {| r_ret := r.1; r_fi := req_fi q; r_buf := r.2; r_dir := d |}.
Definition reply_fi (q : request) (d : F) (r : Z * option fuse_file_info) : response :=
  {| r_ret := r.1; r_fi := r.2; r_buf := req_buf q; r_dir := d |}.
Definition reply_dir (q : request) (r : Z * F) : response :=
  {| r_ret := r.1; r_fi := req_fi q; r_buf := req_buf q; r_dir := r.2 |}.

Definition respond {A B} (f : A → B) (c : M world A) : M world B := let! a := c in retM (f a).

(** The handler of a request. *)
Definition handle (d : F) (q : request) : M world response :=
  match q with
  | RLstat p buf => respond (reply_buf q d) (unreliable_lstat b p buf)
  | RGetattr p buf => respond (reply_buf q d) (unreliable_getattr b p buf)
  | RReadlink p buf n => respond (reply_buf q d) (unreliable_readlink b p buf n)
  | RMknod p m dev => respond (reply q d) (unreliable_mknod b p m dev)
  | RMkdir p m => respond (reply q d) (unreliable_mkdir b p m)
  | RUnlink p => respond (reply q d) (unreliable_unlink b p)
  | RRmdir p => respond (reply q d) (unreliable_rmdir b p)
  | RSymlink t p => respond (reply q d) (unreliable_symlink b t p)
  | RRename p p' => respond (reply q d) (unreliable_rename b p p')
  | RLink p p' => respond (reply q d) (unreliable_link b p p')
  | RChmod p m => respond (reply q d) (unreliable_chmod b p m)
  | RChown p o g => respond (reply q d) (unreliable_chown b p o g)
  | RTruncate p n => respond (reply q d) (unreliable_truncate b p n)
  | ROpen p fi => respond (reply_fi q d) (unreliable_open b p fi)
  | RRead p buf n o fi => respond (reply_buf q d) (unreliable_read b p buf n o fi)
  | RWrite p buf n o fi => respond (reply q d) (unreliable_write b p buf n o fi)
  | RStatfs p buf => respond (reply_buf q d) (unreliable_statfs b p buf)
  | RFlush p fi => respond (reply q d) (unreliable_flush b p fi)
  | RRelease p fi => respond (reply q d) (unreliable_release b p fi)
  | RFsync p ds fi => respond (reply q d) (unreliable_fsync b p ds fi)
  | RSetxattr p n v s fl => respond (reply q d) (unreliable_setxattr b p n v s fl)
  | RGetxattr p n v s => respond (reply_buf q d) (unreliable_getxattr b p n v s)
  | RListxattr p l s => respond (reply_buf q d) (unreliable_listxattr b p l s)
  | RRemovexattr p n => respond (reply q d) (unreliable_removexattr b p n)
  | ROpendir p fi => respond (reply_fi q d) (unreliable_opendir b p fi)
  | RReaddir p o fi => respond (reply_dir q) (unreliable_readdir b filler fuel p d o fi)
  | RReleasedir p fi => respond (reply q d) (unreliable_releasedir b p fi)
  | RFsyncdir p ds fi => respond (reply q d) (unreliable_fsyncdir b p ds fi)
  | RAccess p m => respond (reply q d) (unreliable_access b p m)
  | RCreate p m fi => respond (reply_fi q d) (unreliable_create b p m fi)
  | RFtruncate p n fi => respond (reply q d) (unreliable_ftruncate b p n fi)
  | RFgetattr p buf fi => respond (reply_buf q d) (unreliable_fgetattr b p buf fi)
  | RLock p fi cmd fl => respond (reply_buf q d) (unreliable_lock b p fi cmd fl)
  | RIoctl p cmd arg fi fl data => respond (reply q d) (unreliable_ioctl b p cmd arg fi fl data)
  | RFlock p fi op => respond (reply q d) (unreliable_flock b p fi op)
  | RFallocate p m o l fi => respond (reply q d) (unreliable_fallocate b p m o l fi)
  | RUtimens p ts => respond (reply q d) (unreliable_utimens b p ts)
  end.

(** ** The contract of the requests that need one system call *)

(** How the result of the call becomes the handler's. *)
Inductive outcome_kind :=
  | KZero                         (** 0, which is what the call returns on success *)
  | KCount                        (** the call's result *)
  | KBuf (buf : cstr)             (** 0, and the output is copied to [buf] *)
  | KCountBuf (buf : cstr)        (** the call's result, and the output *)
  | KHandle (fi : fuse_file_info). (** 0, and the result is the file's handle *)

(** The call and the kind of a request, when it is one call on the backing file
    system and the reply is the call's; requests on an open file are so when they
    come with its handle.  [getxattr], one call as well, is not of this kind: it
    keeps the call's result to itself ([HandlerProps.getxattr_returns_no_size]). *)
Definition single (q : request) : option (syscall * outcome_kind) :=
  match q with
  | RLstat p buf | RGetattr p buf => Some (Sys_lstat p, KBuf (replicate (length buf) NUL))
  | RMknod p m dev => Some (Sys_mknod p m dev, KZero)
  | RMkdir p m => Some (Sys_mkdir p m, KZero)
  | RUnlink p => Some (Sys_unlink p, KZero)
  | RRmdir p => Some (Sys_rmdir p, KZero)
  | RSymlink t p => Some (Sys_symlink t p, KZero)
  | RRename p p' => Some (Sys_rename p p', KZero)
  | RLink p p' => Some (Sys_link p p', KZero)
  | RChmod p m => Some (Sys_chmod p m, KZero)
  | RChown p o g => Some (Sys_chown p o g, KZero)
  | RTruncate p n => Some (Sys_truncate p n, KZero)
  | RFtruncate p n _ => Some (Sys_truncate p n, KZero)
  | ROpen p (Some i) => Some (Sys_open p (flags i), KHandle i)
  | RCreate p m (Some i) => Some (Sys_open_mode p (flags i) m, KHandle i)
  | RRead p buf n o (Some i) =>
      if decide (to_int (fh i) = -1)%Z then None
      else Some (Sys_pread (to_int (fh i)) n o, KCountBuf buf)
  | RWrite p buf n o (Some i) =>
      if decide (to_int (fh i) = -1)%Z then None
      else Some (Sys_pwrite (to_int (fh i)) buf n o, KCount)
  | RStatfs p buf => Some (Sys_statvfs p, KBuf buf)
  | RRelease p (Some i) => Some (Sys_close (to_int (fh i)), KZero)
  | RFsync p ds (Some i) =>
      Some (if decide (ds ≠ 0%Z) then Sys_fdatasync (to_int (fh i))
            else Sys_fsync (to_int (fh i)), KZero)
  | RSetxattr p n v s fl =>
      Some (if is_apple b then Sys_setxattr_apple p n v s 0 fl else Sys_setxattr p n v s fl, KZero)
  | RListxattr p l s =>
      Some (if is_apple b then Sys_listxattr_apple p s XATTR_NOFOLLOW
            else Sys_listxattr p s, KCountBuf l)
  | RRemovexattr p n =>
      Some (if is_apple b then Sys_removexattr_apple p n XATTR_NOFOLLOW
            else Sys_removexattr p n, KZero)
  | RReleasedir p (Some i) => Some (Sys_closedir (fh i), KZero)
  | RAccess p m => Some (Sys_access p m, KZero)
  | RFgetattr p buf (Some i) => Some (Sys_fstat (to_int (fh i)), KBuf buf)
  | RLock p (Some i) cmd fl => Some (Sys_fcntl (to_int (fh i)) cmd fl, KBuf fl)
  | RIoctl p cmd arg (Some i) _ _ => Some (Sys_ioctl (to_int (fh i)) cmd arg, KCount)
  | RFlock p (Some i) op => Some (Sys_flock (to_int (fh i)) op, KZero)
  | RFallocate p m o l (Some i) =>
      if decide (m ≠ 0%Z ∨ to_int (fh i) = -1)%Z then None
      else Some (Sys_fallocate (to_int (fh i)) m o l, KZero)
  | RUtimens p ts =>
      Some (Sys_utimensat 0 p ts (AT_SYMLINK_NOFOLLOW (b_platform b)), KZero)
  | _ => None
  end.

(** The response, from the call's result. *)
Definition finish (q : request) (d : F) (k : outcome_kind) (r : sysres) : outcome response :=
  let n := to_int (sr_ret r) in
  let failed := decide (n = -1)%Z in
  let err := (- sr_errno r)%Z in
  match k with
  | KZero => Ok (reply q d (if failed then err else 0))
  | KCount => Ok (reply q d (if failed then err else n))
  | KBuf buf =>
      if failed then Ok (reply_buf q d (err, buf))
      else let* buf' := copy_out buf (sr_out r) in Ok (reply_buf q d (0%Z, buf'))
  | KCountBuf buf =>
      if failed then Ok (reply_buf q d (err, buf))
      else let* buf' := copy_out buf (sr_out r) in Ok (reply_buf q d (n, buf'))
  | KHandle i =>
      Ok (if failed then reply_fi q d (err, Some i)
          else reply_fi q d (0%Z, Some (set_fh (to_u64 n) i)))
  end.

(** The [if] after [error_inject] in every handler. *)
Definition injected_reply (q : request) (d : F) (ret : Z) : response :=
  reply q d (if decide (ret = - ERRNO_NOOP)%Z then 0 else ret).
End handlers.
Arguments response F : clear implicits.

(** ** The table of unreliablefs.c *)

(** The operations of [unreliable_ops] in order, without [init] and [destroy],
    which do nothing. *)
Definition unreliable_ops (b : build) : list fuse_op :=
  [OP_GETATTR; OP_READLINK; OP_MKNOD; OP_MKDIR; OP_UNLINK; OP_RMDIR; OP_SYMLINK;
   OP_RENAME; OP_LINK; OP_CHMOD; OP_CHOWN; OP_TRUNCATE; OP_OPEN; OP_READ; OP_WRITE;
   OP_STATFS; OP_FLUSH; OP_RELEASE; OP_FSYNC] ++
  guarded (HAVE_XATTR b) [OP_SETXATTR; OP_GETXATTR; OP_LISTXATTR; OP_REMOVEXATTR] ++
  [OP_OPENDIR; OP_READDIR; OP_RELEASEDIR; OP_FSYNCDIR] ++
  [OP_ACCESS; OP_CREAT; OP_FTRUNCATE; OP_FGETATTR; OP_LOCK] ++
  guarded (not_openbsd b) [OP_IOCTL] ++
  guarded (HAVE_FLOCK b) [OP_FLOCK] ++
  guarded (HAVE_FALLOCATE b) [OP_FALLOCATE] ++
  guarded (HAVE_UTIMENSAT b) [OP_UTIMENS].
