(* ===== verification/HandlerLemmas.v ===== *)
(** * Lemmas on the file operations

    What the guard of the handlers does, that single-call requests are their
    one call ([handle_single_eq]), and that handlers leave the configuration
    alone ([tame], with its hint database). *)
From stdpp Require Import base list numbers gmap strings.
From Stdlib Require Import Ascii ZArith.
From S2P Require Import Prelude CLib Errno FuseOp Heap ErrInjConf ConfSpec ConfLoad World.
From S2P Require Import ErrInj ErrInjSpec ErrInjRefine ErrInjProps Ops Handlers TestEnv.

(** ** The guard *)

Section guard.
Context {env : Env} {vals : ErrnoValues} (b : build).

Lemma guard_eq {A} path op (rp : Z → A) (body : M world A) w :
  guard b path op rp body w
  = let* r := error_inject b path op w in
    if decide (r.1 = 999)%Z then Ok (rp 0%Z, r.2)
    else if decide (r.1 = 0)%Z then body r.2 else Ok (rp r.1, r.2).
Proof.
  unfold guard, bindM. apply obind_ext. intros [ret w1]. cbn [fst snd].
  change (- ERRNO_NOOP)%Z with 999%Z.
  destruct (decide (ret = 999%Z)); [done|].
  destruct (decide (ret = 0%Z)); [by rewrite decide_False by auto|by rewrite decide_True].
Qed.

Lemma respond_guard_injected {A B} (f : A → B) path op (rp : Z → A) (body : M world A) w ret w1 :
  error_inject b path op w = Ok (ret, w1) → ret ≠ 0%Z →
  respond f (guard b path op rp body) w
  = Ok (f (rp (if decide (ret = - ERRNO_NOOP)%Z then 0 else ret)%Z), w1).
Proof.
  intros Hinj Hret. unfold respond, bindM. rewrite guard_eq, Hinj. cbn [obind fst snd].
  change (- ERRNO_NOOP)%Z with 999%Z.
  destruct (decide (ret = 999%Z)); [done|]. by rewrite decide_False.
Qed.

Lemma respond_guard_pass {A B} (f : A → B) path op (rp : Z → A) (body : M world A) w w1 :
  error_inject b path op w = Ok (0%Z, w1) →
  respond f (guard b path op rp body) w = respond f body w1.
Proof. intros Hinj. unfold respond, bindM. by rewrite guard_eq, Hinj. Qed.

Lemma respond_guard_fault {A B} (f : A → B) path op (rp : Z → A) (body : M world A) w e :
  error_inject b path op w = Fault e → respond f (guard b path op rp body) w = Fault e.
Proof. intros Hinj. unfold respond, bindM. by rewrite guard_eq, Hinj. Qed.

(** ** Calls with their checks *)

Lemma call_check_eq c w :
  call_check c w
  = Ok (if decide (to_int (sr_ret (sys_res c w)) = -1)%Z then (- sr_errno (sys_res c w))%Z else 0%Z,
        sys_world c w).
Proof. unfold call_check. rewrite bind_sys. by case_decide. Qed.

Lemma call_check_lt_eq c w :
  EnvSpec → returns_int c = true →
  call_check_lt c w
  = Ok (if decide (to_int (sr_ret (sys_res c w)) = -1)%Z then (- sr_errno (sys_res c w))%Z else 0%Z,
        sys_world c w).
Proof.
  intros spec Hc. unfold call_check_lt. rewrite bind_sys.
  pose proof (kcall_int c (w_kstate w) Hc) as Hr. fold (sys_res c w) in Hr.
  rewrite to_int_small by (unfold INT_MIN; lia).
  destruct (decide (sr_ret (sys_res c w) < 0)%Z), (decide (sr_ret (sys_res c w) = -1)%Z);
    done || lia.
Qed.

Lemma call_check_out_eq c buf w :
  call_check_out c buf w
  = if decide (to_int (sr_ret (sys_res c w)) = -1)%Z
    then Ok ((- sr_errno (sys_res c w))%Z, buf, sys_world c w)
    else let* buf' := copy_out buf (sr_out (sys_res c w)) in Ok (0%Z, buf', sys_world c w).
Proof.
  unfold call_check_out. rewrite bind_sys. case_decide; [done|].
  unfold bindM, lift. by destruct (copy_out _ _).
Qed.

Lemma open_check_eq c i w :
  open_check c i w
  = Ok (if decide (to_int (sr_ret (sys_res c w)) = -1)%Z then ((- sr_errno (sys_res c w))%Z, Some i)
        else (0%Z, Some (set_fh (to_u64 (to_int (sr_ret (sys_res c w)))) i)), sys_world c w).
Proof. unfold open_check. rewrite bind_sys. by case_decide. Qed.
End guard.

(** Run a straight-line body to its system call. *)
Ltac run_body :=
  cbv beta delta [respond bindM get_fd put_fd deref_fi retM neg_errno gets lift]; cbn [obind];
  rewrite ?sys_eq; cbn [obind];
  try (case_decide; [done|]); try done; try (by destruct (copy_out _ _)).

Section handlers.
Context {env : Env} {spec : EnvSpec} {vals : ErrnoValues} (b : build).
Context {F : Type} (filler : F → cstr → dir_stat → Z → Z * F) (fuel : nat).

Lemma handle_injected d q w ret w1 :
  error_inject b (req_path q) (req_op q) w = Ok (ret, w1) → ret ≠ 0%Z →
  handle b filler fuel d q w = Ok (injected_reply q d ret, w1).
Proof.
  intros Hinj Hret. unfold injected_reply.
  destruct q; exact (respond_guard_injected b _ _ _ _ _ _ _ _ Hinj Hret).
Qed.

(** A fault of the injection is the request's. *)
Lemma handle_fault d q w e :
  error_inject b (req_path q) (req_op q) w = Fault e → handle b filler fuel d q w = Fault e.
Proof. intros Hinj. destruct q; exact (respond_guard_fault b _ _ _ _ _ _ _ Hinj). Qed.

Lemma respond_eq {A B} (f : A → B) (c : M world A) a w w' :
  c w = Ok (a, w') → respond f c w = Ok (f a, w').
Proof. intros Hc. unfold respond. by rewrite (bindM_eq _ _ _ _ _ Hc). Qed.

Lemma respond_out q (d : F) (c : M world (Z * cstr)) buf ret r w w' :
  c w = (if decide (to_int (sr_ret r) = -1)%Z then Ok ((- sr_errno r)%Z, buf, w')
         else let* buf' := copy_out buf (sr_out r) in Ok (ret, buf', w')) →
  respond (reply_buf q d) c w
  = let* x := (if decide (to_int (sr_ret r) = -1)%Z then Ok (reply_buf q d ((- sr_errno r)%Z, buf))
               else let* buf' := copy_out buf (sr_out r) in Ok (reply_buf q d (ret, buf'))) in
    Ok (x, w').
Proof.
  intros Hc. unfold respond, bindM. rewrite Hc. case_decide; [done|].
  by destruct (copy_out _ _).
Qed.

(** The body of a single-call request. *)
Lemma handle_single_eq d q c k w w1 :
  single b q = Some (c, k) →
  error_inject b (req_path q) (req_op q) w = Ok (0%Z, w1) →
  handle b filler fuel d q w
  = let* r := finish q d k (sys_res c w1) in Ok (r, sys_world c w1).
Proof.
  intros Hs Hinj.
  destruct q as [| | | | | | | | | | | | |? [i|]|? ? ? ? [i|]|? ? ? ? [i|]| |? [i|]|? [i|]|? ? [i|]
    | | | | |? [i|]| |? [i|]| | |? ? [i|]| |? ? [i|]|? [i|] ? ?|? ? ? [i|] ? ?|? [i|] ?
    |? ? ? ? [i|]|]; cbn [single] in Hs; try discriminate Hs;
    try (destruct (decide _) as [|Hfd] in Hs; [discriminate Hs|]);
    injection Hs as <- <-; (etrans; [exact (respond_guard_pass b _ _ _ _ _ _ _ Hinj)|]);
    cbn [finish].
  all: try (erewrite respond_eq by apply call_check_eq; done).
  all: try (by erewrite respond_eq by (by apply call_check_lt_eq)).
  all: try (by erewrite respond_out by apply call_check_out_eq).
  all: try (erewrite respond_eq by (by apply open_check_eq); cbn [obind]; by case_decide).
  all: run_body; try run_body.
  all: rewrite ?call_check_eq; try (case_decide; rewrite call_check_eq; done).
  destruct (decide (mode ≠ 0%Z)); [tauto|]. destruct (decide (to_int (fh i) = (-1)%Z)); [tauto|].
  run_body.
Qed.
End handlers.

(** ** What handlers keep *)

(** Code that changes neither the heap nor the global [conf], and whose only
    faults are accesses outside a buffer and null pointers. *)
Definition tame {env : Env} {A} (c : M world A) : Prop :=
  ∀ w, match c w with
       | Ok (_, w') => same_conf w w'
       | Fault f => f = oob ∨ f = null_deref
       | NoFuel => True
       end.

Create HintDb tame discriminated.

Section tame.
Context {env : Env} {vals : ErrnoValues}.

Lemma same_conf_refl w : same_conf w w.
Proof. done. Qed.
Lemma same_conf_trans w1 w2 w3 : same_conf w1 w2 → same_conf w2 w3 → same_conf w1 w3.
Proof. intros [H1 H2] [H3 H4]. split; congruence. Qed.

Lemma tame_ret {A} (a : A) : tame (retM a).
Proof. intros w. done. Qed.
Lemma tame_bind {A B} (c : M world A) (k : A → M world B) :
  tame c → (∀ a, tame (k a)) → tame (bindM c k).
Proof.
  intros Hc Hk w. unfold bindM. specialize (Hc w). destruct (c w) as [[a w1]| |]; simpl; [|done..].
  specialize (Hk a w1). destruct (k a w1) as [[b w2]| |]; [|done..].
  by eapply same_conf_trans.
Qed.
Lemma tame_sys c : tame (sys c).
Proof. intros w. by rewrite sys_eq. Qed.
Lemma tame_gets {A} (f : world → A) : tame (gets f).
Proof. intros w. done. Qed.
Lemma tame_copy_out buf out : tame (lift (copy_out buf out)).
Proof. intros w. unfold lift, copy_out. case_decide; simpl; [done|by left]. Qed.
Lemma tame_store buf i c : tame (lift (store buf i c)).
Proof. intros w. unfold lift, store. case_decide; simpl; [done|by left]. Qed.
Lemma tame_oob {A} : tame (fault_ (A := A) oob).
Proof. intros w. by left. Qed.
Lemma tame_nofuel {A} : tame (nofuel (A := A)).
Proof. intros w. done. Qed.
Lemma tame_deref_fi fi : tame (deref_fi fi).
Proof. intros w. destruct fi; simpl; [done|by right]. Qed.
Lemma tame_decide {A} P `{Decision P} (c c' : M world A) :
  tame c → tame c' → tame (if decide P then c else c').
Proof. by case_decide. Qed.
End tame.

#[export] Hint Resolve tame_ret tame_bind tame_sys tame_gets tame_copy_out tame_store tame_oob
  tame_nofuel tame_deref_fi tame_decide : tame.

(** Tameness of straight-line code. *)
Ltac tame := repeat first [progress intros | apply tame_decide | apply tame_bind | solve [eauto with tame] | case_match].

Section tame_ops.
Context {env : Env} {vals : ErrnoValues} (b : build).

Lemma tame_call_check c : tame (call_check c).
Proof. unfold call_check, neg_errno. tame. Qed.
Lemma tame_call_check_lt c : tame (call_check_lt c).
Proof. unfold call_check_lt, neg_errno. tame. Qed.
Lemma tame_call_check_out c buf : tame (call_check_out c buf).
Proof. unfold call_check_out, neg_errno. tame. Qed.
Lemma tame_open_check c i : tame (open_check c i).
Proof. unfold open_check, neg_errno. tame. Qed.
Lemma tame_get_fd p fl fi : tame (get_fd p fl fi).
Proof. unfold get_fd. tame. Qed.
Lemma tame_put_fd fd fi : tame (put_fd fd fi).
Proof. unfold put_fd. tame. Qed.
Lemma tame_readdir_loop {F} (filler : F → cstr → dir_stat → Z → Z * F) fuel dp buf :
  tame (readdir_loop filler fuel dp buf).
Proof. revert buf. induction fuel as [|fuel IH]; intros buf; cbn [readdir_loop]; tame. Qed.
End tame_ops.

#[export] Hint Resolve tame_call_check tame_call_check_lt tame_call_check_out tame_open_check
  tame_get_fd tame_put_fd tame_readdir_loop : tame.

Section state.
Context {env : Env} {spec : EnvSpec} {vals : ErrnoValues} (b : build).
Context {F : Type} (filler : F → cstr → dir_stat → Z → Z * F) (fuel : nat).

(** A request is the guard and a tame body. *)
Lemma handle_shape d q :
  ∃ A (f : A → response F) (rp : Z → A) body, tame body ∧
    handle b filler fuel d q = respond f (guard b (req_path q) (req_op q) rp body).
Proof.
  destruct q; cbn [handle req_path req_op]; eexists _, _, _, _;
    (split; [|reflexivity]); unfold neg_errno; tame.
Qed.
End state.
