(* ===== verification/HandlerProps.v ===== *)
(** * Properties of the file operations

    What every handler does with an injected error, that the handlers pass an
    operation through to the backing file system otherwise, that a directory is
    read to its end and closed, that descriptors are given back, and the state
    along any sequence of requests. *)
From stdpp Require Import base list numbers gmap strings.
From Stdlib Require Import Ascii ZArith.
From S2P Require Import Prelude CLib Errno FuseOp Heap ErrInjConf ConfSpec ConfLoad World.
From S2P Require Import ErrInj ErrInjSpec ErrInjRefine ErrInjProps Ops Handlers HandlerLemmas.
From S2P Require Import TestEnv.

Section props.
Context {env : Env} {spec : EnvSpec} {vals : ErrnoValues} (b : build).
Context {F : Type} (filler : F → cstr → dir_stat → Z → Z * F) (fuel : nat).

(** C3. Injected results: when [error_inject] gives a result other than 0,
    every handler returns at once, with 0 for a no-op and the injected error
    otherwise; it makes no system call of its own and leaves its buffer and
    its [fuse_file_info] as they were. *)
Theorem handle_injected_result d q w ret w1 :
  error_inject b (req_path q) (req_op q) w = Ok (ret, w1) → ret ≠ 0%Z →
  handle b filler fuel d q w = Ok (reply q d (if decide (ret = 999)%Z then 0 else ret)%Z, w1).
Proof. apply handle_injected. Qed.


(** ** State *)

Lemma handle_step d q w fr0 :
  conf_files_fit → buildable b = true → enabled b (req_op q) = true → world_ok fr0 w →
  match handle b filler fuel d q w with
  | Ok (_, w') => world_ok fr0 w' ∧ kept w w'
  | Fault f => f = oob ∨ f = null_deref
  | NoFuel => True
  end.
Proof.
  intros Hfit Hb He Hok.
  destruct (handle_shape b filler fuel d q) as (A & f & rp & body & Htame & ->).
  unfold respond, bindM. rewrite guard_eq.
  destruct (error_inject_step b (req_path q) (req_op q) w fr0 Hfit Hb He Hok)
    as [(rc & w1 & -> & Hok1 & Hk1)| ->]; [|by left]. cbn [obind fst snd].
  case_decide; [done|]. case_decide; [|done]. specialize (Htame w1).
  destruct (body w1) as [[a w2]| |]; [|done..]. cbn [obind]. destruct Htame as [Hc Hm].
  split; [|unfold kept; by rewrite Hc, Hm].
  destruct Hok1 as (ocfg & fr & Hrep & Hfr). exists ocfg, fr. split; [|done].
  unfold world_rep, heap_of in *. by rewrite Hc, Hm.
Qed.

(** The requests of a client, one after the other. *)
Fixpoint serve (d : F) (qs : list request) : M world (list (response F)) :=
  match qs with
  | [] => retM []
  | q :: qs' =>
      let! r := handle b filler fuel d q in
      let! rs := serve d qs' in
      retM (r :: rs)
  end.

Lemma serve_correct d qs w fr0 :
  conf_files_fit → buildable b = true → Forall (λ q, enabled b (req_op q) = true) qs →
  world_ok fr0 w →
  match serve d qs w with
  | Ok (rs, w') => length rs = length qs ∧ world_ok fr0 w' ∧ kept w w'
  | Fault f => f = oob ∨ f = null_deref
  | NoFuel => True
  end.
Proof.
  intros Hfit Hb Hall. revert w. induction Hall as [|q qs He _ IH]; intros w Hok; [done|].
  cbn [serve]. unfold bindM. pose proof (handle_step d q w fr0 Hfit Hb He Hok) as Hq.
  destruct (handle b filler fuel d q w) as [[r w1]| |]; cbn [obind]; [|done..].
  destruct Hq as [Hok1 (Hk1 & Hk2 & Hk3)]. specialize (IH w1 Hok1).
  destruct (serve d qs w1) as [[rs w2]| |]; cbn [obind]; [|done..].
  destruct IH as (Hl & Hok2 & Hk4 & Hk5 & Hk6). split; [simpl; by rewrite Hl|].
  split; [done|]. unfold kept. by rewrite Hk4, Hk5, Hk6.
Qed.

(** C4. The state along any sequence of requests (changes of the
    configuration file among them, and whatever the kernel answers): every
    response leaves the mutex free, the configuration well formed and in
    blocks of its own, the blocks of other owners ([fr0]) as they were, and the only faults a request can end with are reads
    and writes outside a buffer and null pointers; no block is used after it
    was freed and the mutex is never locked twice. *)
Theorem serve_safe d qs w fr0 :
  conf_files_fit → buildable b = true → Forall (λ q, enabled b (req_op q) = true) qs →
  world_ok fr0 w →
  match serve d qs w with
  | Ok (rs, w') => length rs = length qs ∧ world_ok fr0 w' ∧ kept w w'
  | Fault f => f = oob ∨ f = null_deref
  | NoFuel => True
  end.
Proof. apply serve_correct. Qed.
End props.

(** ** Directories *)

Section directory.
Context {env : Env}.

(** Reading the directory [dp] from the kernel's state [k] gives the entries
    [ds] and then the end. *)
Inductive dir_stream (dp : Z) : kstate → list dirent → Prop :=
  | ds_end k : sr_dirent (kcall (Sys_readdir dp) k).1 = None → dir_stream dp k []
  | ds_entry k d ds :
      sr_dirent (kcall (Sys_readdir dp) k).1 = Some d →
      dir_stream dp (kcall (Sys_readdir dp) k).2 ds → dir_stream dp k (d :: ds).

(** The entries given to the filler, until it is full. *)
Fixpoint fill_entries {F} (filler : F → cstr → dir_stat → Z → Z * F) (buf : F)
    (ds : list dirent) : F :=
  match ds with
  | [] => buf
  | d :: ds' =>
      let r := filler buf (d_name d) {| st_ino := d_ino d; st_mode := d_type d * 4096 |} 0%Z in
      if decide (r.1 = 0%Z) then fill_entries filler r.2 ds' else r.2
  end.

(** The trace of [w'] is that of [w] and then [n] or fewer reads of [dp]. *)
Definition read_dir (dp : Z) (n : nat) (w w' : world) : Prop :=
  w_conf w' = w_conf w ∧ w_mem w' = w_mem w ∧
  ∃ tr, w_trace w' = w_trace w ++ tr ∧ length tr ≤ n ∧ Forall (λ cr, cr.1 = Sys_readdir dp) tr.

Lemma readdir_loop_correct {F} (filler : F → cstr → dir_stat → Z → Z * F) fuel dp buf ds w :
  dir_stream dp (w_kstate w) ds → length ds < fuel →
  ∃ w', readdir_loop filler fuel dp buf w = Ok (fill_entries filler buf ds, w') ∧
        read_dir dp (S (length ds)) w w'.
Proof.
  revert buf ds w. induction fuel as [|fuel IH]; intros buf ds w Hds Hlen; [lia|].
  cbn [readdir_loop]. rewrite bind_sys. inversion Hds as [k Hd|k d ds' Hd Hds']; subst.
  - fold (sys_res (Sys_readdir dp) w) in Hd. rewrite Hd.
    eexists. split; [done|]. split; [done|]. split; [done|]. eexists [_]. split; [done|].
    split; [simpl; lia|]. by constructor.
  - fold (sys_res (Sys_readdir dp) w) in Hd. rewrite Hd. cbn [fill_entries].
    change (Z.shiftl (d_type d) 12) with (Z.shiftl (d_type d) (Z.of_nat 12)).
    rewrite Z.shiftl_mul_pow2 by lia. change (2 ^ Z.of_nat 12)%Z with 4096%Z.
    destruct (filler buf (d_name d) _ 0%Z) as [full buf'] eqn:Ef. cbn [fst snd].
    destruct (decide (full = 0%Z)) as [->|Hfull].
    + rewrite decide_False by auto.
      destruct (IH buf' ds' (sys_world (Sys_readdir dp) w) Hds') as (w' & -> & Hc & Hm & tr & Htr & Hl & Hall);
        [simpl in Hlen; lia|].
      exists w'. split; [done|]. split; [done|]. split; [done|].
      eexists (_ :: tr). rewrite Htr. simpl. rewrite <- app_assoc. split; [done|].
      split; [lia|]. by constructor.
    + rewrite decide_True by done. eexists. split; [done|]. split; [done|]. split; [done|].
      eexists [_]. split; [done|]. split; [simpl; lia|]. by constructor.
Qed.
End directory.

Section behaviours.
Context {env : Env} {spec : EnvSpec} {vals : ErrnoValues} (b : build).

(** The system calls of a handler after the injection let it through. *)
Definition calls (w w' : world) : list syscall := drop (length (w_trace w)) (w_trace w').*1.

Lemma calls_app w w' tr : w_trace w' = w_trace w ++ tr → calls w w' = tr.*1.
Proof.
  intros Htr. unfold calls. rewrite Htr, fmap_app.
  apply drop_app_exact. by rewrite length_fmap.
Qed.

(** C34. A directory is read to its end: when the directory can be opened and
    its stream ends after the entries [ds], [readdir] terminates, gives the
    filler every entry in order (name, inode, and the type in the bits of the
    mode), stops early only when the filler is full, returns 0, and closes
    the directory it opened, after which it makes no call. *)
Theorem readdir_complete {F} (filler : F → cstr → dir_stat → Z → Z * F) fuel path buf offset
    fi w w1 ds :
  error_inject b path OP_READDIR w = Ok (0%Z, w1) →
  let dp := sr_ret (sys_res (Sys_opendir path) w1) in
  dp ≠ 0%Z → dir_stream dp (w_kstate (sys_world (Sys_opendir path) w1)) ds →
  length ds < fuel →
  ∃ w' n, unreliable_readdir b filler fuel path buf offset fi w
          = Ok (0%Z, fill_entries filler buf ds, w') ∧
    calls w1 w' = Sys_opendir path :: replicate n (Sys_readdir dp) ++ [Sys_closedir dp] ∧
    n ≤ S (length ds).
Proof.
  intros Hinj dp Hdp Hds Hlen. unfold unreliable_readdir. rewrite guard_eq, Hinj. cbn [obind fst snd].
  rewrite decide_False, decide_True, bind_sys by done. fold dp. rewrite decide_False by done.
  destruct (readdir_loop_correct filler fuel dp buf ds _ Hds Hlen)
    as (w2 & Hrun & _ & _ & tr & Htr & Hl & Hall).
  rewrite (bindM_eq _ _ _ _ _ Hrun), bind_sys.
  eexists _, (length tr). split; [done|]. split; [|done].
  erewrite calls_app by (simpl; rewrite Htr; simpl; by rewrite <- !app_assoc).
  cbn [fmap list_fmap]. rewrite fmap_app. cbn [app fmap list_fmap fst]. f_equal. f_equal.
  clear Htr Hl. induction Hall as [|[c r] tr Hc _ IH]; [done|]. simpl in *. by subst; f_equal.
Qed.

Lemma put_fd_none fd x w w' : put_fd fd None w = Ok (x, w') → w' = sys_world (Sys_close fd) w.
Proof. unfold put_fd. rewrite bind_sys. intros Hrun. by inv_ok. Qed.

(** The calls of a transfer that opens the path itself. *)
Lemma null_fi_calls fl transfer fd path w1 w' :
  fd = to_int (sr_ret (sys_res (Sys_open path fl) w1)) →
  w' = (if decide (fd = -1)%Z then sys_world (Sys_open path fl) w1
        else sys_world (Sys_close fd) (sys_world transfer (sys_world (Sys_open path fl) w1))) →
  calls w1 w' = Sys_open path fl ::
    if decide (fd = -1)%Z then [] else [transfer; Sys_close fd].
Proof.
  intros Hfd ->. case_decide.
  - eapply (calls_app _ _ [(_, _)]). done.
  - eapply (calls_app _ _ [(_, _); (_, _); (_, _)]). simpl. by rewrite <- !app_assoc.
Qed.

(** C35. Descriptors are given back: a [read] or [write] that comes without a
    [fuse_file_info] opens the path itself, and closes the descriptor it got
    exactly once, whether the transfer succeeds or fails; when the open fails
    it makes no other call. *)
Theorem read_write_close path buf size offset w w1 :
  (∀ res w', error_inject b path OP_READ w = Ok (0%Z, w1) →
    unreliable_read b path buf size offset None w = Ok (res, w') →
    let fd := to_int (sr_ret (sys_res (Sys_open path O_RDONLY) w1)) in
    calls w1 w' = Sys_open path O_RDONLY ::
      if decide (fd = -1)%Z then [] else [Sys_pread fd size offset; Sys_close fd]) ∧
  (∀ res w', error_inject b path OP_WRITE w = Ok (0%Z, w1) →
    unreliable_write b path buf size offset None w = Ok (res, w') →
    let fd := to_int (sr_ret (sys_res (Sys_open path O_WRONLY) w1)) in
    calls w1 w' = Sys_open path O_WRONLY ::
      if decide (fd = -1)%Z then [] else [Sys_pwrite fd buf size offset; Sys_close fd]).
Proof.
  split; intros res w' Hinj Hrun fd;
    [apply (null_fi_calls O_RDONLY (Sys_pread fd size offset) fd path w1 w' eq_refl)
    |apply (null_fi_calls O_WRONLY (Sys_pwrite fd buf size offset) fd path w1 w' eq_refl)];
    [unfold unreliable_read in Hrun|unfold unreliable_write in Hrun];
    rewrite guard_eq, Hinj in Hrun; cbn [obind fst snd] in Hrun;
    rewrite decide_False, decide_True in Hrun by done; unfold get_fd in Hrun;
    rewrite bindM_assoc, bind_sys, bindM_retM in Hrun; fold fd in Hrun;
    destruct (decide (fd = (-1)%Z)).
  - unfold neg_errno, gets in Hrun. inv_ok. done.
  - rewrite bind_sys in Hrun. case_decide; unfold neg_errno, gets, lift in Hrun; inv_ok;
      by eapply put_fd_none.
  - unfold neg_errno, gets in Hrun. inv_ok. done.
  - rewrite bind_sys in Hrun. case_decide; unfold neg_errno, gets, lift in Hrun; inv_ok;
      by eapply put_fd_none.
Qed.

(** The body of a handler after the injection let it through. *)
Lemma guard_pass {A} path op (rp : Z → A) (body : M world A) w w1 :
  error_inject b path op w = Ok (0%Z, w1) → guard b path op rp body w = body w1.
Proof. intros Hinj. by rewrite guard_eq, Hinj. Qed.

(** C36. [readlink]: the kernel gives the target's bytes, [bufsiz] at most and
    without a NUL.  When the target is shorter than the buffer, the buffer
    then holds it as a C string and the result is 0; when it fills the
    buffer, the terminating NUL is written one byte past its end. *)
Theorem readlink_terminates_or_overflows path buf w w1 :
  error_inject b path OP_READLINK w = Ok (0%Z, w1) →
  let r := sys_res (Sys_readlink path (Z.of_nat (length buf))) w1 in
  sr_ret r = Z.of_nat (length (sr_out r)) → nul_free (sr_out r) →
  length (sr_out r) ≤ length buf → (Z.of_nat (length buf) ≤ INT_MAX)%Z →
  if decide (length (sr_out r) < length buf)
  then ∃ buf' w', unreliable_readlink b path buf (Z.of_nat (length buf)) w = Ok (0%Z, buf', w') ∧
                  length buf' = length buf ∧ cstring buf' = Ok (sr_out r)
  else unreliable_readlink b path buf (Z.of_nat (length buf)) w = Fault oob.
Proof.
  intros Hinj r Hret Hnul Hout Hmax. unfold unreliable_readlink.
  rewrite (guard_pass _ _ _ _ _ _ Hinj), bind_sys. fold r.
  rewrite Hret, to_int_small by (unfold INT_MIN; lia).
  rewrite (decide_False (P := Z.of_nat _ = (-1)%Z)) by lia. unfold copy_out. rewrite (decide_True (P := length (sr_out r) ≤ _)) by done.
  unfold bindM, lift. cbn [obind]. rewrite (decide_False (P := (_ < 0)%Z)) by lia.
  rewrite Nat2Z.id. unfold store. rewrite length_app, length_drop.
  destruct (decide (length (sr_out r) < length buf)) as [Hlt|Hge].
  - rewrite decide_True by lia. cbn [obind]. eexists _, _. split; [done|].
    destruct (drop (length (sr_out r)) buf) as [|c rest] eqn:Ed.
    { apply (f_equal length) in Ed. rewrite length_drop in Ed. simpl in Ed. lia. }
    rewrite <- (Nat.add_0_r (length (sr_out r))), insert_app_r. simpl.
    split; [|by apply cstring_app]. apply (f_equal length) in Ed.
    rewrite length_drop in Ed. rewrite length_app. simpl in *. lia.
  - by rewrite decide_False by lia.
Qed.

(** C38. [fsyncdir]: the directory is opened and synchronised by the call that
    [datasync] asks for; it is closed when the synchronisation succeeds, but
    not when it fails: then the result is the error and the directory stream
    stays open. *)
Theorem fsyncdir_leaks_on_error path datasync fi w w1 :
  error_inject b path OP_FSYNCDIR w = Ok (0%Z, w1) →
  let w2 := sys_world (Sys_opendir path) w1 in
  let dir := sr_ret (sys_res (Sys_opendir path) w1) in
  let fd := to_int (sr_ret (sys_res (Sys_dirfd dir) w2)) in
  let sync := if decide (datasync ≠ 0%Z) then Sys_fdatasync fd else Sys_fsync fd in
  let r := sys_res sync (sys_world (Sys_dirfd dir) w2) in
  dir ≠ 0%Z →
  ∃ w', unreliable_fsyncdir b path datasync fi w
        = Ok (if decide (to_int (sr_ret r) = -1)%Z then (- sr_errno r)%Z else 0%Z, w') ∧
    calls w1 w' = [Sys_opendir path; Sys_dirfd dir; sync] ++
                  if decide (to_int (sr_ret r) = -1)%Z then [] else [Sys_closedir dir].
Proof.
  intros Hinj w2 dir fd sync r Hdir. unfold unreliable_fsyncdir.
  rewrite (guard_pass _ _ _ _ _ _ Hinj), bind_sys. fold dir w2.
  rewrite (decide_False (P := dir = 0%Z)) by done. rewrite bind_sys. fold fd. fold sync.
  rewrite bind_sys. fold r. destruct (decide (to_int (sr_ret r) = (-1)%Z)).
  - eexists. split; [done|]. eapply (calls_app _ _ [(_, _); (_, _); (_, _)]). simpl.
    by rewrite <- !app_assoc.
  - rewrite bind_sys. eexists. split; [done|].
    eapply (calls_app _ _ [(_, _); (_, _); (_, _); (_, _)]). simpl. by rewrite <- !app_assoc.
Qed.

(** [fallocate] without a [fuse_file_info] opens the path for it and then
    dereferences the null pointer. *)
Theorem fallocate_null_fi path offset len w w1 :
  error_inject b path OP_FALLOCATE w = Ok (0%Z, w1) →
  to_int (sr_ret (sys_res (Sys_open path O_WRONLY) w1)) ≠ (-1)%Z →
  unreliable_fallocate b path 0 offset len None w = Fault null_deref.
Proof.
  intros Hinj Hfd. unfold unreliable_fallocate. rewrite (guard_pass _ _ _ _ _ _ Hinj).
  rewrite decide_False by auto. unfold get_fd. rewrite bindM_assoc, bind_sys, bindM_retM.
  by rewrite decide_False.
Qed.


(** File handles: the handle that [open] leaves in the [fuse_file_info]
    stands for the kernel's descriptor, so that a [read] that comes with it
    is a [pread] of that descriptor; and the handle of [opendir] is the
    directory's address, which [releasedir] closes. *)
Theorem handles_roundtrip path buf size offset i w w1 w2 :
  error_inject b path OP_OPEN w = Ok (0%Z, w1) →
  error_inject b path OP_OPENDIR w = Ok (0%Z, w2) →
  let fd := sr_ret (sys_res (Sys_open path (flags i)) w1) in
  let dir := sr_ret (sys_res (Sys_opendir path) w2) in
  (0 ≤ fd ≤ INT_MAX)%Z → (0 < dir < 2 ^ 64)%Z →
  (∃ i' w', unreliable_open b path (Some i) w = Ok (0%Z, Some i', w') ∧
    single b (RRead path buf size offset (Some i')) = Some (Sys_pread fd size offset, KCountBuf buf)) ∧
  (∃ i' w', unreliable_opendir b path (Some i) w = Ok (0%Z, Some i', w') ∧
    single b (RReleasedir path (Some i')) = Some (Sys_closedir dir, KZero)).
Proof.
  intros Hinj Hinj' fd dir Hfd Hdir. split.
  - unfold unreliable_open. rewrite (guard_pass _ _ _ _ _ _ Hinj).
    cbn [deref_fi]. rewrite bindM_retM, open_check_eq. fold fd.
    rewrite (to_int_small fd), decide_False by (unfold INT_MIN; lia). eexists _, _. split; [done|].
    simpl. rewrite to_int_to_u64 by (unfold INT_MIN; lia). by rewrite decide_False by lia.
  - unfold unreliable_opendir. rewrite (guard_pass _ _ _ _ _ _ Hinj'), bind_sys. fold dir.
    rewrite decide_False by lia. eexists _, _. split; [done|]. simpl.
    by rewrite to_u64_to_s64 by lia.
Qed.
End behaviours.

(** The table that unreliablefs.c registers has, in every build, a handler
    for exactly the operations of the enumeration but [lstat], in the same
    order: the operation FUSE asks for is the one the injection is told. *)
Theorem unreliable_ops_complete b : fuse_ops b = unreliable_ops b ++ [OP_LSTAT].
Proof. unfold fuse_ops, unreliable_ops. by rewrite <- !app_assoc. Qed.

(** ** Witnesses *)

(** A directory buffer that holds the names and is never full. *)
Definition name_filler (buf : list cstr) (name : cstr) (st : dir_stat) (off : Z)
    : Z * list cstr := (0%Z, buf ++ [name]).

(** The program without a configuration, on a kernel with a script. *)
Definition scripted (rs : list (Z * cstr * option dirent)) : world :=
  test_world 0 {| sc_conf := None; sc_readable := true; sc_results := rs |}.

Lemma scripted_rep rs : world_rep (scripted rs) None ∅.
Proof. by split. Qed.

Definition open_file (h : Z) : option fuse_file_info := Some {| flags := 0; fh := h |}.

Lemma handle_injected_result_witness :
  ∃ ret w1, error_inject linux_build (str "/a") OP_READ noop_world = Ok (ret, w1) ∧ ret ≠ 0%Z ∧
    handle linux_build name_filler 10 [] (RRead (str "/a") (str "xx") 2 0 (open_file 3)) noop_world
    = Ok (reply (RRead (str "/a") (str "xx") 2 0 (open_file 3)) []
            (if decide (ret = 999)%Z then 0 else ret)%Z, w1).
Proof.
  assert (Hrc : result_code (error_inject linux_build (str "/a") OP_READ noop_world) = Some 999%Z)
    by (by vm_compute).
  destruct (error_inject linux_build (str "/a") OP_READ noop_world) as [[ret w1]| |] eqn:E;
    [|discriminate Hrc..].
  injection Hrc as ->. exists 999%Z, w1. split; [reflexivity|]. split; [done|].
  apply handle_injected_result; [exact E|done].
Defined.


Lemma serve_safe_witness :
  match serve linux_build name_filler 10 []
    [RWrite (str "/tmp/unreliablefs.conf") (str "x") 1 0 (open_file 3);
     RRead (str "/a") (str "xx") 2 0 (open_file 3)] noop_world with
  | Ok (rs, w') => length rs = 2 ∧ world_ok (one_frame ERRINJ_NOOP 100) w' ∧ kept noop_world w'
  | Fault f => f = oob ∨ f = null_deref
  | NoFuel => True
  end.
Proof.
  apply serve_safe.
  - apply test_conf_files_fit.
  - reflexivity.
  - by repeat constructor.
  - eexists _, _. split; [apply noop_world_rep|done].
Defined.

(** A directory of two files. *)
Definition two_files : list dirent :=
  [{| d_ino := 11; d_type := 8; d_name := str "a" |};
   {| d_ino := 12; d_type := 4; d_name := str "b" |}].
Definition dir_world : world :=
  scripted ([(7%Z, [], None)] ++ map (λ d, (1%Z, [], Some d)) two_files ++ [(0%Z, [], None)]).

Lemma readdir_complete_witness :
  ∃ w' n, unreliable_readdir linux_build name_filler 5 (str "/") [] 0 None dir_world
          = Ok (0%Z, [str "a"; str "b"], w') ∧
    calls dir_world w' = Sys_opendir (str "/") :: replicate n (Sys_readdir 7) ++ [Sys_closedir 7] ∧
    n ≤ 3.
Proof.
  apply (readdir_complete linux_build name_filler 5 (str "/") [] 0 None dir_world dir_world two_files).
  - reflexivity.
  - done.
  - apply ds_entry; [reflexivity|]. apply ds_entry; [reflexivity|]. apply ds_end. reflexivity.
  - simpl. lia.
Defined.

Lemma read_write_close_witness :
  ∃ res w', let w := scripted [(4, [], None); (2, str "hi", None)]%Z in
    unreliable_read linux_build (str "/a") (str "....") 4 0 None w = Ok (res, w') ∧
    calls w w' = [Sys_open (str "/a") 0; Sys_pread 4 4 0; Sys_close 4].
Proof.
  pose (w := scripted [(4, [], None); (2, str "hi", None)]%Z).
  pose (w' := sys_world (Sys_close 4) (sys_world (Sys_pread 4 4 0) (sys_world (Sys_open (str "/a") 0) w))).
  exists (2%Z, str "hi.."), w'. split; [reflexivity|].
  apply (proj1 (read_write_close linux_build (str "/a") (str "....") 4 0 w w)
    (2%Z, str "hi..") w'); reflexivity.
Defined.

Lemma readlink_terminates_or_overflows_witness :
  unreliable_readlink linux_build (str "/l") (str "....") 4 (scripted [(4%Z, str "abcd", None)])
  = Fault oob.
Proof.
  apply (readlink_terminates_or_overflows linux_build (str "/l") (str "....")
    (scripted [(4%Z, str "abcd", None)]) (scripted [(4%Z, str "abcd", None)])).
  - reflexivity.
  - reflexivity.
  - apply (bool_decide_unpack (nul_free (str "abcd"))). by vm_compute.
  - simpl. lia.
  - by vm_compute.
Defined.

Lemma fsyncdir_leaks_on_error_witness :
  ∃ w', let w := scripted [(7, [], None); (3, [], None); (-1, [], None)]%Z in
    unreliable_fsyncdir linux_build (str "/d") 0 None w = Ok ((-2)%Z, w') ∧
    calls w w' = [Sys_opendir (str "/d"); Sys_dirfd 7; Sys_fsync 3].
Proof.
  apply (fsyncdir_leaks_on_error linux_build (str "/d") 0 None
    (scripted [(7, [], None); (3, [], None); (-1, [], None)]%Z)
    (scripted [(7, [], None); (3, [], None); (-1, [], None)]%Z)); [reflexivity|done].
Defined.

Lemma fallocate_null_fi_witness :
  unreliable_fallocate linux_build (str "/a") 0 0 10 None (scripted [(4%Z, [], None)])
  = Fault null_deref.
Proof.
  apply (fallocate_null_fi linux_build (str "/a") 0 10 (scripted [(4%Z, [], None)])
    (scripted [(4%Z, [], None)])); [reflexivity|done].
Defined.


Lemma handles_roundtrip_witness :
  let w := scripted [(5%Z, [], None)] in
  (∃ i' w', unreliable_open linux_build (str "/a") (open_file 0) w = Ok (0%Z, Some i', w') ∧
    single linux_build (RRead (str "/a") (str "....") 4 0 (Some i'))
    = Some (Sys_pread 5 4 0, KCountBuf (str "...."))) ∧
  (∃ i' w', unreliable_opendir linux_build (str "/a") (open_file 0) w = Ok (0%Z, Some i', w') ∧
    single linux_build (RReleasedir (str "/a") (Some i')) = Some (Sys_closedir 5, KZero)).
Proof.
  intros w. apply (handles_roundtrip linux_build (str "/a") (str "....") 4 0
    {| flags := 0; fh := 0 |} w w w); [reflexivity|reflexivity|by vm_compute|by vm_compute].
Defined.
