(* ===== verification/Scenario.v ===== *)
(** * From the configuration file to a request

    The composition of the parser, the configuration, the error injection and
    the handlers: a file with one section, reloaded by an operation on it,
    governs the next request. *)
From stdpp Require Import base list numbers gmap strings.
From Stdlib Require Import Ascii ZArith.
From S2P Require Import Prelude CLib Ini IniSpec IniReader IniPrint Errno FuseOp Heap ErrInjConf.
From S2P Require Import ConfSpec ConfRefine ConfLoad ConfProps World ErrInj ErrInjSpec ErrInjRefine.
From S2P Require Import ErrInjProps Ops Handlers HandlerLemmas HandlerProps TestEnv.

(** ** Documents *)

(** The configuration of a printed document is that of its entries. *)
Lemma config_of_print d :
  doc_ok d → config_of (print_doc d) = fold_left add_entry (doc_entries d) [].
Proof.
  intros Hd. unfold config_of, entries, print_doc.
  rewrite chunks_print_lines by (by apply doc_line_ok). by rewrite entries_of_doc.
Qed.

Lemma one_type (t : Z) ts : Forall (eq t) ts → ts ≠ [] →
  fold_left (λ ts t, if decide (t ∈ ts) then ts else ts ++ [t]) ts [] = [t].
Proof.
  intros Hall Hne. destruct Hall as [|x ts Hx Hall]; [done|]. subst x. cbn [fold_left].
  clear Hne. rewrite decide_False by apply not_elem_of_nil. cbn [app].
  induction Hall as [|x ts Hx _ IH]; [done|]. subst x. cbn [fold_left].
  rewrite (decide_True (P := t ∈ [t])); [done|]. by left.
Qed.

(** A document with one section makes one injection. *)
Lemma one_section_config s t kvs :
  doc_ok [(s, kvs)] → section_type s = Some t → kvs ≠ [] →
  config_of (print_doc [(s, kvs)]) = [last_values t (doc_entries [(s, kvs)])].
Proof.
  intros Hd Hs Hkvs. rewrite config_of_print by done.
  set (es := doc_entries [(s, kvs)]).
  assert (Hes : es = map (λ kv, (s, kv.1, kv.2)) kvs) by (unfold es, doc_entries; apply app_nil_r).
  assert (Hts : Forall (eq t) (omap (λ e : entry, section_type e.1.1) es)).
  { rewrite Hes. clear -Hs. induction kvs as [|kv kvs IH]; simpl; [done|]. rewrite Hs. by constructor. }
  destruct (fold_entries_meaning es) as [Hlook Hty]. unfold types_in_order in Hty.
  rewrite (one_type t) in Hty; [|done|rewrite Hes; destruct kvs; [done|]; simpl; by rewrite Hs].
  specialize (Hlook t). destruct (fold_left add_entry es []) as [|i [|]]; try discriminate Hty.
  injection Hty as Hi. simpl in Hlook. rewrite decide_True in Hlook by done.
  unfold injection_of in Hlook. case_decide; [|done]. congruence.
Qed.

(** ** One injection and a request *)

Section scenario.
Context {env : Env} {spec : EnvSpec} {vals : ErrnoValues} (b : build).
Context {F : Type} (filler : F → cstr → dir_stat → Z → Z * F) (fuel : nat).

End scenario.

(** ** Witness *)

(** The configuration of the manual page's example. *)
Definition manual_section : list (cstr * cstr) :=
  [(str "op_regexp", str ".*"); (str "path_regexp", str ".*"); (str "probability", str "30")].

Definition manual_world : world :=
  test_world 5 (with_file (print_doc [(str "errinj_noop", manual_section)])).

