(* ===== verification/MainProg.v ===== *)
(** * unreliablefs.c: the program

    [main]: it sets up the global [conf], checks the base directory, builds the
    options of the subdir module and the path of the configuration file, reads
    the configuration, lets FUSE serve requests and frees what it allocated.
    libfuse is a parameter: the parsing of the options and the requests that
    [fuse_main] dispatches to the handlers. *)
From stdpp Require Import base list numbers gmap strings.
From Stdlib Require Import Ascii ZArith.
From S2P Require Import Prelude CLib Errno FuseOp Heap ErrInjConf World ErrInj Ops Handlers.
From S2P Require Import HandlerProps.

Definition DEFAULT_CONF_NAME : cstr := str "unreliablefs.conf".
(** <limits.h> of the platform. *)
Definition PATH_MAX (b : build) : nat :=
  match b_platform b with Linux => 4096 | _ => 1024 end.
Definition EXIT_FAILURE : Z := 1.

(** ** The options *)

(** [struct fuse_opt]: a template that stores to a member of
    [struct unreliablefs_config], or one with a key for the option processor. *)
Inductive opt_member := Opt_seed | Opt_basedir.
Inductive fuse_opt :=
  | UNRELIABLEFS_OPT (templ : cstr) (member : opt_member) (value : Z)
  | FUSE_OPT_KEY (templ : cstr) (key : Z).

(** The keys of [unreliablefs_opts], and that of <fuse_opt.h> for options to be
    dropped. *)
Definition KEY_HELP : Z := 0.
Definition KEY_VERSION : Z := 1.
Definition KEY_DEBUG : Z := 2.
Definition FUSE_OPT_KEY_DISCARD : Z := -4.

Definition unreliablefs_opts : list fuse_opt := [
  UNRELIABLEFS_OPT (str "-seed=%u") Opt_seed 0;
  UNRELIABLEFS_OPT (str "-basedir=%s") Opt_basedir 0;
  FUSE_OPT_KEY (str "-d") KEY_DEBUG;
  FUSE_OPT_KEY (str "-V") KEY_VERSION;
  FUSE_OPT_KEY (str "-v") KEY_VERSION;
  FUSE_OPT_KEY (str "--version") KEY_VERSION;
  FUSE_OPT_KEY (str "-h") KEY_HELP;
  FUSE_OPT_KEY (str "--help") KEY_HELP;
  FUSE_OPT_KEY (str "subdir") FUSE_OPT_KEY_DISCARD;
  FUSE_OPT_KEY (str "modules=") FUSE_OPT_KEY_DISCARD
].

(** What [unreliablefs_opt_proc] returns; [None]: it exits. *)
Definition opt_proc_result (key : Z) : option Z :=
  if decide (key = KEY_HELP ∨ key = KEY_VERSION) then None else Some 1%Z.

(** What [fuse_opt_parse] does with the arguments: it gives the members their
    values and leaves some arguments, or it calls the processor with a key for
    which it exits, the arguments left so far in [outargs]. *)
Inductive parse_result :=
  | Parsed (seed0 : Z) (basedir0 : cstr) (args : list cstr)
  | Proc_exits (key : Z) (outargs : list cstr).

(** [S_ISDIR(m)] *)
Definition S_ISDIR (m : Z) : bool := bool_decide (Z.land m 61440 = 16384)%Z.

(** [sprintf(subdir_option, "-omodules=subdir,subdir=%s", basedir)] into a buffer
    of [PATH_MAX] bytes. *)
Definition subdir_option (b : build) (basedir : cstr) : outcome cstr :=
  let text := str "-omodules=subdir,subdir=" ++ basedir in
  if decide (length text < PATH_MAX b) then Ok text else Fault oob.

(** [snprintf] of [text] into a buffer of [size] bytes. *)
Definition snprintf (size : nat) (text : cstr) : cstr := take (size - 1) text.

(** The size that [main] allocates for the path, and the text it prints there. *)
Definition config_path_size (real : cstr) : nat :=
  length DEFAULT_CONF_NAME + length real + 2.
Definition config_path_text (real : cstr) : cstr :=
  snprintf (config_path_size real) (real ++ str "/" ++ DEFAULT_CONF_NAME).

Section main.
Context {env : Env} {vals : ErrnoValues} (b : build).
Context {F : Type} (filler : F → cstr → dir_stat → Z → Z * F) (fuel : nat) (dirbuf : F).

(** [fuse_opt_parse] with the table of options, the results of the processor,
    the arguments, and the values of [seed] and [basedir]; [main] ignores its
    result. *)
Variable fuse_opt_parse : list fuse_opt → (Z → option Z) → list cstr → Z → cstr → parse_result.
(** [fuse_main] with its arguments: the requests it dispatches, its result. *)
Variable fuse_main : list cstr → list request * Z.
(** The [st_mode] in the bytes of a [struct stat]; [time(0)]; the result of
    [pthread_mutex_init]. *)
Variables (stat_mode : cstr → Z) (now pthread_mutex_init : Z).

Definition is_dir (path : cstr) : M world Z :=
  let! r := sys (Sys_stat path) in
  if decide (sr_ret r ≠ 0%Z) then retM 0%Z
  else retM (if S_ISDIR (stat_mode (sr_out r)) then 1 else 0)%Z.

(** [memset(&conf, 0, ...)] and the defaults; the later [srand] has no
    effect before the first draw. *)
Definition init_conf (seed0 : Z) (basedir0 : cstr) : M world unit := modify (λ w,
  {| w_conf := {| errors := None; basedir := basedir0; config_path := []; seed := seed0;
                  debug := 0; mutex := false |};
     w_mem := w_mem w; w_nrand := 0; w_kstate := w_kstate w; w_errno := w_errno w;
     w_trace := w_trace w |}).

(** The members that the options set. *)
Definition set_options (seed0 : Z) (basedir0 : cstr) : M world unit := modify (λ w,
  set_conf {| errors := errors (w_conf w); basedir := basedir0;
              config_path := config_path (w_conf w); seed := seed0; debug := debug (w_conf w);
              mutex := mutex (w_conf w) |} w).

(** The processor; [None]: the process exits with status 1.  For the version
    it lets FUSE print its own first; [config_path] is the null pointer then,
    which [error_inject] would dereference if FUSE dispatched a request. *)
Definition unreliablefs_opt_proc (key : Z) (outargs : list cstr) : M world (option Z) :=
  if decide (key = KEY_HELP) then retM None
  else if decide (key = KEY_VERSION) then
    match (fuse_main (outargs ++ [str "--version"])).1 with
    | [] => retM None
    | _ :: _ => fault_ null_deref
    end
  else retM (Some 1%Z).

Definition set_paths (real path : cstr) : M world unit := modify (λ w,
  set_conf {| errors := errors (w_conf w); basedir := real; config_path := path;
              seed := seed (w_conf w); debug := debug (w_conf w);
              mutex := mutex (w_conf w) |} w).

(** After [fuse_main] returned. *)
Definition cleanup (path : ptr) : M world unit :=
  let! conf := gets w_conf in
  do! with_mem (config_delete (errors conf)) in
  with_mem (free_if path).

(** The part of [main] after the base directory was resolved: the path of the
    configuration, the configuration, the requests and the cleanup. *)
Definition start (real_path : cstr) (args : list cstr) : M world Z :=
  let! path := with_mem (alloc (Str [])) in
  match path with
  | None => retM EXIT_FAILURE
  | Some _ =>
      do! with_mem (assign path (Str (config_path_text real_path))) in
      do! set_paths real_path (config_path_text real_path) in
      let! errs := config_init (config_path_text real_path) in
      do! set_errors errs in
      if decide (pthread_mutex_init ≠ 0%Z) then retM EXIT_FAILURE
      else
        let served := fuse_main args in
        do! serve b filler fuel dirbuf served.1 in
        do! cleanup path in
        retM served.2
  end.

Definition main (argv : list cstr) : M world Z :=
  do! init_conf (to_uint now) (str "/") in
  match fuse_opt_parse unreliablefs_opts opt_proc_result argv (to_uint now) (str "/") with
  | Proc_exits key outargs =>
      do! unreliablefs_opt_proc key outargs in retM 1%Z
  | Parsed seed0 basedir0 args =>
      do! set_options (to_uint seed0) basedir0 in
      let! d := is_dir basedir0 in
      if decide (d = 0%Z) then retM EXIT_FAILURE
      else
        let! opt := lift (subdir_option b basedir0) in
        let! real := sys (Sys_realpath basedir0) in
        if decide (sr_ret real = 0%Z) then retM EXIT_FAILURE
        else start (sr_out real) (args ++ [opt])
  end.
End main.
