(* ===== verification/MainProps.v ===== *)
(** * Properties of the program

    [main] from its start to its end: the configuration path, the state in
    which FUSE starts to dispatch requests, safety of a whole run, and the
    buffer of the subdir option. *)
From stdpp Require Import base list numbers gmap strings.
From Stdlib Require Import Ascii ZArith.
From S2P Require Import Prelude CLib Errno FuseOp Heap ErrInjConf ConfSpec ConfRefine ConfLoad.
From S2P Require Import World ErrInj ErrInjSpec ErrInjRefine ErrInjProps Ops Handlers HandlerProps.
From S2P Require Import MainProg TestEnv.

Lemma config_path_text_eq real : config_path_text real = real ++ str "/" ++ DEFAULT_CONF_NAME.
Proof.
  unfold config_path_text, snprintf, config_path_size. apply take_ge.
  rewrite !length_app. simpl. lia.
Qed.

Section main.
Context {env : Env} {spec : EnvSpec} {vals : ErrnoValues} (b : build).
Context {F : Type} (filler : F → cstr → dir_stat → Z → Z * F) (fuel : nat) (dirbuf : F).
Variable fuse_opt_parse : list fuse_opt → (Z → option Z) → list cstr → Z → cstr → parse_result.
Variable fuse_main : list cstr → list request * Z.
Variables (stat_mode : cstr → Z) (now pthread_mutex_init : Z).

Abbreviation run_main :=
  (main b filler fuel dirbuf fuse_opt_parse fuse_main stat_mode now pthread_mutex_init).

(** What the option parser makes of the command line. *)
Abbreviation parsed argv :=
  (fuse_opt_parse unreliablefs_opts opt_proc_result argv (to_uint now) (str "/")).

(** Loading the configuration into the global [conf]. *)
Lemma load_state path w :
  conf_files_fit → mutex (w_conf w) = false →
  ∃ p w', config_init path w = Ok (p, w') ∧
    let w1 := set_conf {| errors := p; basedir := basedir (w_conf w');
                          config_path := config_path (w_conf w'); seed := seed (w_conf w');
                          debug := debug (w_conf w'); mutex := mutex (w_conf w') |} w' in
    world_ok (heap_of w) w1 ∧ w_conf w' = w_conf w ∧
    (no_oom (w_mem w) → ∀ cfg, load_config path (w_kstate w) = Some cfg →
     world_rep w1 (Some cfg) (heap_of w)).
Proof.
  intros Hfit Hm. destruct (m_oom (w_mem w) (m_count (w_mem w))) eqn:Ho.
  - destruct (config_init_oom path w Ho) as (w' & Hrun & Hc & Hh & _).
    exists None, w'. split; [done|]. split; [|split; [done|]].
    + exists None, (heap_of w). split; [|done]. split; [simpl; by rewrite Hc|]. exact Hh.
    + intros Hno. by rewrite Hno in Ho.
  - destruct (config_init_correct path w spec Hfit Ho)
      as (p & w' & Hrun & Hc & _ & _ & _ & _ & Hres).
    exists p, w'. split; [done|]. cbn zeta.
    assert (Hm' : mutex (w_conf w') = false) by (by rewrite Hc).
    destruct (load_config path (w_kstate w)) as [cfg|], p as [q|]; try done.
    + destruct Hres as (cfg' & Hq & Hfr & Hok & Hval). split; [|split; [done|]].
      * exists (Some cfg'), (heap_of w). by repeat (split; [done|]).
      * intros Hno ? [= <-]. rewrite <- (Hval Hno). by repeat (split; [done|]).
    + destruct Hres as (q & Hq & Hw). split; [|by split].
      exists None, (heap_of w'). split; [by split|]. rewrite Hw. by apply insert_subseteq.
Qed.

(** The end of [main] frees the configuration and the path. *)
Lemma cleanup_correct path s fr0 w :
  fr0 !! path = None → world_ok (<[path := Str s]> fr0) w →
  ∃ w', cleanup (Some path) w = Ok (tt, w') ∧ fr0 ⊆ heap_of w' ∧ heap_of w' !! path = None.
Proof.
  intros Hp (ocfg & fr & Hrep & Hsub). unfold cleanup.
  unfold bindM at 1, gets at 1. cbn [obind].
  destruct (config_delete_world _ _ _ Hrep) as (m & Hdel & _ & Hh).
  rewrite (bind_with_mem _ _ _ _ _ Hdel).
  assert (Hlive : m_heap m !! path = Some (Str s)).
  { rewrite Hh. eapply lookup_weaken; [|exact Hsub]. apply lookup_insert_eq. }
  unfold with_mem. cbn [w_mem set_mem free_if]. rewrite (free_live path _ _ Hlive). cbn [obind].
  eexists. split; [done|]. unfold heap_of. simpl. rewrite Hh. split; [|apply lookup_delete_eq].
  rewrite <- (delete_insert_id fr0 path (Str s)) by done. by apply delete_mono.
Qed.

(** The world after [init_conf]. *)
Definition initial (seed0 : Z) (basedir0 : cstr) (w : world) : world :=
  {| w_conf := {| errors := None; basedir := basedir0; config_path := [];
                  seed := to_uint seed0; debug := 0; mutex := false |};
     w_mem := w_mem w; w_nrand := 0; w_kstate := w_kstate w; w_errno := w_errno w;
     w_trace := w_trace w |}.

(** The world after the base directory was looked at, and after its path was
    resolved. *)
Definition checked seed0 basedir0 w : world :=
  sys_world (Sys_stat basedir0) (initial seed0 basedir0 w).
Definition resolved seed0 basedir0 w : world :=
  sys_world (Sys_realpath basedir0) (checked seed0 basedir0 w).

(** The base directory exists and is a directory. *)
Definition basedir_ok seed0 basedir0 w : Prop :=
  let r := sys_res (Sys_stat basedir0) (initial seed0 basedir0 w) in
  sr_ret r = 0%Z ∧ S_ISDIR (stat_mode (sr_out r)) = true.

#[local] Instance basedir_ok_dec seed0 basedir0 w : Decision (basedir_ok seed0 basedir0 w).
Proof. unfold basedir_ok. apply _. Defined.

Lemma is_dir_eq seed0 basedir0 w :
  is_dir stat_mode basedir0 (initial seed0 basedir0 w)
  = Ok (if decide (basedir_ok seed0 basedir0 w) then 1%Z else 0%Z, checked seed0 basedir0 w).
Proof.
  unfold is_dir. rewrite bind_sys.
  destruct (decide (basedir_ok seed0 basedir0 w)) as [[E1 E2]|E].
  - rewrite decide_False by auto. by rewrite E2.
  - destruct (decide (sr_ret _ ≠ 0%Z)) as [|E1]; [done|]. apply dec_stable in E1.
    destruct (S_ISDIR _) eqn:E2; [|done]. by destruct E.
Qed.

(** [main] up to the resolution of the path. *)
Lemma main_checked argv seed0 basedir0 args w :
  parsed argv = Parsed seed0 basedir0 args →
  run_main argv w
  = if decide (basedir_ok seed0 basedir0 w) then
      let* opt := subdir_option b basedir0 in
      let w1 := resolved seed0 basedir0 w in
      let real := sys_res (Sys_realpath basedir0) (checked seed0 basedir0 w) in
      if decide (sr_ret real = 0%Z) then Ok (EXIT_FAILURE, w1)
      else start b filler fuel dirbuf fuse_main pthread_mutex_init (sr_out real) (args ++ [opt]) w1
    else Ok (EXIT_FAILURE, checked seed0 basedir0 w).
Proof.
  intros Hp. unfold main. rewrite Hp.
  rewrite (bindM_eq _ _ _ _ _ (eq_refl : init_conf _ _ w = Ok (tt, initial now (str "/") w))).
  rewrite (bindM_eq _ _ _ _ _ (eq_refl : set_options (to_uint seed0) basedir0 (initial now (str "/") w)
    = Ok (tt, initial seed0 basedir0 w))).
  rewrite (bindM_eq _ _ _ _ _ (is_dir_eq seed0 basedir0 w)).
  destruct (decide (basedir_ok seed0 basedir0 w)); [|done]. rewrite decide_False by done.
  unfold bindM at 1, lift at 1. destruct (subdir_option b basedir0) as [opt| |]; [|done..].
  cbn [obind]. rewrite bind_sys. fold (resolved seed0 basedir0 w). by case_decide.
Qed.

(** The world in which FUSE starts to dispatch requests, reached from [w] with
    the path's block at [path]. *)
Definition ready (text : cstr) (path : addr) (w w1 : world) : Prop :=
  config_path (w_conf w1) = text ∧ seed (w_conf w1) = seed (w_conf w) ∧
  heap_of w !! path = None ∧
  world_ok (<[path := Str text]> (heap_of w)) w1 ∧
  (no_oom (w_mem w) → ∀ cfg, load_config text (w_kstate w) = Some cfg →
   world_rep w1 (Some cfg) (<[path := Str text]> (heap_of w))).

Lemma start_ready real args w :
  conf_files_fit → mutex (w_conf w) = false → pthread_mutex_init = 0%Z →
  m_oom (w_mem w) (m_count (w_mem w)) = false →
  ∃ path w1, ready (config_path_text real) path w w1 ∧
    start b filler fuel dirbuf fuse_main pthread_mutex_init real args w
    = (do! serve b filler fuel dirbuf (fuse_main args).1 in
       do! cleanup (Some path) in
       retM (fuse_main args).2) w1.
Proof.
  intros Hfit Hm Hpm Hoom. unfold start. set (text := config_path_text real).
  destruct (alloc_ok (Str []) _ Hoom) as (path & m & Hal & Hp & Hh & Ho).
  rewrite (bind_with_mem _ _ _ _ _ Hal).
  assert (Hlive : m_heap m !! path = Some (Str [])) by (rewrite Hh; apply lookup_insert_eq).
  erewrite bind_with_mem by exact (assign_live _ _ (Str text) _ Hlive).
  set (w2 := set_mem _ _).
  set (w3 := set_conf {| errors := errors (w_conf w2); basedir := real; config_path := text;
                         seed := seed (w_conf w2); debug := debug (w_conf w2);
                         mutex := mutex (w_conf w2) |} w2).
  rewrite (bindM_eq _ _ _ _ _ (eq_refl : set_paths real text w2 = Ok (tt, w3))).
  assert (Hheap : heap_of w3 = <[path := Str text]> (heap_of w)).
  { unfold heap_of. simpl. rewrite Hh. by rewrite insert_insert_eq. }
  destruct (load_state text w3 Hfit Hm) as (p & w' & Hrun & Hok & Hc & Hload).
  rewrite (bindM_eq _ _ _ _ _ Hrun). eexists path, _. split.
  2: { unfold bindM at 1, set_errors, modify. cbn [obind].
       rewrite decide_False by auto. reflexivity. }
  rewrite Hheap in Hok, Hload.
  split; [simpl; by rewrite Hc|]. split; [simpl; by rewrite Hc|].
  split; [done|]. split; [exact Hok|].
  intros Hno cfg Hcfg. apply Hload; [|done]. intros n. change (m_oom m n = false). by rewrite Ho.
Qed.

Lemma start_safe real args w :
  conf_files_fit → buildable b = true → mutex (w_conf w) = false →
  Forall (λ q, enabled b (req_op q) = true) (fuse_main args).1 →
  match start b filler fuel dirbuf fuse_main pthread_mutex_init real args w with
  | Ok (_, w') => heap_of w ⊆ heap_of w'
  | Fault f => f = oob ∨ f = null_deref
  | NoFuel => True
  end.
Proof.
  intros Hfit Hb Hm Hall. destruct (m_oom (w_mem w) (m_count (w_mem w))) eqn:Ho.
  { unfold start. rewrite (bind_with_mem _ _ _ _ _ (alloc_fail _ _ Ho)). exact (reflexivity (heap_of w)). }
  destruct (decide (pthread_mutex_init = 0%Z)) as [Hpm|Hpm].
  - destruct (start_ready real args w Hfit Hm Hpm Ho) as (path & w1 & (_ & _ & Hp & Hok & _) & ->).
    pose proof (serve_correct b filler fuel dirbuf (fuse_main args).1 w1 _ Hfit Hb Hall Hok) as Hs.
    unfold bindM at 1. destruct (serve b filler fuel dirbuf (fuse_main args).1 w1) as [[rs w2]| |];
      cbn [obind]; [|done..]. destruct Hs as (_ & Hok2 & _).
    destruct (cleanup_correct path _ _ w2 Hp Hok2) as (w3 & Hrun & Hsub & _).
    by rewrite (bindM_eq _ _ _ _ _ Hrun).
  - unfold start. destruct (alloc_ok (Str []) _ Ho) as (path & m & Hal & Hp & Hh & Hom).
    rewrite (bind_with_mem _ _ _ _ _ Hal).
    assert (Hlive : m_heap m !! path = Some (Str [])) by (rewrite Hh; apply lookup_insert_eq).
    erewrite bind_with_mem by exact (assign_live _ _ (Str (config_path_text real)) _ Hlive).
    unfold set_paths. unfold bindM at 1, modify at 1. cbn [obind].
    set (w3 := set_conf _ _).
    destruct (load_state (config_path_text real) w3 Hfit Hm)
      as (p & w' & Hrun & (ocfg & fr & [_ Hrep] & Hsub) & _).
    rewrite (bindM_eq _ _ _ _ _ Hrun). unfold bindM, set_errors, modify. cbn [obind].
    rewrite decide_True by done. unfold retM.
    assert (heap_of w ⊆ fr) as Hw.
    { etrans; [|exact Hsub]. unfold heap_of. simpl. rewrite Hh, insert_insert_eq.
      by apply insert_subseteq. }
    etrans; [exact Hw|]. simpl in Hrep. unfold heap_of in *. simpl in *.
    destruct p as [q|], ocfg as [cfg|]; try done; [|by rewrite <- Hrep].
    destruct Hrep as (_ & <- & _). apply map_filter_subseteq.
Qed.

(** The state in which FUSE starts to dispatch requests. *)
Lemma main_starts_at argv seed0 basedir0 args w :
  parsed argv = Parsed seed0 basedir0 args →
  basedir_ok seed0 basedir0 w → length basedir0 < PATH_MAX b - 24 →
  let real := sys_res (Sys_realpath basedir0) (checked seed0 basedir0 w) in
  sr_ret real ≠ 0%Z → conf_files_fit → no_oom (w_mem w) → pthread_mutex_init = 0%Z →
  let text := sr_out real ++ str "/" ++ DEFAULT_CONF_NAME in
  let served := fuse_main (args ++ [str "-omodules=subdir,subdir=" ++ basedir0]) in
  ∃ path w1, ready text path (resolved seed0 basedir0 w) w1 ∧
    run_main argv w
    = (do! serve b filler fuel dirbuf served.1 in
       do! cleanup (Some path) in
       retM served.2) w1.
Proof.
  intros Hp Hdir Hlen real Hreal Hfit Hno Hpm text served.
  destruct (start_ready (sr_out real) (args ++ [str "-omodules=subdir,subdir=" ++ basedir0])
    (resolved seed0 basedir0 w) Hfit eq_refl Hpm (Hno _)) as (path & w1 & Hready & Hrun).
  rewrite config_path_text_eq in Hready. exists path, w1. split; [done|].
  rewrite (main_checked _ _ _ _ _ Hp), decide_True by done.
  assert (Hopt : subdir_option b basedir0 = Ok (str "-omodules=subdir,subdir=" ++ basedir0)).
  { unfold subdir_option. apply decide_True. rewrite length_app. simpl length at 1. lia. }
  rewrite Hopt. cbn [obind]. cbn zeta. fold real. by rewrite decide_False.
Qed.

(** The program's start: when the base directory is one, its option fits
    the buffer and its path resolves, FUSE starts to dispatch requests in a
    state whose configuration path is the resolved directory, a slash and
    "unreliablefs.conf", never truncated, and whose configuration is the
    meaning of that file; the run is then the requests in order and the
    cleanup, and its result is [fuse_main]'s. *)
Theorem main_starts argv seed0 basedir0 args w :
  parsed argv = Parsed seed0 basedir0 args →
  basedir_ok seed0 basedir0 w → length basedir0 < PATH_MAX b - 24 →
  let real := sys_res (Sys_realpath basedir0) (checked seed0 basedir0 w) in
  sr_ret real ≠ 0%Z → conf_files_fit → no_oom (w_mem w) → pthread_mutex_init = 0%Z →
  let text := sr_out real ++ str "/" ++ DEFAULT_CONF_NAME in
  let served := fuse_main (args ++ [str "-omodules=subdir,subdir=" ++ basedir0]) in
  ∃ path w1, ready text path (resolved seed0 basedir0 w) w1 ∧
    run_main argv w
    = (do! serve b filler fuel dirbuf served.1 in
       do! cleanup (Some path) in
       retM served.2) w1.
Proof. exact (main_starts_at argv seed0 basedir0 args w). Qed.

(** The exits of the option processor. *)
Lemma proc_safe key outargs seed0 basedir0 w :
  match (do! init_conf seed0 basedir0 in
         do! unreliablefs_opt_proc fuse_main key outargs in retM 1%Z) w with
  | Ok (_, w') => heap_of w ⊆ heap_of w'
  | Fault f => f = oob ∨ f = null_deref
  | NoFuel => True
  end.
Proof.
  unfold unreliablefs_opt_proc, init_conf, modify, bindM. cbn [obind].
  repeat case_decide; try exact (reflexivity (heap_of w)).
  destruct (fuse_main _) as [[|q qs] rc]; [exact (reflexivity (heap_of w))|by right].
Qed.

(** C6. A whole run is safe: for any command line, kernel, configuration
    files and requests, [main] ends in an exit status with every block of
    other owners as it was, or in an access outside a buffer or through a null
    pointer; no block is freed twice or used after it was freed, and the mutex
    is never locked twice. *)
Theorem main_safe argv w :
  conf_files_fit → buildable b = true →
  (∀ args, Forall (λ q, enabled b (req_op q) = true) (fuse_main args).1) →
  match run_main argv w with
  | Ok (_, w') => heap_of w ⊆ heap_of w'
  | Fault f => f = oob ∨ f = null_deref
  | NoFuel => True
  end.
Proof.
  intros Hfit Hb Hall.
  destruct (parsed argv) as [seed0 basedir0 args|key outargs] eqn:Hp.
  2: { unfold main. rewrite Hp. by apply proc_safe. }
  rewrite (main_checked _ _ _ _ _ Hp). case_decide; [|exact (reflexivity (heap_of w))].
  unfold subdir_option. case_decide; cbn [obind]; [|by left].
  case_decide; [exact (reflexivity (heap_of w))|].
  by apply (start_safe _ _ (resolved seed0 basedir0 w)).
Qed.

(** C40. A base directory of [PATH_MAX b - 24] characters or more, which the
    [stat] before accepts, overflows the buffer of the subdir option. *)
Theorem main_subdir_overflow argv seed0 basedir0 args w :
  parsed argv = Parsed seed0 basedir0 args →
  basedir_ok seed0 basedir0 w → PATH_MAX b - 24 ≤ length basedir0 →
  run_main argv w = Fault oob.
Proof.
  intros Hp Hdir Hlen. rewrite (main_checked _ _ _ _ _ Hp), decide_True by done.
  unfold subdir_option. rewrite decide_False; [done|]. rewrite length_app.
  simpl length at 1. lia.
Qed.
End main.

(** ** Witnesses *)

(** A command line that is the base directory; a client that makes a directory
    and rewrites the configuration. *)
Definition parse_basedir (opts : list fuse_opt) (proc : Z → option Z) (argv : list cstr)
    (seed0 : Z) (basedir0 : cstr) : parse_result :=
  match argv with d :: args => Parsed seed0 d args | [] => Parsed seed0 basedir0 [] end.
Definition small_client (args : list cstr) : list request * Z :=
  ([RMkdir (str "/d") 493; RWrite (str "/tmp/unreliablefs.conf") (str "x") 1 0 (open_file 3)], 0%Z).

(** A kernel on which the base directory is /tmp. *)
Definition tmp_world : world :=
  scripted [(0%Z, str "st", None); (1%Z, str "/tmp", None)].

Lemma main_starts_witness :
  let served := small_client ([str "/mnt"] ++ [str "-omodules=subdir,subdir=" ++ str "/tmp"]) in
  ∃ path w1, ready (str "/tmp/unreliablefs.conf") path (resolved 7 (str "/tmp") tmp_world) w1 ∧
    main linux_build name_filler 5 [] parse_basedir small_client (λ _, 16877%Z) 7 0
      [str "/tmp"; str "/mnt"] tmp_world
    = (do! serve linux_build name_filler 5 [] served.1 in
       do! cleanup (Some path) in
       retM served.2) w1.
Proof.
  apply (main_starts linux_build name_filler 5 [] parse_basedir small_client (λ _, 16877%Z) 7 0
    [str "/tmp"; str "/mnt"] 7 (str "/tmp") [str "/mnt"] tmp_world).
  - reflexivity.
  - split; reflexivity.
  - apply (bool_decide_unpack (length (str "/tmp") < PATH_MAX linux_build - 24)). by vm_compute.
  - done.
  - apply test_conf_files_fit.
  - intros n. reflexivity.
  - reflexivity.
Defined.

Lemma main_safe_witness :
  match main linux_build name_filler 5 [] parse_basedir small_client (λ _, 16877%Z) 7 0
          [str "/tmp"; str "/mnt"] tmp_world with
  | Ok (_, w') => heap_of tmp_world ⊆ heap_of w'
  | Fault f => f = oob ∨ f = null_deref
  | NoFuel => True
  end.
Proof.
  apply main_safe.
  - apply test_conf_files_fit.
  - reflexivity.
  - intros args. by repeat constructor.
Defined.

Lemma main_subdir_overflow_witness :
  main linux_build name_filler 5 [] parse_basedir small_client (λ _, 16877%Z) 7 0
    [replicate 4080 "/"%char; str "/mnt"] tmp_world = Fault oob.
Proof.
  apply (main_subdir_overflow linux_build name_filler 5 [] parse_basedir small_client
    (λ _, 16877%Z) 7 0 [replicate 4080 "/"%char; str "/mnt"] 7 (replicate 4080 "/"%char)
    [str "/mnt"] tmp_world).
  - reflexivity.
  - split; reflexivity.
  - apply (bool_decide_unpack (PATH_MAX linux_build - 24 ≤ length (replicate 4080 "/"%char))). by vm_compute.
Defined.
