(* ===== verification/Reload.v ===== *)
(** * When the configuration is reloaded, and when it cannot be

    Requests on other paths keep the configuration; with the root as the base
    directory the path of the configuration file is a text that no file's path
    is, only the target of a symbolic link. *)
From stdpp Require Import base list numbers gmap strings.
From Stdlib Require Import Ascii ZArith.
From S2P Require Import Prelude CLib Errno FuseOp Heap ErrInjConf ConfSpec ConfRefine ConfLoad.
From S2P Require Import World ErrInj ErrInjSpec ErrInjRefine ErrInjProps Ops Handlers HandlerLemmas.
From S2P Require Import HandlerProps MainProg MainProps TestEnv.

Section kept.
Context {env : Env} {spec : EnvSpec} {vals : ErrnoValues} (b : build).
Context {F : Type} (filler : F → cstr → dir_stat → Z → Z * F) (fuel : nat) (d : F).

Lemma same_conf_rep w w' ocfg fr : same_conf w w' → world_rep w ocfg fr → world_rep w' ocfg fr.
Proof. intros [Hc Hm]. unfold world_rep, heap_of. by rewrite Hc, Hm. Qed.

Lemma handle_keeps q w r w' ocfg fr :
  enabled b (req_op q) = true → req_path q ≠ config_path (w_conf w) → world_rep w ocfg fr →
  handle b filler fuel d q w = Ok (r, w') → same_conf w w'.
Proof.
  intros He Hpath Hrep Hrun.
  destruct (handle_shape b filler fuel d q) as (A & f & rp & body & Htame & Hq).
  rewrite Hq in Hrun. unfold respond in Hrun. apply bindM_Ok_inv in Hrun as (a & w2 & Hrun & [= _ <-]).
  rewrite guard_eq, (error_inject_eq b _ _ w ocfg fr He Hpath Hrep) in Hrun.
  destruct (spec_loop b _ _ _ 0 w) as [[rc w1]| |] eqn:E; [|done..].
  apply spec_loop_same_conf in E. cbn [obind fst snd] in Hrun.
  case_decide; [by simplify_eq|]. case_decide; [|by simplify_eq].
  specialize (Htame w1). rewrite Hrun in Htame. by eapply same_conf_trans.
Qed.

(** Requests that are not on the configuration file keep the configuration, the
    heap and [conf]. *)
Lemma serve_keeps qs w rs w' ocfg fr :
  Forall (λ q, enabled b (req_op q) = true ∧ req_path q ≠ config_path (w_conf w)) qs →
  world_rep w ocfg fr → serve b filler fuel d qs w = Ok (rs, w') →
  same_conf w w' ∧ world_rep w' ocfg fr.
Proof.
  intros Hall Hrep. revert w rs Hall Hrep. induction qs as [|q qs IH]; intros w rs Hall Hrep.
  { intros [= _ <-]. by split. }
  apply Forall_cons in Hall as [[He Hpath] Hall]. intros Hrun. cbn [serve] in Hrun.
  apply bindM_Ok_inv in Hrun as (r & w1 & Hq & Hrun).
  apply bindM_Ok_inv in Hrun as (rs' & w2 & Hrun & [= _ <-]).
  pose proof (handle_keeps _ _ _ _ _ _ He Hpath Hrep Hq) as Hsame.
  destruct (IH w1 rs') as [Hs Hr]; [by destruct Hsame as [-> _]|by eapply same_conf_rep|done|].
  split; [by eapply same_conf_trans|done].
Qed.
End kept.

Section root.
Context {env : Env} {spec : EnvSpec} {vals : ErrnoValues} (b : build).
Context {F : Type} (filler : F → cstr → dir_stat → Z → Z * F) (fuel : nat) (dirbuf : F).
Variable fuse_opt_parse : list fuse_opt → (Z → option Z) → list cstr → Z → cstr → parse_result.
Variable fuse_main : list cstr → list request * Z.
Variables (stat_mode : cstr → Z) (now pthread_mutex_init : Z).

(** The path of the configuration file when the base directory is the root. *)
Abbreviation root_conf_path := (str "//unreliablefs.conf").

(** A symbolic link whose target is the text of the configuration's path. *)
Lemma symlink_reloads link w ocfg fr cfg :
  conf_files_fit → no_oom (w_mem w) → world_rep w ocfg fr →
  load_config (config_path (w_conf w)) (w_kstate w) = Some cfg →
  ∃ r w', handle b filler fuel dirbuf (RSymlink (config_path (w_conf w)) link) w = Ok (r, w') ∧
    world_rep w' (Some cfg) fr.
Proof.
  intros Hfit Hno Hrep Hload.
  destruct (error_inject_reload b OP_SYMLINK w ocfg fr Hfit Hrep) as (w1 & Hrun & _ & _ & Hre).
  destruct (Hre Hno) as (_ & _ & _ & Hrep1). rewrite Hload in Hrep1.
  rewrite (handle_single_eq b filler fuel dirbuf (RSymlink _ link) _ KZero w w1 eq_refl Hrun).
  eexists _, _. split; [reflexivity|]. by apply (same_conf_rep w1).
Qed.

(** C30. With the root as the base directory a write to the configuration file has
    no effect on the program: the path it compares with is "//unreliablefs.conf",
    two slashes.  As long as no request gives [error_inject] that very text, in
    particular whatever is done to "/unreliablefs.conf", the configuration of the
    start, the meaning of the file then, governs the run, in the same blocks of the
    heap.  What still reloads it is the text: a request for a symbolic link with
    this text as its target, which is what [unreliable_symlink] gives to
    [error_inject], loads the file's present contents. *)
Theorem root_reload_needs_two_slashes argv seed0 basedir0 args w cfg :
  fuse_opt_parse unreliablefs_opts opt_proc_result argv (to_uint now) (str "/")
    = Parsed seed0 basedir0 args →
  basedir_ok stat_mode seed0 basedir0 w → length basedir0 < PATH_MAX b - 24 →
  let real := sys_res (Sys_realpath basedir0) (checked seed0 basedir0 w) in
  sr_ret real ≠ 0%Z → sr_out real = str "/" →
  conf_files_fit → no_oom (w_mem w) → pthread_mutex_init = 0%Z →
  load_config root_conf_path (w_kstate (resolved seed0 basedir0 w)) = Some cfg →
  let served := fuse_main (args ++ [str "-omodules=subdir,subdir=" ++ basedir0]) in
  Forall (λ q, enabled b (req_op q) = true) served.1 →
  ∃ path fr w1,
    main b filler fuel dirbuf fuse_opt_parse fuse_main stat_mode now pthread_mutex_init argv w
    = (do! serve b filler fuel dirbuf served.1 in
       do! cleanup (Some path) in
       retM served.2) w1 ∧
    world_rep w1 (Some cfg) fr ∧
    ∀ qs rs w2, qs `prefix_of` served.1 → Forall (λ q, req_path q ≠ root_conf_path) qs →
      serve b filler fuel dirbuf qs w1 = Ok (rs, w2) →
      errors (w_conf w2) = errors (w_conf w1) ∧ world_rep w2 (Some cfg) fr ∧
      ∀ link cfg', no_oom (w_mem w2) → load_config root_conf_path (w_kstate w2) = Some cfg' →
        ∃ r w3, handle b filler fuel dirbuf (RSymlink root_conf_path link) w2 = Ok (r, w3) ∧
                world_rep w3 (Some cfg') fr.
Proof.
  intros Hp Hdir Hlen real Hreal Hroot Hfit Hno Hpm Hload served Hreq.
  destruct (main_starts_at b filler fuel dirbuf fuse_opt_parse fuse_main stat_mode now
    pthread_mutex_init argv seed0 basedir0 args w Hp Hdir Hlen Hreal Hfit Hno Hpm)
    as (path & w1 & (Hpath & _ & _ & _ & Hconf) & Hrun).
  fold real in Hpath, Hconf. rewrite Hroot in Hpath, Hconf.
  pose proof (Hconf Hno cfg Hload) as Hrep. eexists path, _, w1. split; [exact Hrun|].
  split; [exact Hrep|]. intros qs rs w2 [qs' Hqs] Hother Hserve. rewrite Hqs in Hreq.
  apply Forall_app in Hreq as [Hreq _].
  eapply serve_keeps in Hserve as [[Hc _] Hrep2]; [| |exact Hrep].
  2: { rewrite Hpath. by apply Forall_and. }
  split; [by rewrite Hc|]. split; [exact Hrep2|]. intros link cfg' Hno2 Hload2.
  assert (Hpath2 : config_path (w_conf w2) = root_conf_path) by (by rewrite Hc, Hpath).
  rewrite <- Hpath2 in *. by eapply symlink_reloads.
Qed.
End root.

(** ** Witness *)

(** The configuration file makes every operation a no-op; a client rewrites it. *)
Definition root_client (args : list cstr) : list request * Z :=
  ([RMkdir (str "/d") 493; RWrite (str "/unreliablefs.conf") (str "x") 1 0 (open_file 3)], 0%Z).
Definition root_conf : cstr := str "[errinj_noop]" ++ LF :: str "probability=100".
Definition root_world : world := test_world 7
  {| sc_conf := Some root_conf; sc_readable := true;
     sc_results := [(0%Z, str "st", None); (1%Z, str "/", None)] |}.

Lemma root_reload_needs_two_slashes_witness :
  ∃ path fr w1,
    main linux_build name_filler 5 [] parse_basedir root_client (λ _, 16877%Z) 7 0
      [str "/"; str "/mnt"] root_world
    = (do! serve linux_build name_filler 5 [] (root_client []).1 in
       do! cleanup (Some path) in
       retM 0%Z) w1 ∧
    world_rep w1 (Some (config_of root_conf)) fr ∧
    ∀ qs rs w2, qs `prefix_of` (root_client []).1 →
      Forall (λ q, req_path q ≠ str "//unreliablefs.conf") qs →
      serve linux_build name_filler 5 [] qs w1 = Ok (rs, w2) →
      errors (w_conf w2) = errors (w_conf w1) ∧ world_rep w2 (Some (config_of root_conf)) fr ∧
      ∀ link cfg', no_oom (w_mem w2) →
        load_config (str "//unreliablefs.conf") (w_kstate w2) = Some cfg' →
        ∃ r w3, handle linux_build name_filler 5 [] (RSymlink (str "//unreliablefs.conf") link) w2 = Ok (r, w3) ∧
                world_rep w3 (Some cfg') fr.
Proof.
  apply (root_reload_needs_two_slashes linux_build name_filler 5 [] parse_basedir root_client
    (λ _, 16877%Z) 7 0 [str "/"; str "/mnt"] 7 (str "/") [str "/mnt"] root_world).
  - reflexivity.
  - split; reflexivity.
  - apply (bool_decide_unpack (length (str "/") < PATH_MAX linux_build - 24)). by vm_compute.
  - done.
  - reflexivity.
  - apply test_conf_files_fit.
  - intros n. reflexivity.
  - reflexivity.
  - reflexivity.
  - by repeat constructor.
Defined.
