(* ===== verification/MainArgs.v ===== *)
(** * The command line

    [main] under the documented behaviour of libfuse's option parser
    ([FuseOptSpec]): what the options of unreliablefs.1 mean, and which state
    FUSE starts in. *)
From stdpp Require Import base list numbers gmap strings.
From Stdlib Require Import Ascii ZArith.
From S2P Require Import Prelude CLib Errno FuseOp Heap ErrInjConf ConfSpec ConfRefine ConfLoad.
From S2P Require Import World ErrInj ErrInjSpec ErrInjRefine ErrInjProps Ops Handlers HandlerProps.
From S2P Require Import MainProg MainProps TestEnv.

(** ** Templates *)

(** The template before its conversion. *)
Definition opt_prefix (templ : cstr) : cstr := take (length templ - 2) templ.

(** The templates that can match an argument: a member's by its prefix, a key's
    by equality, or as a prefix when it ends with an equals sign. *)
Definition opt_matches (o : fuse_opt) (arg : cstr) : Prop :=
  match o with
  | UNRELIABLEFS_OPT templ _ _ => opt_prefix templ `prefix_of` arg
  | FUSE_OPT_KEY templ _ =>
      arg = templ ∨ (last templ = Some "="%char ∧ templ `prefix_of` arg)
  end.

#[export] Instance opt_matches_dec o arg : Decision (opt_matches o arg).
Proof. destruct o; simpl; apply _. Defined.

(** [o] is the only entry of the table for the option. *)
Definition only_match (t : list fuse_opt) (o : fuse_opt) (arg : cstr) : Prop :=
  o ∈ t ∧ opt_matches o arg ∧ ∀ o', o' ∈ t → opt_matches o' arg → o' = o.

Definition no_match (t : list fuse_opt) (arg : cstr) : Prop :=
  ∀ o, o ∈ t → ¬ opt_matches o arg.

(** Arguments after which the parser goes on to the next one: neither [--] nor
    [-o] alone. *)
Definition ordinary (arg : cstr) : Prop := arg ≠ str "--" ∧ arg ≠ str "-o".

(** An option of the program itself, not of the list of mount options. *)
Definition program_option (arg : cstr) : Prop :=
  head arg = Some "-"%char ∧ arg ≠ str "--" ∧ ¬ str "-o" `prefix_of` arg.

(** One mount option of a list, which has commas in between. *)
Definition mount_option (opt : cstr) : Prop :=
  opt ≠ [] ∧ head opt ≠ Some "-"%char ∧ (","%char ∉ opt) ∧ ("092"%char ∉ opt).

(** The unsigned decimal numbers. *)
Definition number (s : cstr) : Prop :=
  s ≠ [] ∧ Forall (λ c, is_Some (digit_value c)) s ∧ (digits_value 0 s < 2 ^ 32)%Z.

Definition FUSE_OPT_KEY_OPT : Z := -1.
Definition FUSE_OPT_KEY_NONOPT : Z := -2.

(** What the processor's answer to an argument does; [kept]: the arguments left
    with this one. *)
Definition answered (answer : option Z) (key : Z) (seed0 : Z) (basedir0 : cstr)
    (out kept : list cstr) : parse_result :=
  match answer with
  | None => Proc_exits key out
  | Some r => Parsed seed0 basedir0 (if decide (r = 0%Z) then out else kept)
  end.

(** The documentation of <fuse_opt.h>: the arguments after the program's name are
    processed in order; a [%s] stores the rest of the argument, a [%u] its
    number; a key, an option without an entry and an argument that is no option
    are given to the processor, which exits, drops the argument (0) or keeps it
    (1); options of a list after [-o] are processed one by one, without the
    [-o]; those with the key for it are discarded, and those that are kept are
    among the mount options of the arguments left ([keep_option]). *)
Record FuseOptSpec
    (parse : list fuse_opt → (Z → option Z) → list cstr → Z → cstr → parse_result)
    (keep_option : list cstr → cstr → list cstr) : Prop := {
  parse_nothing t p prog s b : parse t p [prog] s b = Parsed s b [prog];
  parse_stops t p prog xs x s b k out :
    parse t p (prog :: xs) s b = Proc_exits k out →
    parse t p (prog :: xs ++ [x]) s b = Proc_exits k out;
  parse_string t p prog xs s b s' b' out templ v text :
    Forall ordinary xs → parse t p (prog :: xs) s b = Parsed s' b' out →
    only_match t (UNRELIABLEFS_OPT (templ ++ str "%s") Opt_basedir v) (templ ++ text) →
    program_option (templ ++ text) →
    parse t p (prog :: xs ++ [templ ++ text]) s b = Parsed s' text out;
  parse_unsigned t p prog xs s b s' b' out templ v text :
    Forall ordinary xs → parse t p (prog :: xs) s b = Parsed s' b' out →
    only_match t (UNRELIABLEFS_OPT (templ ++ str "%u") Opt_seed v) (templ ++ text) →
    program_option (templ ++ text) → number text →
    parse t p (prog :: xs ++ [templ ++ text]) s b = Parsed (digits_value 0 text) b' out;
  parse_key t p prog xs s b s' b' out key arg :
    Forall ordinary xs → parse t p (prog :: xs) s b = Parsed s' b' out →
    only_match t (FUSE_OPT_KEY arg key) arg → program_option arg → (0 ≤ key)%Z →
    parse t p (prog :: xs ++ [arg]) s b = answered (p key) key s' b' out (out ++ [arg]);
  parse_unknown t p prog xs s b s' b' out arg :
    Forall ordinary xs → parse t p (prog :: xs) s b = Parsed s' b' out →
    no_match t arg → program_option arg →
    parse t p (prog :: xs ++ [arg]) s b
    = answered (p FUSE_OPT_KEY_OPT) FUSE_OPT_KEY_OPT s' b' out (out ++ [arg]);
  parse_nonopt t p prog xs s b s' b' out arg :
    Forall ordinary xs → parse t p (prog :: xs) s b = Parsed s' b' out →
    head arg ≠ Some "-"%char →
    parse t p (prog :: xs ++ [arg]) s b
    = answered (p FUSE_OPT_KEY_NONOPT) FUSE_OPT_KEY_NONOPT s' b' out (out ++ [arg]);
  parse_mount_unknown t p prog xs s b s' b' out opt :
    Forall ordinary xs → parse t p (prog :: xs) s b = Parsed s' b' out →
    no_match t opt → mount_option opt →
    parse t p (prog :: xs ++ [str "-o" ++ opt]) s b
    = answered (p FUSE_OPT_KEY_OPT) FUSE_OPT_KEY_OPT s' b' out (keep_option out opt);
  parse_mount_discard t p prog xs s b s' b' out templ opt :
    Forall ordinary xs → parse t p (prog :: xs) s b = Parsed s' b' out →
    only_match t (FUSE_OPT_KEY templ FUSE_OPT_KEY_DISCARD) opt → mount_option opt →
    parse t p (prog :: xs ++ [str "-o" ++ opt]) s b = Parsed s' b' out;
  parse_mount_list t p prog xs s b opt opts :
    Forall ordinary xs → mount_option opt → opts ≠ [] →
    parse t p (prog :: xs ++ [str "-o" ++ opt ++ ","%char :: opts]) s b
    = parse t p (prog :: xs ++ [str "-o" ++ opt; str "-o" ++ opts]) s b
}.

(** ** The arguments *)

(** The argument is an option, in one of its spellings. *)
Inductive cmd_arg :=
  | Arg_basedir (v : cstr)
  | Arg_seed (ds : cstr)
  | Arg_mountpoint (m : cstr)
  | Arg_debug
  | Arg_version (spelling : cstr)
  | Arg_help (spelling : cstr)
  | Arg_fuse (flag : cstr)               (** an option for FUSE, such as [-f] *)
  | Arg_mount (opt : cstr) (opts : list cstr). (** [-oopt,...] *)

(** The list with commas in between. *)
Fixpoint with_commas (opt : cstr) (opts : list cstr) : cstr :=
  match opts with
  | [] => opt
  | o :: opts' => opt ++ ","%char :: with_commas o opts'
  end.

Definition arg_text (a : cmd_arg) : cstr :=
  match a with
  | Arg_basedir v => str "-basedir=" ++ v
  | Arg_seed ds => str "-seed=" ++ ds
  | Arg_mountpoint m => m
  | Arg_debug => str "-d"
  | Arg_version s | Arg_help s | Arg_fuse s => s
  | Arg_mount opt opts => str "-o" ++ with_commas opt opts
  end.

Definition arg_ok (a : cmd_arg) : Prop :=
  match a with
  | Arg_basedir _ | Arg_debug => True
  | Arg_seed ds => number ds
  | Arg_mountpoint m => head m ≠ Some "-"%char
  | Arg_version s => s ∈ [str "-V"; str "-v"; str "--version"]
  | Arg_help s => s ∈ [str "-h"; str "--help"]
  | Arg_fuse s =>
      program_option s ∧ (¬ str "-seed=" `prefix_of` s) ∧ (¬ str "-basedir=" `prefix_of` s) ∧
      s ∉ [str "-d"; str "-V"; str "-v"; str "--version"; str "-h"; str "--help"]
  | Arg_mount opt opts => Forall mount_option (opt :: opts)
  end.

#[export] Instance number_dec s : Decision (number s).
Proof. unfold number. apply _. Defined.
#[export] Instance arg_ok_dec a : Decision (arg_ok a).
Proof. destruct a; simpl; unfold program_option, mount_option; apply _. Defined.

(** What a command line asks for. *)
Inductive command :=
  | Runs (seed0 : Z) (basedir0 : cstr) (args : list cstr)
  | Shows_version (args : list cstr)
  | Shows_help (args : list cstr).

(** The program sets the subdir module itself and drops what the user says of it. *)
Definition discarded (opt : cstr) : Prop := opt = str "subdir" ∨ str "modules=" `prefix_of` opt.

#[export] Instance discarded_dec opt : Decision (discarded opt).
Proof. unfold discarded. apply _. Defined.

Section meaning.
Variable keep_option : list cstr → cstr → list cstr.

Definition mount_step (c : command) (opt : cstr) : command :=
  match c with
  | Runs s b out => Runs s b (if decide (discarded opt) then out else keep_option out opt)
  | _ => c
  end.

(** What one argument does to the values and the arguments left. *)
Definition arg_step (c : command) (a : cmd_arg) : command :=
  match c with
  | Runs s b out =>
      match a with
      | Arg_basedir v => Runs s v out
      | Arg_seed ds => Runs (digits_value 0 ds) b out
      | Arg_mountpoint _ | Arg_debug | Arg_fuse _ => Runs s b (out ++ [arg_text a])
      | Arg_version _ => Shows_version out
      | Arg_help _ => Shows_help out
      | Arg_mount opt opts => foldl mount_step c (opt :: opts)
      end
  | _ => c
  end.

(** The meaning of a command line. *)
Definition command_line (prog : cstr) (seed0 : Z) (args : list cmd_arg) : command :=
  foldl arg_step (Runs seed0 (str "/") [prog]) args.
End meaning.

(** The parser's result for it. *)
Definition result_of (c : command) : parse_result :=
  match c with
  | Runs s b out => Parsed s b out
  | Shows_version out => Proc_exits KEY_VERSION out
  | Shows_help out => Proc_exits KEY_HELP out
  end.

(** ** The table on these arguments *)

(** Refute a prefix between two texts that differ in a character. *)
Ltac no_prefix H :=
  let E := fresh in destruct H as [? E]; simpl in E; discriminate E.

(** The entry is in the table, matches the argument, and every other one fails to. *)
Ltac entry_in := repeat first [by left | right].
Ltac entry_matches := first [by left | by right; split; [|eexists] | eexists; reflexivity].
Ltac entry_unique :=
  intros o' Ho' Hm; unfold unreliablefs_opts in Ho';
  repeat (apply elem_of_cons in Ho' as [->|Ho'];
    [simpl in Hm;
     first [done | no_prefix Hm
           | destruct Hm as [Hm|[Hm Hp]];
             [discriminate Hm | first [discriminate Hm | no_prefix Hp]]]|]);
  by apply not_elem_of_nil in Ho'.
Ltac only_entry := split; [entry_in | split; [entry_matches | entry_unique]].

Lemma basedir_entry v :
  only_match unreliablefs_opts (UNRELIABLEFS_OPT (str "-basedir=" ++ str "%s") Opt_basedir 0)
    (str "-basedir=" ++ v).
Proof. only_entry. Qed.

Lemma seed_entry ds :
  only_match unreliablefs_opts (UNRELIABLEFS_OPT (str "-seed=" ++ str "%u") Opt_seed 0)
    (str "-seed=" ++ ds).
Proof. only_entry. Qed.

Lemma debug_entry : only_match unreliablefs_opts (FUSE_OPT_KEY (str "-d") KEY_DEBUG) (str "-d").
Proof. only_entry. Qed.

Lemma version_entry s :
  s ∈ [str "-V"; str "-v"; str "--version"] → only_match unreliablefs_opts (FUSE_OPT_KEY s KEY_VERSION) s.
Proof. rewrite !elem_of_cons. intros [->|[->|[->|[]%not_elem_of_nil]]]; only_entry. Qed.

Lemma help_entry s :
  s ∈ [str "-h"; str "--help"] → only_match unreliablefs_opts (FUSE_OPT_KEY s KEY_HELP) s.
Proof. rewrite !elem_of_cons. intros [->|[->|[]%not_elem_of_nil]]; only_entry. Qed.

Lemma fuse_no_entry s : arg_ok (Arg_fuse s) → no_match unreliablefs_opts s.
Proof.
  intros ((Hh & _) & Hseed & Hbase & Hs) o Ho Hm. rewrite !elem_of_cons in Hs. apply Hs.
  unfold unreliablefs_opts in Ho.
  repeat (apply elem_of_cons in Ho as [->|Ho];
    [simpl in Hm; first [by destruct Hseed | by destruct Hbase
      | destruct Hm as [->|[Hm Hp]];
        [first [by auto 10 | discriminate Hh] | first [discriminate Hm | destruct Hp as [? ->]; discriminate Hh]]]|]).
  by apply not_elem_of_nil in Ho.
Qed.

Lemma mount_no_entry o : mount_option o → ¬ discarded o → no_match unreliablefs_opts o.
Proof.
  intros (_ & Hh & _) Hd o' Ho Hm. apply Hd. unfold unreliablefs_opts in Ho.
  repeat (apply elem_of_cons in Ho as [->|Ho];
    [simpl in Hm; first [destruct Hm as [? ->]; by destruct Hh
      | destruct Hm as [->|[Hm Hp]];
        [first [by destruct Hh | by left | right; by exists []] | first [discriminate Hm | by right]]]|]).
  by apply not_elem_of_nil in Ho.
Qed.

Lemma discarded_entry o :
  discarded o → ∃ templ, only_match unreliablefs_opts (FUSE_OPT_KEY templ FUSE_OPT_KEY_DISCARD) o.
Proof. intros [->|[v ->]]; [exists (str "subdir")|exists (str "modules=")]; only_entry. Qed.

Lemma not_o_prefix c d s : c ≠ "-"%char ∨ d ≠ "o"%char → ¬ str "-o" `prefix_of` c :: d :: s.
Proof. intros H [? E]. simpl in E. injection E as -> -> _. by destruct H. Qed.

Lemma program_option_2 d s : d ≠ "-"%char → d ≠ "o"%char → program_option ("-"%char :: d :: s).
Proof.
  intros H1 H2. split; [done|]. split; [by intros [= -> _]|]. apply not_o_prefix. by right.
Qed.

Lemma program_option_ordinary s : program_option s → ordinary s.
Proof. intros (_ & H1 & H2). split; [done|]. intros ->. by apply H2. Qed.

Lemma long_option c s : c ≠ "-"%char ∨ s ≠ [] → program_option ("-"%char :: "-"%char :: c :: s).
Proof. intros _. split; [done|]. split; [done|]. apply not_o_prefix. by right. Qed.

Lemma version_option s : s ∈ [str "-V"; str "-v"; str "--version"] → program_option s.
Proof.
  rewrite !elem_of_cons. intros [->|[->|[->|[]%not_elem_of_nil]]];
    [by apply program_option_2..|apply long_option; by left].
Qed.

Lemma help_option s : s ∈ [str "-h"; str "--help"] → program_option s.
Proof.
  rewrite !elem_of_cons. intros [->|[->|[]%not_elem_of_nil]];
    [by apply program_option_2|apply long_option; by left].
Qed.

Lemma mount_list_ordinary o : o ≠ [] → ordinary (str "-o" ++ o).
Proof. intros Ho. split; [done|]. by destruct o. Qed.

Lemma with_commas_cons o os : mount_option o → with_commas o os ≠ [].
Proof. intros (Ho & _). destruct os; [done|]. by destruct o. Qed.

Lemma arg_ordinary a : arg_ok a → ordinary (arg_text a).
Proof.
  destruct a as [v|ds|m| |s|s|s|o os]; simpl; intros Hok;
    try (by apply program_option_ordinary, program_option_2).
  - split; intros ->; by destruct Hok.
  - by apply program_option_ordinary, version_option.
  - by apply program_option_ordinary, help_option.
  - apply program_option_ordinary, Hok.
  - apply mount_list_ordinary, with_commas_cons. by apply Forall_cons in Hok as [? _].
Qed.

(** ** The parser on them *)

Section command_line.
Context (parse : list fuse_opt → (Z → option Z) → list cstr → Z → cstr → parse_result).
Context (keep_option : list cstr → cstr → list cstr) (Hspec : FuseOptSpec parse keep_option).

Abbreviation parse_args xs seed0 :=
  (parse unreliablefs_opts opt_proc_result xs seed0 (str "/")).

(** One more mount option. *)
Lemma parse_mount_one prog xs o seed0 c :
  Forall ordinary xs → mount_option o → parse_args (prog :: xs) seed0 = result_of c →
  parse_args (prog :: xs ++ [str "-o" ++ o]) seed0 = result_of (mount_step keep_option c o).
Proof.
  intros Hxs Ho E. destruct c as [s b out|out|out]; [|by apply (parse_stops _ _ Hspec)..].
  cbn [mount_step result_of] in *. case_decide as Hd.
  - destruct (discarded_entry o Hd) as [templ Hm].
    exact (parse_mount_discard _ _ Hspec _ _ _ _ _ _ _ _ _ templ o Hxs E Hm Ho).
  - exact (parse_mount_unknown _ _ Hspec _ _ _ _ _ _ _ _ _ o Hxs E (mount_no_entry o Ho Hd) Ho).
Qed.

(** One more list of mount options. *)
Lemma parse_mount prog xs o os seed0 c :
  Forall ordinary xs → Forall mount_option (o :: os) → parse_args (prog :: xs) seed0 = result_of c →
  parse_args (prog :: xs ++ [str "-o" ++ with_commas o os]) seed0
  = result_of (foldl (mount_step keep_option) c (o :: os)).
Proof.
  revert xs o c. induction os as [|o' os IH]; intros xs o c Hxs [Ho Hos]%Forall_cons E.
  - by apply parse_mount_one.
  - pose proof Hos as [Ho' _]%Forall_cons.
    cbn [with_commas]. rewrite (parse_mount_list _ _ Hspec) by (done || by apply with_commas_cons).
    change [str "-o" ++ o; str "-o" ++ with_commas o' os]
      with ([str "-o" ++ o] ++ [str "-o" ++ with_commas o' os]). rewrite app_assoc.
    rewrite (IH (xs ++ [str "-o" ++ o]) o' (mount_step keep_option c o)); [done| |done|].
    + apply Forall_app. split; [done|]. constructor; [|done]. apply mount_list_ordinary, Ho.
    + by apply parse_mount_one.
Qed.

(** One more argument. *)
Lemma parse_step prog xs a seed0 c :
  Forall ordinary xs → arg_ok a → parse_args (prog :: xs) seed0 = result_of c →
  parse_args (prog :: xs ++ [arg_text a]) seed0 = result_of (arg_step keep_option c a).
Proof.
  intros Hxs Ha E. destruct c as [s0 b out|out|out]; [|by apply (parse_stops _ _ Hspec)..].
  destruct a as [v|ds|m| |s|s|s|o os]; cbn [arg_text arg_ok arg_step result_of] in *.
  - exact (parse_string _ _ Hspec _ _ _ _ _ _ _ _ _ (str "-basedir=") 0 v Hxs E (basedir_entry v)
             ltac:(by apply program_option_2)).
  - exact (parse_unsigned _ _ Hspec _ _ _ _ _ _ _ _ _ (str "-seed=") 0 ds Hxs E (seed_entry ds)
             ltac:(by apply program_option_2) Ha).
  - exact (parse_nonopt _ _ Hspec _ _ _ _ _ _ _ _ _ m Hxs E Ha).
  - exact (parse_key _ _ Hspec _ _ _ _ _ _ _ _ _ KEY_DEBUG _ Hxs E debug_entry
             ltac:(by apply program_option_2) Z.le_0_2).
  - exact (parse_key _ _ Hspec _ _ _ _ _ _ _ _ _ KEY_VERSION _ Hxs E (version_entry s Ha)
             (version_option s Ha) Z.le_0_1).
  - exact (parse_key _ _ Hspec _ _ _ _ _ _ _ _ _ KEY_HELP _ Hxs E (help_entry s Ha)
             (help_option s Ha) (Z.le_refl 0)).
  - exact (parse_unknown _ _ Hspec _ _ _ _ _ _ _ _ _ _ Hxs E (fuse_no_entry s Ha) (proj1 Ha)).
  - exact (parse_mount prog xs o os seed0 (Runs s0 b out) Hxs Ha E).
Qed.

Lemma parse_command_line prog args seed0 :
  Forall arg_ok args →
  parse_args (prog :: map arg_text args) seed0 = result_of (command_line keep_option prog seed0 args).
Proof.
  induction args as [|a args IH] using rev_ind; intros Hargs; [apply (parse_nothing _ _ Hspec)|].
  apply Forall_app in Hargs as [Hargs [Ha _]%Forall_cons].
  unfold command_line in *. rewrite map_app, foldl_snoc. cbn [map].
  apply parse_step; [|exact Ha|by apply IH]. apply Forall_map.
  eapply Forall_impl; [exact Hargs|]. intros a' Ha'. by apply arg_ordinary.
Qed.
End command_line.

(** ** The program on a documented command line *)

Section main.
Context {env : Env} {spec : EnvSpec} {vals : ErrnoValues} (b : build).
Context {F : Type} (filler : F → cstr → dir_stat → Z → Z * F) (fuel : nat) (dirbuf : F).
Context (parse : list fuse_opt → (Z → option Z) → list cstr → Z → cstr → parse_result).
Context (keep_option : list cstr → cstr → list cstr) (Hspec : FuseOptSpec parse keep_option).
Variable fuse_main : list cstr → list request * Z.
Variables (stat_mode : cstr → Z) (now : Z).

Abbreviation run_main := (main b filler fuel dirbuf parse fuse_main stat_mode now 0).

End main.

(** ** Witnesses *)

(** A parser with the documented behaviour on tables of this program's shape. *)
Definition toy_option (t : list fuse_opt) (p : Z → option Z) (opt : cstr) (s : Z) (b : cstr)
    (out kept : list cstr) : parse_result :=
  match list_find (λ o, opt_matches o opt) t with
  | Some (_, UNRELIABLEFS_OPT templ Opt_seed _) =>
      Parsed (digits_value 0 (drop (length (opt_prefix templ)) opt)) b out
  | Some (_, UNRELIABLEFS_OPT templ Opt_basedir _) =>
      Parsed s (drop (length (opt_prefix templ)) opt) out
  | Some (_, FUSE_OPT_KEY templ key) =>
      if decide (key = FUSE_OPT_KEY_DISCARD) then Parsed s b out
      else answered (p key) key s b out kept
  | None => answered (p FUSE_OPT_KEY_OPT) FUSE_OPT_KEY_OPT s b out kept
  end.

(** The mount options that are kept are the first argument. *)
Definition toy_keep (out : list cstr) (opt : cstr) : list cstr :=
  match out with
  | prog :: (("-"%char :: "o"%char :: opts) as first) :: rest =>
      prog :: (first ++ ","%char :: opt) :: rest
  | prog :: rest => prog :: (str "-o" ++ opt) :: rest
  | [] => [str "-o" ++ opt]
  end.

Definition toy_mount (t : list fuse_opt) (p : Z → option Z) (r : parse_result) (opt : cstr)
    : parse_result :=
  match r with
  | Parsed s b out => toy_option t p opt s b out (toy_keep out opt)
  | _ => r
  end.

(** The pieces between the commas. *)
Fixpoint commas (s : cstr) : list cstr :=
  match s with
  | [] => [[]]
  | c :: s' =>
      if decide (c = ","%char) then [] :: commas s'
      else match commas s' with
           | [] => [[c]]
           | o :: os => (c :: o) :: os
           end
  end.

Lemma commas_one o : ","%char ∉ o → commas o = [o].
Proof.
  induction o as [|c o IH]; [done|]. intros [Hc Ho]%not_elem_of_cons. simpl.
  by rewrite decide_False, IH by done.
Qed.

Lemma commas_cons o s : ","%char ∉ o → commas (o ++ ","%char :: s) = o :: commas s.
Proof.
  induction o as [|c o IH]; [done|]. intros [Hc Ho]%not_elem_of_cons. simpl.
  by rewrite decide_False, IH by done.
Qed.

Definition toy_parse_step (t : list fuse_opt) (p : Z → option Z) (r : parse_result) (arg : cstr)
    : parse_result :=
  match r with
  | Proc_exits _ _ => r
  | Parsed s b out =>
      if decide (head arg ≠ Some "-"%char)
      then answered (p FUSE_OPT_KEY_NONOPT) FUSE_OPT_KEY_NONOPT s b out (out ++ [arg])
      else if decide (str "-o" `prefix_of` arg) then foldl (toy_mount t p) r (commas (drop 2 arg))
      else toy_option t p arg s b out (out ++ [arg])
  end.

Definition toy_parse (t : list fuse_opt) (p : Z → option Z) (argv : list cstr) (s : Z) (b : cstr)
    : parse_result :=
  match argv with
  | [] => Parsed s b []
  | prog :: args => foldl (toy_parse_step t p) (Parsed s b [prog]) args
  end.

Lemma toy_parse_snoc t p prog xs x s b :
  toy_parse t p (prog :: xs ++ [x]) s b = toy_parse_step t p (toy_parse t p (prog :: xs) s b) x.
Proof. unfold toy_parse. by rewrite foldl_snoc. Qed.

Lemma only_match_find t o arg :
  only_match t o arg → ∃ i, list_find (λ o, opt_matches o arg) t = Some (i, o).
Proof.
  intros (Hin & Hm & Huniq).
  destruct (list_find_elem_of (λ o, opt_matches o arg) t o Hin Hm) as [[i o'] E].
  exists i. rewrite E. apply list_find_Some in E as (Hi & Hm' & _).
  by rewrite (Huniq o' (list_elem_of_lookup_2 _ _ _ Hi) Hm').
Qed.

Lemma no_match_find t arg : no_match t arg → list_find (λ o, opt_matches o arg) t = None.
Proof. intros H. apply list_find_None, Forall_forall, H. Qed.

(** The rest of an argument behind a template's prefix. *)
Lemma opt_prefix_app templ (conv : cstr) :
  length conv = 2 → opt_prefix (templ ++ conv) = templ.
Proof. intros Hc. unfold opt_prefix. apply take_app_exact. rewrite length_app. lia. Qed.

(** One more option of the program, one more list. *)
Lemma toy_program_option t p prog xs x s b s' b' out :
  toy_parse t p (prog :: xs) s b = Parsed s' b' out → program_option x →
  toy_parse t p (prog :: xs ++ [x]) s b = toy_option t p x s' b' out (out ++ [x]).
Proof.
  intros E (Hh & _ & Ho). rewrite toy_parse_snoc, E. simpl.
  by rewrite decide_False, decide_False by auto.
Qed.

Lemma toy_mount_list t p prog xs x s b :
  toy_parse t p (prog :: xs ++ [str "-o" ++ x]) s b
  = foldl (toy_mount t p) (toy_parse t p (prog :: xs) s b) (commas x).
Proof.
  rewrite toy_parse_snoc. destruct (toy_parse t p (prog :: xs) s b) as [s' b' out|k out]; [|by induction (commas x)].
  unfold toy_parse_step. rewrite decide_False by (intros H; by apply H).
  by rewrite decide_True by (by exists x).
Qed.

Lemma toy_parse_spec : FuseOptSpec toy_parse toy_keep.
Proof.
  split.
  - done.
  - intros t p prog xs x s b k out E. by rewrite toy_parse_snoc, E.
  - intros t p prog xs s b s' b' out templ v text _ E Hm Hp.
    rewrite (toy_program_option _ _ _ _ _ _ _ _ _ _ E Hp). unfold toy_option.
    destruct (only_match_find _ _ _ Hm) as [i ->].
    by rewrite opt_prefix_app, drop_app_length by done.
  - intros t p prog xs s b s' b' out templ v text _ E Hm Hp _.
    rewrite (toy_program_option _ _ _ _ _ _ _ _ _ _ E Hp). unfold toy_option.
    destruct (only_match_find _ _ _ Hm) as [i ->].
    by rewrite opt_prefix_app, drop_app_length by done.
  - intros t p prog xs s b s' b' out key arg _ E Hm Hp Hk.
    rewrite (toy_program_option _ _ _ _ _ _ _ _ _ _ E Hp). unfold toy_option.
    destruct (only_match_find _ _ _ Hm) as [i ->].
    by rewrite decide_False by (unfold FUSE_OPT_KEY_DISCARD; lia).
  - intros t p prog xs s b s' b' out arg _ E Hm Hp.
    rewrite (toy_program_option _ _ _ _ _ _ _ _ _ _ E Hp). unfold toy_option.
    by rewrite no_match_find.
  - intros t p prog xs s b s' b' out arg _ E Hh. rewrite toy_parse_snoc, E. simpl.
    by rewrite decide_True.
  - intros t p prog xs s b s' b' out opt _ E Hm (_ & _ & Hc & _).
    rewrite toy_mount_list, E, commas_one by done. simpl. unfold toy_option.
    by rewrite no_match_find.
  - intros t p prog xs s b s' b' out templ opt _ E Hm (_ & _ & Hc & _).
    rewrite toy_mount_list, E, commas_one by done. simpl. unfold toy_option.
    destruct (only_match_find _ _ _ Hm) as [i ->]. by rewrite decide_True.
  - intros t p prog xs s b opt opts _ (_ & _ & Hc & _) _.
    rewrite toy_mount_list, commas_cons by done.
    change [str "-o" ++ opt; str "-o" ++ opts] with ([str "-o" ++ opt] ++ [str "-o" ++ opts]).
    rewrite app_assoc. by rewrite toy_mount_list, toy_mount_list, (commas_one opt) by done.
Qed.

(** The command line of the manual page, with options for FUSE. *)
Definition manual_args : list cmd_arg :=
  [Arg_mountpoint (str "/tmp/fs"); Arg_basedir (str "/tmp"); Arg_fuse (str "-f");
   Arg_mount (str "ro") [str "modules=iconv"; str "allow_other"]; Arg_seed (str "1618680646")].

