(* ===== verification/Concur.v ===== *)
(** * Several threads in error_inject

    FUSE calls the handlers from several threads, which share the global [conf],
    the heap and [rand].  [error_inject] is cut into the steps between which
    another thread can run ([pc_step]); the system ([step]) interleaves the
    steps of its threads, with the system calls that handlers make outside
    [error_inject] in between.  A thread that finds the mutex locked waits. *)
From stdpp Require Import base list numbers gmap strings.
From Stdlib Require Import Ascii ZArith.
From S2P Require Import Prelude CLib Errno FuseOp Heap ErrInjConf World ErrInj.

(** Where a thread is: outside [error_inject], or before the named action. *)
Inductive pc :=
  | Idle
  | Locking (path : cstr) (op : fuse_op)
  | Comparing (path : cstr) (op : fuse_op)
  | Deleting (path : cstr)
  | Loading (path : cstr)
  | Storing (e : ptr)
  | Looping (path : cstr) (op : fuse_op) (l : list addr) (rc : Z)
  | Unlocking (rc : Z)
  | Returned (rc : Z).

(** The thread holds the mutex. *)
Definition holding (p : pc) : bool :=
  match p with
  | Idle | Locking _ _ | Returned _ => false
  | _ => true
  end.

Section concur.
Context {env : Env} {vals : ErrnoValues} (b : build).

(** The next action of a thread. *)
Definition pc_step (p : pc) : M world pc :=
  match p with
  | Idle => retM Idle
  | Locking path op => do! mutex_lock in retM (Comparing path op)
  | Comparing path op =>
      let! conf := gets w_conf in
      if decide (strcmp path (config_path conf) = 0%Z) then retM (Deleting path)
      else
        match errors conf with
        | None => retM (Unlocking 0)
        | Some _ => let! q := with_mem (deref_queue (errors conf)) in retM (Looping path op q 0)
        end
  | Deleting path =>
      let! conf := gets w_conf in
      do! with_mem (config_delete (errors conf)) in retM (Loading path)
  | Loading path => let! e := config_init path in retM (Storing e)
  | Storing e => do! set_errors e in retM (Unlocking 0)
  | Looping path op [] rc => retM (Unlocking rc)
  | Looping path op (err :: l) rc =>
      let! rc' := inject_one b path op err rc in retM (Looping path op l rc')
  | Unlocking rc => do! mutex_unlock in retM (Returned rc)
  | Returned rc => retM (Returned rc)
  end.

(** A thread that runs alone until it returns. *)
Fixpoint run_alone (n : nat) (p : pc) : M world Z :=
  match n with
  | O => nofuel
  | S n' =>
      match p with
      | Returned rc => retM rc
      | _ => let! p' := pc_step p in run_alone n' p'
      end
  end.

Record system := { threads : gmap nat pc; shared : world }.

(** A thread can take its next action: it need not wait for the mutex. *)
Definition ready_to_step (p : pc) (w : world) : Prop :=
  match p with
  | Idle | Returned _ => False
  | Locking _ _ => mutex (w_conf w) = false
  | _ => True
  end.

(** How many actions the holder of the mutex has left at most, until it has
    released it. *)
Definition actions_left (p : pc) (w : world) : nat :=
  match p with
  | Idle | Locking _ _ | Returned _ => 0
  | Unlocking _ => 1
  | Looping _ _ l _ => 2 + length l
  | Storing _ => 2
  | Loading _ => 3
  | Deleting _ => 4
  | Comparing _ _ =>
      5 + match errors (w_conf w) with
          | Some q => match heap_of w !! q with Some (Queue l) => length l | _ => 0 end
          | None => 0
          end
  end.

(** The steps of the system: a thread calls [error_inject], takes its next
    action there, or makes a system call while it is outside. *)
Inductive step : system → system → Prop :=
  | step_call s t p path op :
      threads s !! t = Some p → holding p = false → enabled b op = true →
      (∀ path' op', p ≠ Locking path' op') →
      step s {| threads := <[t := Locking path op]> (threads s); shared := shared s |}
  | step_action s t p p' w' :
      threads s !! t = Some p → ready_to_step p (shared s) →
      pc_step p (shared s) = Ok (p', w') →
      step s {| threads := <[t := p']> (threads s); shared := w' |}
  | step_kernel s t p c :
      threads s !! t = Some p → holding p = false →
      step s {| threads := threads s; shared := sys_world c (shared s) |}.

(** The systems that can be reached from threads that are all outside. *)
Inductive reachable (w0 : world) : system → Prop :=
  | reach_init ts :
      (∀ t p, ts !! t = Some p → p = Idle) → reachable w0 {| threads := ts; shared := w0 |}
  | reach_step s s' : reachable w0 s → step s s' → reachable w0 s'.
End concur.
