(* ===== verification/ConcurProps.v ===== *)
(** * Properties of the concurrent system

    The steps of a thread that runs alone are [error_inject]; in every reachable
    system at most one thread is in the critical section, no step uses a freed
    block, and some thread can always go on. *)
From stdpp Require Import base list numbers gmap strings.
From Stdlib Require Import Ascii ZArith.
From S2P Require Import Prelude CLib Errno FuseOp Heap ErrInjConf ConfSpec ConfRefine ConfLoad.
From S2P Require Import World ErrInj ErrInjSpec ErrInjRefine ErrInjProps Concur TestEnv.

Section alone.
Context {env : Env} {vals : ErrnoValues} (b : build).

(** The rest of [error_inject] after a value is known or a fault happened, on both
    sides of an equation. *)
Lemma bind_cong {W A B} (c : M W A) (k k' : A → M W B) w :
  (∀ a w', c w = Ok (a, w') → k a w' = k' a w') → bindM c k w = bindM c k' w.
Proof. intros Hk. unfold bindM. destruct (c w) as [[a w']| |]; simpl; [by apply Hk|done..]. Qed.

Lemma run_alone_S n p w :
  (∀ rc, p ≠ Returned rc) → run_alone b (S n) p w = bindM (pc_step b p) (run_alone b n) w.
Proof. intros Hp. destruct p; try done. by destruct (Hp rc). Qed.

Lemma run_alone_reload n path w :
  run_alone b (S (S (S (S (S n))))) (Deleting path) w
  = (do! with_mem (config_delete (errors (w_conf w))) in
     let! e := config_init path in
     do! set_errors e in
     do! mutex_unlock in
     retM 0%Z) w.
Proof.
  rewrite run_alone_S by done. cbn [pc_step]. rewrite bindM_assoc.
  rewrite (bindM_eq _ _ _ _ _ (eq_refl : gets w_conf w = Ok (w_conf w, w))), bindM_assoc.
  apply bind_cong. intros _ w1 _. rewrite bindM_retM, run_alone_S by done. cbn [pc_step].
  rewrite bindM_assoc. apply bind_cong. intros e w2 _.
  rewrite bindM_retM, run_alone_S by done. done.
Qed.

Lemma run_alone_loop k path op l rc w :
  run_alone b (S (S (S (k + length l)))) (Looping path op l rc) w
  = (let! rc := inject_loop b path op l rc in do! mutex_unlock in retM rc) w.
Proof.
  revert rc w. induction l as [|err l IH]; intros rc w; [done|].
  cbn [length inject_loop]. rewrite bindM_assoc, Nat.add_succ_r.
  rewrite run_alone_S by done. cbn [pc_step]. rewrite bindM_assoc.
  apply bind_cong. intros rc1 w1 _. rewrite bindM_retM. apply IH.
Qed.

Lemma deref_queue_inv q l w w' :
  with_mem (deref_queue (Some q)) w = Ok (l, w') → heap_of w !! q = Some (Queue l).
Proof.
  unfold with_mem, deref_queue, bindM, deref. fold (heap_of w).
  destruct (heap_of w !! q) as [[]|]; try done. intros E. by injection E as <- <-.
Qed.

Lemma mutex_lock_inv w w' : mutex_lock w = Ok (tt, w') → w' = locked true w.
Proof.
  unfold mutex_lock, bindM. simpl. destruct (mutex (w_conf w)); [done|].
  intros E. by injection E as <-.
Qed.

(** With enough fuel, whatever it is. *)
Lemma run_alone_error_inject path op w :
  ∃ n, ∀ k, run_alone b (n + k) (Locking path op) w = error_inject b path op w.
Proof.
  set (l := match errors (w_conf w) with
            | Some q => match heap_of w !! q with Some (Queue l) => l | _ => [] end
            | None => []
            end).
  exists (7 + length l). intros k. replace (7 + length l + k) with (S (S (S (S (S (S (S (k + length l)))))))) by lia.
  unfold error_inject.
  rewrite run_alone_S by done. cbn [pc_step]. rewrite bindM_assoc.
  apply bind_cong. intros [] w1 Hlock. rewrite bindM_retM, run_alone_S by done. cbn [pc_step].
  rewrite bindM_assoc. rewrite !(bindM_eq _ _ _ _ _ (eq_refl : gets w_conf w1 = Ok (w_conf w1, w1))).
  destruct (decide (strcmp path (config_path (w_conf w1)) = 0%Z)).
  { rewrite bindM_retM. exact (run_alone_reload (k + length l) path w1). }
  destruct (errors (w_conf w1)) as [q|] eqn:Eq; [|done]. rewrite bindM_assoc.
  apply bind_cong. intros q' w2 Hq. rewrite bindM_retM.
  assert (q' = l) as ->; [|exact (run_alone_loop (2 + k) path op l 0 w2)].
  apply mutex_lock_inv in Hlock as ->. apply deref_queue_inv in Hq.
  unfold l. change (errors (w_conf (locked true w))) with (errors (w_conf w)) in Eq.
  change (heap_of (locked true w)) with (heap_of w) in Hq. by rewrite Eq, Hq.
Qed.

(** The steps into which the concurrent model cuts the function are the
    function: a thread that runs alone from the call of [error_inject] to its
    return does exactly what [error_inject] does, faults included. *)
Theorem steps_are_error_inject path op w :
  ∃ n, run_alone b n (Locking path op) w = error_inject b path op w.
Proof. destruct (run_alone_error_inject path op w) as [n Hn]. exists (n + 0). apply Hn. Qed.
End alone.

Section invariant.
Context {env : Env} {spec : EnvSpec} {vals : ErrnoValues} (b : build).
Context (Hfit : conf_files_fit) (Hb : buildable b = true) (fr0 : heap).

(** The configuration is well formed, whoever holds the mutex. *)
Definition consistent (w : world) : Prop := world_ok fr0 (locked false w).

(** The operations of threads exist in the build. *)
Definition pc_ok (p : pc) : Prop :=
  match p with
  | Locking _ op | Comparing _ op | Looping _ op _ _ => enabled b op = true
  | _ => True
  end.

(** What the holder of the mutex knows: after the old configuration was deleted
    the global pointer dangles, and only the holder knows it. *)
Definition inv_pc (p : pc) (w : world) : Prop :=
  match p with
  | Loading _ => fr0 ⊆ heap_of w
  | Storing None => fr0 ⊆ heap_of w
  | Storing (Some q) =>
      ∃ cfg, queue_rep (heap_of w) q cfg ∧ config_ok cfg ∧ fr0 ⊆ frame_of (heap_of w) q
  | Looping _ _ l _ =>
      consistent w ∧ ∃ cfg, Forall2 (conf_rep (heap_of w)) l cfg ∧ Forall injection_ok cfg
  | _ => consistent w
  end.

(** What an action of the holder must give. *)
Definition good (r : outcome (pc * world)) : Prop :=
  match r with
  | Ok (p, w) => pc_ok p ∧ mutex (w_conf w) = holding p ∧
                 if holding p then inv_pc p w else consistent w
  | Fault f => f = oob
  | NoFuel => False
  end.

Lemma consistent_same w w' :
  w_conf w' = w_conf w → w_mem w' = w_mem w → consistent w → consistent w'.
Proof.
  intros Hc Hm (ocfg & fr & [_ Hrep] & Hfr). exists ocfg, fr. split; [|done]. split; [done|].
  unfold heap_of in *. simpl in *. by rewrite Hc, Hm.
Qed.

Lemma inv_pc_same p w w' :
  w_conf w' = w_conf w → w_mem w' = w_mem w → inv_pc p w → inv_pc p w'.
Proof.
  intros Hc Hm. pose proof (consistent_same w w' Hc Hm). unfold inv_pc, heap_of. rewrite Hm.
  destruct p as [| | | | |[q|]| | |]; auto. intros [? ?]; auto.
Qed.

Lemma good_comparing path op w :
  enabled b op = true → mutex (w_conf w) = true → consistent w →
  good (pc_step b (Comparing path op) w).
Proof.
  intros He Hm Hc. cbn [pc_step].
  rewrite (bindM_eq _ _ _ _ _ (eq_refl : gets w_conf w = Ok (w_conf w, w))).
  case_decide; [by split|]. pose proof Hc as (ocfg & fr & [_ Hrep] & _).
  cbn [locked set_conf w_conf errors] in Hrep.
  destruct (errors (w_conf w)) as [q|]; [|by split]. destruct ocfg as [cfg|]; [|done].
  destruct Hrep as ((l & Hq & Hl & _) & _ & [_ Hok]).
  rewrite (bind_with_mem _ _ _ _ w (deref_queue_live q l (w_mem w) Hq)).
  change (set_mem (w_mem w) w) with (set_mem (w_mem w) w). rewrite set_mem_same.
  split; [done|]. split; [done|]. split; [done|]. by exists cfg.
Qed.

Lemma good_deleting path w :
  mutex (w_conf w) = true → consistent w → good (pc_step b (Deleting path) w).
Proof.
  intros Hm (ocfg & fr & Hrep & Hfr). cbn [pc_step].
  rewrite (bindM_eq _ _ _ _ _ (eq_refl : gets w_conf w = Ok (w_conf w, w))).
  destruct (config_delete_world _ _ _ Hrep) as (m & Hdel & _ & Hh).
  rewrite (bind_with_mem _ _ _ _ w Hdel). split; [done|]. split; [done|]. simpl.
  unfold heap_of. simpl. by rewrite Hh.
Qed.

Lemma good_loading path w :
  mutex (w_conf w) = true → fr0 ⊆ heap_of w → good (pc_step b (Loading path) w).
Proof.
  intros Hm Hfr. cbn [pc_step]. destruct (m_oom (w_mem w) (m_count (w_mem w))) eqn:Ho.
  - destruct (config_init_oom path w Ho) as (w' & Hrun & Hc & Hh & _).
    rewrite (bindM_eq _ _ _ _ _ Hrun). split; [done|]. simpl. rewrite Hc. split; [done|]. by rewrite Hh.
  - destruct (config_init_correct path w spec Hfit Ho) as (e & w' & Hrun & Hc & _ & _ & _ & _ & Hres).
    rewrite (bindM_eq _ _ _ _ _ Hrun). split; [done|]. simpl. rewrite Hc. split; [done|].
    destruct (load_config path (w_kstate w)) as [cfg|], e as [q|]; try done.
    + destruct Hres as (cfg' & Hq & Hf & Hok & _). exists cfg'. by rewrite Hf.
    + destruct Hres as (q & Hq & ->). etrans; [exact Hfr|]. by apply insert_subseteq.
Qed.

Lemma good_storing e w :
  mutex (w_conf w) = true → inv_pc (Storing e) w → good (pc_step b (Storing e) w).
Proof.
  intros Hm Hinv. cbn [pc_step]. unfold bindM, set_errors, modify. cbn [obind retM].
  split; [done|]. split; [done|]. simpl. destruct e as [q|].
  - destruct Hinv as (cfg & Hq & Hok & Hfr). by exists (Some cfg), (frame_of (heap_of w) q).
  - by exists None, (heap_of w).
Qed.

Lemma good_looping path op err l rc w :
  enabled b op = true → mutex (w_conf w) = true → inv_pc (Looping path op (err :: l) rc) w →
  good (pc_step b (Looping path op (err :: l) rc) w).
Proof.
  intros He Hm [Hc (cfg & Hl & Hok)].
  inversion Hl as [|? i ? cfg' Hai Hl']; subst. apply Forall_cons in Hok as [Hi Hok].
  cbn [pc_step]. unfold bindM. rewrite (inject_one_eq b path op err i rc w He Hai Hi).
  unfold spec_one. set (r := if triggers _ _ _ _ then _ else _).
  assert ((∃ rc' w', r = Ok (rc', w') ∧ same_conf w w') ∨ r = Fault oob)
    as [(rc' & w' & -> & Hcf & Hmm)| ->].
  { unfold r. destruct (triggers path op i (draw w)); [|left; by eexists _, _].
    destruct (effect_safe b op i rc (next_draw w) Hb He) as [[[rc' w'] E]|E]; [left|by right].
    exists rc', w'. split; [done|]. by apply effect_same_conf in E. }
  - cbn [obind]. split; [done|]. split; [by rewrite Hcf|].
    split; [by eapply consistent_same|]. exists cfg'. unfold heap_of in *. by rewrite Hmm.
  - done.
Qed.

Lemma good_step p w :
  pc_ok p → holding p = true → mutex (w_conf w) = true → inv_pc p w → good (pc_step b p w).
Proof.
  intros Hok Hh Hm Hinv. destruct p as [| | | | | |path op [|err l] rc|rc|]; try discriminate Hh.
  - by apply good_comparing.
  - by apply good_deleting.
  - by apply good_loading.
  - by apply good_storing.
  - split; [done|]. split; [done|]. by destruct Hinv.
  - by apply good_looping.
  - split; [done|]. by split.
Qed.

(** The mutex tells whether a thread is in the critical section, and this thread's
    knowledge describes the shared state. *)
Definition sys_inv (s : system) : Prop :=
  (∀ t p, threads s !! t = Some p → pc_ok p) ∧
  if mutex (w_conf (shared s)) then
    ∃ t p, threads s !! t = Some p ∧ holding p = true ∧ inv_pc p (shared s) ∧
      ∀ t' p', threads s !! t' = Some p' → holding p' = true → t' = t
  else
    consistent (shared s) ∧ ∀ t p, threads s !! t = Some p → holding p = false.

Lemma sys_inv_other s t p p' :
  sys_inv s → threads s !! t = Some p → holding p = false → holding p' = false → pc_ok p' →
  sys_inv {| threads := <[t := p']> (threads s); shared := shared s |}.
Proof.
  intros [Hok Hinv] Ht Hp Hp' Hok'. split; simpl.
  - intros t1 p1 [[<- <-]|[_ Hl]]%lookup_insert_Some; [done|by eapply Hok].
  - destruct (mutex (w_conf (shared s))).
    + destruct Hinv as (t0 & p0 & Ht0 & Hh0 & Hinv & Hun). exists t0, p0.
      rewrite lookup_insert_ne by congruence. split; [done|]. split; [done|]. split; [done|].
      intros t1 p1 [[<- <-]|[_ Hl]]%lookup_insert_Some Hh; [congruence|by eapply Hun].
    + destruct Hinv as [Hc Hno]. split; [done|].
      intros t1 p1 [[<- <-]|[_ Hl]]%lookup_insert_Some; [done|by eapply Hno].
Qed.

(** The holder of the mutex. *)
Lemma holder_inv s t p :
  sys_inv s → threads s !! t = Some p → holding p = true →
  mutex (w_conf (shared s)) = true ∧ inv_pc p (shared s) ∧
  ∀ t' p', threads s !! t' = Some p' → holding p' = true → t' = t.
Proof.
  intros [_ Hinv] Ht Hh. destruct (mutex (w_conf (shared s))).
  - destruct Hinv as (t0 & p0 & Ht0 & Hh0 & Hinv & Hun). pose proof (Hun t p Ht Hh) as ->.
    assert (p0 = p) as -> by congruence. by split.
  - destruct Hinv as [_ Hno]. by rewrite (Hno t p Ht) in Hh.
Qed.

Lemma sys_inv_holder s t p p' w' :
  sys_inv s → threads s !! t = Some p →
  (∀ t1 p1, t1 ≠ t → threads s !! t1 = Some p1 → holding p1 = false) →
  good (Ok (p', w')) → sys_inv {| threads := <[t := p']> (threads s); shared := w' |}.
Proof.
  intros [Hok _] Ht Hothers (Hok' & Hm & Hinv). split; simpl.
  - intros t1 p1 [[<- <-]|[_ Hl]]%lookup_insert_Some; [done|by eapply Hok].
  - rewrite Hm. destruct (holding p') eqn:Hh.
    + exists t, p'. rewrite lookup_insert_eq. split; [done|]. split; [done|]. split; [done|].
      intros t1 p1 [[<- <-]|[Hne Hl]]%lookup_insert_Some Hh1; [done|].
      by rewrite (Hothers t1 p1) in Hh1.
    + split; [done|].
      intros t1 p1 [[<- <-]|[Hne Hl]]%lookup_insert_Some; [done|by eapply Hothers].
Qed.

(** A thread at an action that it need not wait for. *)
Lemma action_good s t p :
  sys_inv s → threads s !! t = Some p → ready_to_step p (shared s) →
  good (pc_step b p (shared s)) ∧
  ∀ t1 p1, t1 ≠ t → threads s !! t1 = Some p1 → holding p1 = false.
Proof.
  intros Hinv Ht Hr. destruct (holding p) eqn:Hh.
  - destruct (holder_inv s t p Hinv Ht Hh) as (Hm & Hpc & Hun). destruct Hinv as [Hok _].
    split; [apply good_step; eauto|]. intros t1 p1 Hne Ht1.
    destruct (holding p1) eqn:Hh1; [|done]. by destruct (Hne (Hun t1 p1 Ht1 Hh1)).
  - destruct p as [|path op| | | | | | |]; try discriminate Hh; try done. simpl in Hr.
    destruct Hinv as [Hok Hinv]. rewrite Hr in Hinv. destruct Hinv as [Hc Hno].
    split; [|intros t1 p1 _ Ht1; by eapply Hno]. cbn [pc_step].
    rewrite (bindM_eq _ _ _ _ _ (mutex_lock_eq _ Hr)). split; [by apply (Hok t _ Ht)|].
    split; [done|]. exact Hc.
Qed.

Lemma step_inv s s' : sys_inv s → step b s s' → sys_inv s'.
Proof.
  intros Hinv Hs. destruct Hs as [s t p path op Ht Hh He _|s t p p' w' Ht Hr Hrun|s t p c Ht Hh].
  - by eapply sys_inv_other.
  - destruct (action_good s t p Hinv Ht Hr) as [Hg Hothers]. rewrite Hrun in Hg.
    by eapply sys_inv_holder.
  - destruct Hinv as [Hok Hinv]. split; [done|]. simpl. destruct (mutex (w_conf (shared s))).
    + destruct Hinv as (t0 & p0 & Ht0 & Hh0 & Hpc & Hun). exists t0, p0.
      split; [done|]. split; [done|]. split; [|done]. by eapply inv_pc_same.
    + destruct Hinv as [Hc Hno]. split; [|done]. by eapply consistent_same.
Qed.

Lemma reachable_inv w0 s : world_ok fr0 w0 → reachable b w0 s → sys_inv s.
Proof.
  intros Hw Hr. induction Hr as [ts Hts|s s' _ IH Hs]; [|by eapply step_inv].
  pose proof Hw as (ocfg & fr & [Hm _] & _). split; simpl.
  - intros t p Ht. by rewrite (Hts t p Ht).
  - rewrite Hm. split.
    + unfold consistent. rewrite <- Hm at 1. by rewrite locked_id.
    + intros t p Ht. by rewrite (Hts t p Ht).
Qed.

(** C7. Several threads: in every system that can be reached by any
    interleaving of the threads' steps and of their system calls, at most one
    thread is in the critical section; an action that a thread can take faults
    only by reading past an errno table: although a reload frees the
    configuration that other threads are about to use, no thread dereferences
    a freed block or frees one twice, and none locks a mutex it holds; and
    whenever the mutex is free, the shared state is well formed. *)
Theorem concurrent_safe w0 s :
  world_ok fr0 w0 → reachable b w0 s →
  (∀ t1 p1 t2 p2, threads s !! t1 = Some p1 → holding p1 = true →
                  threads s !! t2 = Some p2 → holding p2 = true → t1 = t2) ∧
  (∀ t p f, threads s !! t = Some p → ready_to_step p (shared s) →
            pc_step b p (shared s) = Fault f → f = oob) ∧
  (mutex (w_conf (shared s)) = false → world_ok fr0 (shared s)).
Proof.
  intros Hw Hr. pose proof (reachable_inv w0 s Hw Hr) as Hinv. split; [|split].
  - intros t1 p1 t2 p2 Ht1 Hh1 Ht2 Hh2.
    destruct (holder_inv s t2 p2 Hinv Ht2 Hh2) as (_ & _ & Hun). by eapply Hun.
  - intros t p f Ht Hready Hf. destruct (action_good s t p Hinv Ht Hready) as [Hg _].
    by rewrite Hf in Hg.
  - intros Hm. destruct Hinv as [_ Hinv]. rewrite Hm in Hinv. destruct Hinv as [Hc _].
    unfold consistent in Hc. rewrite <- Hm in Hc at 1. by rewrite locked_id in Hc.
Qed.

(** C28. No deadlock: whenever a thread is inside [error_inject] or waits to
    enter it, some thread can take its next action; it succeeds, or it is the
    read past an errno table. *)
Theorem concurrent_progress w0 s t p :
  world_ok fr0 w0 → reachable b w0 s → threads s !! t = Some p →
  (∀ rc, p ≠ Returned rc) → p ≠ Idle →
  ∃ t' p', threads s !! t' = Some p' ∧ ready_to_step p' (shared s) ∧
    ((∃ p'' w'', pc_step b p' (shared s) = Ok (p'', w'')) ∨ pc_step b p' (shared s) = Fault oob).
Proof.
  intros Hw Hr Ht Hret Hidle. pose proof (reachable_inv w0 s Hw Hr) as Hinv.
  assert (∃ t' p', threads s !! t' = Some p' ∧ ready_to_step p' (shared s)) as (t' & p' & Ht' & Hready).
  { pose proof Hinv as [_ Hcs]. destruct (mutex (w_conf (shared s))) eqn:Hm.
    - destruct Hcs as (t0 & p0 & Ht0 & Hh0 & _). exists t0, p0. split; [done|].
      by destruct p0.
    - destruct Hcs as [_ Hno]. exists t, p. split; [done|]. specialize (Hno t p Ht).
      destruct p; try done. by destruct (Hret rc). }
  exists t', p'. split; [done|]. split; [done|].
  destruct (action_good s t' p' Hinv Ht' Hready) as [Hg _].
  destruct (pc_step b p' (shared s)) as [[p'' w'']|f|]; [left; by eexists _, _|right; by f_equal|done].
Qed.
(** An action of the holder brings it closer to the release. *)
Lemma action_decreases p w p' w' :
  holding p = true → pc_step b p w = Ok (p', w') → actions_left p' w' < actions_left p w.
Proof.
  intros Hh E. destruct p as [| |path op| | |e|path op [|err l] rc|rc|]; try discriminate Hh;
    cbn [pc_step] in E; [|inv_ok; simpl; lia..].
  rewrite (bindM_eq _ _ _ _ _ (eq_refl : gets w_conf w = Ok (w_conf w, w))) in E.
  case_decide; [inv_ok; simpl; lia|]. simpl. destruct (errors (w_conf w)) as [q|]; [|inv_ok; simpl; lia].
  apply bindM_Ok_inv in E as (l & w1 & Hq & E). apply deref_queue_inv in Hq. rewrite Hq.
  inv_ok. simpl. lia.
Qed.

(** A step of the system, seen from the holder of the mutex: its own action, or
    one that changes neither its place nor what the mutex protects. *)
Lemma holder_step s s' t p :
  sys_inv s → threads s !! t = Some p → holding p = true → step b s s' →
  (∃ p', threads s' !! t = Some p' ∧ pc_step b p (shared s) = Ok (p', shared s')) ∨
  (threads s' !! t = Some p ∧ w_conf (shared s') = w_conf (shared s) ∧
   w_mem (shared s') = w_mem (shared s) ∧ w_nrand (shared s') = w_nrand (shared s)).
Proof.
  intros Hinv Ht Hh Hs. destruct (holder_inv s t p Hinv Ht Hh) as (Hm & _ & Hun).
  destruct Hs as [s t1 p1 path op Ht1 Hh1 _ _|s t1 p1 p1' w' Ht1 Hr1 Hrun|s t1 p1 c _ _].
  - right. simpl. by rewrite lookup_insert_ne by congruence.
  - destruct (decide (t1 = t)) as [->|Hne].
    + left. simplify_eq. exists p1'. simpl. by rewrite lookup_insert_eq.
    + destruct (holding p1) eqn:Hh1; [by destruct (Hne (Hun t1 p1 Ht1 Hh1))|].
      destruct p1; try done. simpl in Hr1. by rewrite Hm in Hr1.
  - by right.
Qed.

(** C27. Every critical section is bounded: while a thread holds the mutex, a
    step of the system either leaves it where it is, with the same number of
    actions left, or is its own action, which leaves it fewer; with none left
    it holds the mutex no more, and until then its next action is never
    blocked. *)
Theorem critical_section_bounded w0 s s' t p :
  world_ok fr0 w0 → reachable b w0 s → threads s !! t = Some p → holding p = true →
  0 < actions_left p (shared s) ∧ ready_to_step p (shared s) ∧
  (step b s s' → ∃ p', threads s' !! t = Some p' ∧
     ((p' = p ∧ actions_left p (shared s') = actions_left p (shared s)) ∨
      (pc_step b p (shared s) = Ok (p', shared s') ∧
       actions_left p' (shared s') < actions_left p (shared s)))).
Proof.
  intros Hw Hr Ht Hh. pose proof (reachable_inv w0 s Hw Hr) as Hinv.
  split; [destruct p; simpl in *; try done; lia|]. split; [by destruct p|]. intros Hs.
  destruct (holder_step s s' t p Hinv Ht Hh Hs) as [(p' & Ht' & Hrun)|(Ht' & Hc & Hmem & _)].
  - exists p'. split; [done|]. right. split; [done|]. by eapply action_decreases.
  - exists p. split; [done|]. left. split; [done|]. unfold actions_left, heap_of. by rewrite Hc, Hmem.
Qed.
End invariant.

(** ** Witnesses *)

(** Two threads: one asks for a reload, the other for an injection; both are about
    to lock the mutex. *)
Definition two_threads : system :=
  {| threads := <[1 := Locking (str "/tmp/unreliablefs.conf") OP_WRITE]>
                  (<[2 := Locking (str "/a") OP_READ]> {[1 := Idle; 2 := Idle]});
     shared := noop_world |}.

Lemma two_threads_reachable : reachable linux_build noop_world two_threads.
Proof.
  set (ts := {[1 := Idle; 2 := Idle]} : gmap nat pc).
  set (ts' := <[2 := Locking (str "/a") OP_READ]> ts).
  apply (reach_step _ _ {| threads := ts'; shared := noop_world |}).
  - apply (reach_step _ _ {| threads := ts; shared := noop_world |}).
    + apply reach_init. intros t p [[_ <-]|[_ [_ <-]%lookup_singleton_Some]]%lookup_insert_Some; done.
    + by apply (step_call linux_build {| threads := ts; shared := noop_world |} 2 Idle).
  - by apply (step_call linux_build {| threads := ts'; shared := noop_world |} 1 Idle).
Qed.

Lemma noop_world_ok : world_ok (one_frame ERRINJ_NOOP 100) noop_world.
Proof. eexists _, _. split; [apply noop_world_rep|done]. Qed.

Lemma concurrent_safe_witness :
  (∀ t1 p1 t2 p2, threads two_threads !! t1 = Some p1 → holding p1 = true →
     threads two_threads !! t2 = Some p2 → holding p2 = true → t1 = t2) ∧
  (∀ t p f, threads two_threads !! t = Some p → ready_to_step p noop_world →
     pc_step linux_build p noop_world = Fault f → f = oob) ∧
  (mutex (w_conf noop_world) = false → world_ok (one_frame ERRINJ_NOOP 100) noop_world).
Proof.
  apply (concurrent_safe linux_build test_conf_files_fit eq_refl (one_frame ERRINJ_NOOP 100)
    noop_world two_threads); [apply noop_world_ok|apply two_threads_reachable].
Defined.

Lemma concurrent_progress_witness :
  ∃ t' p', threads two_threads !! t' = Some p' ∧ ready_to_step p' noop_world ∧
    ((∃ p'' w'', pc_step linux_build p' noop_world = Ok (p'', w'')) ∨
     pc_step linux_build p' noop_world = Fault oob).
Proof.
  apply (concurrent_progress linux_build test_conf_files_fit eq_refl (one_frame ERRINJ_NOOP 100)
    noop_world two_threads 1 (Locking (str "/tmp/unreliablefs.conf") OP_WRITE));
    [apply noop_world_ok|apply two_threads_reachable|reflexivity|done|done].
Defined.

(** The second thread has locked the mutex. *)
Definition one_inside : system :=
  {| threads := <[2 := Comparing (str "/a") OP_READ]> (threads two_threads);
     shared := locked true noop_world |}.

Lemma one_inside_reachable : reachable linux_build noop_world one_inside.
Proof.
  apply (reach_step _ _ two_threads); [apply two_threads_reachable|].
  by apply (step_action linux_build two_threads 2 (Locking (str "/a") OP_READ)).
Qed.

Lemma critical_section_bounded_witness :
  0 < actions_left (Comparing (str "/a") OP_READ) (locked true noop_world) ∧
  ready_to_step (Comparing (str "/a") OP_READ) (locked true noop_world) ∧
  (step linux_build one_inside one_inside → ∃ p', threads one_inside !! 2 = Some p' ∧
     ((p' = Comparing (str "/a") OP_READ ∧
       actions_left (Comparing (str "/a") OP_READ) (shared one_inside)
       = actions_left (Comparing (str "/a") OP_READ) (locked true noop_world)) ∨
      (pc_step linux_build (Comparing (str "/a") OP_READ) (locked true noop_world)
       = Ok (p', shared one_inside) ∧
       actions_left p' (shared one_inside)
       < actions_left (Comparing (str "/a") OP_READ) (locked true noop_world)))).
Proof.
  apply (critical_section_bounded linux_build test_conf_files_fit eq_refl
    (one_frame ERRINJ_NOOP 100) noop_world one_inside one_inside 2
    (Comparing (str "/a") OP_READ)); [apply noop_world_ok|apply one_inside_reachable|done|done].
Defined.
