(* ===== verification/Atomic.v ===== *)
(** * The critical section of error_inject is atomic

    While a thread is in the critical section the others only call into the
    kernel or wait, so that what it returns and leaves behind is what
    [error_inject] does when it runs alone at the moment of the lock, or, when it
    reloads the configuration, with the kernel of the moment of the load.  Code that
    gives the same result on worlds that differ in the kernel only is [Proper]
    for [same_shared]. *)
From stdpp Require Import base list numbers gmap strings.
From Stdlib Require Import Ascii ZArith.
From S2P Require Import Prelude CLib Errno FuseOp Heap ErrInjConf ConfSpec ConfRefine ConfLoad.
From S2P Require Import World ErrInj ErrInjSpec ErrInjRefine ErrInjProps Concur ConcurProps TestEnv.

(** ** What the mutex protects *)

Section blind.
Context {env : Env} {vals : ErrnoValues} (b : build).

(** Two worlds with the same [conf], memory and state of [rand]. *)
Definition same_shared : relation world := λ w w',
  w_conf w = w_conf w' ∧ w_mem w = w_mem w' ∧ w_nrand w = w_nrand w'.

#[export] Instance same_shared_equivalence : Equivalence same_shared.
Proof.
  split.
  - by intros w.
  - by intros w w' (? & ? & ?).
  - intros w1 w2 w3 (? & ? & ?) (? & ? & ?). repeat split; congruence.
Qed.

(** The same result, or the same fault. *)
Definition same_out {A} : relation (outcome (A * world)) := λ r r',
  match r, r' with
  | Ok (a, w), Ok (a', w') => a = a' ∧ same_shared w w'
  | Fault f, Fault f' => f = f'
  | NoFuel, NoFuel => True
  | _, _ => False
  end.

(** Code that does not see the kernel. *)
Abbreviation blind c := (Proper (same_shared ==> same_out) c).

#[export] Instance blind_ret {A} (a : A) : blind (retM a).
Proof. by intros w w' H. Qed.

#[export] Instance blind_bind {A B} (c : M world A) (k : A → M world B) :
  blind c → (∀ a, blind (k a)) → blind (bindM c k).
Proof.
  intros Hc Hk w w' Hw. specialize (Hc w w' Hw). unfold bindM.
  destruct (c w) as [[a w1]| |], (c w') as [[a' w1']| |]; simpl in *; try done.
  destruct Hc as [-> Hw1]. by apply Hk.
Qed.

#[export] Instance blind_lift {A} (c : outcome A) : blind (lift c).
Proof. intros w w' H. by destruct c. Qed.

#[export] Instance blind_fault {A} f : blind (fault_ (A := A) f).
Proof. by intros w w' _. Qed.

#[export] Instance blind_nofuel {A} : blind (nofuel (A := A)).
Proof. by intros w w' _. Qed.

#[export] Instance blind_with_mem {A} (c : M mem A) : blind (with_mem c).
Proof.
  intros w w' (Hc & Hm & Hn). unfold with_mem. rewrite Hm.
  by destruct (c (w_mem w')) as [[a m]| |].
Qed.

#[export] Instance blind_if {A} P `{Decision P} (c c' : M world A) :
  blind c → blind c' → blind (if decide P then c else c').
Proof. by destruct (decide P). Qed.

(** What is read of [conf] is the same. *)
Lemma blind_gets_conf {A} (k : unreliablefs_config → M world A) :
  (∀ c, blind (k c)) → blind (let! c := gets w_conf in k c).
Proof. intros Hk w w' Hw. unfold bindM, gets. simpl. rewrite (proj1 Hw). by apply Hk. Qed.

Lemma blind_sys_skip {A} c (k : M world A) : blind k → blind (do! sys c in k).
Proof. intros Hk w w' Hw. rewrite !bind_sys. apply Hk. by destruct Hw as (? & ? & ?). Qed.

(** The kernel's state may be read when every continuation agrees. *)
Lemma blind_gets_kstate {A} (k : kstate → M world A) :
  (∀ s s' w w', same_shared w w' → same_out (k s w) (k s' w')) → blind (let! s := gets w_kstate in k s).
Proof. intros Hk w w' Hw. unfold bindM, gets. simpl. by apply Hk. Qed.

#[export] Instance blind_rand : blind rand.
Proof. intros w w' (Hc & Hm & Hn). unfold rand. by rewrite Hc, Hn. Qed.

#[export] Instance blind_set_mutex l : blind (set_mutex l).
Proof. intros w w' (Hc & Hm & Hn). unfold set_mutex, modify. simpl. by rewrite Hc. Qed.

#[export] Instance blind_set_errors p : blind (set_errors p).
Proof. intros w w' (Hc & Hm & Hn). unfold set_errors, modify. simpl. by rewrite Hc. Qed.

#[export] Instance blind_op_random_errno op : blind (op_random_errno b op).
Proof.
  unfold op_random_errno, random_element, rand_range.
  repeat case_match; apply _.
Qed.

#[export] Instance blind_inject_switch op c rc : blind (inject_switch b op c rc).
Proof.
  unfold inject_switch. repeat apply blind_if; try apply _; [|by apply blind_sys_skip, _].
  apply blind_gets_kstate. intros s s' w w' Hw.
  destruct (fuse_context s), (fuse_context s'); unfold retM; rewrite ?bind_sys;
    by destruct Hw as (? & ? & ?).
Qed.

#[export] Instance blind_inject_one path op err rc : blind (inject_one b path op err rc).
Proof. unfold inject_one, rand_range. apply _. Qed.
End blind.

(** ** A thread alone *)

Section alone.
Context {env : Env} {vals : ErrnoValues} (b : build).

(** The thread is between lock and return, and does not read the file any more. *)
Definition quiet (p : pc) (w : world) : Prop :=
  match p with
  | Comparing path _ => path ≠ config_path (w_conf w)
  | Storing _ | Looping _ _ _ _ | Unlocking _ | Returned _ => True
  | _ => False
  end.

Lemma quiet_same p w w' : same_shared w w' → quiet p w → quiet p w'.
Proof. intros (Hc & _). destruct p; simpl; rewrite ?Hc; done. Qed.

Lemma returned_cases p : (∃ rc, p = Returned rc) ∨ ∀ rc, p ≠ Returned rc.
Proof. destruct p; eauto. Qed.

(** An action of such a thread. *)
Lemma pc_step_blind p w w' :
  quiet p w → same_shared w w' → same_out (pc_step b p w) (pc_step b p w').
Proof.
  intros Hq Hw. destruct p as [| |path op| | |e|path op [|err l] rc|rc|rc]; simpl in Hq; try done;
    cbn [pc_step]; [|by apply (_ : Proper (same_shared ==> same_out) _)..].
  apply (blind_gets_conf (λ conf, if decide (strcmp path (config_path conf) = 0%Z)
    then retM (Deleting path)
    else match errors conf with
         | None => retM (Unlocking 0)
         | Some _ => let! q := with_mem (deref_queue (errors conf)) in retM (Looping path op q 0)
         end)); [|done].
  intros c. apply blind_if; [apply _|]. destruct (errors c); apply _.
Qed.

Lemma pc_step_quiet p w p' w' :
  quiet p w → pc_step b p w = Ok (p', w') → quiet p' w'.
Proof.
  intros Hq Hrun. destruct p as [| |path op| | |e|path op [|err l] rc|rc|rc]; simpl in Hq; try done;
    cbn [pc_step] in Hrun; [|by inv_ok..].
  rewrite (bindM_eq _ _ _ _ _ (eq_refl : gets w_conf w = Ok (w_conf w, w))) in Hrun.
  rewrite decide_strcmp, decide_False in Hrun by done.
  destruct (errors (w_conf w)); by inv_ok.
Qed.

Lemma run_alone_blind n p w w' :
  quiet p w → same_shared w w' → same_out (run_alone b n p w) (run_alone b n p w').
Proof.
  revert p w w'. induction n as [|n IH]; intros p w w' Hq Hw; [done|].
  destruct (returned_cases p) as [[rc ->]|Hp]; [done|].
  rewrite !run_alone_S by done. pose proof (pc_step_blind p w w' Hq Hw) as Hs.
  unfold bindM. destruct (pc_step b p w) as [[p1 w1]| |] eqn:E, (pc_step b p w') as [[p1' w1']| |];
    simpl in Hs; try done.
  destruct Hs as [-> Hw1]. simpl. apply IH; [by eapply pc_step_quiet|done].
Qed.

(** The thread is between lock and load. *)
Definition reloading (p : pc) (w : world) : Prop :=
  match p with
  | Comparing path _ => path = config_path (w_conf w)
  | Deleting _ | Loading _ => True
  | _ => False
  end.

(** The world [w] with the kernel of [k]. *)
Definition with_kernel (k w : world) : world :=
  {| w_conf := w_conf w; w_mem := w_mem w; w_nrand := w_nrand w; w_kstate := w_kstate k;
     w_errno := w_errno k; w_trace := w_trace k |}.

Lemma with_kernel_same w : with_kernel w w = w.
Proof. by destruct w. Qed.

(** Until the load its actions do not touch the kernel. *)
Lemma reloading_step p w p' w' :
  reloading p w → pc_step b p w = Ok (p', w') →
  (reloading p' w' ∧ ∀ k, pc_step b p (with_kernel k w) = Ok (p', with_kernel k w')) ∨
  quiet p' w'.
Proof.
  intros Hq Hrun. destruct p as [| |path op|path|path| | | |]; simpl in Hq; try done.
  - left. cbn [pc_step] in *. unfold bindM, gets in *. simpl in *.
    rewrite decide_strcmp, decide_True in * by done. by inv_ok.
  - left. cbn [pc_step] in *. unfold bindM, gets, with_mem in *. simpl in *.
    destruct (config_delete (errors (w_conf w)) (w_mem w)) as [[[] m]| |]; simpl in *; try done.
    by inv_ok.
  - right. cbn [pc_step] in Hrun. inv_ok. done.
Qed.

(** More fuel changes nothing. *)
Lemma run_alone_more n k p w r w' :
  run_alone b n p w = Ok (r, w') → run_alone b (n + k) p w = Ok (r, w').
Proof.
  revert p w. induction n as [|n IH]; intros p w; [done|].
  destruct (returned_cases p) as [[rc ->]|Hp]; [done|].
  cbn [Nat.add]. rewrite !run_alone_S by done. intros H.
  apply bindM_Ok_inv in H as (p1 & w1 & Hs & H). rewrite (bindM_eq _ _ _ _ _ Hs). by apply IH.
Qed.

(** A run from the lock is [error_inject] from the state before it. *)
Lemma run_alone_locked n path op w rc w' :
  mutex (w_conf w) = true → run_alone b n (Comparing path op) w = Ok (rc, w') →
  error_inject b path op (locked false w) = Ok (rc, w').
Proof.
  intros Hm Hrun. destruct (run_alone_error_inject b path op (locked false w)) as [N HN].
  rewrite <- (HN (S n)), Nat.add_succ_r, run_alone_S by done. cbn [pc_step].
  rewrite bindM_assoc, (bindM_eq _ _ _ _ _ (mutex_lock_eq (locked false w) eq_refl)), bindM_retM.
  rewrite locked_locked, <- Hm, locked_id, Nat.add_comm. by apply run_alone_more.
Qed.
End alone.

(** ** Atomicity *)

Section atomic.
Context {env : Env} {spec : EnvSpec} {vals : ErrnoValues} (b : build).
Context (Hfit : conf_files_fit) (Hb : buildable b = true) (fr0 : heap).

(** An execution of the system during which the thread [t] is in the critical
    section, up to its last step. *)
Inductive run_inside (t : nat) : system → system → Prop :=
  | inside_end s : run_inside t s s
  | inside_step s s' s'' p :
      threads s !! t = Some p → holding p = true → step b s s' →
      run_inside t s' s'' → run_inside t s s''.

Lemma run_inside_alone t s s' p rc :
  sys_inv b fr0 s → run_inside t s s' → threads s !! t = Some p → quiet p (shared s) →
  threads s' !! t = Some (Returned rc) →
  ∃ n w', run_alone b n p (shared s) = Ok (rc, w') ∧ same_shared w' (shared s').
Proof.
  intros Hinv Hrun. revert p Hinv. induction Hrun as [s|s s1 s' p0 Ht0 Hh Hs _ IH]; intros p Hinv Ht Hq Hend.
  { exists 1, (shared s). simplify_eq. done. }
  assert (p0 = p) as -> by congruence.
  pose proof (step_inv b Hfit Hb fr0 s s1 Hinv Hs) as Hinv1.
  destruct (holder_step b Hb fr0 s s1 t p Hinv Ht Hh Hs) as [(p' & Ht' & Hstep)|(Ht' & Hc & Hm & Hn)].
  - destruct (IH p' Hinv1 Ht' (pc_step_quiet b _ _ _ _ Hq Hstep) Hend) as (n & w' & Hrun & Hw').
    exists (S n), w'. split; [|done]. rewrite run_alone_S by (intros ? ->; discriminate Hh).
    by rewrite (bindM_eq _ _ _ _ _ Hstep).
  - assert (Hsame : same_shared (shared s1) (shared s)) by done.
    assert (Hq1 : quiet p (shared s1)) by (eapply quiet_same; [symmetry; exact Hsame|done]).
    destruct (IH p Hinv1 Ht' Hq1 Hend) as (n & w' & Hrun & Hw').
    pose proof (run_alone_blind b n p _ _ Hq1 Hsame) as Hblind. rewrite Hrun in Hblind.
    destruct (run_alone b n p (shared s)) as [[rc' w'']| |] eqn:Halone; try done.
    destruct Hblind as [<- Hw'']. exists n, w''. split; [exact Halone|]. etrans; [symmetry; exact Hw''|exact Hw'].
Qed.

(** What a thread that is about to reload finds at the moment [sm] of its load. *)
Lemma run_inside_reload t s s' p rc :
  sys_inv b fr0 s → run_inside t s s' → threads s !! t = Some p → reloading p (shared s) →
  threads s' !! t = Some (Returned rc) →
  ∃ sm n w', run_inside t s sm ∧ run_inside t sm s' ∧
    run_alone b n p (with_kernel (shared sm) (shared s)) = Ok (rc, w') ∧ same_shared w' (shared s').
Proof.
  intros Hinv Hrun. revert p Hinv. induction Hrun as [s|s s1 s' p0 Ht0 Hh Hs Hrun IH]; intros p Hinv Ht Hq Hend.
  { simplify_eq. done. }
  assert (p0 = p) as -> by congruence.
  pose proof (step_inv b Hfit Hb fr0 s s1 Hinv Hs) as Hinv1.
  destruct (holder_step b Hb fr0 s s1 t p Hinv Ht Hh Hs) as [(p' & Ht' & Hstep)|(Ht' & Hc & Hm & Hn)].
  - destruct (reloading_step b p _ p' _ Hq Hstep) as [[Hq' Hk]|Hq'].
    + destruct (IH p' Hinv1 Ht' Hq' Hend) as (sm & n & w' & H1 & H2 & Halone & Hw').
      exists sm, (S n), w'. split; [by eapply inside_step|]. split; [done|]. split; [|done].
      rewrite run_alone_S by (intros ? ->; discriminate Hh).
      by rewrite (bindM_eq _ _ _ _ _ (Hk (shared sm))).
    + destruct (run_inside_alone t s1 s' p' rc Hinv1 Hrun Ht' Hq' Hend) as (n & w' & Halone & Hw').
      exists s, (S n), w'. split; [apply inside_end|]. split; [by eapply inside_step|].
      split; [|done]. rewrite with_kernel_same, run_alone_S by (intros ? ->; discriminate Hh).
      by rewrite (bindM_eq _ _ _ _ _ Hstep).
  - assert (Hsame : ∀ sm, with_kernel (shared sm) (shared s1) = with_kernel (shared sm) (shared s))
      by (intros sm; unfold with_kernel; by rewrite Hc, Hm, Hn).
    destruct (IH p Hinv1 Ht') as (sm & n & w' & H1 & H2 & Halone & Hw'); [|done|].
    { destruct p; simpl in *; rewrite ?Hc; done. }
    rewrite Hsame in Halone. exists sm, n, w'. split; [by eapply inside_step|]. done.
Qed.

(** C8. The critical section is atomic: take any reachable system in which a
    thread has just locked the mutex for an operation on any path, and any
    interleaving of steps of all threads until this thread returns.  What it
    returns, and the configuration, the memory and the state of [rand] at that
    moment, are those that [error_inject] gives when it runs alone, from the
    configuration, memory and state of [rand] with which the mutex was locked and
    the kernel's state at some moment [sm] before the return.  That moment
    matters for a reload, which reads the file: other threads' system calls after
    the lock are seen.  For any other path it is the moment of the lock.  (The
    load, [config_init], is one action of the thread.) *)
Theorem critical_section_atomic w0 s s' t path op rc :
  world_ok fr0 w0 → reachable b w0 s →
  threads s !! t = Some (Comparing path op) →
  run_inside t s s' → threads s' !! t = Some (Returned rc) →
  ∃ sm w', run_inside t s sm ∧ run_inside t sm s' ∧
    (path ≠ config_path (w_conf (shared s)) → sm = s) ∧
    error_inject b path op (with_kernel (shared sm) (locked false (shared s))) = Ok (rc, w') ∧
    w_conf w' = w_conf (shared s') ∧ w_mem w' = w_mem (shared s') ∧
    w_nrand w' = w_nrand (shared s').
Proof.
  intros Hw Hr Ht Hrun Hend. pose proof (reachable_inv b Hfit Hb fr0 w0 s Hw Hr) as Hinv.
  destruct (holder_inv b fr0 s t _ Hinv Ht eq_refl) as (Hm & _).
  destruct (decide (path = config_path (w_conf (shared s)))) as [Hpath|Hpath].
  - destruct (run_inside_reload t s s' _ rc Hinv Hrun Ht Hpath Hend)
      as (sm & n & w' & H1 & H2 & Halone & Hw').
    exists sm, w'. split; [done|]. split; [done|]. split; [done|]. split; [|exact Hw'].
    apply (run_alone_locked b n path op (with_kernel (shared sm) (shared s))); [done|exact Halone].
  - destruct (run_inside_alone t s s' _ rc Hinv Hrun Ht Hpath Hend) as (n & w' & Halone & Hw').
    exists s, w'. split; [apply inside_end|]. split; [done|]. split; [done|].
    split; [|exact Hw']. apply (run_alone_locked b n path op (with_kernel (shared s) (shared s))); [done|].
    by rewrite with_kernel_same.
Qed.
End atomic.

(** ** Witness *)

(** The system after an action of a thread, and after a system call. *)
Definition act (t : nat) (s : system) : system :=
  match threads s !! t with
  | Some p =>
      match pc_step linux_build p (shared s) with
      | Ok (p', w') => {| threads := <[t := p']> (threads s); shared := w' |}
      | _ => s
      end
  | None => s
  end.
Definition kernel_call (s : system) : system :=
  {| threads := threads s; shared := sys_world (Sys_mkdir (str "/b") 493) (shared s) |}.

Definition acts (t : nat) (s : system) : bool :=
  match threads s !! t with
  | Some p => bool_decide (holding p = true) &&
              match pc_step linux_build p (shared s) with Ok _ => true | _ => false end
  | None => false
  end.

Lemma inside_act t s s' :
  acts t s = true → run_inside linux_build t (act t s) s' → run_inside linux_build t s s'.
Proof.
  unfold acts, act. destruct (threads s !! t) as [p|] eqn:Ht; [|done].
  intros [Hh Hok]%andb_prop. apply bool_decide_eq_true in Hh.
  destruct (pc_step linux_build p (shared s)) as [[p' w']| |] eqn:Hp; try done.
  apply (inside_step _ _ _ _ _ p); [done..|]. apply (step_action _ _ _ p); [done| |done].
  by destruct p.
Qed.

(** The first thread has locked the mutex for a reload. *)
Definition reload_begun : system :=
  {| threads := <[1 := Comparing (str "/tmp/unreliablefs.conf") OP_WRITE]> (threads two_threads);
     shared := locked true noop_world |}.

Lemma reload_begun_reachable : reachable linux_build noop_world reload_begun.
Proof.
  apply (reach_step _ _ two_threads); [apply two_threads_reachable|].
  by apply (step_action linux_build two_threads 1 (Locking (str "/tmp/unreliablefs.conf") OP_WRITE)).
Qed.

(** It compares and deletes, a call of the other thread comes in between, and it
    loads, stores and unlocks. *)
Definition reload_done : system := act 1 (act 1 (act 1 (kernel_call (act 1 (act 1 reload_begun))))).

Lemma reload_inside : run_inside linux_build 1 reload_begun reload_done.
Proof.
  assert (H1 : acts 1 reload_begun = true) by (vm_compute; reflexivity).
  assert (H2 : acts 1 (act 1 reload_begun) = true) by (vm_compute; reflexivity).
  set (s1 := act 1 (act 1 reload_begun)).
  assert (H3 : step linux_build s1 (kernel_call s1))
    by (apply (step_kernel linux_build _ 2 (Locking (str "/a") OP_READ)); reflexivity).
  assert (H4 : acts 1 (kernel_call s1) = true) by (vm_compute; reflexivity).
  assert (H5 : acts 1 (act 1 (kernel_call s1)) = true) by (vm_compute; reflexivity).
  assert (H6 : acts 1 (act 1 (act 1 (kernel_call s1))) = true) by (vm_compute; reflexivity).
  apply (inside_act _ _ _ H1), (inside_act _ _ _ H2).
  eapply inside_step; [reflexivity|reflexivity|exact H3|].
  apply (inside_act _ _ _ H4), (inside_act _ _ _ H5), (inside_act _ _ _ H6), inside_end.
Qed.

Lemma critical_section_atomic_witness :
  ∃ sm w', run_inside linux_build 1 reload_begun sm ∧ run_inside linux_build 1 sm reload_done ∧
    (str "/tmp/unreliablefs.conf" ≠ config_path (w_conf (shared reload_begun)) → sm = reload_begun) ∧
    error_inject linux_build (str "/tmp/unreliablefs.conf") OP_WRITE
      (with_kernel (shared sm) (locked false (shared reload_begun))) = Ok (0%Z, w') ∧
    w_conf w' = w_conf (shared reload_done) ∧ w_mem w' = w_mem (shared reload_done) ∧
    w_nrand w' = w_nrand (shared reload_done).
Proof.
  apply (critical_section_atomic linux_build test_conf_files_fit eq_refl (one_frame ERRINJ_NOOP 100)
    noop_world reload_begun reload_done 1 (str "/tmp/unreliablefs.conf") OP_WRITE 0);
    [apply noop_world_ok|apply reload_begun_reachable|reflexivity|apply reload_inside|vm_compute; reflexivity].
Defined.
