(* ===== verification/Afs.v ===== *)
(** * unreliable_afs_client.cc, unreliable_afs_server.cc: a remote mkdir

    The client asks the server to make a directory; the server makes it under
    its base directory.  The generated code and gRPC are parameters: the call of
    the client's stub, and the requests that a started server is given.
    A [std::string] is its characters, NUL included. *)
From stdpp Require Import base list numbers gmap strings.
From Stdlib Require Import Ascii ZArith.
From S2P Require Import Prelude CLib World.

(** ** std::string *)

(** [s.find(pat)]; [None] is [npos]. *)
Fixpoint string_find (pat s : list ascii) : option nat :=
  if decide (pat `prefix_of` s) then Some 0
  else match s with
       | [] => None
       | _ :: s' => S <$> string_find pat s'
       end.

(** [s\[i\]]: the NUL at the size of the string, undefined beyond. *)
Definition string_at (s : list ascii) (i : nat) : outcome ascii := load (s ++ [NUL]) i.

(** [s.substr(i)]; beyond the end it throws, which ends the program. *)
Definition string_substr (s : list ascii) (i : nat) : outcome (list ascii) :=
  if decide (i ≤ length s) then Ok (drop i s) else Fault oob.

(** [s.c_str()], as the called function reads it. *)
Definition c_str (s : list ascii) : outcome cstr := cstring (s ++ [NUL]).

(** ** The messages of unreliable_afs.proto *)

Record MkdirRequest := { path : list ascii; mode : Z }.
Record MkdirReply := { err : Z }.

(** [grpc::Status], by its code. *)
Record Status := { status_code : Z }.
Definition status_ok (s : Status) : bool := bool_decide (status_code s = 0%Z).
Definition Status_OK : Status := {| status_code := 0 |}.

(** ** The command lines *)

(** What the only argument gives: a value, or one of the two messages after
    which the program returns 0. *)
Inductive argument :=
  | Value (v : list ascii)
  | Only_syntax
  | Only_argument.

Definition parse_argument (arg_str default : list ascii) (argv : list cstr)
    : outcome argument :=
  match argv with
  | _ :: arg_val :: _ =>
      match string_find arg_str arg_val with
      | Some pos =>
          let start_pos := pos + length arg_str in
          let* c := string_at arg_val start_pos in
          if decide (c = "="%char) then
            let* v := string_substr arg_val (start_pos + 1) in Ok (Value v)
          else Ok Only_syntax
      | None => Ok Only_argument
      end
  | _ => Ok (Value default)
  end.

Definition client_argument : list cstr → outcome argument :=
  parse_argument (str "--target") (str "localhost:50051").

Definition server_argument : list cstr → outcome argument :=
  parse_argument (str "--base") (str "/tmp/uafs").

(** ** The client *)

(** [stub_->Mkdir(&context, request, &reply)] on a channel: the status and the
    reply, which is only meaningful when the status is ok.  [W]: what the call
    can change. *)
Class Stub (W : Type) := {
  channel : Type;
  CreateChannel : list ascii → channel;
  stub_Mkdir : channel → MkdirRequest → M W (Status * MkdirReply)
}.

(** What the client prints. *)
Inductive message :=
  | Message_syntax
  | Message_argument
  | Greeter_received (res : Z).

Section client.
Context {W : Type} {stub : Stub W}.

Definition GreeterClient_Mkdir (ch : channel) (p : list ascii) (m : Z) : M W Z :=
  let! r := stub_Mkdir ch {| path := p; mode := m |} in
  let '(status, reply) := r in
  retM (if status_ok status then err reply else (-1)%Z).

(** The printed message and the exit status. *)
Definition client_main (argv : list cstr) : M W (message * Z) :=
  let! a := lift (client_argument argv) in
  match a with
  | Value target_str =>
      let! res := GreeterClient_Mkdir (CreateChannel target_str) (str "/world") 511 in
      retM (Greeter_received res, 0%Z)
  | Only_syntax => retM (Message_syntax, 0%Z)
  | Only_argument => retM (Message_argument, 0%Z)
  end.
End client.

(** ** The server *)

Section server.
Context {env : Env}.

(** The process: the global variable, and the kernel it calls. *)
Record server := {
  server_base_directory : list ascii;
  sv_kstate : kstate;
  sv_errno : Z;
  sv_trace : list (syscall * sysres)
}.

Definition server_sys (c : syscall) : M server sysres := λ s,
  let '(r, k) := kcall c (sv_kstate s) in
  Ok (r, {| server_base_directory := server_base_directory s; sv_kstate := k;
            sv_errno := sr_errno r; sv_trace := sv_trace s ++ [(c, r)] |}).

(** The handler of the service; [mode] is converted to [mode_t]. *)
Definition UnreliableAFSServiceImpl_Mkdir (request : MkdirRequest)
    : M server (Status * MkdirReply) :=
  let! base := gets server_base_directory in
  let! p := lift (c_str (base ++ path request)) in
  let! r := server_sys (Sys_mkdir p (to_uint (mode request))) in
  let res := to_int (sr_ret r) in
  if decide (res = -1)%Z then
    let! e := gets sv_errno in
    retM (Status_OK, {| err := (- e)%Z |})
  else retM (Status_OK, {| err := res |}).

(** [builder.BuildAndStart()] on an address: [None] is the null pointer; else
    the requests that the server is given until it is shut down, in the order of
    their [mkdir] calls: handlers that run at the same time share nothing but
    the global, which they only read. *)
Variable BuildAndStart : list ascii → option (list MkdirRequest).

Fixpoint server_wait (requests : list MkdirRequest) : M server (list (Status * MkdirReply)) :=
  match requests with
  | [] => retM []
  | request :: requests' =>
      let! r := UnreliableAFSServiceImpl_Mkdir request in
      let! rs := server_wait requests' in
      retM (r :: rs)
  end.

Definition set_base_directory (base : list ascii) : M server unit := modify (λ s,
  {| server_base_directory := base; sv_kstate := sv_kstate s; sv_errno := sv_errno s;
     sv_trace := sv_trace s |}).

(** The answers to the requests. *)
Definition RunServer (base_path_str : list ascii) : M server (list (Status * MkdirReply)) :=
  do! set_base_directory base_path_str in
  match BuildAndStart (str "0.0.0.0:50051") with
  | None => fault_ null_deref
  | Some requests => server_wait requests
  end.

Definition server_main (argv : list cstr) : M server (list (Status * MkdirReply) * Z) :=
  let! a := lift (server_argument argv) in
  match a with
  | Value base_path_str =>
      let! rs := RunServer base_path_str in
      retM (rs, 0%Z)
  | _ => retM ([], 0%Z)
  end.
End server.
