(* ===== verification/AfsProps.v ===== *)
(** * Properties of the remote mkdir

    What an argument of the client and of the server means; what the server
    does with the requests; the client and the server together over a transport
    that can lose requests and replies. *)
From stdpp Require Import base list numbers gmap strings.
From Stdlib Require Import Ascii ZArith.
From S2P Require Import Prelude CLib Ini IniSpec IniRefine Heap World TestEnv Afs.

(** ** Strings *)

(** [pre] is what stands before the first occurrence of [pat] in [s]. *)
Definition first_before (pat s pre : list ascii) : Prop :=
  (pre ++ pat) `prefix_of` s ∧
  ∀ pre', (pre' ++ pat) `prefix_of` s → length pre ≤ length pre'.

Lemma string_find_Some pat s i :
  string_find pat s = Some i → ∃ pre, length pre = i ∧ first_before pat s pre.
Proof.
  revert i. induction s as [|c s IH]; intros i; simpl.
  - case_decide as Hp; intros [= <-]. exists []. split; [done|]. split; [done|]. simpl. lia.
  - case_decide as Hp; [intros [= <-]; exists []; split; [done|]; split; [done|simpl; lia]|].
    destruct (string_find pat s) as [j|]; intros [= <-].
    destruct (IH j eq_refl) as (pre & <- & Hpre & Hmin). exists (c :: pre). split; [done|].
    split; [by apply prefix_cons|].
    intros [|c' pre'] Hpre'; [done|]. simpl. apply le_n_S, Hmin. by eapply prefix_cons_inv_2.
Qed.

Lemma string_find_None pat s pre : string_find pat s = None → ¬ (pre ++ pat) `prefix_of` s.
Proof.
  revert pre. induction s as [|c s IH]; intros pre; simpl; case_decide as Hp; try done.
  - intros _ Hpre. apply prefix_nil_inv in Hpre. apply app_eq_nil in Hpre as [-> ->]. by destruct Hp.
  - destruct (string_find pat s); [done|]. intros _ Hpre. destruct pre as [|c' pre]; [done|].
    by apply (IH pre eq_refl), (prefix_cons_inv_2 c' c).
Qed.

Lemma string_find_first pat s pre :
  first_before pat s pre → string_find pat s = Some (length pre).
Proof.
  intros [Hpre Hmin]. destruct (string_find pat s) as [i|] eqn:E.
  - apply string_find_Some in E as (pre' & <- & Hpre' & Hmin'). f_equal.
    specialize (Hmin _ Hpre'). specialize (Hmin' _ Hpre). lia.
  - by destruct (string_find_None _ _ _ E Hpre).
Qed.

Lemma first_before_nil pat s : first_before pat (pat ++ s) [].
Proof. split; [by exists s|simpl; lia]. Qed.

(** Reading a string at the end of a prefix. *)
Lemma string_at_app s t : string_at (s ++ t) (length s) = Ok (hd NUL t).
Proof. unfold string_at. rewrite <- app_assoc. destruct t; apply load_at. Qed.

Lemma cut_app s (c : ascii) t : string_substr (s ++ c :: t) (length s + 1) = Ok t.
Proof.
  unfold string_substr. rewrite decide_True by len.
  by rewrite cons_middle, app_assoc, drop_app_exact by len.
Qed.

Lemma c_str_until s : c_str s = Ok (until_nul s).
Proof.
  unfold c_str. destruct (until_nul_split s []) as [r ->]. apply cstring_app, nul_free_until.
Qed.

(** ** The command lines *)

(** What the text after the first occurrence of the option means. *)
Definition argument_of (rest : list ascii) : argument :=
  match rest with
  | c :: v => if decide (c = "="%char) then Value v else Only_syntax
  | [] => Only_syntax
  end.

(** An argument whose first occurrence of the option is known. *)
Lemma parse_argument_at arg_str default prog pre post rest :
  first_before arg_str (pre ++ arg_str ++ post) pre →
  parse_argument arg_str default (prog :: (pre ++ arg_str ++ post) :: rest)
  = Ok (argument_of post).
Proof.
  intros Hfirst. unfold parse_argument. rewrite (string_find_first _ _ _ Hfirst).
  rewrite app_assoc, <- length_app, string_at_app. cbn [obind].
  destruct post as [|c v]; [done|]. simpl. case_decide; [|done]. by rewrite cut_app.
Qed.

Lemma parse_argument_cases arg_str default prog arg rest :
  (∃ pre post, arg = pre ++ arg_str ++ post ∧ first_before arg_str arg pre ∧
     parse_argument arg_str default (prog :: arg :: rest) = Ok (argument_of post)) ∨
  ((∀ pre post, arg ≠ pre ++ arg_str ++ post) ∧
     parse_argument arg_str default (prog :: arg :: rest) = Ok Only_argument).
Proof.
  destruct (string_find arg_str arg) as [i|] eqn:E; [left|right; split].
  - apply string_find_Some in E as (pre & _ & Hfirst). destruct Hfirst as [[post ->] Hmin].
    rewrite <- app_assoc in *. exists pre, post. split; [done|].
    assert (first_before arg_str (pre ++ arg_str ++ post) pre) as Hfirst
      by (split; [rewrite app_assoc; by exists post|done]).
    split; [done|]. by apply parse_argument_at.
  - intros pre post ->. apply (string_find_None _ _ pre E). rewrite app_assoc. by exists post.
  - unfold parse_argument. by rewrite E.
Qed.

Lemma parse_argument_total arg_str default argv : ∃ a, parse_argument arg_str default argv = Ok a.
Proof.
  destruct argv as [|prog [|arg rest]]; [by eexists..|].
  destruct (parse_argument_cases arg_str default prog arg rest)
    as [(pre & post & _ & _ & ->)|[_ ->]]; by eexists.
Qed.

(** C33. The only argument of the client and of the server: the text behind the
    first occurrence of the option, wherever it is in the argument, must start
    with an equals sign, and the value is what follows it; an argument without
    the option is refused; without an argument the value is the default.  No
    access is outside the argument. *)
Theorem parse_argument_correct arg_str default argv :
  match argv with
  | prog :: arg :: rest =>
      (∃ pre post, arg = pre ++ arg_str ++ post ∧ first_before arg_str arg pre ∧
         parse_argument arg_str default argv = Ok (argument_of post)) ∨
      ((∀ pre post, arg ≠ pre ++ arg_str ++ post) ∧
         parse_argument arg_str default argv = Ok Only_argument)
  | _ => parse_argument arg_str default argv = Ok (Value default)
  end.
Proof. destruct argv as [|prog [|arg rest]]; [done..|]. apply parse_argument_cases. Qed.

(** The documented form of the arguments is read back. *)
Lemma parse_argument_value arg_str default prog v rest :
  parse_argument arg_str default (prog :: (arg_str ++ "="%char :: v) :: rest) = Ok (Value v).
Proof. exact (parse_argument_at arg_str default prog [] _ rest (first_before_nil _ _)). Qed.

(** The option is found in the middle of an argument, and hides a later one. *)
Example argument_anywhere :
  server_argument [str "server"; str "x--base=/srv"] = Ok (Value (str "/srv")) ∧
  server_argument [str "server"; str "--basedir--base=/srv"] = Ok Only_syntax.
Proof. split; reflexivity. Qed.

(** ** The server *)

Section server_props.
Context {env : Env} {spec : EnvSpec}.

(** The call that a request asks for, and what it gets for the call's result. *)
Definition request_call (base : list ascii) (q : MkdirRequest) : syscall :=
  Sys_mkdir (until_nul (base ++ path q)) (to_uint (mode q)).
Definition mkdir_result (r : sysres) : Z :=
  if decide (sr_ret r = -1)%Z then (- sr_errno r)%Z else sr_ret r.

(** The server after it has made a call. *)
Definition after_call (c : syscall) (s : server) : server :=
  {| server_base_directory := server_base_directory s;
     sv_kstate := (kcall c (sv_kstate s)).2; sv_errno := sr_errno (kcall c (sv_kstate s)).1;
     sv_trace := sv_trace s ++ [(c, (kcall c (sv_kstate s)).1)] |}.

Lemma server_sys_eq c s : server_sys c s = Ok ((kcall c (sv_kstate s)).1, after_call c s).
Proof. unfold server_sys, after_call. by destruct (kcall c (sv_kstate s)). Qed.

Lemma Mkdir_handler_eq q s :
  UnreliableAFSServiceImpl_Mkdir q s
  = let c := request_call (server_base_directory s) q in
    Ok ((Status_OK, {| err := mkdir_result (kcall c (sv_kstate s)).1 |}), after_call c s).
Proof.
  unfold UnreliableAFSServiceImpl_Mkdir.
  rewrite (bindM_eq _ _ _ _ _ (eq_refl : gets server_base_directory s = Ok (_, s))).
  step_with c_str_until. fold (request_call (server_base_directory s) q).
  set (c := request_call _ _). rewrite (bindM_eq _ _ _ _ _ (server_sys_eq c s)).
  pose proof (kcall_int c (sv_kstate s) eq_refl) as Hr. unfold mkdir_result.
  rewrite to_int_small by (unfold INT_MIN; lia). by case_decide.
Qed.

(** What the server does for a list of requests. *)
Lemma server_wait_eq qs s :
  ∃ results s', server_wait qs s
    = Ok (map (λ r, (Status_OK, {| err := mkdir_result r |})) results, s') ∧
    length results = length qs ∧ server_base_directory s' = server_base_directory s ∧
    sv_trace s' = sv_trace s ++ zip (map (request_call (server_base_directory s)) qs) results.
Proof.
  revert s. induction qs as [|q qs IH]; intros s.
  { exists [], s. by rewrite app_nil_r. }
  set (c := request_call (server_base_directory s) q).
  destruct (IH (after_call c s)) as (results & s' & Hrun & Hlen & Hbase & Htrace).
  exists ((kcall c (sv_kstate s)).1 :: results), s'. split; [|split; [by simpl; f_equal|split]].
  - cbn [server_wait]. rewrite (bindM_eq _ _ _ _ _ (Mkdir_handler_eq q s)). cbv zeta. fold c.
    by rewrite (bindM_eq _ _ _ _ _ Hrun).
  - done.
  - rewrite Htrace. simpl. by rewrite <- app_assoc.
Qed.

(** C31. The server on its command line: it makes one directory per request, in
    order and at its base directory immediately followed by the request's path
    (cut at a NUL), with the mode of the request; every request is answered
    with status OK and the result of its own call, the negated [errno] of a
    failed one; the base directory stays the one of the command line.  When
    gRPC cannot start the server (the address is in use) [main] dereferences
    the null pointer; a wrong argument ends the program without any call. *)
Theorem server_serves start argv s :
  match server_argument argv, start (str "0.0.0.0:50051") with
  | Ok (Value base), Some qs =>
      ∃ results s', server_main start argv s
        = Ok ((map (λ r, (Status_OK, {| err := mkdir_result r |})) results, 0%Z), s') ∧
        server_base_directory s' = base ∧ length results = length qs ∧
        sv_trace s' = sv_trace s ++ zip (map (request_call base) qs) results
  | Ok (Value base), None => server_main start argv s = Fault null_deref
  | _, _ => server_main start argv s = Ok (([], 0%Z), s)
  end.
Proof.
  unfold server_main.
  destruct (parse_argument_total (str "--base") (str "/tmp/uafs") argv) as [a Ha].
  fold server_argument in Ha. change (server_argument argv = Ok a) in Ha. rewrite Ha.
  rewrite (bindM_lift_Ok _ _ _ _ eq_refl). destruct a as [base| |]; [|done..]. unfold RunServer.
  destruct (start _) as [qs|]; [|done].
  destruct (server_wait_eq qs {| server_base_directory := base; sv_kstate := sv_kstate s;
    sv_errno := sv_errno s; sv_trace := sv_trace s |}) as (results & s' & Hrun & Hlen & Hb & Ht).
  exists results, s'. split; [|done]. rewrite bindM_assoc.
  unfold bindM at 1, set_base_directory at 1, modify at 1. cbn [obind].
  by rewrite (bindM_eq _ _ _ _ _ Hrun).
Qed.
End server_props.

(** ** The client and the server *)

Section remote.
Context {env : Env}.

(** What can happen to a call: it is answered; or it fails with a non-zero code,
    before or after the server has executed it. *)
Inductive delivery :=
  | Answered
  | Reply_lost (code : Z)
  | Request_lost (code : Z).

Definition delivery_ok (d : delivery) : Prop :=
  match d with Answered => True | Reply_lost c | Request_lost c => c ≠ 0%Z end.

(** The call of the stub, as seen by the client; [rep] is what it finds in the
    reply of a failed call. *)
Definition deliver (d : delivery) (rep : MkdirReply) (q : MkdirRequest)
    : M server (Status * MkdirReply) :=
  match d with
  | Answered => UnreliableAFSServiceImpl_Mkdir q
  | Reply_lost c =>
      do! UnreliableAFSServiceImpl_Mkdir q in retM ({| status_code := c |}, rep)
  | Request_lost c => retM ({| status_code := c |}, rep)
  end.

(** gRPC executes a call at most once, and reports OK only with the answer of
    the handler. *)
Class Transport (stub : Stub server) : Prop :=
  transport ch q s :
    ∃ d rep, delivery_ok d ∧ stub_Mkdir ch q s = deliver d rep q s.

Context {spec : EnvSpec} {stub : Stub server} {tr : Transport stub}.

Lemma GreeterClient_Mkdir_cases ch p m s :
  let c := request_call (server_base_directory s) {| path := p; mode := m |} in
  ∃ res s', GreeterClient_Mkdir ch p m s = Ok (res, s') ∧
    (s' = after_call c s ∧ res = mkdir_result (kcall c (sv_kstate s)).1 ∨
     (s' = after_call c s ∨ s' = s) ∧ res = (-1)%Z).
Proof.
  intros c. set (q := {| path := p; mode := m |}) in *. unfold GreeterClient_Mkdir, bindM at 1.
  fold q. destruct (transport ch q s) as (d & rep & Hd & ->).
  destruct d as [|code|code]; simpl in Hd; unfold deliver.
  - rewrite Mkdir_handler_eq. cbv zeta. fold c. cbn [obind]. eexists _, _. split; [reflexivity|].
    by left.
  - rewrite (bindM_eq _ _ _ _ _ (Mkdir_handler_eq q s)). cbv zeta. fold c. cbn [obind retM].
    eexists _, _. split; [reflexivity|]. right. split; [by left|].
    unfold status_ok. simpl. by rewrite bool_decide_false.
  - cbn [obind retM]. eexists _, _. split; [reflexivity|]. right. split; [by right|].
    unfold status_ok. simpl. by rewrite bool_decide_false.
Qed.

(** C32. The client and the server over any transport that executes a call at
    most once: the client gets a result; the server has made the directory call
    of the request at its base, once, or nothing has happened.  A result other
    than -1 is the truth: the call was made, it returned a result of 0 or more
    itself, and a result below -1 is the negated [errno] of the call's failure.
    Only a result of -1 says nothing: it is an [errno] of 1, but also what a lost
    request or a lost reply gives. *)
Theorem mkdir_remote ch p m s :
  let c := request_call (server_base_directory s) {| path := p; mode := m |} in
  let r := (kcall c (sv_kstate s)).1 in
  ∃ res s', GreeterClient_Mkdir ch p m s = Ok (res, s') ∧
    (s' = after_call c s ∨ s' = s) ∧
    (res ≠ (-1)%Z → s' = after_call c s) ∧
    ((0 ≤ res)%Z → sr_ret r = res) ∧
    ((res < -1)%Z → sr_ret r = (-1)%Z ∧ sr_errno r = (- res)%Z).
Proof.
  intros c r. pose proof (kcall_int c (sv_kstate s) eq_refl) as Hr. fold r in Hr.
  pose proof (kcall_errno c (sv_kstate s)) as He. fold r in He.
  destruct (GreeterClient_Mkdir_cases ch p m s) as (res & s' & Hrun & Hcase).
  fold c in Hcase. fold r in Hcase. exists res, s'. split; [done|].
  destruct Hcase as [[-> Hres]|[Hs ->]].
  - unfold mkdir_result in Hres. split; [by left|]. split; [done|].
    case_decide as Hm; [specialize (He Hm)|]; subst res; (split; intros ?; [lia|]); lia || (split; lia).
  - split; [done|]. split; [done|]. by split.
Qed.
End remote.

(** ** Witnesses *)

Definition test_server : server := {|
  server_base_directory := str "/srv"; sv_errno := 0; sv_trace := [];
  sv_kstate := {| sc_conf := None; sc_readable := true; sc_results := [(-1, [], None)%Z] |}
|}.

Lemma server_serves_witness :
  ∃ results s', server_main (λ _, Some [{| path := str "/a"; mode := 511 |}])
      [str "server"; str "--base=/srv"] test_server
    = Ok ((map (λ r, (Status_OK, {| err := mkdir_result r |})) results, 0%Z), s') ∧
    server_base_directory s' = str "/srv" ∧ length results = 1 ∧
    sv_trace s' = [] ++ zip [Sys_mkdir (str "/srv/a") 511] results.
Proof.
  exact (server_serves (λ _, Some [{| path := str "/a"; mode := 511 |}])
    [str "server"; str "--base=/srv"] test_server).
Defined.

(** A transport whose targets name what happens to the calls. *)
#[export] Instance test_stub {env : Env} : Stub server := {
  channel := list ascii;
  CreateChannel := id;
  stub_Mkdir := λ ch q,
    deliver (if decide (ch = str "down") then Request_lost 14
             else if decide (ch = str "flaky") then Reply_lost 14 else Answered)
      {| err := 0 |} q
}.

#[export] Instance test_transport {env : Env} : Transport test_stub.
Proof.
  intros ch q s. simpl. repeat case_decide; eexists _, _; (split; [|reflexivity]); done.
Qed.

Lemma mkdir_remote_witness :
  ∃ res s', GreeterClient_Mkdir (str "flaky") (str "/a") 511 test_server = Ok (res, s') ∧
    (s' = after_call (Sys_mkdir (str "/srv/a") 511) test_server ∨ s' = test_server) ∧
    (res ≠ (-1)%Z → s' = after_call (Sys_mkdir (str "/srv/a") 511) test_server) ∧
    ((0 ≤ res)%Z → (-1)%Z = res) ∧
    ((res < -1)%Z → (-1)%Z = (-1)%Z ∧ 2%Z = (- res)%Z).
Proof. exact (mkdir_remote (str "flaky") (str "/a") 511 test_server). Defined.

(** The client against the server: a target that answers, one whose answers are
    lost, one that is down. *)
Example client_runs :
  client_main [str "client"] test_server
    = Ok ((Greeter_received (-2), 0%Z), after_call (Sys_mkdir (str "/srv/world") 511) test_server) ∧
  client_main [str "client"; str "--target=flaky"] test_server
    = Ok ((Greeter_received (-1), 0%Z), after_call (Sys_mkdir (str "/srv/world") 511) test_server) ∧
  client_main [str "client"; str "--target=down"] test_server
    = Ok ((Greeter_received (-1), 0%Z), test_server) ∧
  client_main [str "client"; str "target=x"] test_server
    = Ok ((Message_argument, 0%Z), test_server).
Proof. repeat split; vm_compute; reflexivity. Qed.
